(** * rrweb: mutation capture and incremental replay

    A shallow embedding of the two halves of rrweb that the specification
    calls the core:

    - [MutationBuffer] ([packages/rrweb/src/record/mutation.ts]): the
      capture-side buffer that classifies mutation records and emits one
      delta per observation cycle;
    - [Replayer.applyMutation] and the [Flush] handler
      ([packages/rrweb/src/replay/index.ts]): the replay-side applier with
      its virtual parents and side caches.

    The browser is the environment of both halves.  It is modelled by a
    forest of node handles (the DOM trees, attached or not) and a finite map
    from handles to node data.  Host operations follow the DOM standard on
    the points the code relies on: [removeChild] and [insertBefore] raise
    [NotFoundError], insertion raises [HierarchyRequestError] on a cycle or
    a parent that cannot hold children, [setAttribute] raises
    [InvalidCharacterError] on a malformed name, element-only members raise
    a [TypeError] on other nodes, and an element that leaves the document
    loses its scroll offsets and the rules inserted in its style sheet. *)

From Stdlib Require Import ZArith List String Ascii Bool Lia Arith.
From stdpp Require Import base option gmap strings.
Import ListNotations.
Open Scope Z_scope.
Open Scope string_scope.
Open Scope list_scope.

(** ** Trees of node handles *)

Module Dom.

Definition handle := nat.

#[warnings="-register-all"]
Inductive tree := T (h : handle) (kids : list tree).

Definition forest := list tree.

Definition root (t : tree) : handle := match t with T h _ => h end.

Definition children (t : tree) : list tree := match t with T _ ks => ks end.

Definition find_map {A B : Type} (f : A -> option B) : list A -> option B :=
  fix go (l : list A) : option B :=
    match l with
    | [] => None
    | a :: r => match f a with Some b => Some b | None => go r end
    end.

Fixpoint handles (t : tree) : list handle :=
  match t with T h ks => h :: flat_map handles ks end.

Definition fhandles (f : forest) : list handle := flat_map handles f.

Definition mem (x : handle) (l : list handle) : bool := existsb (Nat.eqb x) l.

(** The subtree rooted at [x] inside [t]. *)
Fixpoint subtree_in (x : handle) (t : tree) : option tree :=
  match t with
  | T h ks => if Nat.eqb x h then Some t else find_map (subtree_in x) ks
  end.

Definition subtree (f : forest) (x : handle) : option tree :=
  find_map (subtree_in x) f.

(** Proper ancestors of [x] inside [t], nearest first. *)
Fixpoint path_in (x : handle) (t : tree) : option (list handle) :=
  match t with
  | T h ks =>
      if Nat.eqb x h then Some []
      else match find_map (path_in x) ks with
           | Some p => Some (p ++ [h])
           | None => None
           end
  end.

Definition ancestors (f : forest) (x : handle) : list handle :=
  match find_map (path_in x) f with Some p => p | None => [] end.

(** [n.parentNode] *)
Definition parentNode (f : forest) (x : handle) : option handle :=
  head (ancestors f x).

(** [n.getRootNode()] *)
Definition getRootNode (f : forest) (x : handle) : handle :=
  List.last (ancestors f x) x.

(** [n.childNodes], as handles *)
Definition childNodes (f : forest) (x : handle) : list handle :=
  match subtree f x with Some t => map root (children t) | None => [] end.

Definition firstChild (f : forest) (x : handle) : option handle :=
  head (childNodes f x).

Fixpoint after (x : handle) (l : list handle) : option handle :=
  match l with
  | [] => None
  | a :: r => if Nat.eqb a x then head r else after x r
  end.

(** The element ahead of the first [x] of [l]. *)
Fixpoint before (x : handle) (l : list handle) : option handle :=
  match l with
  | [] => None
  | a :: r =>
      if Nat.eqb a x then None
      else match r with
           | b :: _ => if Nat.eqb b x then Some a else before x r
           | [] => None
           end
  end.

Definition siblings (f : forest) (x : handle) : list handle :=
  match parentNode f x with Some p => childNodes f p | None => [] end.

(** [n.nextSibling] and [n.previousSibling] *)
Definition nextSibling (f : forest) (x : handle) : option handle :=
  after x (siblings f x).

Definition previousSibling (f : forest) (x : handle) : option handle :=
  before x (siblings f x).

(** [a.contains(b)]: [b] is [a] or one of its descendants. *)
Definition contains (f : forest) (a b : handle) : bool :=
  match subtree f a with Some t => mem b (handles t) | None => false end.

(** Structural edits of the forest. *)
Fixpoint remove_in (x : handle) (t : tree) : tree :=
  match t with
  | T h ks =>
      T h ((fix go (l : list tree) : list tree :=
              match l with
              | [] => []
              | k :: r =>
                  if Nat.eqb (root k) x then go r else remove_in x k :: go r
              end) ks)
  end.

Fixpoint prune (x : handle) (f : forest) : forest :=
  match f with
  | [] => []
  | k :: r => if Nat.eqb (root k) x then prune x r else remove_in x k :: prune x r
  end.

Fixpoint insert_before (ref : option handle) (s : tree) (ks : list tree)
  : list tree :=
  match ks with
  | [] => [s]
  | k :: r =>
      match ref with
      | Some x => if Nat.eqb (root k) x then s :: k :: r
                  else k :: insert_before ref s r
      | None => k :: insert_before ref s r
      end
  end.

Fixpoint insert_in (p : handle) (ref : option handle) (s : tree) (t : tree)
  : tree :=
  match t with
  | T h ks =>
      if Nat.eqb h p then T h (insert_before ref s ks)
      else T h (map (insert_in p ref s) ks)
  end.

Definition graft (p : handle) (ref : option handle) (s : tree) (f : forest)
  : forest :=
  map (insert_in p ref s) f.

(** Detach [x]: it becomes the root of a tree of its own. *)
Definition detach (x : handle) (f : forest) : forest :=
  match subtree f x with
  | Some s => prune x f ++ [s]
  | None => f
  end.

(** Move the tree of [x] under [p], before [ref] (or last). *)
Definition move (p : handle) (ref : option handle) (x : handle) (f : forest)
  : forest :=
  match subtree f x with
  | Some s => graft p ref s (prune x f)
  | None => f
  end.

End Dom.

(** ** Serialized nodes and deltas

    The wire shapes of [packages/rrweb/src/types.ts] and of rrweb-snapshot.
    A JavaScript [number | null | undefined] is an [option Z]; the test
    [if (x)] on such a value is [truthy]. *)

Module Wire.

Inductive NodeType := Document | DocumentType | Element | Text | CDATA | Comment.

(** A serialized node with its serialized children, [childNodes]. *)
#[warnings="-register-all"]
Inductive serializedNode := mkSerializedNode {
  sn_id : Z;
  sn_type : NodeType;
  sn_tagName : string;
  sn_attributes : list (string * string);
  sn_textContent : string;
  sn_isShadow : bool;
  sn_isShadowHost : bool;
  sn_rootId : option Z;
  sn_childNodes : list serializedNode
}.

(** A serialized node without children: what the serializer returns under
    [skipChild: true], and every node that cannot have any. *)
Definition mkSN (id : Z) (type : NodeType) (tagName : string)
  (attributes : list (string * string)) (textContent : string)
  (isShadow isShadowHost : bool) (rootId : option Z) : serializedNode :=
  mkSerializedNode id type tagName attributes textContent isShadow
    isShadowHost rootId [].

Inductive styleValue :=
| StyleFalse
| StylePriority (value priority : string)
| StylePlain (value : string).

Inductive attributeValue :=
| AttrNull
| AttrString (s : string)
| AttrStyle (props : list (string * styleValue)).

Record addedNodeMutation := mkAdd {
  add_parentId : Z;
  add_previousId : option Z;
  add_nextId : option Z;
  add_node : serializedNode
}.

Record removedNodeMutation := mkRemove {
  rm_parentId : Z;
  rm_id : Z;
  rm_isShadow : bool
}.

Record textMutation := mkText { tx_id : Z; tx_value : option string }.

Record attributeMutation := mkAttr {
  at_id : Z;
  at_attributes : list (string * attributeValue)
}.

Record mutationData := mkDelta {
  texts : list textMutation;
  attributes : list attributeMutation;
  removes : list removedNodeMutation;
  adds : list addedNodeMutation
}.

Definition IGNORED_NODE : Z := -2.

Definition truthy (x : option Z) : bool :=
  match x with Some z => negb (Z.eqb z 0) | None => false end.

Definition isNodeType (a b : NodeType) : bool :=
  match a, b with
  | Document, Document | DocumentType, DocumentType | Element, Element
  | Text, Text | CDATA, CDATA | Comment, Comment => true
  | _, _ => false
  end.

Definition eqoz (a : option Z) (z : Z) : bool :=
  match a with Some x => Z.eqb x z | None => false end.

End Wire.

(** ** Node data *)

Module Node.
Import Dom Wire.

Inductive nodeKind :=
  KDocument | KDoctype | KElement | KText | KComment | KFragment.

(** What the code reads and writes on a DOM node.  [tag] is the tag name in
    lower case (the DOM reports [tagName] and [nodeName] in upper case for
    HTML elements, rrweb-snapshot stores it in lower case); [sn] is the
    [__sn_atlas] property; [rules] are the rules of the sheet of a [style]
    element; [host] is set on a shadow root; [blockClass] says that the
    element carries the configured block class; [subDocument] is the
    document that an iframe element shows, once the browser has made one. *)
Record ndata := mkData {
  kind : nodeKind;
  tag : string;
  attrs : list (string * string);
  style : list (string * (string * string));
  cdata : string;
  sn : option serializedNode;
  scroll : Z * Z;
  rules : list string;
  shadowRoot : option handle;
  host : option handle;
  value : option string;
  blockClass : bool;
  subDocument : option handle
}.

Definition blank (k : nodeKind) : ndata :=
  mkData k "" [] [] "" None (0, 0) [] None None None false None.

Definition with_sn (o : option serializedNode) (d : ndata) : ndata :=
  mkData (kind d) (tag d) (attrs d) (style d) (cdata d) o (scroll d)
    (rules d) (shadowRoot d) (host d) (value d) (blockClass d)
    (subDocument d).

Definition with_attrs (a : list (string * string)) (d : ndata) : ndata :=
  mkData (kind d) (tag d) a (style d) (cdata d) (sn d) (scroll d)
    (rules d) (shadowRoot d) (host d) (value d) (blockClass d)
    (subDocument d).

Definition with_style (a : list (string * (string * string))) (d : ndata)
  : ndata :=
  mkData (kind d) (tag d) (attrs d) a (cdata d) (sn d) (scroll d)
    (rules d) (shadowRoot d) (host d) (value d) (blockClass d)
    (subDocument d).

Definition with_cdata (c : string) (d : ndata) : ndata :=
  mkData (kind d) (tag d) (attrs d) (style d) c (sn d) (scroll d)
    (rules d) (shadowRoot d) (host d) (value d) (blockClass d)
    (subDocument d).

Definition with_scroll (p : Z * Z) (d : ndata) : ndata :=
  mkData (kind d) (tag d) (attrs d) (style d) (cdata d) (sn d) p
    (rules d) (shadowRoot d) (host d) (value d) (blockClass d)
    (subDocument d).

Definition with_rules (r : list string) (d : ndata) : ndata :=
  mkData (kind d) (tag d) (attrs d) (style d) (cdata d) (sn d) (scroll d)
    r (shadowRoot d) (host d) (value d) (blockClass d)
    (subDocument d).

Definition with_value (v : option string) (d : ndata) : ndata :=
  mkData (kind d) (tag d) (attrs d) (style d) (cdata d) (sn d) (scroll d)
    (rules d) (shadowRoot d) (host d) v (blockClass d)
    (subDocument d).

Definition with_shadowRoot (r : option handle) (d : ndata) : ndata :=
  mkData (kind d) (tag d) (attrs d) (style d) (cdata d) (sn d) (scroll d)
    (rules d) r (host d) (value d) (blockClass d)
    (subDocument d).

Definition with_subDocument (c : option handle) (d : ndata) : ndata :=
  mkData (kind d) (tag d) (attrs d) (style d) (cdata d) (sn d) (scroll d)
    (rules d) (shadowRoot d) (host d) (value d) (blockClass d) c.

Definition isKind (a b : nodeKind) : bool :=
  match a, b with
  | KDocument, KDocument | KDoctype, KDoctype | KElement, KElement
  | KText, KText | KComment, KComment | KFragment, KFragment => true
  | _, _ => false
  end.

(** Association lists that keep the insertion order of a JavaScript object
    or [Map]: writing an existing key keeps its place. *)
Fixpoint assoc_set {K V : Type} (eqb : K -> K -> bool) (k : K) (v : V)
  (l : list (K * V)) : list (K * V) :=
  match l with
  | [] => [(k, v)]
  | (k', v') :: r =>
      if eqb k' k then (k, v) :: r else (k', v') :: assoc_set eqb k v r
  end.

Fixpoint assoc_get {K V : Type} (eqb : K -> K -> bool) (k : K)
  (l : list (K * V)) : option V :=
  match l with
  | [] => None
  | (k', v') :: r => if eqb k' k then Some v' else assoc_get eqb k r
  end.

Definition assoc_del {K V : Type} (eqb : K -> K -> bool) (k : K)
  (l : list (K * V)) : list (K * V) :=
  List.filter (fun kv => negb (eqb (fst kv) k)) l.

Definition assoc_has {K V : Type} (eqb : K -> K -> bool) (k : K)
  (l : list (K * V)) : bool :=
  match assoc_get eqb k l with Some _ => true | None => false end.

End Node.

(** ** The identity map *)

Module Mirror.
Import Dom Wire Node.

(** Modelled from the spec: the Mirror of [utils.ts] (created by
    [createMirror], not among the sources): [getId(node)] is the id the node
    carries or -1, [getNode(id)] is the node registered under the id or
    null, [has(id)] tests the registration, [removeNodeFromMap(node)] drops
    the registrations of the node and of its descendants, [reset] empties
    the map. *)
Definition getId (nodes : gmap handle ndata) (n : option handle) : Z :=
  match n with
  | None => -1
  | Some h =>
      match nodes !! h with
      | Some d => match sn d with Some s => sn_id s | None => -1 end
      | None => -1
      end
  end.

Definition getNode (map : gmap Z handle) (id : Z) : option handle := map !! id.

Definition has (map : gmap Z handle) (id : Z) : bool :=
  match map !! id with Some _ => true | None => false end.

Definition subtree_handles (f : forest) (n : handle) : list handle :=
  match subtree f n with Some t => handles t | None => [n] end.

Definition removeNodeFromMap (f : forest) (nodes : gmap handle ndata)
  (map : gmap Z handle) (n : handle) : gmap Z handle :=
  fold_left
    (fun m h =>
       match nodes !! h with
       | Some d => match sn d with Some s => delete (sn_id s) m | None => m end
       | None => m
       end)
    (subtree_handles f n) map.

Definition reset : gmap Z handle := ∅.

End Mirror.

(** ** The replayer: state, effects and host operations *)

Module Replay.
Import Dom Wire Node.

(** What a JavaScript [throw] carries.  [DOMException] is the class the
    code tests with [instanceof]. *)
Inductive exn :=
| DOMException (name : string)
| TypeError (what : string)
| Error (what : string).

(** A computation returns, throws, or runs out of the fuel given to the one
    loop whose exit depends on the clock. *)
Inductive outcome (A : Type) :=
| Ret (a : A)
| Throw (e : exn)
| OutOfFuel.

Arguments Ret {A} a.
Arguments Throw {A} e.
Arguments OutOfFuel {A}.

(** The diagnostics of the replayer. *)
Inductive message :=
| NodeNotFound (id : Z)
| NodePreviouslyRemoved (id : Z)
| CouldNotRemoveChild (parent target : handle)
| ExceptionInMutation (e : exn)
| ResolveTimeout
| DropResolveTree (id : Z)
| ReplayerDestroyed
| CheckoutError (e : exn).

Inductive level := ConsoleWarn | ConsoleLog.

(** Calls into collaborators that the model does not follow further: the
    dialog helpers of [dialog.ts], the canvas dimension styles and the style
    rules injected in the document of an iframe. *)
Inductive extcall :=
| InsertStyleRules (iframe : handle)
| ApplyDialogToTopLevel (target : handle)
| RemoveDialogFromTopLevel (target : handle)
| ApplyCanvasDimensionStyles (target : handle) (name value : string).

Record St := mkSt {
  dom : forest;  (* the DOM trees, attached or not *)
  nodes : gmap handle ndata;  (* data of every node *)
  fresh : handle;  (* next unused handle *)
  contentDocument : option handle;  (* [this.iframe.contentDocument] *)
  clock : list Z;  (* the next readings of [Date.now()] *)
  now : Z;  (* the last reading *)
  showWarning : bool;  (* [config.showWarning] *)
  showDebug : bool;  (* [config.showDebug] *)
  mirror : gmap Z handle;  (* [this.mirror.map] *)
  fragmentParentMap : list (handle * handle);  (* virtual to real parent *)
  elementStateMap : gmap handle (Z * Z);  (* stored scroll offsets *)
  virtualStyleRulesMap : list (handle * list string);  (* stored rules *)
  legacy_missingNodeRetryMap : gmap Z (handle * addedNodeMutation);
  newDocumentQueue : list addedNodeMutation;
  removeIdSet : list Z;  (* [treeIndex]: ids removed so far *)
  canvasAttributes : list attributeMutation;  (* [treeIndex] *)
  dialogs : list attributeMutation;  (* [treeIndex] *)
  queue : list addedNodeMutation;  (* local of [applyMutation] *)
  legacy_missingNodeMap : gmap Z (handle * addedNodeMutation);  (* local *)
  notVirtualStylesBecauseOfSiblingIframe : list Z;  (* local *)
  console : list (level * message);  (* what reached the console *)
  external : list extcall  (* calls to collaborators *)
}.

Definition set_dom (v : forest) (s : St) : St :=
  mkSt v (nodes s) (fresh s) (contentDocument s) (clock s) (now s)
    (showWarning s) (showDebug s) (mirror s) (fragmentParentMap s)
    (elementStateMap s) (virtualStyleRulesMap s)
    (legacy_missingNodeRetryMap s) (newDocumentQueue s) (removeIdSet s)
    (canvasAttributes s) (dialogs s) (queue s) (legacy_missingNodeMap s)
    (notVirtualStylesBecauseOfSiblingIframe s) (console s) (external s).

Definition set_nodes (v : gmap handle ndata) (s : St) : St :=
  mkSt (dom s) v (fresh s) (contentDocument s) (clock s) (now s)
    (showWarning s) (showDebug s) (mirror s) (fragmentParentMap s)
    (elementStateMap s) (virtualStyleRulesMap s)
    (legacy_missingNodeRetryMap s) (newDocumentQueue s) (removeIdSet s)
    (canvasAttributes s) (dialogs s) (queue s) (legacy_missingNodeMap s)
    (notVirtualStylesBecauseOfSiblingIframe s) (console s) (external s).

Definition set_fresh (v : handle) (s : St) : St :=
  mkSt (dom s) (nodes s) v (contentDocument s) (clock s) (now s)
    (showWarning s) (showDebug s) (mirror s) (fragmentParentMap s)
    (elementStateMap s) (virtualStyleRulesMap s)
    (legacy_missingNodeRetryMap s) (newDocumentQueue s) (removeIdSet s)
    (canvasAttributes s) (dialogs s) (queue s) (legacy_missingNodeMap s)
    (notVirtualStylesBecauseOfSiblingIframe s) (console s) (external s).

Definition set_contentDocument (v : option handle) (s : St) : St :=
  mkSt (dom s) (nodes s) (fresh s) v (clock s) (now s) (showWarning s)
    (showDebug s) (mirror s) (fragmentParentMap s) (elementStateMap s)
    (virtualStyleRulesMap s) (legacy_missingNodeRetryMap s)
    (newDocumentQueue s) (removeIdSet s) (canvasAttributes s) (dialogs s)
    (queue s) (legacy_missingNodeMap s)
    (notVirtualStylesBecauseOfSiblingIframe s) (console s) (external s).

Definition set_clock (v : list Z) (s : St) : St :=
  mkSt (dom s) (nodes s) (fresh s) (contentDocument s) v (now s)
    (showWarning s) (showDebug s) (mirror s) (fragmentParentMap s)
    (elementStateMap s) (virtualStyleRulesMap s)
    (legacy_missingNodeRetryMap s) (newDocumentQueue s) (removeIdSet s)
    (canvasAttributes s) (dialogs s) (queue s) (legacy_missingNodeMap s)
    (notVirtualStylesBecauseOfSiblingIframe s) (console s) (external s).

Definition set_now (v : Z) (s : St) : St :=
  mkSt (dom s) (nodes s) (fresh s) (contentDocument s) (clock s) v
    (showWarning s) (showDebug s) (mirror s) (fragmentParentMap s)
    (elementStateMap s) (virtualStyleRulesMap s)
    (legacy_missingNodeRetryMap s) (newDocumentQueue s) (removeIdSet s)
    (canvasAttributes s) (dialogs s) (queue s) (legacy_missingNodeMap s)
    (notVirtualStylesBecauseOfSiblingIframe s) (console s) (external s).

Definition set_showWarning (v : bool) (s : St) : St :=
  mkSt (dom s) (nodes s) (fresh s) (contentDocument s) (clock s) (now s) v
    (showDebug s) (mirror s) (fragmentParentMap s) (elementStateMap s)
    (virtualStyleRulesMap s) (legacy_missingNodeRetryMap s)
    (newDocumentQueue s) (removeIdSet s) (canvasAttributes s) (dialogs s)
    (queue s) (legacy_missingNodeMap s)
    (notVirtualStylesBecauseOfSiblingIframe s) (console s) (external s).

Definition set_showDebug (v : bool) (s : St) : St :=
  mkSt (dom s) (nodes s) (fresh s) (contentDocument s) (clock s) (now s)
    (showWarning s) v (mirror s) (fragmentParentMap s) (elementStateMap s)
    (virtualStyleRulesMap s) (legacy_missingNodeRetryMap s)
    (newDocumentQueue s) (removeIdSet s) (canvasAttributes s) (dialogs s)
    (queue s) (legacy_missingNodeMap s)
    (notVirtualStylesBecauseOfSiblingIframe s) (console s) (external s).

Definition set_mirror (v : gmap Z handle) (s : St) : St :=
  mkSt (dom s) (nodes s) (fresh s) (contentDocument s) (clock s) (now s)
    (showWarning s) (showDebug s) v (fragmentParentMap s)
    (elementStateMap s) (virtualStyleRulesMap s)
    (legacy_missingNodeRetryMap s) (newDocumentQueue s) (removeIdSet s)
    (canvasAttributes s) (dialogs s) (queue s) (legacy_missingNodeMap s)
    (notVirtualStylesBecauseOfSiblingIframe s) (console s) (external s).

Definition set_fragmentParentMap (v : list (handle * handle)) (s : St) : St :=
  mkSt (dom s) (nodes s) (fresh s) (contentDocument s) (clock s) (now s)
    (showWarning s) (showDebug s) (mirror s) v (elementStateMap s)
    (virtualStyleRulesMap s) (legacy_missingNodeRetryMap s)
    (newDocumentQueue s) (removeIdSet s) (canvasAttributes s) (dialogs s)
    (queue s) (legacy_missingNodeMap s)
    (notVirtualStylesBecauseOfSiblingIframe s) (console s) (external s).

Definition set_elementStateMap (v : gmap handle (Z * Z)) (s : St) : St :=
  mkSt (dom s) (nodes s) (fresh s) (contentDocument s) (clock s) (now s)
    (showWarning s) (showDebug s) (mirror s) (fragmentParentMap s) v
    (virtualStyleRulesMap s) (legacy_missingNodeRetryMap s)
    (newDocumentQueue s) (removeIdSet s) (canvasAttributes s) (dialogs s)
    (queue s) (legacy_missingNodeMap s)
    (notVirtualStylesBecauseOfSiblingIframe s) (console s) (external s).

Definition set_virtualStyleRulesMap (v : list (handle * list string)) (s : St) : St :=
  mkSt (dom s) (nodes s) (fresh s) (contentDocument s) (clock s) (now s)
    (showWarning s) (showDebug s) (mirror s) (fragmentParentMap s)
    (elementStateMap s) v (legacy_missingNodeRetryMap s)
    (newDocumentQueue s) (removeIdSet s) (canvasAttributes s) (dialogs s)
    (queue s) (legacy_missingNodeMap s)
    (notVirtualStylesBecauseOfSiblingIframe s) (console s) (external s).

Definition set_legacy_missingNodeRetryMap (v : gmap Z (handle * addedNodeMutation)) (s : St) : St :=
  mkSt (dom s) (nodes s) (fresh s) (contentDocument s) (clock s) (now s)
    (showWarning s) (showDebug s) (mirror s) (fragmentParentMap s)
    (elementStateMap s) (virtualStyleRulesMap s) v (newDocumentQueue s)
    (removeIdSet s) (canvasAttributes s) (dialogs s) (queue s)
    (legacy_missingNodeMap s) (notVirtualStylesBecauseOfSiblingIframe s)
    (console s) (external s).

Definition set_newDocumentQueue (v : list addedNodeMutation) (s : St) : St :=
  mkSt (dom s) (nodes s) (fresh s) (contentDocument s) (clock s) (now s)
    (showWarning s) (showDebug s) (mirror s) (fragmentParentMap s)
    (elementStateMap s) (virtualStyleRulesMap s)
    (legacy_missingNodeRetryMap s) v (removeIdSet s) (canvasAttributes s)
    (dialogs s) (queue s) (legacy_missingNodeMap s)
    (notVirtualStylesBecauseOfSiblingIframe s) (console s) (external s).

Definition set_removeIdSet (v : list Z) (s : St) : St :=
  mkSt (dom s) (nodes s) (fresh s) (contentDocument s) (clock s) (now s)
    (showWarning s) (showDebug s) (mirror s) (fragmentParentMap s)
    (elementStateMap s) (virtualStyleRulesMap s)
    (legacy_missingNodeRetryMap s) (newDocumentQueue s) v
    (canvasAttributes s) (dialogs s) (queue s) (legacy_missingNodeMap s)
    (notVirtualStylesBecauseOfSiblingIframe s) (console s) (external s).

Definition set_canvasAttributes (v : list attributeMutation) (s : St) : St :=
  mkSt (dom s) (nodes s) (fresh s) (contentDocument s) (clock s) (now s)
    (showWarning s) (showDebug s) (mirror s) (fragmentParentMap s)
    (elementStateMap s) (virtualStyleRulesMap s)
    (legacy_missingNodeRetryMap s) (newDocumentQueue s) (removeIdSet s) v
    (dialogs s) (queue s) (legacy_missingNodeMap s)
    (notVirtualStylesBecauseOfSiblingIframe s) (console s) (external s).

Definition set_dialogs (v : list attributeMutation) (s : St) : St :=
  mkSt (dom s) (nodes s) (fresh s) (contentDocument s) (clock s) (now s)
    (showWarning s) (showDebug s) (mirror s) (fragmentParentMap s)
    (elementStateMap s) (virtualStyleRulesMap s)
    (legacy_missingNodeRetryMap s) (newDocumentQueue s) (removeIdSet s)
    (canvasAttributes s) v (queue s) (legacy_missingNodeMap s)
    (notVirtualStylesBecauseOfSiblingIframe s) (console s) (external s).

Definition set_queue (v : list addedNodeMutation) (s : St) : St :=
  mkSt (dom s) (nodes s) (fresh s) (contentDocument s) (clock s) (now s)
    (showWarning s) (showDebug s) (mirror s) (fragmentParentMap s)
    (elementStateMap s) (virtualStyleRulesMap s)
    (legacy_missingNodeRetryMap s) (newDocumentQueue s) (removeIdSet s)
    (canvasAttributes s) (dialogs s) v (legacy_missingNodeMap s)
    (notVirtualStylesBecauseOfSiblingIframe s) (console s) (external s).

Definition set_legacy_missingNodeMap (v : gmap Z (handle * addedNodeMutation)) (s : St) : St :=
  mkSt (dom s) (nodes s) (fresh s) (contentDocument s) (clock s) (now s)
    (showWarning s) (showDebug s) (mirror s) (fragmentParentMap s)
    (elementStateMap s) (virtualStyleRulesMap s)
    (legacy_missingNodeRetryMap s) (newDocumentQueue s) (removeIdSet s)
    (canvasAttributes s) (dialogs s) (queue s) v
    (notVirtualStylesBecauseOfSiblingIframe s) (console s) (external s).

Definition set_notVirtualStyles (v : list Z) (s : St) : St :=
  mkSt (dom s) (nodes s) (fresh s) (contentDocument s) (clock s) (now s)
    (showWarning s) (showDebug s) (mirror s) (fragmentParentMap s)
    (elementStateMap s) (virtualStyleRulesMap s)
    (legacy_missingNodeRetryMap s) (newDocumentQueue s) (removeIdSet s)
    (canvasAttributes s) (dialogs s) (queue s) (legacy_missingNodeMap s) v
    (console s) (external s).

Definition set_console (v : list (level * message)) (s : St) : St :=
  mkSt (dom s) (nodes s) (fresh s) (contentDocument s) (clock s) (now s)
    (showWarning s) (showDebug s) (mirror s) (fragmentParentMap s)
    (elementStateMap s) (virtualStyleRulesMap s)
    (legacy_missingNodeRetryMap s) (newDocumentQueue s) (removeIdSet s)
    (canvasAttributes s) (dialogs s) (queue s) (legacy_missingNodeMap s)
    (notVirtualStylesBecauseOfSiblingIframe s) v (external s).

Definition set_external (v : list extcall) (s : St) : St :=
  mkSt (dom s) (nodes s) (fresh s) (contentDocument s) (clock s) (now s)
    (showWarning s) (showDebug s) (mirror s) (fragmentParentMap s)
    (elementStateMap s) (virtualStyleRulesMap s)
    (legacy_missingNodeRetryMap s) (newDocumentQueue s) (removeIdSet s)
    (canvasAttributes s) (dialogs s) (queue s) (legacy_missingNodeMap s)
    (notVirtualStylesBecauseOfSiblingIframe s) (console s) v.

Definition M (A : Type) : Type := St -> outcome A * St.

Definition ret {A : Type} (a : A) : M A := fun s => (Ret a, s).

Definition bind {A B : Type} (m : M A) (k : A -> M B) : M B :=
  fun s =>
    match m s with
    | (Ret a, s') => k a s'
    | (Throw e, s') => (Throw e, s')
    | (OutOfFuel, s') => (OutOfFuel, s')
    end.

Definition throw {A : Type} (e : exn) : M A := fun s => (Throw e, s).

Definition get : M St := fun s => (Ret s, s).

Definition modify (f : St -> St) : M unit := fun s => (Ret tt, f s).

(** [try { m } catch (error) { h error }] *)
Definition tryCatch {A : Type} (m : M A) (h : exn -> M A) : M A :=
  fun s =>
    match m s with
    | (Throw e, s') => h e s'
    | r => r
    end.

Notation "'let*' x := m 'in' k" := (bind m (fun x => k))
  (at level 10, x name, m at level 100, k at level 200).

Notation "m >> k" := (bind m (fun _ => k))
  (at level 90, right associativity).

(** [l.forEach(f)] *)
Definition forEach {A : Type} (f : A -> M unit) : list A -> M unit :=
  fix go (l : list A) : M unit :=
    match l with
    | [] => ret tt
    | a :: r => f a >> go r
    end.

Definition when (b : bool) (m : M unit) : M unit := if b then m else ret tt.

(** *** Reading the DOM *)

Definition nd (s : St) (h : handle) : ndata :=
  match nodes s !! h with Some d => d | None => blank KComment end.

Definition getId (s : St) (n : option handle) : Z := Mirror.getId (nodes s) n.

Definition getNode (s : St) (id : Z) : option handle :=
  Mirror.getNode (mirror s) id.

Definition has__sn_atlas (s : St) (h : handle) : bool :=
  match sn (nd s h) with Some _ => true | None => false end.

Definition isElement (s : St) (h : handle) : bool :=
  isKind (kind (nd s h)) KElement.

(** [document.contains(n)], or [n] sits in a shadow tree whose host does. *)
Definition inDocument (s : St) (x : handle) : bool :=
  match contentDocument s with
  | None => false
  | Some doc =>
      contains (dom s) doc x
      || match host (nd s (getRootNode (dom s) x)) with
         | Some hst => contains (dom s) doc hst
         | None => false
         end
  end.

(** The iframe element that shows the document [d]. *)
Definition frameElement (s : St) (d : handle) : option handle :=
  List.find
    (fun f => match subDocument (nd s f) with
              | Some d' => Nat.eqb d' d
              | None => false
              end)
    (fhandles (dom s)).

(** The root of the tree of [x], through the host of a shadow tree. *)
Definition rootDocument (s : St) (x : handle) : handle :=
  let r := getRootNode (dom s) x in
  match host (nd s r) with
  | Some hst => getRootNode (dom s) hst
  | None => r
  end.

(** [x] is in the document of an iframe, and the iframe, or an iframe that
    shows the iframe, is in the document of the replayer.  Iframes nest no
    deeper than there are nodes. *)
Fixpoint inFrame (depth : nat) (s : St) (x : handle) : bool :=
  match depth with
  | O => false
  | S depth' =>
      match frameElement s (rootDocument s x) with
      | Some f => inDocument s f || inFrame depth' s f
      | None => false
      end
  end.

(** [n.isConnected], for a document that is shown: the document of the
    replayer or the document of an iframe in it. *)
Definition connected (s : St) (x : handle) : bool :=
  inDocument s x || inFrame (length (fhandles (dom s))) s x.

(** [n.textContent] *)
Fixpoint textOf (nodes : gmap handle ndata) (t : tree) : string :=
  match t with
  | T h ks =>
      match nodes !! h with
      | Some d =>
          match kind d with
          | KText => cdata d
          | KComment | KDoctype => ""
          | _ => fold_right (fun k acc => String.append (textOf nodes k) acc) "" ks
          end
      | None => ""
      end
  end.

Definition textContent (s : St) (h : handle) : string :=
  match subtree (dom s) h with
  | Some (T _ ks) =>
      match kind (nd s h) with
      | KText | KComment => cdata (nd s h)
      | KDoctype => ""
      | _ => fold_right (fun k acc => String.append (textOf (nodes s) k) acc) "" ks
      end
  | None => ""
  end.

(** [el.getElementsByTagName?.(name).length > 0]: only documents and
    elements have the method. *)
Definition hasDescendantTag (s : St) (h : handle) (name : string) : bool :=
  match kind (nd s h) with
  | KDocument | KElement =>
      existsb
        (fun x => isElement s x && String.eqb (tag (nd s x)) name)
        (tl (Mirror.subtree_handles (dom s) h))
  | _ => false
  end.

(** Modelled from the spec: [isIframeINode] and [hasShadowRoot] of
    [utils.ts] (not among the sources): a node that owns a sub-document is
    an element serialized with the tag [iframe]; a shadow host is a node with
    a [shadowRoot]. *)
Definition isIframeINode (s : St) (h : handle) : bool :=
  match sn (nd s h) with
  | Some n => isNodeType (sn_type n) Element && String.eqb (sn_tagName n) "iframe"
  | None => false
  end.

Definition hasShadowRoot (s : St) (h : handle) : bool :=
  match shadowRoot (nd s h) with Some _ => true | None => false end.

(** *** Writing the DOM *)

Definition alter_node (f : ndata -> ndata) (h : handle) : M unit :=
  modify (fun s => set_nodes (alter f h (nodes s)) s).

(** A subtree that is taken out of the document loses its scroll offsets,
    the rules inserted in its sheets and the documents its iframes show. *)
Definition forget (hs : list handle) (nodes : gmap handle ndata)
  : gmap handle ndata :=
  fold_left
    (fun m h =>
       alter (fun d => with_subDocument None (with_rules [] (with_scroll (0, 0) d)))
         h m)
    hs nodes.

Definition unplug (x : handle) (s : St) : St :=
  if connected s x
  then set_nodes (forget (Mirror.subtree_handles (dom s) x) (nodes s)) s
  else s.

Definition canHoldChildren (k : nodeKind) : bool :=
  match k with KDocument | KElement | KFragment => true | _ => false end.

Definition elementChildren (s : St) (p : handle) : list handle :=
  List.filter (isElement s) (childNodes (dom s) p).

(** The pre-insertion checks of the DOM standard that the replayer can
    trip over. *)
Definition insertionError (s : St) (p : handle) (ref : option handle)
  (x : handle) : option exn :=
  if negb (canHoldChildren (kind (nd s p)))
  then Some (DOMException "HierarchyRequestError")
  else if contains (dom s) x p
  then Some (DOMException "HierarchyRequestError")
  else if match ref with
          | Some r => negb (match parentNode (dom s) r with
                            | Some q => Nat.eqb q p
                            | None => false
                            end)
          | None => false
          end
  then Some (DOMException "NotFoundError")
  else if isKind (kind (nd s x)) KDocument
  then Some (DOMException "HierarchyRequestError")
  else if isKind (kind (nd s p)) KDocument
  then
    let incoming :=
      if isKind (kind (nd s x)) KFragment then childNodes (dom s) x else [x] in
    let others :=
      List.filter (fun c => negb (mem c incoming)) (elementChildren s p) in
    if existsb (fun c => isKind (kind (nd s c)) KText) incoming
    then Some (DOMException "HierarchyRequestError")
    else if (1 <? length (List.filter (isElement s) incoming) + length others)%nat
    then Some (DOMException "HierarchyRequestError")
    else None
  else None.

Definition place (p : handle) (ref : option handle) (x : handle) : M unit :=
  modify (fun s => set_dom (move p ref x (dom (unplug x s))) (unplug x s)).

(** [p.insertBefore(x, ref)]; [ref = None] is [null].  A document fragment
    hands over its children. *)
Definition insertBefore (p : handle) (x : handle) (ref : option handle)
  : M unit :=
  let* s := get in
  let ref' :=
    match ref with
    | Some r => if Nat.eqb r x then nextSibling (dom s) x else ref
    | None => None
    end in
  match insertionError s p ref' x with
  | Some e => throw e
  | None =>
      if isKind (kind (nd s x)) KFragment
      then forEach (place p ref') (childNodes (dom s) x)
      else place p ref' x
  end.

(** [p.appendChild(x)] *)
Definition appendChild (p : handle) (x : handle) : M unit :=
  insertBefore p x None.

(** [p.removeChild(x)] *)
Definition removeChild (p : handle) (x : handle) : M unit :=
  let* s := get in
  match parentNode (dom s) x with
  | Some q =>
      if Nat.eqb q p
      then modify (fun s => set_dom (detach x (dom (unplug x s))) (unplug x s))
      else throw (DOMException "NotFoundError")
  | None => throw (DOMException "NotFoundError")
  end.

(** A new node, not attached anywhere. *)
Definition createNode (d : ndata) : M handle :=
  let* s := get in
  let h := fresh s in
  modify (fun s =>
    set_fresh (S h) (set_nodes (<[h := d]> (nodes s))
                       (set_dom (dom s ++ [T h []]) s))) >>
  ret h.

(** [document.createDocumentFragment()] *)
Definition createDocumentFragment : M handle := createNode (blank KFragment).

(** [n.nodeName === NAME], for an element of the tag [name]. *)
Definition nodeNameIs (s : St) (h : handle) (name : string) : bool :=
  isElement s h && String.eqb (tag (nd s h)) name.

(** [iframeEl.contentDocument]: null unless the node is an iframe element
    in a document that is shown; the browser makes an empty document for an
    iframe that comes to be shown. *)
Definition iframe_contentDocument (iframeEl : handle) : M (option handle) :=
  let* s := get in
  if nodeNameIs s iframeEl "iframe" && connected s iframeEl
  then match subDocument (nd s iframeEl) with
       | Some d => ret (Some d)
       | None =>
           let* d := createNode (blank KDocument) in
           alter_node (with_subDocument (Some d)) iframeEl >> ret (Some d)
       end
  else ret None.

(** Attribute names that [setAttribute] accepts: the [Name] production of
    XML, read on ASCII (any other character is let through). *)
Definition nameStartChar (c : Ascii.ascii) : bool :=
  let n := Ascii.nat_of_ascii c in
  ((65 <=? n) && (n <=? 90) || (97 <=? n) && (n <=? 122)
   || Nat.eqb n 95 || Nat.eqb n 58 || (128 <=? n))%nat.

Definition nameChar (c : Ascii.ascii) : bool :=
  let n := Ascii.nat_of_ascii c in
  (nameStartChar c || (48 <=? n) && (n <=? 57) || Nat.eqb n 45 || Nat.eqb n 46)%nat.

Fixpoint allChars (p : Ascii.ascii -> bool) (s : string) : bool :=
  match s with
  | EmptyString => true
  | String c r => p c && allChars p r
  end.

Definition validName (s : string) : bool :=
  match s with
  | EmptyString => false
  | String c r => nameStartChar c && allChars nameChar r
  end.

(** [el.setAttribute(name, value)] *)
Definition setAttribute (h : handle) (name value : string) : M unit :=
  let* s := get in
  if negb (isElement s h)
  then throw (TypeError "target.setAttribute is not a function")
  else if negb (validName name)
  then throw (DOMException "InvalidCharacterError")
  else alter_node (fun d => with_attrs (assoc_set String.eqb name value (attrs d)) d) h.

(** [el.removeAttribute(name)] *)
Definition removeAttribute (h : handle) (name : string) : M unit :=
  let* s := get in
  if negb (isElement s h)
  then throw (TypeError "target.removeAttribute is not a function")
  else alter_node (fun d => with_attrs (assoc_del String.eqb name (attrs d)) d) h.

(** [el.style.setProperty(name, value, priority)] and
    [el.style.removeProperty(name)] *)
Definition style_setProperty (h : handle) (name value priority : string)
  : M unit :=
  let* s := get in
  if negb (isElement s h)
  then throw (TypeError "Cannot read properties of undefined")
  else alter_node
         (fun d => with_style (assoc_set String.eqb name (value, priority) (style d)) d) h.

Definition style_removeProperty (h : handle) (name : string) : M unit :=
  let* s := get in
  if negb (isElement s h)
  then throw (TypeError "Cannot read properties of undefined")
  else alter_node (fun d => with_style (assoc_del String.eqb name (style d)) d) h.

(** [n.textContent = v] *)
Definition set_textContent (h : handle) (v : string) : M unit :=
  let* s := get in
  match kind (nd s h) with
  | KText | KComment => alter_node (with_cdata v) h
  | KElement | KFragment =>
      forEach (removeChild h) (childNodes (dom s) h) >>
      if String.eqb v "" then ret tt
      else let* t := createNode (with_cdata v (blank KText)) in appendChild h t
  | KDocument | KDoctype => ret tt
  end.

(** [el.scrollLeft = x; el.scrollTop = y]: an element outside the document
    has no box to scroll. *)
Definition set_scroll (h : handle) (p : Z * Z) : M unit :=
  let* s := get in
  if connected s h then alter_node (with_scroll p) h else ret tt.

(** *** Logging *)

Definition console_warn (m : message) : M unit :=
  modify (fun s => set_console (console s ++ [(ConsoleWarn, m)]) s).

(** [this.warn(...)] prints when [config.showWarning] is set. *)
Definition warn (m : message) : M unit :=
  let* s := get in
  if negb (showWarning s) then ret tt else console_warn m.

(** [this.debug(...)] prints when [config.showDebug] is set. *)
Definition debug (m : message) : M unit :=
  let* s := get in
  if negb (showDebug s) then ret tt
  else modify (fun s => set_console (console s ++ [(ConsoleLog, m)]) s).

Definition memZ (z : Z) (l : list Z) : bool := existsb (Z.eqb z) l.

(** Modelled from the spec: [treeIndex.idRemoved] of [utils.ts] (not among
    the sources) tells a node that was removed earlier from one that was
    never known; both cases are the node-not-found diagnostic. *)
Definition idRemoved (s : St) (id : Z) : bool := memZ id (removeIdSet s).

Definition warnNodeNotFound (d : mutationData) (id : Z) : M unit :=
  let* s := get in
  if idRemoved s id then warn (NodePreviouslyRemoved id)
  else warn (NodeNotFound id).

Definition call (c : extcall) : M unit :=
  modify (fun s => set_external (external s ++ [c]) s).

(** [Date.now()] *)
Definition Date_now : M Z :=
  let* s := get in
  match clock s with
  | t :: r => modify (fun s => set_now t (set_clock r s)) >> ret t
  | [] => ret (now s)
  end.

(** *** Side caches *)

(** Modelled from the spec: [storeCSSRules] and
    [applyVirtualStyleRulesToNode] of [virtual-styles.ts] (not among the
    sources): the rules of a style element are snapshotted when its parent
    is virtualized and replayed against the live sheet at the Flush; a node
    that has no sheet any more is left alone. *)
Definition storeCSSRules (h : handle) : M unit :=
  modify (fun s =>
    set_virtualStyleRulesMap
      (assoc_set Nat.eqb h (rules (nd s h)) (virtualStyleRulesMap s)) s).

Definition applyVirtualStyleRulesToNode (storedRules : list string)
  (h : handle) : M unit :=
  let* s := get in
  if connected s h then alter_node (with_rules storedRules) h else ret tt.

(** [storeState(parent)] *)
Fixpoint storeState_tree (t : tree) : M unit :=
  match t with
  | T h ks =>
      let* s := get in
      if isElement s h then
        when (negb (Z.eqb (fst (scroll (nd s h))) 0)
              || negb (Z.eqb (snd (scroll (nd s h))) 0))
          (modify (fun s =>
             set_elementStateMap
               (<[h := scroll (nd s h)]> (elementStateMap s)) s)) >>
        when (String.eqb (tag (nd s h)) "style") (storeCSSRules h) >>
        forEach storeState_tree ks
      else ret tt
  end.

Definition storeState (parent : handle) : M unit :=
  let* s := get in
  match subtree (dom s) parent with
  | Some t => storeState_tree t
  | None => ret tt
  end.

(** [restoreState(parent)] *)
Fixpoint restoreState_tree (t : tree) : M unit :=
  match t with
  | T h ks =>
      let* s := get in
      if isElement s h then
        match elementStateMap s !! h with
        | Some storedState =>
            set_scroll h storedState >>
            modify (fun s =>
              set_elementStateMap (delete h (elementStateMap s)) s)
        | None => ret tt
        end >>
        forEach restoreState_tree ks
      else ret tt
  end.

Definition restoreState (parent : handle) : M unit :=
  let* s := get in
  match subtree (dom s) parent with
  | Some t => restoreState_tree t
  | None => ret tt
  end.

(** [restoreRealParent(frag, parent)] *)
Definition restoreRealParent (frag parent : handle) : M unit :=
  let* s := get in
  match sn (nd s parent) with
  | None => throw (TypeError "Cannot read properties of undefined")
  | Some psn =>
      modify (fun s => set_mirror (<[sn_id psn := parent]> (mirror s)) s) >>
      when (isNodeType (sn_type psn) Element
            && String.eqb (sn_tagName psn) "textarea"
            && negb (String.eqb (textContent s frag) ""))
        (alter_node (with_value (Some (textContent s frag))) parent) >>
      appendChild parent frag >>
      restoreState parent
  end.

(** [restoreNodeSheet(node)] *)
Definition restoreNodeSheet (node : handle) : M unit :=
  let* s := get in
  if negb (isElement s node && String.eqb (tag (nd s node)) "style")
  then ret tt
  else match assoc_get Nat.eqb node (virtualStyleRulesMap s) with
       | None => ret tt
       | Some storedRules => applyVirtualStyleRulesToNode storedRules node
       end.

(** *** Building nodes *)

Definition register (n : serializedNode) (h : handle) : M unit :=
  alter_node (with_sn (Some n)) h >>
  modify (fun s => set_mirror (<[sn_id n := h]> (mirror s)) s).

(** Modelled from the spec: [buildNodeWithSN] of rrweb-snapshot (not among
    the sources), called with [skipChild: true]: it constructs the node
    from its serialized form in the target document, children arriving as
    separate adds, marks it with its serialized form and registers it in
    the identity map.  A serialized document stands for the target document
    itself, emptied. *)
Definition buildNodeWithSN (n : serializedNode) (targetDoc : option handle)
  : M handle :=
  match targetDoc with
  | None => throw (TypeError "Cannot read properties of null")
  | Some d =>
      match sn_type n with
      | Document =>
          let* s := get in
          forEach (removeChild d) (childNodes (dom s) d) >>
          register n d >> ret d
      | DocumentType =>
          let* h := createNode (blank KDoctype) in register n h >> ret h
      | Element =>
          let* h :=
            createNode
              (mkData KElement (sn_tagName n)
                 (List.filter (fun kv => validName (fst kv)) (sn_attributes n))
                 [] "" None (0, 0) [] None None None false None) in
          (if sn_isShadowHost n
           then let* r := createNode
                            (mkData KFragment "" [] [] "" None (0, 0) [] None
                               (Some h) None false None) in
                alter_node (with_shadowRoot (Some r)) h
           else ret tt) >>
          register n h >> ret h
      | Text =>
          let* h := createNode (with_cdata (sn_textContent n) (blank KText)) in
          register n h >> ret h
      | CDATA =>
          let* h := createNode (blank KText) in register n h >> ret h
      | Comment =>
          let* h := createNode (with_cdata (sn_textContent n) (blank KComment)) in
          register n h >> ret h
      end
  end.

(** Modelled from the spec: [buildNodeWithSN] of rrweb-snapshot (not among
    the sources), called with [skipChild: false]: the node is built as
    above, then the children of a document or an element are built the same
    way, each appended to the node (to its shadow root, for a shadow child
    of a shadow host) and handed to [afterAppend].  [acc] is what the
    [afterAppend] of the caller collects. *)
Fixpoint buildNodeWithSN_children {C : Type} (afterAppend : handle -> C -> M C)
  (n : serializedNode) (targetDoc : option handle) (acc : C)
  : M (handle * C) :=
  let* node := buildNodeWithSN n targetDoc in
  match n with
  | mkSerializedNode _ type _ _ _ _ _ _ childNodes =>
      if isNodeType type Document || isNodeType type Element then
        let* acc' :=
          (fix each (l : list serializedNode) (acc : C) : M C :=
             match l with
             | [] => ret acc
             | childN :: rest =>
                 let* built :=
                   buildNodeWithSN_children afterAppend childN targetDoc acc in
                 let childNode := fst built in
                 let* s := get in
                 (if sn_isShadow childN && isElement s node
                     && hasShadowRoot s node
                  then appendChild (default node (shadowRoot (nd s node)))
                         childNode
                  else appendChild node childNode) >>
                 let* acc1 := afterAppend childNode (snd built) in
                 each rest acc1
             end) childNodes acc in
        ret (node, acc')
      else ret (node, acc)
  end.

(** [AppendedIframe]: an iframe that was built and the add of its document. *)
Definition AppendedIframe : Type := addedNodeMutation * handle.

(** [collectIframeAndAttachDocument(collected, builtNode)] *)
Definition collectIframeAndAttachDocument (collected : list AppendedIframe)
  (builtNode : handle) : M (list AppendedIframe) :=
  let* s := get in
  if isIframeINode s builtNode
  then match List.find
               (fun m => Z.eqb (add_parentId m) (getId s (Some builtNode)))
               (newDocumentQueue s) with
       | Some mutationInQueue => ret (collected ++ [(mutationInQueue, builtNode)])
       | None => ret collected
       end
  else ret collected.

(** The [afterAppend] of [attachDocumentToIframe], over the pair of
    [collectedIframes] and [collectedDialogs]; the plugin hooks are those
    of an empty [config.plugins]. *)
Definition collectAfterAppend (builtNode : handle)
  (acc : list AppendedIframe * list handle)
  : M (list AppendedIframe * list handle) :=
  let* s := get in
  let collectedDialogs :=
    if nodeNameIs s builtNode "dialog" && negb (mem builtNode (snd acc))
    then snd acc ++ [builtNode]
    else snd acc in
  let* collectedIframes := collectIframeAndAttachDocument (fst acc) builtNode in
  ret (collectedIframes, collectedDialogs).

(** [attachDocumentToIframe(mutation, iframeEl)], with the depth left for
    the calls on the iframes that the sub-document brings along.  The
    filter [m !== mutationInQueue] is read on the id of the added node,
    which tells the adds of a queue apart. *)
Fixpoint attachDocument (depth : nat) (mutation : addedNodeMutation)
  (iframeEl : handle) : M unit :=
  match depth with
  | O => fun s => (OutOfFuel, s)
  | S depth' =>
      let* doc0 := iframe_contentDocument iframeEl in
      match doc0 with
      | Some _ => ret tt
      | None =>
          let* s := get in
          match List.find (fun p => assoc_has Nat.eqb p (fragmentParentMap s))
                  (ancestors (dom s) iframeEl) with
          | Some frag =>
              match assoc_get Nat.eqb frag (fragmentParentMap s) with
              | Some realParent => restoreRealParent frag realParent
              | None => ret tt
              end
          | None => ret tt
          end
      end >>
      let* doc := iframe_contentDocument iframeEl in
      let* built :=
        buildNodeWithSN_children collectAfterAppend (add_node mutation) doc
          ([], []) in
      let collectedIframes := fst (snd built) in
      let collectedDialogs := snd (snd built) in
      forEach
        (fun collected : AppendedIframe =>
           let mutationInQueue := fst collected in
           let builtNode := snd collected in
           attachDocument depth' mutationInQueue builtNode >>
           modify (fun s =>
             set_newDocumentQueue
               (List.filter
                  (fun m => negb (Z.eqb (sn_id (add_node m))
                                    (sn_id (add_node mutationInQueue))))
                  (newDocumentQueue s)) s) >>
           let* builtDoc := iframe_contentDocument builtNode in
           match builtDoc with
           | Some _ => call (InsertStyleRules builtNode)
           | None => ret tt
           end)
        collectedIframes >>
      forEach (fun d => call (ApplyDialogToTopLevel d)) collectedDialogs
  end.

(** [attachDocumentToIframe(mutation, iframeEl)].  A nested call is for an
    add that the queue of new documents holds, so a run of nested calls
    deeper than the length of the queue takes up one of its adds a second
    time; the depth given is that length plus one, and [OutOfFuel] stands
    for the deeper runs. *)
Definition attachDocumentToIframe (mutation : addedNodeMutation)
  (iframeEl : handle) : M unit :=
  let* s := get in
  attachDocument (S (length (newDocumentQueue s))) mutation iframeEl.

(** [legacy_resolveMissingNode(map, parent, target, targetMutation)].  Every
    nested call follows the deletion of an entry that the caller found in
    the map, so the size of the map bounds the depth. *)
Fixpoint legacy_resolveMissingNode (depth : nat) (parent target : handle)
  (targetMutation : addedNodeMutation) : M unit :=
  match depth with
  | O => fun s => (OutOfFuel, s)
  | S depth' =>
      let* s := get in
      let lookup (i : option Z) :=
        match i with
        | Some z => if Z.eqb z 0 then None else legacy_missingNodeMap s !! z
        | None => None
        end in
      let previousInMap := lookup (add_previousId targetMutation) in
      let nextInMap := lookup (add_nextId targetMutation) in
      let resolve (entry : handle * addedNodeMutation) (ref : M (option handle)) :=
        let '(node, mutation) := entry in
        let* r := ref in
        insertBefore parent node r >>
        modify (fun s =>
          set_legacy_missingNodeRetryMap
            (delete (sn_id (add_node mutation)) (legacy_missingNodeRetryMap s))
            (set_legacy_missingNodeMap
               (delete (sn_id (add_node mutation)) (legacy_missingNodeMap s)) s)) >>
        when (truthy (add_previousId mutation) || truthy (add_nextId mutation))
          (legacy_resolveMissingNode depth' parent node mutation) in
      match previousInMap with
      | Some e => resolve e (ret (Some target))
      | None => ret tt
      end >>
      match nextInMap with
      | Some e => resolve e (let* s := get in ret (nextSibling (dom s) target))
      | None => ret tt
      end
  end.

(** *** The resolve tree *)

#[warnings="-register-all"]
Inductive ResolveTree := RT (value : addedNodeMutation) (children : list ResolveTree).

Definition rt_value (t : ResolveTree) : addedNodeMutation :=
  match t with RT v _ => v end.

Definition rt_id (t : ResolveTree) : Z := sn_id (add_node (rt_value t)).

Fixpoint rt_mem (id : Z) (t : ResolveTree) : bool :=
  match t with
  | RT v cs => Z.eqb (sn_id (add_node v)) id || existsb (rt_mem id) cs
  end.

Fixpoint rt_insert_before (next : Z) (m : addedNodeMutation) (t : ResolveTree)
  : ResolveTree :=
  match t with
  | RT v cs =>
      RT v ((fix go (l : list ResolveTree) : list ResolveTree :=
               match l with
               | [] => []
               | c :: r =>
                   if Z.eqb (rt_id c) next then RT m [] :: c :: r
                   else rt_insert_before next m c :: go r
               end) cs)
  end.

Fixpoint rts_insert_before (next : Z) (m : addedNodeMutation)
  (l : list ResolveTree) : list ResolveTree :=
  match l with
  | [] => []
  | c :: r =>
      if Z.eqb (rt_id c) next then RT m [] :: c :: r
      else rt_insert_before next m c :: rts_insert_before next m r
  end.

Fixpoint rt_push_child (parent : Z) (m : addedNodeMutation) (t : ResolveTree)
  : ResolveTree :=
  match t with
  | RT v cs =>
      if Z.eqb (sn_id (add_node v)) parent then RT v (cs ++ [RT m []])
      else RT v (map (rt_push_child parent m) cs)
  end.

(** Modelled from the spec: [queueToResolveTrees] and [iterateResolveTree]
    of [utils.ts] (not among the sources): the requeued adds are linked
    into a forest by their declared sibling and parent, and a tree is
    resolved parent first. *)
Definition queueToResolveTrees (queue : list addedNodeMutation)
  : list ResolveTree :=
  fold_left
    (fun trees m =>
       if truthy (add_nextId m)
          && existsb (rt_mem (default 0 (add_nextId m))) trees
       then rts_insert_before (default 0 (add_nextId m)) m trees
       else if existsb (rt_mem (add_parentId m)) trees
       then map (rt_push_child (add_parentId m) m) trees
       else trees ++ [RT m []])
    queue [].

Fixpoint iterateResolveTree (t : ResolveTree) : list addedNodeMutation :=
  match t with
  | RT v cs => v :: fold_left (fun acc c => iterateResolveTree c ++ acc) cs []
  end.

(** *** Adds *)

Definition is_Some_b {A : Type} (o : option A) : bool :=
  match o with Some _ => true | None => false end.

(** [nextNotInDOM(mutation)] *)
Definition nextNotInDOM (s : St) (mutation : addedNodeMutation) : bool :=
  let next :=
    if truthy (add_nextId mutation)
    then getNode s (default 0 (add_nextId mutation)) else None in
  match add_nextId mutation with
  | Some z =>
      negb (Z.eqb z (-1)) && negb (is_Some_b next)
  | None => false
  end.

Definition push_queue (mutation : addedNodeMutation) : M unit :=
  modify (fun s => set_queue (queue s ++ [mutation]) s).

(** The virtual-parent step of [appendNode]: the parent the add goes to. *)
Definition virtualize (mutation : addedNodeMutation) (contentDoc parent : handle)
  : M handle :=
  let* s := get in
  let parentInDocument := contains (dom s) contentDoc parent in
  let parentHasIframeChild := hasDescendantTag s parent "iframe" in
  if parentInDocument && negb parentHasIframeChild
     && negb (isIframeINode s parent)
     && negb (memZ (add_parentId mutation)
                (notVirtualStylesBecauseOfSiblingIframe s))
  then
    let* virtualParent := createDocumentFragment in
    modify (fun s =>
      set_fragmentParentMap
        (assoc_set Nat.eqb virtualParent parent (fragmentParentMap s))
        (set_mirror (<[add_parentId mutation := virtualParent]> (mirror s)) s)) >>
    storeState parent >>
    forEach (appendChild virtualParent) (childNodes (dom s) parent) >>
    ret virtualParent
  else if parentHasIframeChild
          && isNodeType (sn_type (add_node mutation)) Element
          && String.eqb (sn_tagName (add_node mutation)) "style"
  then
    modify (fun s =>
      set_notVirtualStyles
        (notVirtualStylesBecauseOfSiblingIframe s
           ++ [sn_id (add_node mutation)]) s) >>
    ret parent
  else ret parent.

(** The tail of [appendNode], once the target is built and is not parked. *)
Definition insertTarget (mutation : addedNodeMutation)
  (targetDoc : option handle) (parent : handle)
  (previous next : option handle) (target : handle) : M unit :=
  let* s := get in
  when (match sn (nd s parent) with
        | Some psn => isNodeType (sn_type psn) Element
                      && String.eqb (sn_tagName psn) "textarea"
        | None => false
        end
        && isNodeType (sn_type (add_node mutation)) Text)
    (forEach
       (fun c => let* s := get in
                 when (isKind (kind (nd s c)) KText) (removeChild parent c))
       (childNodes (dom s) parent)) >>
  let* s := get in
  let afterPrevious :=
    match previous with
    | Some p =>
        match nextSibling (dom s) p with
        | Some q => match parentNode (dom s) q with
                    | Some _ => Some q
                    | None => None
                    end
        | None => None
        end
    | None => None
    end in
  let beforeNext :=
    match next with
    | Some nx => match parentNode (dom s) nx with
                 | Some _ => Some nx
                 | None => None
                 end
    | None => None
    end in
  match afterPrevious, beforeNext with
  | Some q, _ => insertBefore parent target (Some q)
  | None, Some nx =>
      if contains (dom s) parent nx
      then insertBefore parent target (Some nx)
      else insertBefore parent target None
  | None, None =>
      when (match targetDoc with
            | Some d => Nat.eqb parent d
            | None => false
            end)
        (forEach (removeChild parent) (childNodes (dom s) parent)) >>
      appendChild parent target
  end >>
  let* s := get in
  when (isIframeINode s target)
    (match List.find
             (fun m => Z.eqb (add_parentId m) (getId s (Some target)))
             (newDocumentQueue s) with
     | Some mutationInQueue =>
         attachDocumentToIframe mutationInQueue target >>
         modify (fun s =>
           set_newDocumentQueue
             (List.filter
                (fun m => negb (Z.eqb (sn_id (add_node m))
                                  (sn_id (add_node mutationInQueue))))
                (newDocumentQueue s)) s)
     | None => ret tt
     end >>
     let* targetDoc := iframe_contentDocument target in
     match targetDoc with
     | Some _ => call (InsertStyleRules target)
     | None => ret tt
     end) >>
  when (truthy (add_previousId mutation) || truthy (add_nextId mutation))
    (let* s := get in
     legacy_resolveMissingNode (S (size (legacy_missingNodeMap s)))
       parent target mutation).

(** [appendNode(mutation)], the closure of [applyMutation].  The plugin
    hooks of [afterAppend] are those of an empty [config.plugins]. *)
Definition appendNode (useVirtualParent : bool) (mutation : addedNodeMutation)
  : M unit :=
  let* s := get in
  match contentDocument s with
  | None => console_warn ReplayerDestroyed
  | Some contentDoc =>
      match getNode s (add_parentId mutation) with
      | None =>
          if isNodeType (sn_type (add_node mutation)) Document
          then modify (fun s =>
                 set_newDocumentQueue (newDocumentQueue s ++ [mutation]) s)
          else push_queue mutation
      | Some parent0 =>
          let* parent1 :=
            (if useVirtualParent then virtualize mutation contentDoc parent0
             else ret parent0) in
          let* s := get in
          let parent :=
            if sn_isShadow (add_node mutation) && hasShadowRoot s parent1
            then default parent1 (shadowRoot (nd s parent1))
            else parent1 in
          let previous :=
            if truthy (add_previousId mutation)
            then getNode s (default 0 (add_previousId mutation)) else None in
          let next :=
            if truthy (add_nextId mutation)
            then getNode s (default 0 (add_nextId mutation)) else None in
          if nextNotInDOM s mutation then push_queue mutation
          else if truthy (sn_rootId (add_node mutation))
                  && negb (is_Some_b
                             (getNode s (default 0 (sn_rootId (add_node mutation)))))
          then ret tt
          else
            let targetDoc :=
              if truthy (sn_rootId (add_node mutation))
              then getNode s (default 0 (sn_rootId (add_node mutation)))
              else Some contentDoc in
            if isIframeINode s parent
            then attachDocumentToIframe mutation parent
            else
              let* target := buildNodeWithSN (add_node mutation) targetDoc in
              if eqoz (add_previousId mutation) (-1)
                 || eqoz (add_nextId mutation) (-1)
              then
                modify (fun s =>
                  set_legacy_missingNodeMap
                    (<[sn_id (add_node mutation) := (target, mutation)]>
                       (legacy_missingNodeMap s)) s)
              else insertTarget mutation targetDoc parent previous next target
      end
  end.

(** *** Removes, texts and attributes *)

Definition removesId (d : mutationData) (id : Z) : bool :=
  existsb (fun r => Z.eqb (rm_id r) id) (removes d).

(** The body of [d.removes.forEach]. *)
Definition applyRemove (d : mutationData) (mutation : removedNodeMutation)
  : M unit :=
  let* s := get in
  match getNode s (rm_id mutation) with
  | None =>
      if removesId d (rm_parentId mutation) then ret tt
      else warnNodeNotFound d (rm_id mutation)
  | Some target =>
      when (assoc_has Nat.eqb target (virtualStyleRulesMap s))
        (modify (fun s =>
           set_virtualStyleRulesMap
             (assoc_del Nat.eqb target (virtualStyleRulesMap s)) s)) >>
      match getNode s (rm_parentId mutation) with
      | None => warnNodeNotFound d (rm_parentId mutation)
      | Some parent0 =>
          let parent1 :=
            if rm_isShadow mutation && hasShadowRoot s parent0
            then shadowRoot (nd s parent0) else Some parent0 in
          modify (fun s =>
            set_mirror
              (Mirror.removeNodeFromMap (dom s) (nodes s) (mirror s) target) s) >>
          match parent1 with
          | None => ret tt
          | Some parent =>
              let realParent :=
                if has__sn_atlas s parent
                then assoc_get Nat.eqb parent (fragmentParentMap s)
                else None in
              let* pt :=
                match realParent with
                | Some rp =>
                    if contains (dom s) rp target then ret (rp, target)
                    else
                      match assoc_get Nat.eqb target (fragmentParentMap s) with
                      | Some realTarget =>
                          modify (fun s =>
                            set_fragmentParentMap
                              (assoc_del Nat.eqb target (fragmentParentMap s)) s) >>
                          ret (parent, realTarget)
                      | None => ret (parent, target)
                      end
                | None =>
                    match assoc_get Nat.eqb target (fragmentParentMap s) with
                    | Some realTarget =>
                        modify (fun s =>
                          set_fragmentParentMap
                            (assoc_del Nat.eqb target (fragmentParentMap s)) s) >>
                        ret (parent, realTarget)
                    | None => ret (parent, target)
                    end
                end in
              tryCatch (removeChild (fst pt) (snd pt))
                (fun error =>
                   match error with
                   | DOMException _ =>
                       warn (CouldNotRemoveChild (fst pt) (snd pt))
                   | _ => throw error
                   end)
          end
      end
  end.

(** Content and attribute writes go to the real node behind a fragment. *)
Definition realTarget (s : St) (target : handle) : handle :=
  match assoc_get Nat.eqb target (fragmentParentMap s) with
  | Some real => real
  | None => target
  end.

(** The body of [d.texts.forEach]. *)
Definition applyText (d : mutationData) (mutation : textMutation) : M unit :=
  let* s := get in
  match getNode s (tx_id mutation) with
  | None =>
      if removesId d (tx_id mutation) then ret tt
      else warnNodeNotFound d (tx_id mutation)
  | Some target =>
      set_textContent (realTarget s target) (default "" (tx_value mutation))
  end.

(** One property of a [style] value. *)
Definition applyStyleValue (target : handle) (p : string * styleValue)
  : M unit :=
  match snd p with
  | StyleFalse => style_removeProperty target (fst p)
  | StylePriority v prio => style_setProperty target (fst p) v prio
  | StylePlain v => style_setProperty target (fst p) v ""
  end.

(** One attribute of an attribute mutation. *)
Definition applyAttributeValue (useVirtualParent : bool)
  (mutation : attributeMutation) (target : handle)
  (a : string * attributeValue) : M unit :=
  let attributeName := fst a in
  match snd a with
  | AttrNull =>
      removeAttribute target attributeName >>
      when (String.eqb attributeName "open")
        (call (RemoveDialogFromTopLevel target))
  | AttrString value =>
      tryCatch
        (setAttribute target attributeName value >>
         let* s := get in
         when (nodeNameIs s target "canvas")
           (if useVirtualParent
            then modify (fun s =>
                   set_canvasAttributes (canvasAttributes s ++ [mutation]) s)
            else call (ApplyCanvasDimensionStyles target attributeName value)) >>
         when (String.eqb attributeName "rr_open_mode"
               && nodeNameIs s target "dialog")
           (if useVirtualParent
            then modify (fun s => set_dialogs (dialogs s ++ [mutation]) s)
            else call (ApplyDialogToTopLevel target)))
        (fun error =>
           let* s := get in
           when (showWarning s) (console_warn (CheckoutError error)))
  | AttrStyle styleValues =>
      when (String.eqb attributeName "style")
        (forEach (applyStyleValue target) styleValues)
  end.

(** The body of [d.attributes.forEach]. *)
Definition applyAttribute (useVirtualParent : bool) (d : mutationData)
  (mutation : attributeMutation) : M unit :=
  let* s := get in
  match getNode s (at_id mutation) with
  | None =>
      if removesId d (at_id mutation) then ret tt
      else warnNodeNotFound d (at_id mutation)
  | Some target =>
      forEach
        (applyAttributeValue useVirtualParent mutation (realTarget s target))
        (at_attributes mutation)
  end.

(** *** The delta as a whole

    [applyMutation] runs the four handlers above.  To speak about the order
    in which mutations are handled, every call of a handler is recorded
    with the mutation it is given. *)

Inductive applied :=
| RemoveApplied (m : removedNodeMutation)
| AddApplied (m : addedNodeMutation)
| TextApplied (m : textMutation)
| AttributeApplied (m : attributeMutation).

Definition Traced (A : Type) : Type := St -> outcome A * St * list applied.

Definition retT {A : Type} (a : A) : Traced A := fun s => (Ret a, s, []).

Definition bindT {A B : Type} (m : Traced A) (k : A -> Traced B) : Traced B :=
  fun s =>
    match m s with
    | (Ret a, s', tr) =>
        match k a s' with (r, s'', tr') => (r, s'', tr ++ tr') end
    | (Throw e, s', tr) => (Throw e, s', tr)
    | (OutOfFuel, s', tr) => (OutOfFuel, s', tr)
    end.

Definition liftT {A : Type} (m : M A) : Traced A :=
  fun s => match m s with (r, s') => (r, s', []) end.

(** A handler call, recorded. *)
Definition handle_with (a : applied) (m : M unit) : Traced unit :=
  fun s => match m s with (r, s') => (r, s', [a]) end.

Definition tryCatchT {A : Type} (m : Traced A) (h : exn -> M A) : Traced A :=
  fun s =>
    match m s with
    | (Throw e, s', tr) => match h e s' with (r, s'') => (r, s'', tr) end
    | r => r
    end.

Notation "'let**' x := m 'in' k" := (bindT m (fun x => k))
  (at level 10, x name, m at level 100, k at level 200).

Notation "m >>> k" := (bindT m (fun _ => k))
  (at level 90, right associativity).

Definition forEachT {A : Type} (f : A -> Traced unit) : list A -> Traced unit :=
  fix go (l : list A) : Traced unit :=
    match l with
    | [] => retT tt
    | a :: r => f a >>> go r
    end.

(** One resolve tree of the requeue pass. *)
Definition resolveTree (useVirtualParent : bool) (tree : ResolveTree)
  : Traced unit :=
  let** s := liftT get in
  match getNode s (add_parentId (rt_value tree)) with
  | None => liftT (debug (DropResolveTree (rt_id tree)))
  | Some _ =>
      forEachT (fun m => handle_with (AddApplied m) (appendNode useVirtualParent m))
        (iterateResolveTree tree)
  end.

(** [while (queue.length) { ... }]; the loop leaves through the clock, so
    the model counts its rounds. *)
Fixpoint resolveLoop (rounds : nat) (useVirtualParent : bool) (startTime : Z)
  : Traced unit :=
  match rounds with
  | O => fun s => match queue s with
                  | [] => (Ret tt, s, [])
                  | _ => (OutOfFuel, s, [])
                  end
  | S rounds' =>
      let** s := liftT get in
      match queue s with
      | [] => retT tt
      | _ =>
          let resolveTrees := queueToResolveTrees (queue s) in
          liftT (modify (set_queue [])) >>>
          let** t := liftT Date_now in
          if Z.ltb 500 (t - startTime)
          then liftT (warn ResolveTimeout)
          else
            forEachT (resolveTree useVirtualParent) resolveTrees >>>
            resolveLoop rounds' useVirtualParent startTime
      end
  end.

(** [applyMutation(d, useVirtualParent)] *)
Definition applyMutation (rounds : nat) (d : mutationData)
  (useVirtualParent : bool) : Traced unit :=
  forEachT (fun m => handle_with (RemoveApplied m) (applyRemove d m))
    (removes d) >>>
  liftT (modify (fun s =>
    set_notVirtualStyles []
      (set_queue []
         (set_legacy_missingNodeMap (legacy_missingNodeRetryMap s) s)))) >>>
  forEachT (fun m => handle_with (AddApplied m) (appendNode useVirtualParent m))
    (adds d) >>>
  let** startTime := liftT Date_now in
  resolveLoop rounds useVirtualParent startTime >>>
  liftT (let* s := get in
         when (negb (Nat.eqb (size (legacy_missingNodeMap s)) 0))
           (modify (fun s =>
              set_legacy_missingNodeRetryMap
                (legacy_missingNodeMap s ∪ legacy_missingNodeRetryMap s) s))) >>>
  forEachT (fun m => handle_with (TextApplied m) (applyText d m)) (texts d) >>>
  forEachT
    (fun m => handle_with (AttributeApplied m) (applyAttribute useVirtualParent d m))
    (attributes d).

(** Modelled from the spec: [treeIndex.remove] of [utils.ts] (not among the
    sources) remembers the ids of the removed node and of its registered
    descendants. *)
Definition treeIndex_remove (m : removedNodeMutation) : M unit :=
  modify (fun s =>
    set_removeIdSet
      (removeIdSet s ++
         rm_id m ::
         match getNode s (rm_id m) with
         | Some h =>
             List.filter (fun z => negb (Z.eqb z (-1)))
               (map (fun x => getId s (Some x))
                  (tl (Mirror.subtree_handles (dom s) h)))
         | None => []
         end) s).

(** The [IncrementalSource.Mutation] case of [applyIncremental].  Under
    [isSync] the source also hands the adds, texts and attributes of the
    delta to [treeIndex.add], [treeIndex.text] and [treeIndex.attribute];
    these fill the tree of the index, which no handler of this case reads
    back, and are left out.  Only the removed ids, which [idRemoved] looks
    up, are kept. *)
Definition applyIncremental (rounds : nat) (d : mutationData) (isSync : bool)
  : Traced unit :=
  liftT (when isSync (forEach treeIndex_remove (removes d))) >>>
  tryCatchT (applyMutation rounds d isSync)
    (fun error => warn (ExceptionInMutation error)).

(** *** The Flush boundary *)

Definition debugNodeNotFound (id : Z) : M unit :=
  let* s := get in
  if idRemoved s id then debug (NodePreviouslyRemoved id)
  else debug (NodeNotFound id).

(** [applyDialog(d)] *)
Definition applyDialog (d : attributeMutation) : M unit :=
  let* s := get in
  match getNode s (at_id d) with
  | None => debugNodeNotFound (at_id d)
  | Some target =>
      match assoc_get String.eqb "open" (at_attributes d) with
      | Some AttrNull => call (RemoveDialogFromTopLevel target)
      | _ => call (ApplyDialogToTopLevel target)
      end
  end.

Definition applyCanvasDimensionStyles (d : attributeMutation) : M unit :=
  let* s := get in
  match getNode s (at_id d) with
  | None => ret tt
  | Some target =>
      forEach
        (fun a => match snd a with
                  | AttrString v =>
                      call (ApplyCanvasDimensionStyles target (fst a) v)
                  | _ => ret tt
                  end)
        (at_attributes d)
  end.

(** The handler of [ReplayerEvents.Flush], for the caches that mutations
    fill.  The loops over [scrollMap] and [inputMap], which scroll and
    input events fill and [applyScroll] and [applyInput] play, stand
    between the clearing of the three maps and the dialogs in the source
    and are left out: no mutation writes these two maps. *)
Definition Flush : M unit :=
  let* s := get in
  let dialogMap := dialogs s in
  let canvasAttributesMap := canvasAttributes s in
  modify (fun s => set_dialogs [] (set_canvasAttributes [] s)) >>
  forEach (fun fp => restoreRealParent (fst fp) (snd fp))
    (fragmentParentMap s) >>
  (let* s := get in
   forEach restoreNodeSheet (map fst (virtualStyleRulesMap s))) >>
  modify (fun s =>
    set_fragmentParentMap []
      (set_elementStateMap ∅ (set_virtualStyleRulesMap [] s))) >>
  forEach applyDialog dialogMap >>
  forEach applyCanvasDimensionStyles canvasAttributesMap.

(** *** Construction *)

(** The part of [Partial<playerConfig>] that the model reads. *)
Record playerConfig := mkConfig {
  liveMode : option bool;
  cfg_showWarning : option bool;
  cfg_showDebug : option bool
}.

(** What [setupDom] finds in the page. *)
Record Browser := mkBrowser {
  b_dom : forest;
  b_nodes : gmap handle ndata;
  b_fresh : handle;
  b_contentDocument : option handle;
  b_clock : list Z
}.

Definition isSet (o : option bool) : bool := default false o.

(** [new Replayer(originalEvents, config)]: the guard on the number of
    events, then the defaults and the empty caches. *)
Definition constructor {E : Type} (originalEvents : list E)
  (config : option playerConfig) (b : Browser) : exn + St :=
  if negb (isSet (match config with Some c => liveMode c | None => None end))
     && (length originalEvents <? 2)%nat
  then inl (Error "Replayer need at least 2 events.")
  else
    inr (mkSt (b_dom b) (b_nodes b) (b_fresh b) (b_contentDocument b)
           (b_clock b) 0
           (default true (match config with
                          | Some c => cfg_showWarning c
                          | None => None
                          end))
           (default false (match config with
                           | Some c => cfg_showDebug c
                           | None => None
                           end))
           ∅ [] ∅ [] ∅ [] [] [] [] [] ∅ [] [] []).

End Replay.

(** ** The mutation buffer *)

Module Capture.
Import Dom Wire Node.

(** A raw notification of the observation source. *)
Inductive mutationRecord :=
| CharacterData (target : handle) (oldValue : option string)
| Attributes (target : handle) (attributeName : string)
    (oldValue : option string)
| ChildList (target : handle) (addedNodes removedNodes : list handle).

Record textCursor := mkTextCursor {
  tc_node : handle;
  tc_value : option string
}.

Record attributeCursor := mkAttributeCursor {
  ac_node : handle;
  ac_attributes : list (string * attributeValue)
}.

(** The page as the observer callback finds it: the notifications are
    delivered after the changes, so the trees are those of the end of the
    batch.  During [emit] only the marks of the serializer and the identity
    map change. *)
Record Page := mkPage {
  dom : forest;  (* the trees of the page, attached or not *)
  nodes : gmap handle ndata;  (* data of every node *)
  doc : handle;  (* [this.doc] *)
  mirror : gmap Z handle;  (* [this.mirror.map] *)
  nextId : Z  (* the counter behind [genId()] *)
}.

Definition pg_set_dom (v : forest) (p : Page) : Page :=
  mkPage v (nodes p) (doc p) (mirror p) (nextId p).

Definition pg_set_nodes (v : gmap handle ndata) (p : Page) : Page :=
  mkPage (dom p) v (doc p) (mirror p) (nextId p).

Definition pg_set_doc (v : handle) (p : Page) : Page :=
  mkPage (dom p) (nodes p) v (mirror p) (nextId p).

Definition pg_set_mirror (v : gmap Z handle) (p : Page) : Page :=
  mkPage (dom p) (nodes p) (doc p) v (nextId p).

Definition pg_set_nextId (v : Z) (p : Page) : Page :=
  mkPage (dom p) (nodes p) (doc p) (mirror p) v.

(** A JavaScript [Set] keeps the order of insertion. *)
Definition set_add (x : handle) (l : list handle) : list handle :=
  if mem x l then l else l ++ [x].

Definition set_delete (x : handle) (l : list handle) : list handle :=
  List.filter (fun y => negb (Nat.eqb y x)) l.

Record MutationBuffer := mkBuffer {
  frozen : bool;
  locked : bool;
  texts : list textCursor;
  attributes : list attributeCursor;
  removes : list removedNodeMutation;
  mapRemoves : list handle;
  movedMap : list (Z * Z);  (* the keys [id@parentId] *)
  addedSet : list handle;
  movedSet : list handle;
  droppedSet : list handle
}.

Definition set_frozen (v : bool) (b : MutationBuffer) : MutationBuffer :=
  mkBuffer v (locked b) (texts b) (attributes b) (removes b) (mapRemoves b)
    (movedMap b) (addedSet b) (movedSet b) (droppedSet b).

Definition set_locked (v : bool) (b : MutationBuffer) : MutationBuffer :=
  mkBuffer (frozen b) v (texts b) (attributes b) (removes b) (mapRemoves b)
    (movedMap b) (addedSet b) (movedSet b) (droppedSet b).

Definition set_texts (v : list textCursor) (b : MutationBuffer) : MutationBuffer :=
  mkBuffer (frozen b) (locked b) v (attributes b) (removes b) (mapRemoves b)
    (movedMap b) (addedSet b) (movedSet b) (droppedSet b).

Definition set_attributes (v : list attributeCursor) (b : MutationBuffer) : MutationBuffer :=
  mkBuffer (frozen b) (locked b) (texts b) v (removes b) (mapRemoves b)
    (movedMap b) (addedSet b) (movedSet b) (droppedSet b).

Definition set_removes (v : list removedNodeMutation) (b : MutationBuffer) : MutationBuffer :=
  mkBuffer (frozen b) (locked b) (texts b) (attributes b) v (mapRemoves b)
    (movedMap b) (addedSet b) (movedSet b) (droppedSet b).

Definition set_mapRemoves (v : list handle) (b : MutationBuffer) : MutationBuffer :=
  mkBuffer (frozen b) (locked b) (texts b) (attributes b) (removes b) v
    (movedMap b) (addedSet b) (movedSet b) (droppedSet b).

Definition set_movedMap (v : list (Z * Z)) (b : MutationBuffer) : MutationBuffer :=
  mkBuffer (frozen b) (locked b) (texts b) (attributes b) (removes b)
    (mapRemoves b) v (addedSet b) (movedSet b) (droppedSet b).

Definition set_addedSet (v : list handle) (b : MutationBuffer) : MutationBuffer :=
  mkBuffer (frozen b) (locked b) (texts b) (attributes b) (removes b)
    (mapRemoves b) (movedMap b) v (movedSet b) (droppedSet b).

Definition set_movedSet (v : list handle) (b : MutationBuffer) : MutationBuffer :=
  mkBuffer (frozen b) (locked b) (texts b) (attributes b) (removes b)
    (mapRemoves b) (movedMap b) (addedSet b) v (droppedSet b).

Definition set_droppedSet (v : list handle) (b : MutationBuffer) : MutationBuffer :=
  mkBuffer (frozen b) (locked b) (texts b) (attributes b) (removes b)
    (mapRemoves b) (movedMap b) (addedSet b) (movedSet b) v.

(** The collaborators of the buffer, at their interface: the masking
    functions, the attribute transform of rrweb-snapshot, the style parser
    of the host and the slim-DOM policy of the serializer. *)
Record Collaborators := mkCollaborators {
  needMaskingText : handle -> bool;
  maskTextFn : option (string -> string);
  maskInputValue : handle -> option string -> option string;
  transformAttribute : string -> string -> option string -> option string;
  maskImage : handle -> list (string * attributeValue)
              -> list (string * attributeValue);
  parseStyle : string -> list (string * (string * string));
  matchesModal : handle -> bool;
  slimDOMExcluded : handle -> bool
}.

Definition nd (p : Page) (h : handle) : ndata :=
  match nodes p !! h with Some d => d | None => blank KComment end.

Definition getId (p : Page) (n : option handle) : Z :=
  Mirror.getId (nodes p) n.

(** [isINode(n)]: ['__sn_atlas' in n] *)
Definition isINode (p : Page) (n : handle) : bool :=
  match sn (nd p n) with Some _ => true | None => false end.

(** Modelled from the spec: [isIgnored], [isBlocked] and [isAncestorRemoved]
    of [utils.ts] and [isShadowRoot] of rrweb-snapshot (not among the
    sources).  A node is ignored when the serializer marked it with the
    ignored id; blocked when it lies in a blocked subtree; its ancestor is
    removed when a node on the way up is no longer in the identity map or
    the way up does not end at the document; a shadow root is the
    [shadowRoot] of its [host]. *)
Definition isIgnored (p : Page) (n : handle) : bool :=
  match sn (nd p n) with
  | Some s => Z.eqb (sn_id s) IGNORED_NODE
  | None => false
  end.

Definition isBlocked (p : Page) (n : handle) : bool :=
  existsb (fun h => blockClass (nd p h)) (n :: ancestors (dom p) n).

Definition isShadowRoot (p : Page) (n : handle) : bool :=
  match host (nd p n) with
  | Some h => match shadowRoot (nd p h) with
              | Some r => Nat.eqb r n
              | None => false
              end
  | None => false
  end.

Definition isAncestorRemoved (p : Page) (target : handle) : bool :=
  (fix go (chain : list handle) : bool :=
     match chain with
     | [] => false
     | h :: r =>
         if isShadowRoot p h then false
         else if negb (Mirror.has (mirror p) (getId p (Some h))) then true
         else match r with
              | [] => negb (isKind (kind (nd p h)) KDocument)
              | _ => go r
              end
     end) (target :: ancestors (dom p) target).

Definition moveKey (id parentId : Z) : Z * Z := (id, parentId).

Definition hasKey (k : Z * Z) (l : list (Z * Z)) : bool :=
  existsb (fun x => Z.eqb (fst x) (fst k) && Z.eqb (snd x) (snd k)) l.

(** [deepDelete(addsSet, n)] *)
Definition deepDelete (p : Page) (addsSet : list handle) (n : handle)
  : list handle :=
  fold_left (fun acc h => set_delete h acc) (Mirror.subtree_handles (dom p) n)
    addsSet.

(** [isParentRemoved(removes, n, mirror)] *)
Definition isParentRemoved (p : Page) (removes : list removedNodeMutation)
  (n : handle) : bool :=
  existsb
    (fun parentNode =>
       existsb (fun r => Z.eqb (rm_id r) (getId p (Some parentNode))) removes)
    (ancestors (dom p) n).

(** [isAncestorInSet(set, n)] *)
Definition isAncestorInSet (p : Page) (set : list handle) (n : handle) : bool :=
  existsb (fun parentNode => mem parentNode set) (ancestors (dom p) n).

(** [genAdds(n, target)], over the tree of [n]. *)
Fixpoint genAdds_tree (p : Page) (target : option handle) (t : tree)
  (b : MutationBuffer) : MutationBuffer :=
  match t with
  | T n ks =>
      if match target with Some tg => isBlocked p tg | None => false end
      then b
      else
        let descend (b' : MutationBuffer) :=
          if negb (isBlocked p n)
          then fold_left (fun acc childN => genAdds_tree p None childN acc) ks b'
          else b' in
        if isINode p n then
          if isIgnored p n then b
          else
            let targetId :=
              match target with
              | Some tg => if isINode p tg then Some (getId p (Some tg)) else None
              | None => None
              end in
            descend
              ((if truthy targetId
                then set_movedMap
                       (movedMap b ++ [moveKey (getId p (Some n)) (default 0 targetId)])
                else fun x => x)
                 (set_movedSet (set_add n (movedSet b)) b))
        else
          descend
            (set_droppedSet (set_delete n (droppedSet b))
               (set_addedSet (set_add n (addedSet b)) b))
  end.

Definition genAdds (p : Page) (n : handle) (target : option handle)
  (b : MutationBuffer) : MutationBuffer :=
  match subtree (dom p) n with
  | Some t => genAdds_tree p target t b
  | None => genAdds_tree p target (T n []) b
  end.

(** One removed node of a [childList] record. *)
Definition removedNode (p : Page) (target : handle) (b : MutationBuffer)
  (n : handle) : MutationBuffer :=
  let nodeId := getId p (Some n) in
  let parentId :=
    if isShadowRoot p target then getId p (host (nd p target))
    else getId p (Some target) in
  if isBlocked p target || isIgnored p n then b
  else
    set_mapRemoves (mapRemoves b ++ [n])
      (if mem n (addedSet b)
       then set_droppedSet (set_add n (droppedSet b))
              (set_addedSet (deepDelete p (addedSet b) n) b)
       else if mem target (addedSet b) && Z.eqb nodeId (-1) then b
       else if isAncestorRemoved p target then b
       else if mem n (movedSet b) && hasKey (moveKey nodeId parentId) (movedMap b)
       then set_movedSet (deepDelete p (movedSet b) n) b
       else set_removes
              (removes b ++ [mkRemove parentId nodeId (isShadowRoot p target)]) b).

(** Strings are the UTF-8 bytes of the JavaScript strings, which are
    sequences of UTF-16 code units: a character of one to three bytes is
    one code unit, a character of four bytes is two (a surrogate pair). *)
Definition byte (c : Ascii.ascii) : Z := Z.of_N (Ascii.N_of_ascii c).

Definition isContinuation (c : Ascii.ascii) : bool :=
  ((128 <=? byte c) && (byte c <? 192))%Z.

(** The code unit of a character of one, two or three bytes. *)
Definition codeUnit1 (a : Ascii.ascii) : Z := byte a.

Definition codeUnit2 (a b : Ascii.ascii) : Z :=
  ((byte a - 192) * 64 + (byte b - 128))%Z.

Definition codeUnit3 (a b c : Ascii.ascii) : Z :=
  ((byte a - 224) * 4096 + (byte b - 128) * 64 + (byte c - 128))%Z.

(** The code units that [\s] matches, the white space and the line
    terminators of ECMAScript: U+0009 to U+000D, U+0020, U+00A0, U+1680,
    U+2000 to U+200A, U+2028, U+2029, U+202F, U+205F, U+3000 and U+FEFF. *)
Definition isWhiteSpace (u : Z) : bool :=
  ((9 <=? u) && (u <=? 13) || Z.eqb u 32 || Z.eqb u 160 || Z.eqb u 5760
   || (8192 <=? u) && (u <=? 8202) || Z.eqb u 8232 || Z.eqb u 8233
   || Z.eqb u 8239 || Z.eqb u 8287 || Z.eqb u 12288 || Z.eqb u 65279)%Z.

(** [value.replace(/[\S]/g, '*')]: every code unit that is not white space
    becomes a star.  A byte that starts no well-formed character counts as
    one code unit. *)
Fixpoint maskStars (s : string) : string :=
  match s with
  | EmptyString => EmptyString
  | String a r =>
      let one := String "*"%char (maskStars r) in
      if (byte a <? 128)%Z
      then if isWhiteSpace (codeUnit1 a) then String a (maskStars r) else one
      else
        match r with
        | EmptyString => one
        | String b r1 =>
            if ((194 <=? byte a) && (byte a <? 224))%Z && isContinuation b
            then if isWhiteSpace (codeUnit2 a b)
                 then String a (String b (maskStars r1))
                 else String "*"%char (maskStars r1)
            else
              match r1 with
              | EmptyString => one
              | String c r2 =>
                  if ((224 <=? byte a) && (byte a <? 240))%Z && isContinuation b
                     && isContinuation c
                  then if isWhiteSpace (codeUnit3 a b c)
                       then String a (String b (String c (maskStars r2)))
                       else String "*"%char (maskStars r2)
                  else
                    match r2 with
                    | EmptyString => one
                    | String d r3 =>
                        if ((240 <=? byte a) && (byte a <? 248))%Z
                           && isContinuation b && isContinuation c
                           && isContinuation d
                        then String "*"%char (String "*"%char (maskStars r3))
                        else one
                    end
              end
        end
  end.

Definition getAttribute (p : Page) (h : handle) (name : string)
  : option string :=
  assoc_get String.eqb name (attrs (nd p h)).

Definition toAttr (v : option string) : attributeValue :=
  match v with Some s => AttrString s | None => AttrNull end.

Definition attrValue_eqb (a b : attributeValue) : bool :=
  match a, b with
  | AttrNull, AttrNull => true
  | AttrString x, AttrString y => String.eqb x y
  | _, _ => false
  end.

Definition option_string_eqb (a b : option string) : bool :=
  match a, b with
  | Some x, Some y => String.eqb x y
  | None, None => true
  | _, _ => false
  end.

(** The [style] branch: the properties that differ from the old value. *)
Definition styleDelta (c : Collaborators) (p : Page) (target : handle)
  (oldValue : option string) (styleObj : list (string * styleValue))
  : list (string * styleValue) :=
  let old :=
    match oldValue with
    | Some v => if String.eqb v "" then [] else parseStyle c v
    | None => []
    end in
  let current := style (nd p target) in
  let changed :=
    fold_left
      (fun obj pv =>
         let '(pname, (newValue, newPriority)) := pv in
         let '(oldV, oldP) := default ("", "") (assoc_get String.eqb pname old) in
         if negb (String.eqb newValue oldV) || negb (String.eqb newPriority oldP)
         then assoc_set String.eqb pname
                (if String.eqb newPriority "" then StylePlain newValue
                 else StylePriority newValue newPriority) obj
         else obj)
      current styleObj in
  fold_left
    (fun obj pv =>
       if String.eqb (fst (default ("", "") (assoc_get String.eqb (fst pv) current))) ""
       then assoc_set String.eqb (fst pv) StyleFalse obj
       else obj)
    old changed.

(** The [attributes] case of [processMutation]. *)
Definition processAttributes (c : Collaborators) (p : Page) (target : handle)
  (attributeName : string) (oldValue : option string) (b : MutationBuffer)
  : MutationBuffer :=
  let tagName := tag (nd p target) in
  let value0 := getAttribute p target attributeName in
  let value :=
    if String.eqb attributeName "value" then maskInputValue c target value0
    else value0 in
  if isBlocked p target || option_string_eqb value oldValue then b
  else
    let existing :=
      List.find (fun a => Nat.eqb (ac_node a) target) (attributes b) in
    let item0 := match existing with Some a => ac_attributes a | None => [] end in
    let item1 :=
      if String.eqb attributeName "style"
      then
        let styleObj :=
          match assoc_get String.eqb "style" item0 with
          | Some (AttrStyle l) => l
          | _ => []
          end in
        assoc_set String.eqb "style"
          (AttrStyle (styleDelta c p target oldValue styleObj)) item0
      else
        assoc_set String.eqb attributeName
          (toAttr (transformAttribute c tagName attributeName value)) item0 in
    let item2 :=
      if String.eqb attributeName "open" && String.eqb tagName "dialog"
      then assoc_set String.eqb "rr_open_mode"
             (AttrString (if matchesModal c target then "modal" else "non-modal"))
             item1
      else item1 in
    let item3 :=
      if String.eqb tagName "img"
      then
        if needMaskingText c target
        then fold_left (fun it kv => assoc_set String.eqb (fst kv) (snd kv) it)
               (maskImage c target item2) item2
        else
          fold_left
            (fun it attr =>
               let attributeNewValue :=
                 toAttr (transformAttribute c tagName attr
                           (Some (default "" (getAttribute p target attr)))) in
               match assoc_get String.eqb attr it with
               | Some cur => if attrValue_eqb cur attributeNewValue then it
                             else assoc_set String.eqb attr attributeNewValue it
               | None => assoc_set String.eqb attr attributeNewValue it
               end)
            (List.filter (fun a => negb (String.eqb a attributeName))
               ["src"; "srcset"; "alt"])
            item2
      else item2 in
    set_attributes
      (match existing with
       | Some _ =>
           map (fun a => if Nat.eqb (ac_node a) target
                         then mkAttributeCursor target item3 else a)
             (attributes b)
       | None => attributes b ++ [mkAttributeCursor target item3]
       end) b.

(** [processMutation(m)] *)
Definition processMutation (c : Collaborators) (p : Page)
  (b : MutationBuffer) (m : mutationRecord) : MutationBuffer :=
  match m with
  | CharacterData target oldValue =>
      if isIgnored p target then b
      else
        let value := cdata (nd p target) in
        if negb (isBlocked p target)
           && negb (option_string_eqb (Some value) oldValue)
        then set_texts
               (texts b ++
                  [mkTextCursor target
                     (Some (if needMaskingText c target
                               && negb (String.eqb value "")
                            then match maskTextFn c with
                                 | Some f => f value
                                 | None => maskStars value
                                 end
                            else value))]) b
        else b
  | Attributes target attributeName oldValue =>
      if isIgnored p target then b
      else processAttributes c p target attributeName oldValue b
  | ChildList target addedNodes removedNodes =>
      if isIgnored p target then b
      else
        fold_left (removedNode p target) removedNodes
          (fold_left (fun acc n => genAdds p n (Some target) acc) addedNodes b)
  end.

(** *** Emission *)

(** What [emit] hands to the emission callback. *)
Record payload := mkPayload {
  pl_texts : list textMutation;
  pl_attributes : list attributeMutation;
  pl_removes : list removedNodeMutation;
  pl_adds : list addedNodeMutation
}.

(** What [emit] does to the world outside the buffer and the page. *)
Inductive effect :=
| EmissionCallback (p : payload)
| ConsoleOutput (text : string)
| ClockRead.

Definition typeOfKind (k : nodeKind) : option NodeType :=
  match k with
  | KDocument => Some Document
  | KDoctype => Some DocumentType
  | KElement => Some Element
  | KText => Some Text
  | KComment => Some Comment
  | KFragment => None
  end.

(** Modelled from the spec: [serializeNodeWithId] of rrweb-snapshot (not
    among the sources), called with [skipChild: true]: a live node gives
    [{id, type, tag/value}], children omitted, or null if it is filtered by
    policy.  A node keeps the id it carries; a new node takes the next id,
    or the ignored id when the policy excludes it; the node is marked with
    its serialized form and, unless ignored, registered in the identity
    map. *)
Definition serializeNodeWithId (c : Collaborators) (p : Page) (n : handle)
  : option serializedNode * Page :=
  match typeOfKind (kind (nd p n)) with
  | None => (None, p)
  | Some ty =>
      let id :=
        match sn (nd p n) with
        | Some s => sn_id s
        | None => if slimDOMExcluded c n then IGNORED_NODE else nextId p
        end in
      let serialized :=
        mkSN id ty (tag (nd p n)) (attrs (nd p n)) (cdata (nd p n))
          false (match shadowRoot (nd p n) with Some _ => true | None => false end) None in
      let p1 :=
        pg_set_nextId
          (match sn (nd p n) with
           | Some _ => nextId p
           | None => if slimDOMExcluded c n then nextId p else nextId p + 1
           end)
          (pg_set_nodes (alter (with_sn (Some serialized)) n (nodes p)) p) in
      if Z.eqb id IGNORED_NODE then (None, p1)
      else (Some serialized, pg_set_mirror (<[id := n]> (mirror p1)) p1)
  end.

(** The state of one run of [emit]: the page, the adds collected so far
    (each with the node it serializes) and the pending list.  The pending
    list [addList] is the [DoubleLinkedList], from its head. *)
Record Emitting := mkEmitting {
  page : Page;
  adds : list (handle * addedNodeMutation);
  addList : list handle
}.

(** [getNextId(n)]: the id of the first following sibling that is not
    ignored, or null. *)
Definition getNextId (p : Page) (n : handle) : option Z :=
  (fix go (following : list handle) : option Z :=
     match following with
     | [] => None
     | ns :: r =>
         if Z.eqb (getId p (Some ns)) IGNORED_NODE then go r
         else Some (getId p (Some ns))
     end)
    ((fix drop (l : list handle) : list handle :=
        match l with
        | [] => []
        | a :: r => if Nat.eqb a n then r else drop r
        end) (siblings (dom p) n)).

(** [addList.addNode(n)] *)
Fixpoint insert_after (x n : handle) (l : list handle) : list handle :=
  match l with
  | [] => []
  | a :: r => if Nat.eqb a x then a :: n :: r else a :: insert_after x n r
  end.

Fixpoint insert_ahead (x n : handle) (l : list handle) : list handle :=
  match l with
  | [] => []
  | a :: r => if Nat.eqb a x then n :: a :: r else a :: insert_ahead x n r
  end.

Definition addNode (p : Page) (n : handle) (l : list handle) : list handle :=
  match previousSibling (dom p) n with
  | Some prev =>
      if mem prev l then insert_after prev n l
      else match nextSibling (dom p) n with
           | Some next =>
               if mem next (tl l) then insert_ahead next n l else n :: l
           | None => n :: l
           end
  | None =>
      match nextSibling (dom p) n with
      | Some next => if mem next (tl l) then insert_ahead next n l else n :: l
      | None => n :: l
      end
  end.

(** [addList.removeNode(n)] *)
Fixpoint removeNode (n : handle) (l : list handle) : list handle :=
  match l with
  | [] => []
  | a :: r => if Nat.eqb a n then r else a :: removeNode n r
  end.

(** [n.getRootNode().host] *)
Definition shadowHostOf (p : Page) (n : handle) : option handle :=
  host (nd p (getRootNode (dom p) n)).

(** [notInDoc] of [pushAdd]: neither the node nor the host of its shadow
    tree is in the document. *)
Definition notInDoc (p : Page) (n : handle) : bool :=
  negb (contains (dom p) (doc p) n)
  && match shadowHostOf p n with
     | Some h => negb (contains (dom p) (doc p) h)
     | None => true
     end.

(** [pushAdd(n)].  The notifications to the sub-document and shadow-tree
    registrars are left out. *)
Definition pushAdd (c : Collaborators) (n : handle) (e : Emitting) : Emitting :=
  let p := page e in
  let shadowHost := shadowHostOf p n in
  match parentNode (dom p) n with
  | None => e
  | Some parent =>
      if notInDoc p n then e
      else
        let parentId :=
          if isShadowRoot p parent then getId p shadowHost
          else getId p (Some parent) in
        let nextId := getNextId p n in
        if Z.eqb parentId (-1) || eqoz nextId (-1)
        then mkEmitting p (adds e) (addNode p n (addList e))
        else
          match serializeNodeWithId c p n with
          | (Some sn, p') =>
              mkEmitting p' (adds e ++ [(n, mkAdd parentId None nextId sn)])
                (addList e)
          | (None, p') => mkEmitting p' (adds e) (addList e)
          end
  end.

(** The test of the resolution loop on a pending entry. *)
Definition resolvable (p : Page) (n : handle) : bool :=
  negb (Z.eqb (getId p (parentNode (dom p) n)) (-1))
  && negb (eqoz (getNextId p n) (-1)).

(** The scan [for (index = length - 1; index >= 0; index--)]. *)
Definition scanFromTail (p : Page) (l : list handle) : option handle :=
  List.find (resolvable p) (rev l).

(** [while (addList.length) { ... }].  [dropped] collects the entries that
    the loop discards when a pass resolves nothing. *)
Fixpoint resolveAddList (fuel : nat) (c : Collaborators)
  (candidate : option handle) (e : Emitting)
  : option (Emitting * list handle) :=
  match addList e with
  | [] => Some (e, [])
  | _ =>
      match fuel with
      | O => None
      | S fuel' =>
          let fromCandidate :=
            match candidate with
            | Some cd => if resolvable (page e) cd then Some cd else None
            | None => None
            end in
          let node :=
            match fromCandidate with
            | Some cd => Some cd
            | None => scanFromTail (page e) (addList e)
            end in
          match node with
          | None => Some (mkEmitting (page e) (adds e) [], addList e)
          | Some n =>
              resolveAddList fuel' c (before n (addList e))
                (pushAdd c n
                   (mkEmitting (page e) (adds e) (removeNode n (addList e))))
          end
      end
  end.

(** The loop over [movedSet]. *)
Definition emitMoved (c : Collaborators) (b : MutationBuffer) (e : Emitting)
  : Emitting :=
  fold_left
    (fun e n =>
       if isParentRemoved (page e) (removes b) n
          && negb (match parentNode (dom (page e)) n with
                   | Some parent => mem parent (movedSet b)
                   | None => false
                   end)
       then e
       else pushAdd c n e)
    (movedSet b) e.

(** The loop over [addedSet]; it also fills [droppedSet]. *)
Definition emitAdded (c : Collaborators) (b : MutationBuffer) (e : Emitting)
  : Emitting * list handle :=
  fold_left
    (fun (st : Emitting * list handle) n =>
       let '(e, dropped) := st in
       if negb (isAncestorInSet (page e) dropped n)
          && negb (isParentRemoved (page e) (removes b) n)
       then (pushAdd c n e, dropped)
       else if isAncestorInSet (page e) (movedSet b) n
       then (pushAdd c n e, dropped)
       else (e, set_add n dropped))
    (addedSet b) (e, droppedSet b).

Definition composeTexts (p : Page) (l : list textCursor) : list textMutation :=
  List.filter (fun t => Mirror.has (mirror p) (tx_id t))
    (map (fun t => mkText (getId p (Some (tc_node t))) (tc_value t)) l).

Definition composeAttributes (p : Page) (l : list attributeCursor)
  : list attributeMutation :=
  List.filter (fun a => Mirror.has (mirror p) (at_id a))
    (map (fun a => mkAttr (getId p (Some (ac_node a))) (ac_attributes a)) l).

Definition isEmpty {A : Type} (l : list A) : bool :=
  match l with [] => true | _ => false end.

(** The outcome of one call of [emit]. *)
Record Emitted := mkEmitted {
  buffer : MutationBuffer;
  after : Page;
  effects : list effect;
  sources : list handle;  (* the nodes behind the adds of the payload *)
  discarded : list handle (* the pending entries dropped unresolved *)
}.

(** The first half of [emit]: the deferred removals from the identity map,
    the loops over [movedSet] and [addedSet] and the resolution of the
    pending list. *)
Definition collect (fuel : nat) (c : Collaborators) (p : Page)
  (b : MutationBuffer) : option (MutationBuffer * Emitting * list handle) :=
  let p0 :=
    fold_left
      (fun p n => pg_set_mirror
                    (Mirror.removeNodeFromMap (dom p) (nodes p) (mirror p) n) p)
      (mapRemoves b) p in
  let b0 := set_mapRemoves [] b in
  let e1 := emitMoved c b0 (mkEmitting p0 [] []) in
  let '(e2, dropped) := emitAdded c b0 e1 in
  match resolveAddList fuel c None e2 with
  | None => None
  | Some (e3, gone) => Some (set_droppedSet dropped b0, e3, gone)
  end.

(** [const payload = { texts, attributes, removes, adds }] *)
Definition compose (b : MutationBuffer) (e : Emitting) : payload :=
  mkPayload (composeTexts (page e) (texts b))
    (composeAttributes (page e) (attributes b))
    (removes b) (map snd (adds e)).

Definition isEmptyPayload (pl : payload) : bool :=
  isEmpty (pl_texts pl) && isEmpty (pl_attributes pl)
  && isEmpty (pl_removes pl) && isEmpty (pl_adds pl).

(** The reset of the buffers. *)
Definition resetBuffers (b : MutationBuffer) : MutationBuffer :=
  set_movedMap []
    (set_droppedSet []
       (set_movedSet []
          (set_addedSet []
             (set_removes [] (set_attributes [] (set_texts [] b)))))).

(** [emit()] *)
Definition emit (fuel : nat) (c : Collaborators) (p : Page)
  (b : MutationBuffer) : option Emitted :=
  if frozen b || locked b then Some (mkEmitted b p [] [] [])
  else
    match collect fuel c p b with
    | None => None
    | Some (b1, e3, gone) =>
        let pl := compose b1 e3 in
        if isEmptyPayload pl
        then Some (mkEmitted b1 (page e3) [] [] gone)
        else Some (mkEmitted (resetBuffers b1) (page e3) [EmissionCallback pl]
                     (map fst (adds e3)) gone)
    end.

(** [processMutations(mutations)] *)
Definition processMutations (fuel : nat) (c : Collaborators) (p : Page)
  (b : MutationBuffer) (mutations : list mutationRecord) : option Emitted :=
  emit fuel c p (fold_left (processMutation c p) mutations b).

(** [freeze], [unfreeze], [lock] and [unlock]; the canvas manager that
    follows them is a collaborator. *)
Definition freeze (b : MutationBuffer) : MutationBuffer := set_frozen true b.

Definition unfreeze (fuel : nat) (c : Collaborators) (p : Page)
  (b : MutationBuffer) : option Emitted :=
  emit fuel c p (set_frozen false b).

Definition lock (b : MutationBuffer) : MutationBuffer := set_locked true b.

Definition unlock (fuel : nat) (c : Collaborators) (p : Page)
  (b : MutationBuffer) : option Emitted :=
  emit fuel c p (set_locked false b).

End Capture.

(** ** What the theorems speak about *)

Module Statements.
Import Dom Wire Node.

(** *** Replay *)

(** The place of a handler call in the order removes, adds, texts,
    attributes. *)
Definition phase (a : Replay.applied) : nat :=
  match a with
  | Replay.RemoveApplied _ => 0
  | Replay.AddApplied _ => 1
  | Replay.TextApplied _ => 2
  | Replay.AttributeApplied _ => 3
  end.

Definition isAdd (a : Replay.applied) : Prop :=
  match a with Replay.AddApplied _ => True | _ => False end.



(** What can be seen of a tree: per node its id, kind, tag, attributes,
    inline style, character data, scroll offsets, style rules and value,
    and its children in order. *)
#[warnings="-register-all"]
Inductive view :=
  View (id : Z) (k : nodeKind) (tag : string) (attrs : list (string * string))
    (style : list (string * (string * string))) (cdata : string)
    (scroll : Z * Z) (rules : list string) (value : option string)
    (kids : list view).

Fixpoint viewOf (nodes : gmap handle ndata) (t : tree) : view :=
  match t with
  | T h ks =>
      let d := match nodes !! h with Some d => d | None => blank KComment end in
      View (Mirror.getId nodes (Some h)) (kind d) (tag d) (attrs d) (style d)
        (cdata d) (scroll d) (rules d) (value d) (map (viewOf nodes) ks)
  end.

(** The replayed document, as it can be seen. *)
Definition documentView (s : Replay.St) : option view :=
  match Replay.contentDocument s with
  | Some d =>
      match subtree (Replay.dom s) d with
      | Some t => Some (viewOf (Replay.nodes s) t)
      | None => None
      end
  | None => None
  end.


(** The claim that an exception that leaves [applyMutation] reaches the
    caller of [applyIncremental]. *)
Definition mutation_exceptions_propagate : Prop :=
  forall (rounds : nat) (d : mutationData) (isSync : bool) (s : Replay.St)
    (e : Replay.exn),
    fst (fst (Replay.applyMutation rounds d isSync s)) = Replay.Throw e ->
    fst (fst (Replay.applyIncremental rounds d isSync s)) = Replay.Throw e.






(** *** Capture *)

(** The claim that the entries which the resolution loop discards are
    logged. *)
Definition discards_are_logged : Prop :=
  forall (fuel : nat) (c : Capture.Collaborators) (p : Capture.Page)
    (b : Capture.MutationBuffer) (r : Capture.Emitted),
    Capture.emit fuel c p b = Some r ->
    Capture.discarded r <> [] ->
    exists text, In (Capture.ConsoleOutput text) (Capture.effects r).

(** The claim that the resolution loop consults the clock. *)
Definition loop_reads_the_clock : Prop :=
  forall (fuel : nat) (c : Capture.Collaborators) (p : Capture.Page)
    (b : Capture.MutationBuffer) (r : Capture.Emitted),
    Capture.emit fuel c p b = Some r ->
    Capture.discarded r <> [] ->
    In Capture.ClockRead (Capture.effects r).


(** A shadow root is a document fragment, which the serializer never
    marks. *)
Definition shadow_roots_unmarked (p : Capture.Page) : Prop :=
  forall h : handle,
    Capture.isShadowRoot p h = true ->
    kind (Capture.nd p h) = KFragment /\ sn (Capture.nd p h) = None.

(** What [emit] never changes in the page: the trees, the document, and
    on every node its kind and its shadow links; a marked node keeps its
    id; a fragment, a node without parent and a node outside the document
    are left as they are. *)
Definition sameFrame (p p' : Capture.Page) : Prop :=
  Capture.dom p' = Capture.dom p /\ Capture.doc p' = Capture.doc p
  /\ forall h : handle,
       kind (Capture.nd p' h) = kind (Capture.nd p h)
       /\ host (Capture.nd p' h) = host (Capture.nd p h)
       /\ shadowRoot (Capture.nd p' h) = shadowRoot (Capture.nd p h)
       /\ (forall s, sn (Capture.nd p h) = Some s ->
           exists s', sn (Capture.nd p' h) = Some s' /\ sn_id s' = sn_id s)
       /\ (kind (Capture.nd p h) = KFragment
           \/ parentNode (Capture.dom p) h = None
           \/ Capture.notInDoc p h = true ->
           Capture.nd p' h = Capture.nd p h).

(** The nodes of the subtree of [x] lie outside the document. *)
Definition outside_document (p : Capture.Page) (x : handle) : Prop :=
  forall y : handle,
    In y (Mirror.subtree_handles (Capture.dom p) x) ->
    contains (Capture.dom p) (Capture.doc p) y = false
    /\ host (Capture.nd p (getRootNode (Capture.dom p) y)) = None.

(** The number of adds of the payload that serialize node [n]. *)
Definition addsOf (n : handle) (r : Capture.Emitted) : nat :=
  length (List.filter (Nat.eqb n) (Capture.sources r)).

(** The adds of the payload, each with the node it serializes. *)
Definition addsWithSource (r : Capture.Emitted)
  : list (handle * addedNodeMutation) :=
  match Capture.effects r with
  | Capture.EmissionCallback pl :: _ =>
      combine (Capture.sources r) (Capture.pl_adds pl)
  | _ => []
  end.

(** The buffer of a fresh capture window. *)
Definition emptyBuffer : Capture.MutationBuffer :=
  Capture.mkBuffer false false [] [] [] [] [] [] [] [].

End Statements.

(** ** Concrete pages and deltas *)

Module Scenario.
Import Dom Wire Node.

Definition element (id : Z) (tagName : string) : ndata :=
  mkData KElement tagName [] [] ""
    (Some (mkSN id Element tagName [] "" false false None))
    (0, 0) [] None None None false None.

Definition newElement (tagName : string) : ndata :=
  mkData KElement tagName [] [] "" None (0, 0) [] None None None false None.

Definition document1 : ndata :=
  with_sn (Some (mkSN 1 Document "" [] "" false false None)) (blank KDocument).

Definition replayer (f : forest) (l : list (handle * ndata))
  (m : list (Z * handle)) (next : handle) : Replay.St :=
  Replay.mkSt f (list_to_map l) next (Some 0%nat) [] 0 true false
    (list_to_map m) [] ∅ [] ∅ [] [] [] [] [] ∅ [] [] [].

(** A replay tree that holds only the root node 1, the document. *)
Definition onlyRoot : Replay.St :=
  replayer [T 0%nat []] [(0%nat, document1)] [(1, 0%nat)] 1%nat.

Definition div10 : serializedNode :=
  mkSN 10 Element "div" [] "" false false None.

(** [{adds:[{parentId:1,nextId:-1,node:{id:10,tag:"div"}}]}] *)
Definition deltaSentinel : mutationData :=
  mkDelta [] [] [] [mkAdd 1 None (Some (-1)) div10].

(** The same add with no next sibling, [nextId: null]. *)
Definition deltaAppend : mutationData :=
  mkDelta [] [] [] [mkAdd 1 None None div10].

(** A document whose root element is a textarea (id 2) that holds the text
    node built from its value, which has no id. *)
Definition textareaPage : Replay.St :=
  replayer [T 0%nat [T 1%nat [T 2%nat []]]]
    [(0%nat, document1); (1%nat, element 2 "textarea");
     (2%nat, with_cdata "old" (blank KText))]
    [(1, 0%nat); (2, 1%nat)] 3%nat.

(** The add of a text node (id 3) under the textarea. *)
Definition deltaTextareaText : mutationData :=
  mkDelta [] [] []
    [mkAdd 2 None None (mkSN 3 Text "" [] "new" false false None)].

(** A page with a scrolled list (id 3) next to a style element (id 4)
    under the body (id 2). *)
Definition scrolledPage : Replay.St :=
  replayer [T 0%nat [T 1%nat [T 2%nat []; T 3%nat []]]]
    [(0%nat, document1); (1%nat, element 2 "body");
     (2%nat, with_scroll (0, 120) (element 3 "ul"));
     (3%nat, with_rules ["a { color: red }"] (element 4 "style"))]
    [(1, 0%nat); (2, 1%nat); (3, 2%nat); (4, 3%nat)] 4%nat.

(** The add of a paragraph (id 5) between the list and the style element. *)
Definition deltaParagraph : mutationData :=
  mkDelta [] [] []
    [mkAdd 2 None (Some 4) (mkSN 5 Element "p" [] "" false false None)].

(** A page with one element (id 2) that holds one text node (id 3). *)
Definition smallPage : Replay.St :=
  replayer [T 0%nat [T 1%nat [T 2%nat []]]]
    [(0%nat, document1); (1%nat, element 2 "div");
     (2%nat, with_sn (Some (mkSN 3 Text "" [] "hi" false false None))
               (with_cdata "hi" (blank KText)))]
    [(1, 0%nat); (2, 1%nat); (3, 2%nat)] 3%nat.

(** Two attribute writes, the first with a name the host rejects. *)
Definition deltaBadName : mutationData :=
  mkDelta []
    [mkAttr 2 [("1x", AttrString "v")]; mkAttr 2 [("title", AttrString "t")]]
    [] [].

(** An attribute removal aimed at the text node, then a text change. *)
Definition deltaAttributeOnText : mutationData :=
  mkDelta [] [mkAttr 3 [("title", AttrNull)]; mkAttr 2 [("title", AttrString "t")]]
    [] [].

(** A remove that names the wrong parent, then a remove of an unknown
    node, then a text change. *)
Definition deltaBadRemove : mutationData :=
  mkDelta [mkText 3 (Some "ho")] []
    [mkRemove 1 3 false; mkRemove 2 7 false] [].

(** A delta with one mutation of every kind. *)
Definition deltaMixed : mutationData :=
  mkDelta [mkText 3 (Some "ho")] [mkAttr 2 [("title", AttrString "t")]]
    [mkRemove 2 9 false]
    [mkAdd 2 None None (mkSN 4 Element "span" [] "" false false None)].

(** Collaborators that mask nothing and exclude nothing. *)
Definition plain : Capture.Collaborators :=
  Capture.mkCollaborators (fun _ => false) None (fun _ v => v)
    (fun _ _ v => v) (fun _ a => a) (fun _ => []) (fun _ => false)
    (fun _ => false).

Definition page (f : forest) (l : list (handle * ndata)) (m : list (Z * handle))
  : Capture.Page :=
  Capture.mkPage f (list_to_map l) 0%nat (list_to_map m) 6.

(** The page after the span (handle 4, id 5) went from the first div
    (handle 2, id 3) to the second (handle 3, id 4). *)
Definition relocatedPage : Capture.Page :=
  page [T 0%nat [T 1%nat [T 2%nat []; T 3%nat [T 4%nat []]]]]
    [(0%nat, document1); (1%nat, element 2 "body"); (2%nat, element 3 "div");
     (3%nat, element 4 "div"); (4%nat, element 5 "span")]
    [(1, 0%nat); (2, 1%nat); (3, 2%nat); (4, 3%nat); (5, 4%nat)].

Definition relocation : list Capture.mutationRecord :=
  [Capture.ChildList 2%nat [] [4%nat]; Capture.ChildList 3%nat [4%nat] []].

(** The page after a new section (handle 5) took the span (handle 4, id 5)
    from the first div, was added under the second div (handle 3) and was
    removed again. *)
Definition droppedPage : Capture.Page :=
  page [T 0%nat [T 1%nat [T 2%nat []; T 3%nat []]]; T 5%nat [T 4%nat []]]
    [(0%nat, document1); (1%nat, element 2 "body"); (2%nat, element 3 "div");
     (3%nat, element 4 "div"); (4%nat, element 5 "span");
     (5%nat, newElement "section")]
    [(1, 0%nat); (2, 1%nat); (3, 2%nat); (4, 3%nat); (5, 4%nat)].

Definition addedThenRemoved : list Capture.mutationRecord :=
  [Capture.ChildList 2%nat [] [4%nat]; Capture.ChildList 3%nat [5%nat] [];
   Capture.ChildList 3%nat [] [5%nat]].

(** A page where the new div (handle 2) was reported but its new next
    sibling (handle 3) was not. *)
Definition pendingPage : Capture.Page :=
  page [T 0%nat [T 1%nat [T 2%nat []; T 3%nat []]]]
    [(0%nat, document1); (1%nat, element 2 "body"); (2%nat, newElement "div");
     (3%nat, newElement "div")]
    [(1, 0%nat); (2, 1%nat)].


End Scenario.

(** ** Replaying a delta, directly or through virtual parents *)

Module Runs.
Import Dom Wire Node Replay.

(** The state after [applyMutation(d, false)]. *)
Definition direct (rounds : nat) (d : mutationData) (s : St) : St :=
  snd (fst (applyMutation rounds d false s)).

(** The state after [applyMutation(d, true)] and the Flush that follows. *)
Definition virtualThenFlush (rounds : nat) (d : mutationData) (s : St) : St :=
  snd (Flush (snd (fst (applyMutation rounds d true s)))).

(** Both runs return. *)
Definition bothReturn (rounds : nat) (d : mutationData) (s : St) : Prop :=
  fst (fst (applyMutation rounds d false s)) = Ret tt
  /\ fst (fst (applyMutation rounds d true s)) = Ret tt
  /\ fst (Flush (snd (fst (applyMutation rounds d true s)))) = Ret tt.

(** The node with id [id] is the last child of the node with id
    [parentId]. *)
Definition appendedLast (s : St) (parentId id : Z) : Prop :=
  exists p h : handle,
    getNode s parentId = Some p
    /\ last (childNodes (dom s) p) = Some h
    /\ getId s (Some h) = id.

End Runs.

(** ** Invariants and statements of the capture side *)

Module Invariants.
Import Dom Wire Node Capture Statements.

(** What [genAdds] leaves alone and how the sets grow: nodes are appended
    to [movedSet], unmarked nodes enter [addedSet], nothing else moves. *)
Definition grown (p : Page) (b b' : MutationBuffer) : Prop :=
  frozen b' = frozen b /\ locked b' = locked b /\ texts b' = texts b
  /\ attributes b' = attributes b /\ removes b' = removes b
  /\ mapRemoves b' = mapRemoves b
  /\ (exists rest, movedSet b' = movedSet b ++ rest)
  /\ (List.NoDup (movedSet b) -> List.NoDup (movedSet b'))
  /\ (forall h, In h (addedSet b) -> In h (addedSet b'))
  /\ (forall h, In h (addedSet b') -> In h (addedSet b) \/ isINode p h = false).

(** No node is registered under -1 and no id is -1. *)
Definition idsSound (p : Page) : Prop :=
  mirror p !! (-1) = None /\ 0 <= nextId p
  /\ forall h s, sn (nd p h) = Some s -> sn_id s <> -1.

(** The adds of [emit] serialize nodes of the document only, and the ids
    stay sound. *)
Definition documentOnly (p : Page) (e : Emitting) : Prop :=
  sameFrame p (page e)
  /\ (forall h a, In (h, a) (adds e) ->
        parentNode (dom p) h <> None /\ notInDoc p h = false)
  /\ idsSound (page e)
  /\ (forall h a, In (h, a) (adds e) -> sn_id (add_node a) <> -1).

(** During [emit], node [n] has the one add [a] and is not pending. *)
Definition addedOnce (n : handle) (a : addedNodeMutation) (e : Emitting)
  : Prop :=
  List.filter (fun x => Nat.eqb n (fst x)) (adds e) = [(n, a)]
  /\ ~ In n (addList e).

(** The id under which a remove from [target] is reported. *)
Definition parentIdOf (p : Page) (target : handle) : Z :=
  if isShadowRoot p target then getId p (host (nd p target))
  else getId p (Some target).

(** The records of a relocation of [n] from [A] to [B], in the order of
    the observer: the removal, then the insertion. *)
Definition relocated (A B n : handle) : list mutationRecord :=
  [ChildList A [] [n]; ChildList B [n] []].

(** The records of an insertion of [x] under [P] that is undone. *)
Definition addedAndRemoved (P x : handle) : list mutationRecord :=
  [ChildList P [x] []; ChildList P [] [x]].

(** Every id is below the counter of [genId], the ignored id is not
    registered, and no two nodes carry the same id other than the ignored
    one. *)
Definition idsDistinct (p : Page) : Prop :=
  mirror p !! IGNORED_NODE = None
  /\ (forall h s, sn (nd p h) = Some s -> sn_id s < nextId p)
  /\ (forall h h' s s',
        sn (nd p h) = Some s -> sn (nd p h') = Some s' ->
        sn_id s = sn_id s' -> sn_id s <> IGNORED_NODE -> h = h').

(** The remove that a [childList] record among [ms] pushes for one of
    its removed nodes. *)
Definition pushedBy (p : Page) (ms : list mutationRecord)
  (rm : removedNodeMutation) : Prop :=
  exists (T : handle) (added removed : list handle) (n : handle),
    In (ChildList T added removed) ms /\ In n removed
    /\ rm = mkRemove (parentIdOf p T) (getId p (Some n)) (isShadowRoot p T).

(** During [emit] the ids of the marked nodes below [x] stay out of the
    identity map and out of the adds: a node that is serialized keeps an id
    of its own or takes a new one. *)
Definition apart (p : Page) (x : handle) (e : Emitting) : Prop :=
  sameFrame p (page e)
  /\ nextId p <= nextId (page e)
  /\ mirror (page e) !! IGNORED_NODE = None
  /\ (forall y s, In y (Mirror.subtree_handles (dom p) x) ->
        sn (nd p y) = Some s -> mirror (page e) !! sn_id s = None)
  /\ (forall h s, sn (nd (page e) h) = Some s -> sn (nd p h) = None ->
        sn_id s = IGNORED_NODE \/ nextId p <= sn_id s)
  /\ (forall h a y s, In (h, a) (adds e) ->
        In y (Mirror.subtree_handles (dom p) x) -> sn (nd p y) = Some s ->
        sn_id (add_node a) <> sn_id s).

(** A record that takes no node out of its parent: a change of text or of
    an attribute, or a [childList] record that only adds. *)
Definition removesNothing (m : mutationRecord) : Prop :=
  match m with
  | ChildList _ _ removedNodes => removedNodes = []
  | _ => True
  end.

(** The records of an insertion of [x] under [P] that is undone after the
    records [middle]. *)
Definition addedAndRemovedAfter (P x : handle) (middle : list mutationRecord)
  : list mutationRecord :=
  ChildList P [x] [] :: middle ++ [ChildList P [] [x]].

(** The claim on a relocation: the delta has no remove of the node from
    its former parent. *)
Definition relocation_emits_no_remove : Prop :=
  forall (fuel : nat) (c : Collaborators) (p : Page) (A B n : handle)
    (r : Emitted) (pl : payload),
    isINode p n = true ->
    parentNode (dom p) n = Some B ->
    processMutations fuel c p emptyBuffer (relocated A B n) = Some r ->
    In (EmissionCallback pl) (effects r) ->
    forall rm, In rm (pl_removes pl) ->
      ~ (rm_id rm = getId p (Some n) /\ rm_parentId rm = parentIdOf p A).

(** The claim on a node added and removed in one window: the delta has no
    add, remove, text or attribute entry for the node or a descendant. *)
Definition dropped_subtree_leaves_no_entry : Prop :=
  forall (fuel : nat) (c : Collaborators) (p : Page)
    (earlier : list mutationRecord) (P x : handle) (r : Emitted)
    (pl : payload) (y : handle),
    processMutations fuel c p emptyBuffer (earlier ++ addedAndRemoved P x)
    = Some r ->
    In (EmissionCallback pl) (effects r) ->
    In y (Mirror.subtree_handles (dom p) x) ->
    ~ In y (sources r)
    /\ (forall rm, In rm (pl_removes pl) -> rm_id rm <> getId p (Some y))
    /\ (forall t, In t (pl_texts pl) -> tx_id t <> getId p (Some y))
    /\ (forall a, In a (pl_attributes pl) -> at_id a <> getId p (Some y)).

End Invariants.

(** ** The pending list by position, and what the buffer keeps *)

Module PendingList.
Import Dom Capture.

(** [DoubleLinkedList.get(position)]: the walk from the head, behind the
    bounds check. *)
Definition get (position : nat) (l : list handle) : string + option handle :=
  if (length l <=? position)%nat
  then inl "Position outside of list range"
  else inr (nth_error l position).

(** [for (let index = addList.length - 1; index >= 0; index--) { ... }] of
    [emit], with [count = index + 1]: the first entry from the tail that
    passes the test, or the exception of [get]. *)
Fixpoint scanByIndex (p : Page) (l : list handle) (count : nat)
  : string + option handle :=
  match count with
  | O => inr None
  | S index =>
      match get index l with
      | inl e => inl e
      | inr None => scanByIndex p l index
      | inr (Some n) =>
          if resolvable p n then inr (Some n) else scanByIndex p l index
      end
  end.

End PendingList.

Module BufferInvariants.
Import Dom Wire Node Capture.

(** [m.target] *)
Definition target (m : mutationRecord) : handle :=
  match m with
  | CharacterData t _ => t
  | Attributes t _ _ => t
  | ChildList t _ _ => t
  end.

(** The record is about a node that the recorder leaves out: an ignored
    target, or a target in a blocked subtree. *)
Definition hidden (p : Page) (m : mutationRecord) : Prop :=
  isIgnored p (target m) = true \/ isBlocked p (target m) = true.

(** How [processMutation] sorts nodes into the three sets. *)
Definition classified (p : Page) (b : MutationBuffer) : Prop :=
  (forall h, In h (addedSet b) -> isINode p h = false)
  /\ (forall h, In h (movedSet b) -> isINode p h = true /\ isIgnored p h = false)
  /\ (forall h, In h (addedSet b) -> ~ In h (droppedSet b))
  /\ List.NoDup (addedSet b) /\ List.NoDup (movedSet b)
  /\ List.NoDup (droppedSet b).

(** [this.attributes] holds one cursor for a node. *)
Definition oneCursorPerNode (b : MutationBuffer) : Prop :=
  List.NoDup (map ac_node (attributes b)).

(** The ids a delta may not carry on an add: the capture side never sends
    the sentinel -1 as parent or next sibling, and never a previous id. *)
Definition wellFormedAdd (a : addedNodeMutation) : Prop :=
  add_parentId a <> -1 /\ add_nextId a <> Some (-1) /\ add_previousId a = None.

(** The buffer with its two switches set. *)
Definition withFlags (f l : bool) (b : MutationBuffer) : MutationBuffer :=
  set_locked l (set_frozen f b).

(** A page whose div (handle 2, id 3) is blocked. *)
Definition blockedPage : Page :=
  Scenario.page [T 0%nat [T 1%nat [T 2%nat []]]]
    [(0%nat, Scenario.document1); (1%nat, Scenario.element 2 "body");
     (2%nat,
      mkData KElement "div" [] [] ""
        (Some (mkSN 3 Element "div" [] "" false false None))
        (0, 0) [] None None None true None)]
    [(1, 0%nat); (2, 1%nat); (3, 2%nat)].

(** A text change of [n] followed by the removal of [n] from [P]. *)
Definition changedThenRemoved (P n : handle) (oldValue : option string)
  : list mutationRecord :=
  [CharacterData n oldValue; ChildList P [] [n]].

(** An insertion of [n] under [B] that is undone. *)
Definition movedInAndOut (B n : handle) : list mutationRecord :=
  [ChildList B [n] []; ChildList B [] [n]].

End BufferInvariants.

(** ** What a delta is about *)

Module ApplyStatements.
Import Dom Wire Node Replay.

(** The trees, the node data, the identity map and the two legacy maps of
    the replayer, with the document it plays into. *)
Definition core (s : St)
  : forest * gmap handle ndata * gmap Z handle * option handle
    * gmap Z (handle * addedNodeMutation) * gmap Z (handle * addedNodeMutation) :=
  (dom s, nodes s, mirror s, contentDocument s, legacy_missingNodeRetryMap s,
   legacy_missingNodeMap s).

(** An add whose parent is not in the identity map and that is not a new
    document. *)
Definition orphan (s : St) (m : addedNodeMutation) : Prop :=
  getNode s (add_parentId m) = None
  /\ isNodeType (sn_type (add_node m)) Document = false.

(** The delta that only adds. *)
Definition onlyAdds (adds : list addedNodeMutation) : mutationData :=
  mkDelta [] [] [] adds.

(** A handler keeps a property of the replayer, whatever it returns. *)
Definition preserves {A : Type} (P : St -> Prop) (m : M A) : Prop :=
  forall s : St, P s -> P (snd (m s)).

Definition preservesT {A : Type} (P : St -> Prop) (m : Traced A) : Prop :=
  forall s : St, P s -> P (snd (fst (m s))).

(** Every entry of the legacy map sits under the id of its own node, as
    [appendNode] stores it. *)
Definition keyed (m : gmap Z (handle * addedNodeMutation)) : Prop :=
  forall (k : Z) (e : handle * addedNodeMutation),
    m !! k = Some e -> sn_id (add_node (snd e)) = k.

(** A handler ends, by returning or by throwing, within the rounds and the
    depth it is given. *)
Definition ends {A : Type} (m : M A) : Prop :=
  forall s : St, fst (m s) <> OutOfFuel.

Definition endsT {A : Type} (m : Traced A) : Prop :=
  forall s : St, fst (fst (m s)) <> OutOfFuel.

(** A handler ends on the states with a property, and keeps the property,
    whether it returns or throws. *)
Definition safe {A : Type} (P : St -> Prop) (m : M A) : Prop :=
  forall s : St, P s -> fst (m s) <> OutOfFuel /\ P (snd (m s)).

Definition safeT {A : Type} (P : St -> Prop) (m : Traced A) : Prop :=
  forall s : St, P s -> fst (fst (m s)) <> OutOfFuel /\ P (snd (fst (m s))).

(** A handler ends on the states with a property, and the property holds
    again when it returns. *)
Definition safeOnReturn {A : Type} (P : St -> Prop) (m : M A) : Prop :=
  forall s : St,
    P s ->
    fst (m s) <> OutOfFuel
    /\ forall a, fst (m s) = Ret a -> P (snd (m s)).

(** Both legacy maps are keyed. *)
Definition legacyKeyed (s : St) : Prop :=
  keyed (legacy_missingNodeMap s) /\ keyed (legacy_missingNodeRetryMap s).

(** The legacy map is keyed and holds at most [n] entries. *)
Definition legacyWithin (n : nat) (s : St) : Prop :=
  keyed (legacy_missingNodeMap s) /\ (size (legacy_missingNodeMap s) <= n)%nat.

(** An add that brings no sub-document. *)
Definition noDocumentAdd (m : addedNodeMutation) : Prop :=
  isNodeType (sn_type (add_node m)) Document = false.

(** No sub-document waits for its iframe, and none of the requeued adds
    brings one. *)
Definition noSubDocument (s : St) : Prop :=
  newDocumentQueue s = [] /\ Forall noDocumentAdd (queue s).

(** Both legacy maps are keyed and no sub-document is under way. *)
Definition calm (s : St) : Prop := legacyKeyed s /\ noSubDocument s.

(** A handler ends on the states with a property, keeps the property, and
    returns only values with [R]. *)
Definition safeWith {A : Type} (P : St -> Prop) (R : A -> Prop) (m : M A)
  : Prop :=
  forall s : St,
    P s ->
    fst (m s) <> OutOfFuel /\ P (snd (m s))
    /\ forall a, fst (m s) = Ret a -> R a.

(** Every add of the resolve tree has the property. *)
Definition allOfTree (Q : addedNodeMutation -> Prop) (t : ResolveTree) : Prop :=
  forall m, In m (iterateResolveTree t) -> Q m.

(** The clock shows more than 500 ms since [startTime] at one of its next
    [rounds] readings. *)
Definition timesOut (rounds : nat) (startTime : Z) (readings : list Z) : Prop :=
  exists (k : nat) (t : Z),
    (k < rounds)%nat /\ nth_error readings k = Some t /\ 500 < t - startTime.

(** Nothing waits for the Flush: no parent is virtualized and the caches
    of the tree index are as given. *)
Definition nothingDeferred (dialogMap canvasMap : list attributeMutation)
  (s : St) : Prop :=
  fragmentParentMap s = [] /\ dialogs s = dialogMap
  /\ canvasAttributes s = canvasMap.

(** The caches that the Flush empties. *)
Definition flushed (s : St) : Prop :=
  fragmentParentMap s = [] /\ elementStateMap s = ∅
  /\ virtualStyleRulesMap s = [] /\ dialogs s = []
  /\ canvasAttributes s = [].

End ApplyStatements.

(** ** The player: the pointer, the poster and the skipping of idle time *)

Module Player.
Import Dom Wire Node Replay.

(** *** The pointer of the replayer *)

(** The members of [MouseInteractions] that [applyIncremental] tells apart;
    every other member takes the default case. *)
Inductive MouseInteractions :=
| Blur
| Focus
| Click
| TouchStart
| TouchEnd
| TouchCancel
| OtherInteraction (name : string).

(** [mouseInteractionData] *)
Record mouseInteractionData := mkMouseInteraction {
  mi_type : MouseInteractions;
  mi_id : Z;
  mi_x : Z;
  mi_y : Z
}.

(** [mouseMovePos], without the debug data. *)
Record mouseMovePos := mkMousePos {
  mp_x : Z;
  mp_y : Z;
  mp_id : Z
}.

(** What the handlers do to the page around the replayed document.  The
    body of [moveAndHover] behind the lookup of its target (the scaled
    position of the cursor, the tail and the hover classes) is one
    effect. *)
Inductive pointerEffect :=
| EmitMouseInteraction (type : MouseInteractions) (target : handle)
| BlurTarget (target : handle)
| FocusTarget (target : handle)
| DispatchEvent (target : handle) (type : MouseInteractions)
| ClearTail
| MoveAndHover (x y : Z) (target : handle) (isSync : bool).

Record Pointer := mkPointer {
  host : St;  (* the replayer of the document *)
  mouse_classList : list string;  (* [this.mouse.classList] *)
  mousePos : option mouseMovePos;
  touchActive : option bool;
  pointerEffects : list pointerEffect
}.

Definition set_host (v : St) (p : Pointer) : Pointer :=
  mkPointer v (mouse_classList p) (mousePos p) (touchActive p)
    (pointerEffects p).

Definition set_mouse_classList (v : list string) (p : Pointer) : Pointer :=
  mkPointer (host p) v (mousePos p) (touchActive p) (pointerEffects p).

Definition set_mousePos (v : option mouseMovePos) (p : Pointer) : Pointer :=
  mkPointer (host p) (mouse_classList p) v (touchActive p) (pointerEffects p).

Definition set_touchActive (v : option bool) (p : Pointer) : Pointer :=
  mkPointer (host p) (mouse_classList p) (mousePos p) v (pointerEffects p).

Definition perform (e : pointerEffect) (p : Pointer) : Pointer :=
  mkPointer (host p) (mouse_classList p) (mousePos p) (touchActive p)
    (pointerEffects p ++ [e]).

(** [classList.contains], [classList.add] and [classList.remove] *)
Definition classList_contains (c : string) (l : list string) : bool :=
  existsb (String.eqb c) l.

Definition classList_add (c : string) (l : list string) : list string :=
  if classList_contains c l then l else l ++ [c].

Definition classList_remove (c : string) (l : list string) : list string :=
  List.filter (fun x => negb (String.eqb c x)) l.

Definition mouse_add (c : string) (p : Pointer) : Pointer :=
  set_mouse_classList (classList_add c (mouse_classList p)) p.

Definition mouse_remove (c : string) (p : Pointer) : Pointer :=
  set_mouse_classList (classList_remove c (mouse_classList p)) p.

(** [this.debugNodeNotFound(d, id)], which only prints. *)
Definition pointerNodeNotFound (id : Z) (p : Pointer) : Pointer :=
  set_host (snd (debugNodeNotFound id (host p))) p.

(** [moveAndHover(x, y, id, isSync, debugData)] *)
Definition moveAndHover (x y id : Z) (isSync : bool) (p : Pointer) : Pointer :=
  match getNode (host p) id with
  | None => pointerNodeNotFound id p
  | Some target => perform (MoveAndHover x y target isSync) p
  end.

(** The [IncrementalSource.MouseInteraction] case of [applyIncremental]. *)
Definition applyMouseInteraction (triggerFocus isSync : bool)
  (d : mouseInteractionData) (p : Pointer) : Pointer :=
  if Z.eqb (mi_id d) (-1) then p
  else
    match getNode (host p) (mi_id d) with
    | None => pointerNodeNotFound (mi_id d) p
    | Some target =>
        let p := perform (EmitMouseInteraction (mi_type d) target) p in
        match mi_type d with
        | Blur =>
            if isElement (host p) target then perform (BlurTarget target) p
            else p
        | Focus =>
            if triggerFocus && isElement (host p) target
            then perform (FocusTarget target) p
            else p
        | Click | TouchStart | TouchEnd =>
            if isSync then
              let p :=
                match mi_type d with
                | TouchStart => set_touchActive (Some true) p
                | TouchEnd => set_touchActive (Some false) p
                | _ => p
                end in
              set_mousePos (Some (mkMousePos (mi_x d) (mi_y d) (mi_id d))) p
            else
              let p :=
                match mi_type d with
                | TouchStart => perform ClearTail p
                | _ => p
                end in
              let p := moveAndHover (mi_x d) (mi_y d) (mi_id d) isSync p in
              match mi_type d with
              | Click => mouse_add "active" (mouse_remove "active" p)
              | TouchStart => mouse_add "touch-active" p
              | TouchEnd => mouse_remove "touch-active" p
              | _ => p
              end
        | TouchCancel =>
            if isSync then set_touchActive (Some false) p
            else mouse_remove "touch-active" p
        | OtherInteraction _ => perform (DispatchEvent target (mi_type d)) p
        end
    end.

(** [applyTouchAndMouse()] *)
Definition applyTouchAndMouse (p : Pointer) : Pointer :=
  let p :=
    match mousePos p with
    | Some pos => moveAndHover (mp_x pos) (mp_y pos) (mp_id pos) true p
    | None => p
    end in
  let p := set_mousePos None p in
  let p :=
    match touchActive p with
    | Some true => mouse_add "touch-active" p
    | Some false => mouse_remove "touch-active" p
    | None => p
    end in
  set_touchActive None p.

(** A batch of mouse interactions, cast one after the other. *)
Definition castInteractions (triggerFocus isSync : bool)
  (l : list mouseInteractionData) (p : Pointer) : Pointer :=
  fold_left (fun p d => applyMouseInteraction triggerFocus isSync d p) l p.

(** Where the cursor was put last. *)
Definition lastMove (l : list pointerEffect) : option (Z * Z * handle) :=
  fold_left
    (fun acc e =>
       match e with
       | MoveAndHover x y target _ => Some (x, y, target)
       | _ => acc
       end)
    l None.

(** *** The poster *)

(** [this.firstFullSnapshot: eventWithTime | true | null]; an event is
    known by its identity. *)
Inductive firstFullSnapshot :=
| FFS_null
| FFS_true
| FFS_event (e : nat).

(** The timeout that the constructor sets for the first full snapshot:
    the new field and the snapshots that are rebuilt. *)
Definition posterTimeout (firstFullsnapshot : nat) (st : firstFullSnapshot)
  : firstFullSnapshot * list nat :=
  match st with
  | FFS_null => (FFS_event firstFullsnapshot, [firstFullsnapshot])
  | _ => (st, [])
  end.

(** The cast function of a [EventType.FullSnapshot] event. *)
Definition castFullSnapshot (event : nat) (st : firstFullSnapshot)
  : firstFullSnapshot * list nat :=
  match st with
  | FFS_event e =>
      if Nat.eqb e event then (FFS_true, []) else (FFS_event e, [event])
  | FFS_true => (FFS_true, [event])
  | FFS_null => (FFS_true, [event])
  end.

(** Full snapshots cast one after the other. *)
Fixpoint castFullSnapshots (events : list nat) (st : firstFullSnapshot)
  : firstFullSnapshot * list nat :=
  match events with
  | [] => (st, [])
  | event :: rest =>
      let (st1, rebuilt1) := castFullSnapshot event st in
      let (st2, rebuilt2) := castFullSnapshots rest st1 in
      (st2, rebuilt1 ++ rebuilt2)
  end.

(** The list without the first occurrence of [e]. *)
Fixpoint withoutFirst (e : nat) (l : list nat) : list nat :=
  match l with
  | [] => []
  | x :: r => if Nat.eqb e x then r else x :: withoutFirst e r
  end.

(** *** [onTick] *)

(** What [onTick] decides. *)
Inductive tick (number : Type) :=
| Stay
| BackToNormal
| StartSkipping (skipTime : option number).

Arguments Stay {number}.
Arguments BackToNormal {number}.
Arguments StartSkipping {number} skipTime.

(** [actionWithDelay], without the action. *)
Record actionWithDelay (number : Type) := mkAction {
  delay : number;
  isUserInteraction : bool
}.

Arguments mkAction {number} delay isUserInteraction.
Arguments delay {number} a.
Arguments isUserInteraction {number} a.

Section Skipping.

(** The numbers of the timer, with the subtraction, the two comparisons
    and the truth test that [onTick] applies to them, and the two constants
    it compares with. *)
Variable number : Type.
Variable minus : number -> number -> number.
Variable gt lt : number -> number -> bool.
Variable truthy_number : number -> bool.
Variable SKIP_END_BUFFER SKIP_TIME_THRESHOLD : number.

(** The loop of the skipping state: is there a user interaction before the
    first action that lies beyond the end buffer? *)
Fixpoint interactionInBuffer (timeOffset : number)
  (allActions : list (actionWithDelay number)) : bool :=
  match allActions with
  | [] => false
  | a :: rest =>
      if gt (minus (delay a) timeOffset) SKIP_END_BUFFER then false
      else if isUserInteraction a then true
      else interactionInBuffer timeOffset rest
  end.

(** The loop of the normal state: [None] when [onTick] returns from inside
    the loop, else [nextUserInteraction]. *)
Fixpoint nextUserInteraction (timeOffset : number)
  (allActions : list (actionWithDelay number))
  : option (option (actionWithDelay number)) :=
  match allActions with
  | [] => Some None
  | a :: rest =>
      if isUserInteraction a
      then if lt (minus (delay a) timeOffset) SKIP_TIME_THRESHOLD
           then None
           else Some (Some a)
      else nextUserInteraction timeOffset rest
  end.

(** [onTick(actions, nextActions)] *)
Definition onTick (skipInactive skipping : bool)
  (totalSessionLength : option number) (timeOffset : number)
  (actions nextActions : list (actionWithDelay number)) : tick number :=
  if negb skipInactive then Stay
  else
    let allActions := actions ++ nextActions in
    if skipping then
      if interactionInBuffer timeOffset allActions then BackToNormal else Stay
    else
      match nextUserInteraction timeOffset allActions with
      | None => Stay
      | Some (Some a) =>
          StartSkipping
            (Some (minus (minus (delay a) timeOffset) SKIP_END_BUFFER))
      | Some None =>
          match totalSessionLength with
          | Some total =>
              if truthy_number total
              then StartSkipping (Some (minus total timeOffset))
              else StartSkipping None
          | None => StartSkipping None
          end
      end.

End Skipping.

End Player.

Module PlayerStatements.
Import Dom Wire Node Replay Player.

(** What a batch has cached of the cursor that live play has shown. *)
Definition inStep (p ps pl : Pointer) : Prop :=
  mirror (host ps) = mirror (host p)
  /\ mirror (host pl) = mirror (host p)
  /\ mouse_classList ps = mouse_classList p
  /\ lastMove (pointerEffects ps) = lastMove (pointerEffects p)
  /\ match touchActive ps with
     | Some b => classList_contains "touch-active" (mouse_classList pl) = b
     | None =>
         classList_contains "touch-active" (mouse_classList pl)
         = classList_contains "touch-active" (mouse_classList p)
     end
  /\ match mousePos ps with
     | Some pos =>
         exists target,
           getNode (host p) (mp_id pos) = Some target
           /\ lastMove (pointerEffects pl) = Some (mp_x pos, mp_y pos, target)
     | None => lastMove (pointerEffects pl) = lastMove (pointerEffects p)
     end.

End PlayerStatements.

(** ** Facts about the replayer *)

Module ReplayFacts.
Import Dom Wire Node Replay Statements.

Ltac run_m :=
  unfold bind, ret, get, modify, throw, when, tryCatch; simpl.

(** *** Construction *)

(** C10.  Without [config.liveMode], fewer than two events make the
    constructor throw ['Replayer need at least 2 events.']; with
    [liveMode] set it accepts any number of events, none included. *)
Theorem C10_constructor_needs_two_events :
  forall (E : Type) (originalEvents : list E) (config : option playerConfig)
    (b : Browser),
    (isSet (match config with Some c => liveMode c | None => None end) = false ->
     (length originalEvents < 2)%nat ->
     constructor originalEvents config b
     = inl (Error "Replayer need at least 2 events."))
    /\ (isSet (match config with Some c => liveMode c | None => None end) = true ->
        exists s : St, constructor originalEvents config b = inr s).
Proof.
  intros E evs config b. split.
  - intros Hlive Hlen. unfold constructor. rewrite Hlive. simpl.
    apply Nat.ltb_lt in Hlen. rewrite Hlen. reflexivity.
  - intros Hlive. unfold constructor. rewrite Hlive. simpl. eauto.
Qed.

Lemma C10_witness :
  constructor ([] : list unit) None (mkBrowser [] ∅ 0%nat None [])
  = inl (Error "Replayer need at least 2 events.")
  /\ exists s : St,
       constructor ([] : list unit) (Some (mkConfig (Some true) None None))
         (mkBrowser [] ∅ 0%nat None []) = inr s.
Proof.
  split.
  - apply (C10_constructor_needs_two_events unit [] None
             (mkBrowser [] ∅ 0%nat None [])); [reflexivity | simpl; lia].
  - apply (C10_constructor_needs_two_events unit []
             (Some (mkConfig (Some true) None None))
             (mkBrowser [] ∅ 0%nat None [])). reflexivity.
Defined.

(** *** Missing targets *)


Lemma forEachT_cons {A : Type} (f : A -> Traced unit) (a : A) (l : list A)
  (s : St) :
  forEachT f (a :: l) s
  = match f a s with
    | (Ret _, s', tr) =>
        match forEachT f l s' with (r, s'', tr') => (r, s'', tr ++ tr') end
    | (Throw e, s', tr) => (Throw e, s', tr)
    | (OutOfFuel, s', tr) => (OutOfFuel, s', tr)
    end.
Proof. reflexivity. Qed.



(** *** Exceptions *)

Lemma warn_returns (m : message) (s : St) :
  warn m s
  = (Ret tt, if showWarning s then set_console (console s ++ [(ConsoleWarn, m)]) s
             else s).
Proof. unfold warn, console_warn. run_m. destruct (showWarning s); reflexivity. Qed.

Lemma removeChild_outcome (p x : handle) (s : St) :
  (exists s', removeChild p x s = (Ret tt, s'))
  \/ removeChild p x s = (Throw (DOMException "NotFoundError"), s).
Proof.
  unfold removeChild. run_m.
  destruct (parentNode (dom s) x) as [q |]; [| right; reflexivity].
  destruct (Nat.eqb q p); [left; eauto | right; reflexivity].
Qed.





(** *** Exceptions pass through [bindT] *)

















(** An exception that leaves [applyMutation] stops at [applyIncremental]. *)
Lemma mutation_exception_is_caught : ~ mutation_exceptions_propagate.
Proof.
  intros H.
  specialize (H 1%nat Scenario.deltaAttributeOnText false Scenario.smallPage
                (TypeError "target.removeAttribute is not a function")).
  vm_compute in H. specialize (H eq_refl). discriminate H.
Qed.

(** *** The order of the handlers *)

Lemma bindT_run {A B : Type} (m : Traced A) (k : A -> Traced B) (s : St) :
  bindT m k s
  = match m s with
    | (Ret a, s1, t1) => let '(r, s2, t2) := k a s1 in (r, s2, t1 ++ t2)
    | (Throw e, s1, t1) => (Throw e, s1, t1)
    | (OutOfFuel, s1, t1) => (OutOfFuel, s1, t1)
    end.
Proof.
  unfold bindT. destruct (m s) as [[r s1] t1]. destruct r; trivial.
Qed.

(** A loop of recorded handler calls handles a prefix of its list, in
    order, and the whole list when it returns. *)
Lemma forEachT_handles {A : Type} (ev : A -> applied) (f : A -> M unit)
  (l : list A) (s : St) :
  exists done todo,
    l = done ++ todo
    /\ snd (forEachT (fun m => handle_with (ev m) (f m)) l s) = map ev done
    /\ (fst (fst (forEachT (fun m => handle_with (ev m) (f m)) l s)) = Ret tt ->
        todo = []).
Proof.
  revert s. induction l as [| a l IH]; intros s.
  - exists [], []. repeat split.
  - set (g := fun m => handle_with (ev m) (f m)) in *.
    rewrite forEachT_cons.
    assert (Hg : g a s = (let (r, s') := f a s in (r, s', [ev a])))
      by reflexivity.
    rewrite Hg. clear Hg.
    destruct (f a s) as [r s1]. destruct r as [[] | e |].
    + destruct (IH s1) as (done & todo & Hl & Htr & Hret).
      destruct (forEachT _ l s1) as [[r2 s2] t2]. simpl in *.
      exists (a :: done), todo. subst. repeat split; trivial.
    + exists [a], l. repeat split. simpl. discriminate.
    + exists [a], l. repeat split. simpl. discriminate.
Qed.

Lemma Forall_isAdd_map (l : list addedNodeMutation) :
  Forall isAdd (map AddApplied l).
Proof. induction l; simpl; constructor; simpl; trivial. Qed.

Lemma resolveTree_adds (useVirtualParent : bool) (tree : ResolveTree) (s : St) :
  Forall isAdd (snd (resolveTree useVirtualParent tree s)).
Proof.
  unfold resolveTree. rewrite bindT_run. unfold liftT at 1, get at 1.
  destruct (getNode s (add_parentId (rt_value tree))).
  - destruct (forEachT_handles AddApplied (appendNode useVirtualParent)
                (iterateResolveTree tree) s) as (done & todo & _ & Htr & _).
    destruct (forEachT _ (iterateResolveTree tree) s) as [[r s1] tr].
    simpl in *. subst. apply Forall_isAdd_map.
  - unfold liftT. destruct (debug _ s). simpl. constructor.
Qed.

Lemma resolveTrees_adds (useVirtualParent : bool) (trees : list ResolveTree)
  (s : St) :
  Forall isAdd (snd (forEachT (resolveTree useVirtualParent) trees s)).
Proof.
  revert s. induction trees as [| t trees IH]; intros s.
  - simpl. constructor.
  - rewrite forEachT_cons.
    pose proof (resolveTree_adds useVirtualParent t s) as Ht.
    destruct (resolveTree useVirtualParent t s) as [[r s1] t1].
    destruct r as [[] | e |]; simpl in *; trivial.
    pose proof (IH s1) as Hrest.
    destruct (forEachT _ trees s1) as [[r2 s2] t2]. simpl in *.
    apply Forall_app. split; trivial.
Qed.

(** The requeue pass calls no handler but [appendNode]. *)
Lemma resolveLoop_adds (rounds : nat) (useVirtualParent : bool) (startTime : Z)
  (s : St) :
  Forall isAdd (snd (resolveLoop rounds useVirtualParent startTime s)).
Proof.
  revert s. induction rounds as [| rounds IH]; intros s.
  - simpl. destruct (queue s); simpl; constructor.
  - simpl. rewrite bindT_run. unfold liftT at 1, get at 1.
    destruct (queue s) as [| q qs]; [simpl; constructor |].
    rewrite bindT_run. unfold liftT at 1, modify at 1. cbn [app].
    rewrite bindT_run. unfold liftT at 1.
    destruct (Date_now _) as [rt st] eqn:Enow.
    destruct rt as [t | e |]; simpl; try constructor.
    destruct (Z.ltb 500 (t - startTime)).
    + unfold liftT. destruct (warn _ st). simpl. constructor.
    + rewrite bindT_run.
      pose proof (resolveTrees_adds useVirtualParent
                    (queueToResolveTrees (q :: qs)) st) as Htrees.
      destruct (forEachT _ (queueToResolveTrees (q :: qs)) st) as [[r1 s1] t1].
      destruct r1 as [[] | e |]; simpl in *; trivial.
      pose proof (IH s1) as Hloop.
      destruct (resolveLoop rounds useVirtualParent startTime s1) as [[r2 s2] t2].
      simpl in *. apply Forall_app. split; trivial.
Qed.

Lemma Forall_isAdd_inv (l : list applied) :
  Forall isAdd l -> exists A, l = map AddApplied A.
Proof.
  induction 1 as [| a l Ha _ [A ->]].
  - exists []. reflexivity.
  - destruct a; simpl in Ha; try contradiction.
    exists (m :: A). reflexivity.
Qed.

(** The tail of [applyMutation]: texts, then attributes. *)
Lemma texts_then_attributes (useVirtualParent : bool) (d : mutationData)
  (s : St) :
  let '(r, _, tr) :=
    (forEachT (fun m => handle_with (TextApplied m) (applyText d m)) (texts d)
     >>> forEachT
           (fun m => handle_with (AttributeApplied m)
                       (applyAttribute useVirtualParent d m))
           (attributes d)) s in
  exists X X' Y Y',
    tr = map TextApplied X ++ map AttributeApplied Y
    /\ texts d = X ++ X' /\ attributes d = Y ++ Y'
    /\ (Y <> [] -> X' = [])
    /\ (r = Ret tt -> X' = [] /\ Y' = []).
Proof.
  rewrite bindT_run.
  destruct (forEachT_handles TextApplied (applyText d) (texts d) s)
    as (X & X' & HX & HtrX & HretX).
  destruct (forEachT _ (texts d) s) as [[r1 s1] t1]. simpl in HtrX, HretX.
  destruct r1 as [[] | e |].
  - destruct (forEachT_handles AttributeApplied
                (applyAttribute useVirtualParent d) (attributes d) s1)
      as (Y & Y' & HY & HtrY & HretY).
    destruct (forEachT _ (attributes d) s1) as [[r2 s2] t2].
    simpl in HtrY, HretY. exists X, X', Y, Y'. subst t1 t2.
    repeat split; auto.
  - exists X, X', [], (attributes d). subst t1. rewrite app_nil_r.
    repeat split; trivial; try congruence; discriminate.
  - exists X, X', [], (attributes d). subst t1. rewrite app_nil_r.
    repeat split; trivial; try congruence; discriminate.
Qed.

Lemma Date_now_returns (s : St) : exists t s', Date_now s = (Ret t, s').
Proof. unfold Date_now. run_m. destruct (clock s); eauto. Qed.

Ltac shape :=
  simpl; rewrite ?map_app, ?app_nil_r, <- ?app_assoc;
  repeat split; eauto; try congruence; try discriminate.

(** C2.  The handlers of one delta are called in the order removes, adds,
    texts, attributes: the calls are those of a prefix of the removes, then
    adds, then a prefix of the texts, then a prefix of the attributes; an
    add is handled only after every remove, a text only after every remove
    and every add of the delta (the requeued adds of the resolve-tree pass
    come before it too), an attribute only after every text; and when
    [applyMutation] returns, every mutation of the delta was handled. *)
Theorem C2_removes_adds_texts_attributes :
  forall (rounds : nat) (d : mutationData) (useVirtualParent : bool) (s : St),
    let '(r, _, tr) := applyMutation rounds d useVirtualParent s in
    exists R R' A X X' Y Y',
      tr = map RemoveApplied R ++ map AddApplied A
           ++ map TextApplied X ++ map AttributeApplied Y
      /\ removes d = R ++ R' /\ texts d = X ++ X' /\ attributes d = Y ++ Y'
      /\ (A <> [] -> R' = [])
      /\ (X <> [] -> R' = [] /\ exists A', A = adds d ++ A')
      /\ (Y <> [] -> R' = [] /\ (exists A', A = adds d ++ A') /\ X' = [])
      /\ (r = Ret tt ->
          R' = [] /\ (exists A', A = adds d ++ A') /\ X' = [] /\ Y' = []).
Proof.
  intros rounds d uvp s. unfold applyMutation.
  rewrite bindT_run.
  destruct (forEachT_handles RemoveApplied (applyRemove d) (removes d) s)
    as (R & R' & HR & HtrR & HretR).
  destruct (forEachT _ (removes d) s) as [[r1 s1] t1]. simpl in HtrR, HretR.
  subst t1.
  destruct r1 as [[] | e |];
    [| exists R, R', [], [], (texts d), [], (attributes d); shape ..].
  specialize (HretR eq_refl). subst R'. rewrite app_nil_r in HR.
  rewrite bindT_run. unfold liftT at 1, modify at 1.
  rewrite bindT_run.
  match goal with
  | |- context [forEachT _ (adds d) ?S] =>
      destruct (forEachT_handles AddApplied (appendNode uvp) (adds d) S)
        as (A1 & A1' & HA & HtrA & HretA);
      destruct (forEachT (fun m => handle_with (AddApplied m) (appendNode uvp m))
                  (adds d) S) as [[r2 s2] t2]
  end.
  simpl in HtrA, HretA. subst t2.
  destruct r2 as [[] | e |];
    [| exists R, [], A1, [], (texts d), [], (attributes d); shape ..].
  specialize (HretA eq_refl). subst A1'. rewrite app_nil_r in HA. subst A1.
  rewrite bindT_run. unfold liftT at 1.
  destruct (Date_now_returns s2) as (t & s3 & ->).
  rewrite bindT_run.
  pose proof (resolveLoop_adds rounds uvp t s3) as Hloop.
  destruct (resolveLoop rounds uvp t s3) as [[r3 s4] t3]. simpl in Hloop.
  apply Forall_isAdd_inv in Hloop. destruct Hloop as [A2 ->].
  destruct r3 as [[] | e |];
    [| exists R, [], (adds d ++ A2), [], (texts d), [], (attributes d);
       shape ..].
  rewrite bindT_run. unfold liftT at 1.
  match goal with
  | |- context [match ?X s4 with _ => _ end] =>
      assert (Hl : exists s5, X s4 = (Ret tt, s5))
  end.
  { run_m. destruct (negb (Nat.eqb (size (legacy_missingNodeMap s4)) 0)); eauto. }
  destruct Hl as (s5 & ->).
  pose proof (texts_then_attributes uvp d s5) as Htail.
  match goal with
  | |- context [bindT ?M ?K s5] => destruct (bindT M K s5) as [[r4 s6] t4]
  end.
  destruct Htail as (X & X' & Y & Y' & Htr & HX & HY & HYX & Hret).
  exists R, [], (adds d ++ A2), X, X', Y, Y'. subst t4.
  shape. all: destruct (Hret H); trivial.
Qed.

(** The order on a delta with one mutation of every kind. *)
Example mixed_delta_in_order :
  map phase (snd (applyMutation 1 Scenario.deltaMixed false Scenario.smallPage))
  = [0; 1; 2; 3]%nat.
Proof. vm_compute. reflexivity. Qed.

(** *** The scenario of the specification *)

(** C5, as the specification has it: after the delta with [nextId: -1],
    node 10 is not the last child of node 1. *)
Lemma C5_sentinel_add_is_not_appended :
  ~ Runs.appendedLast (Runs.direct 1 Scenario.deltaSentinel Scenario.onlyRoot)
      1 10.
Proof.
  intros (p & h & Hp & Hlast & _).
  vm_compute in Hp. inversion Hp; subst p.
  vm_compute in Hlast. discriminate Hlast.
Qed.

(** C5, as the code has it.  The delta
    [{adds:[{parentId:1,nextId:-1,node:{id:10,tag:"div"}}]}] on a tree that
    holds only the root node 1 builds node 10 and registers it, so that
    [getId(node10) == 10], but -1 is the legacy sentinel: the node is
    parked in the legacy map with its mutation and stays detached, and
    node 1 keeps no child.  With [nextId: null] node 10 becomes the last
    child of node 1, directly as well as through a virtual parent and the
    Flush. *)
Theorem C5_scenario :
  (exists h : handle,
     fst (fst (applyMutation 1 Scenario.deltaSentinel false Scenario.onlyRoot))
     = Ret tt
     /\ getNode (Runs.direct 1 Scenario.deltaSentinel Scenario.onlyRoot) 10
        = Some h
     /\ getId (Runs.direct 1 Scenario.deltaSentinel Scenario.onlyRoot) (Some h)
        = 10
     /\ parentNode (dom (Runs.direct 1 Scenario.deltaSentinel Scenario.onlyRoot)) h
        = None
     /\ legacy_missingNodeRetryMap
          (Runs.direct 1 Scenario.deltaSentinel Scenario.onlyRoot) !! 10
        = Some (h, mkAdd 1 None (Some (-1)) Scenario.div10)
     /\ childNodes (dom (Runs.direct 1 Scenario.deltaSentinel Scenario.onlyRoot))
          0%nat = [])
  /\ Runs.bothReturn 1 Scenario.deltaAppend Scenario.onlyRoot
  /\ Runs.appendedLast (Runs.direct 1 Scenario.deltaAppend Scenario.onlyRoot)
       1 10
  /\ Runs.appendedLast
       (Runs.virtualThenFlush 1 Scenario.deltaAppend Scenario.onlyRoot) 1 10.
Proof.
  split; [| split; [| split]].
  - exists 1%nat. vm_compute. repeat split; reflexivity.
  - vm_compute. repeat split; reflexivity.
  - exists 0%nat, 1%nat. vm_compute. repeat split; reflexivity.
  - exists 0%nat, 2%nat. vm_compute. repeat split; reflexivity.
Qed.

(** *** Virtual parents *)

(** C1, on the code.  A textarea holds the text node built from its value
    and a delta adds a text node under it.  Applied directly, the add
    clears the old text first; applied through a virtual parent, the
    fragment stands in for the textarea, the test on the parent fails, and
    after the Flush the textarea holds both text nodes. *)
Theorem C1_textarea_diverges :
  Runs.bothReturn 1 Scenario.deltaTextareaText Scenario.textareaPage
  /\ documentView
       (Runs.direct 1 Scenario.deltaTextareaText Scenario.textareaPage)
     = Some
         (View 1 KDocument "" [] [] "" (0, 0) [] None
            [View 2 KElement "textarea" [] [] "" (0, 0) [] None
               [View 3 KText "" [] [] "new" (0, 0) [] None []]])
  /\ documentView
       (Runs.virtualThenFlush 1 Scenario.deltaTextareaText Scenario.textareaPage)
     = Some
         (View 1 KDocument "" [] [] "" (0, 0) [] None
            [View 2 KElement "textarea" [] [] "" (0, 0) [] (Some "oldnew")
               [View (-1) KText "" [] [] "old" (0, 0) [] None [];
                View 3 KText "" [] [] "new" (0, 0) [] None []]]).
Proof. vm_compute. repeat split; reflexivity. Qed.

(** Where no test is made on the parent the two ways agree: the scroll
    offsets and the style rules that the detour through the fragment loses
    are restored at the Flush. *)
Example virtual_parent_restores_scroll_and_rules :
  Runs.bothReturn 1 Scenario.deltaParagraph Scenario.scrolledPage
  /\ documentView
       (snd (fst (applyMutation 1 Scenario.deltaParagraph true
                    Scenario.scrolledPage)))
     = Some
         (View 1 KDocument "" [] [] "" (0, 0) [] None
            [View 2 KElement "body" [] [] "" (0, 0) [] None []])
  /\ documentView
       (Runs.virtualThenFlush 1 Scenario.deltaParagraph Scenario.scrolledPage)
     = documentView
         (Runs.direct 1 Scenario.deltaParagraph Scenario.scrolledPage)
  /\ documentView
       (Runs.direct 1 Scenario.deltaParagraph Scenario.scrolledPage)
     = Some
         (View 1 KDocument "" [] [] "" (0, 0) [] None
            [View 2 KElement "body" [] [] "" (0, 0) [] None
               [View 3 KElement "ul" [] [] "" (0, 120) [] None [];
                View 5 KElement "p" [] [] "" (0, 0) [] None [];
                View 4 KElement "style" [] [] "" (0, 0)
                  ["a { color: red }"] None []]]).
Proof. vm_compute. repeat split; reflexivity. Qed.

End ReplayFacts.

(** ** Facts about the mutation buffer *)

Module CaptureFacts.
Import Dom Wire Node Capture Statements Invariants.

(** *** Lists of handles *)

Lemma mem_In (x : handle) (l : list handle) : mem x l = true <-> In x l.
Proof.
  unfold mem. rewrite existsb_exists. split.
  - intros (y & Hy & Heq). apply Nat.eqb_eq in Heq. subst. exact Hy.
  - intros H. exists x. split; [exact H | apply Nat.eqb_refl].
Qed.

Lemma mem_false (x : handle) (l : list handle) : mem x l = false <-> ~ In x l.
Proof.
  rewrite <- mem_In. destruct (mem x l); split; congruence.
Qed.

Lemma set_add_In (x y : handle) (l : list handle) :
  In y (set_add x l) <-> y = x \/ In y l.
Proof.
  unfold set_add. destruct (mem x l) eqn:E.
  - apply mem_In in E. split; [auto | intros [-> |]; trivial].
  - rewrite in_app_iff. simpl. intuition.
Qed.

Lemma NoDup_snoc (x : handle) (l : list handle) :
  List.NoDup l -> ~ In x l -> List.NoDup (l ++ [x]).
Proof.
  induction l as [| a l IH]; simpl; intros Hnd Hx.
  - constructor; [intros [] | constructor].
  - inversion Hnd; subst. constructor.
    + rewrite in_app_iff. simpl. intuition.
    + apply IH; intuition.
Qed.

Lemma set_add_NoDup (x : handle) (l : list handle) :
  List.NoDup l -> List.NoDup (set_add x l).
Proof.
  intros H. unfold set_add. destruct (mem x l) eqn:E; trivial.
  apply mem_false in E. apply NoDup_snoc; trivial.
Qed.

Lemma set_add_prefix (x : handle) (l : list handle) :
  exists rest, set_add x l = l ++ rest.
Proof.
  unfold set_add. destruct (mem x l); [exists [] | exists [x]]; trivial.
  symmetry. apply app_nil_r.
Qed.

Lemma insert_after_spec (x n : handle) (l : list handle) :
  In x l ->
  length (insert_after x n l) = S (length l)
  /\ (forall y, In y (insert_after x n l) -> y = n \/ In y l).
Proof.
  induction l as [| a l IH]; intros Hin; [contradiction |].
  simpl. destruct (Nat.eqb a x) eqn:E.
  - split; [reflexivity |]. simpl. intuition.
  - destruct Hin as [-> | Hin]; [rewrite Nat.eqb_refl in E; discriminate |].
    destruct (IH Hin) as [Hlen Hel]. simpl. split; [congruence |].
    intros y [-> | Hy]; [auto |]. destruct (Hel y Hy); auto.
Qed.

Lemma insert_ahead_spec (x n : handle) (l : list handle) :
  In x l ->
  length (insert_ahead x n l) = S (length l)
  /\ (forall y, In y (insert_ahead x n l) -> y = n \/ In y l).
Proof.
  induction l as [| a l IH]; intros Hin; [contradiction |].
  simpl. destruct (Nat.eqb a x) eqn:E.
  - split; [reflexivity |]. simpl. intuition.
  - destruct Hin as [-> | Hin]; [rewrite Nat.eqb_refl in E; discriminate |].
    destruct (IH Hin) as [Hlen Hel]. simpl. split; [congruence |].
    intros y [-> | Hy]; [auto |]. destruct (Hel y Hy); auto.
Qed.

(** [addNode] lengthens the list by one and adds no other node. *)
Lemma addNode_spec (p : Page) (n : handle) (l : list handle) :
  length (addNode p n l) = S (length l)
  /\ (forall y, In y (addNode p n l) -> y = n \/ In y l).
Proof.
  assert (Hcons : length (n :: l) = S (length l)
                  /\ (forall y, In y (n :: l) -> y = n \/ In y l)).
  { split; [reflexivity |]. simpl. intuition. }
  assert (Hnext : forall o : option handle,
             length (match o with
                     | Some next =>
                         if mem next (tl l) then insert_ahead next n l else n :: l
                     | None => n :: l
                     end) = S (length l)
             /\ (forall y,
                   In y (match o with
                         | Some next =>
                             if mem next (tl l) then insert_ahead next n l
                             else n :: l
                         | None => n :: l
                         end) -> y = n \/ In y l)).
  { intros [next |]; [| exact Hcons].
    destruct (mem next (tl l)) eqn:E; [| exact Hcons].
    apply insert_ahead_spec. apply mem_In in E.
    destruct l; [contradiction | right; exact E]. }
  unfold addNode. destruct (previousSibling (dom p) n) as [prev |].
  - destruct (mem prev l) eqn:E.
    + apply insert_after_spec. apply mem_In. exact E.
    + apply Hnext.
  - apply Hnext.
Qed.

Lemma removeNode_spec (n : handle) (l : list handle) :
  In n l ->
  S (length (removeNode n l)) = length l
  /\ (forall y, In y (removeNode n l) -> In y l).
Proof.
  induction l as [| a l IH]; intros Hin; [contradiction |].
  simpl. destruct (Nat.eqb a n) eqn:E.
  - split; [reflexivity | auto].
  - destruct Hin as [-> | Hin]; [rewrite Nat.eqb_refl in E; discriminate |].
    destruct (IH Hin) as [Hlen Hel]. simpl. split; [congruence |].
    intros y [-> | Hy]; auto.
Qed.

(** The entry ahead of the one that leaves the list stays in the list. *)
Lemma before_stays (n c : handle) (l : list handle) :
  before n l = Some c -> In c (removeNode n l).
Proof.
  induction l as [| a l IH]; intros H; [discriminate |].
  simpl in H. simpl. destruct (Nat.eqb a n) eqn:E; [discriminate |].
  destruct l as [| b l']; [discriminate |].
  destruct (Nat.eqb b n) eqn:E'.
  - inversion H; subst. left. reflexivity.
  - right. apply IH. exact H.
Qed.

Lemma find_rev_In {A : Type} (f : A -> bool) (l : list A) (x : A) :
  List.find f (rev l) = Some x -> In x l /\ f x = true.
Proof.
  intros H. apply find_some in H. destruct H as [Hin Hf].
  split; [apply in_rev; exact Hin | exact Hf].
Qed.

(** *** The page during [emit] *)

Lemma sameFrame_refl (p : Page) : sameFrame p p.
Proof. repeat split; eauto. Qed.

Lemma sameFrame_trans (p q r : Page) :
  sameFrame p q -> sameFrame q r -> sameFrame p r.
Proof.
  intros (Hd & Hc & H1) (Hd' & Hc' & H2). repeat split; try congruence.
  - destruct (H2 h) as (-> & _). destruct (H1 h) as (-> & _). reflexivity.
  - destruct (H2 h) as (_ & -> & _). destruct (H1 h) as (_ & -> & _).
    reflexivity.
  - destruct (H2 h) as (_ & _ & -> & _). destruct (H1 h) as (_ & _ & -> & _).
    reflexivity.
  - intros s Hs. destruct (H1 h) as (_ & _ & _ & Hk & _).
    destruct (Hk s Hs) as (s' & Hs' & Hid).
    destruct (H2 h) as (_ & _ & _ & Hk' & _).
    destruct (Hk' s' Hs') as (s'' & Hs'' & Hid'). exists s''. split; congruence.
  - intros Hout. destruct (H1 h) as (Hkind & Hhost & _ & _ & Hsame).
    destruct (H2 h) as (_ & _ & _ & _ & Hsame').
    rewrite Hsame', Hsame; trivial.
    rewrite Hkind, Hd.
    assert (Hn : notInDoc q h = notInDoc p h).
    { unfold notInDoc, shadowHostOf. rewrite Hd, Hc.
      destruct (H1 (getRootNode (dom p) h)) as (_ & -> & _). reflexivity. }
    rewrite Hn. exact Hout.
Qed.

Lemma getId_nd (p : Page) (h : handle) :
  getId p (Some h)
  = match sn (nd p h) with Some s => sn_id s | None => -1 end.
Proof.
  unfold getId, Mirror.getId, nd. destruct (nodes p !! h); reflexivity.
Qed.

Lemma sameFrame_getId (p p' : Page) (h : handle) :
  sameFrame p p' -> getId p (Some h) <> -1 ->
  getId p' (Some h) = getId p (Some h).
Proof.
  intros (_ & _ & H) Hid. destruct (H h) as (_ & _ & _ & Hk & _).
  rewrite !getId_nd in *.
  destruct (sn (nd p h)) as [s |] eqn:E; [| congruence].
  destruct (Hk s eq_refl) as (s' & -> & ->). reflexivity.
Qed.

Lemma nd_marked (p : Page) (n h : handle) (s : serializedNode) :
  nd (pg_set_nodes (alter (with_sn (Some s)) n (nodes p)) p) h
  = if Nat.eqb h n
    then match nodes p !! n with
         | Some d => with_sn (Some s) d
         | None => blank KComment
         end
    else nd p h.
Proof.
  unfold nd. simpl. destruct (Nat.eqb h n) eqn:E.
  - apply Nat.eqb_eq in E. subst h. rewrite lookup_alter_eq.
    destruct (nodes p !! n); reflexivity.
  - apply Nat.eqb_neq in E. rewrite lookup_alter_ne; [reflexivity | congruence].
Qed.

(** *** One step of [emit] *)

Lemma serialize_sameFrame (c : Collaborators) (p : Page) (n : handle) :
  parentNode (dom p) n <> None -> notInDoc p n = false ->
  sameFrame p (snd (serializeNodeWithId c p n)).
Proof.
  intros Hpar Hin. unfold serializeNodeWithId.
  destruct (typeOfKind (kind (nd p n))) as [ty |] eqn:Ety;
    [| apply sameFrame_refl].
  match goal with
  | |- sameFrame p (snd (if _ then (None, ?P1) else (Some _, pg_set_mirror ?M ?P1))) =>
      assert (Hframe : sameFrame p P1);
      [| destruct (Z.eqb _ IGNORED_NODE); simpl; trivial;
         destruct Hframe as (Hd & Hc & Hn); repeat split; trivial; apply Hn]
  end.
  repeat split; trivial; unfold pg_set_nextId; simpl;
    change (nd (mkPage (dom p) ?N (doc p) (mirror p) ?X) h)
      with (nd (pg_set_nodes N p) h); rewrite nd_marked;
    (destruct (Nat.eqb h n) eqn:E;
     [apply Nat.eqb_eq in E; subst h | solve [eauto]]).
  1-3: unfold nd; destruct (nodes p !! n); reflexivity.
  - intros s Hs. unfold nd in *.
    destruct (nodes p !! n) as [d |]; [| discriminate].
    simpl in *. rewrite Hs. eexists. split; reflexivity.
  - intros [Hk | [Hk | Hk]].
    + rewrite Hk in Ety. discriminate.
    + contradiction.
    + congruence.
Qed.

Lemma pushAdd_spec (c : Collaborators) (n : handle) (e : Emitting) :
  sameFrame (page e) (page (pushAdd c n e))
  /\ (adds (pushAdd c n e) = adds e
      \/ exists a, adds (pushAdd c n e) = adds e ++ [(n, a)]
                   /\ parentNode (dom (page e)) n <> None
                   /\ notInDoc (page e) n = false)
  /\ (addList (pushAdd c n e) = addList e
      \/ addList (pushAdd c n e) = addNode (page e) n (addList e)).
Proof.
  unfold pushAdd.
  destruct (parentNode (dom (page e)) n) as [parent |] eqn:Epar;
    [| split; [apply sameFrame_refl | auto]].
  destruct (notInDoc (page e) n) eqn:Ein;
    [split; [apply sameFrame_refl | auto] |].
  destruct (_ || _); simpl; [split; [apply sameFrame_refl | auto] |].
  pose proof (serialize_sameFrame c (page e) n) as Hser.
  rewrite Epar in Hser. specialize (Hser ltac:(discriminate) Ein).
  destruct (serializeNodeWithId c (page e) n) as [[s |] p']; simpl in *.
  - split; [exact Hser |]. split; [| auto]. right. eexists. split; [reflexivity |].
    split; [discriminate | reflexivity].
  - split; [exact Hser | auto].
Qed.

Lemma sameFrame_isShadowRoot (p p' : Page) (h : handle) :
  sameFrame p p' -> isShadowRoot p' h = isShadowRoot p h.
Proof.
  intros (_ & _ & H). unfold isShadowRoot.
  destruct (H h) as (_ & -> & _). destruct (host (nd p h)) as [hs |]; trivial.
  destruct (H hs) as (_ & _ & -> & _). reflexivity.
Qed.

Lemma sameFrame_shadow (p p' : Page) :
  sameFrame p p' -> shadow_roots_unmarked p -> shadow_roots_unmarked p'.
Proof.
  intros Hf Hs h Hh. rewrite (sameFrame_isShadowRoot p p' h Hf) in Hh.
  destruct (Hs h Hh) as [Hk Hsn]. destruct Hf as (_ & _ & H).
  destruct (H h) as (Hkind & _ & _ & _ & Hsame).
  rewrite Hsame by auto. auto.
Qed.

Lemma sameFrame_notInDoc (p p' : Page) (h : handle) :
  sameFrame p p' -> notInDoc p' h = notInDoc p h.
Proof.
  intros (Hd & Hc & H). unfold notInDoc, shadowHostOf. rewrite Hd, Hc.
  destruct (H (getRootNode (dom p) h)) as (_ & -> & _). reflexivity.
Qed.

(** An entry that passes the test of the loop is serialized, not queued
    again. *)
Lemma resolvable_not_pending (c : Collaborators) (n : handle) (e : Emitting) :
  shadow_roots_unmarked (page e) ->
  resolvable (page e) n = true ->
  addList (pushAdd c n e) = addList e.
Proof.
  intros Hs Hr. unfold pushAdd.
  destruct (parentNode (dom (page e)) n) as [parent |] eqn:Epar; trivial.
  destruct (notInDoc (page e) n); trivial.
  unfold resolvable in Hr. rewrite Epar in Hr.
  apply andb_true_iff in Hr. destruct Hr as [Hp Hn].
  apply negb_true_iff in Hp, Hn.
  destruct (isShadowRoot (page e) parent) eqn:Esh.
  - destruct (Hs parent Esh) as [_ Hsn].
    rewrite getId_nd, Hsn in Hp. discriminate.
  - rewrite Hp, Hn. simpl.
    destruct (serializeNodeWithId c (page e) n) as [[s |] p']; reflexivity.
Qed.

(** The resolution loop returns when it is given as many rounds as there
    are pending entries. *)
Lemma resolveAddList_returns (c : Collaborators) (fuel : nat) :
  forall (candidate : option handle) (e : Emitting),
    shadow_roots_unmarked (page e) ->
    (forall cd, candidate = Some cd -> In cd (addList e)) ->
    (length (addList e) <= fuel)%nat ->
    exists r, resolveAddList fuel c candidate e = Some r.
Proof.
  induction fuel as [| fuel IH]; intros candidate e Hs Hc Hlen.
  - destruct (addList e) eqn:El; [| simpl in Hlen; lia].
    simpl. rewrite El. eauto.
  - simpl. destruct (addList e) as [| a l] eqn:El; [eauto |].
    rewrite <- El in *.
    match goal with
    | |- context [match ?N with Some _ => _ | None => Some ?D end] =>
        destruct N as [n |] eqn:En; [| eauto]
    end.
    assert (Hn : In n (addList e) /\ resolvable (page e) n = true).
    { destruct candidate as [cd |].
      - destruct (resolvable (page e) cd) eqn:Er.
        + inversion En; subst. split; auto.
        + apply find_rev_In in En. exact En.
      - apply find_rev_In in En. exact En. }
    destruct Hn as [Hin Hres].
    set (e0 := mkEmitting (page e) (adds e) (removeNode n (addList e))).
    destruct (removeNode_spec n (addList e) Hin) as [Hrl Hre].
    assert (Hkeep : addList (pushAdd c n e0) = removeNode n (addList e)).
    { apply (resolvable_not_pending c n e0); assumption. }
    apply IH.
    + eapply sameFrame_shadow; [| exact Hs].
      apply (pushAdd_spec c n e0).
    + intros cd Hcd. rewrite Hkeep. apply before_stays. exact Hcd.
    + rewrite Hkeep. lia.
Qed.

Lemma addNode_keeps (p : Page) (n y : handle) (l : list handle) :
  In y l -> In y (addNode p n l).
Proof.
  assert (Hafter : forall x l, In y l -> In y (insert_after x n l)).
  { intros x l0. induction l0 as [| a l0 IH]; simpl; [trivial |].
    destruct (Nat.eqb a x); simpl; intuition. }
  assert (Hahead : forall x l, In y l -> In y (insert_ahead x n l)).
  { intros x l0. induction l0 as [| a l0 IH]; simpl; [trivial |].
    destruct (Nat.eqb a x); simpl; intuition. }
  intros Hy. unfold addNode.
  destruct (previousSibling (dom p) n) as [prev |];
    [destruct (mem prev l); [auto |] |];
    (destruct (nextSibling (dom p) n) as [next |];
     [destruct (mem next (tl l)); [auto | right; trivial] | right; trivial]).
Qed.

Lemma pushAdd_keeps (c : Collaborators) (n y : handle) (e : Emitting) :
  In y (addList e) -> In y (addList (pushAdd c n e)).
Proof.
  intros Hy. destruct (pushAdd_spec c n e) as (_ & _ & [-> | ->]); trivial.
  apply addNode_keeps. exact Hy.
Qed.

Section Invariant.

Variable c : Collaborators.
Variable Q : Emitting -> Prop.
Variable S : handle -> Prop.

Hypothesis push : forall n e, S n -> Q e -> Q (pushAdd c n e).
Hypothesis pending : forall e n, Q e -> In n (addList e) -> S n.
Hypothesis leave :
  forall e l, Q e -> (forall y, In y l -> In y (addList e)) ->
              Q (mkEmitting (page e) (adds e) l).

Lemma fold_push_invariant (skip : Emitting -> handle -> bool)
  (l : list handle) (e : Emitting) :
  Forall S l -> Q e ->
  Q (fold_left (fun e n => if skip e n then e else pushAdd c n e) l e).
Proof.
  revert e. induction l as [| n l IH]; intros e Hl He; simpl; [trivial |].
  inversion Hl; subst. apply IH; trivial.
  destruct (skip e n); auto.
Qed.

Lemma emitMoved_invariant (b : MutationBuffer) (e : Emitting) :
  Forall S (movedSet b) -> Q e -> Q (emitMoved c b e).
Proof.
  unfold emitMoved.
  apply (fold_push_invariant
           (fun e n =>
              isParentRemoved (page e) (removes b) n
              && negb (match parentNode (dom (page e)) n with
                       | Some parent => mem parent (movedSet b)
                       | None => false
                       end))).
Qed.

Lemma emitAdded_invariant (b : MutationBuffer) (e : Emitting) :
  Forall S (addedSet b) -> Q e -> Q (fst (emitAdded c b e)).
Proof.
  unfold emitAdded. generalize (droppedSet b). generalize (addedSet b).
  intros l. revert e. induction l as [| n l IH]; intros e dropped Hl He; simpl;
    [trivial |].
  inversion Hl; subst.
  destruct (_ && _); [apply IH; auto |].
  destruct (isAncestorInSet (page e) (movedSet b) n); apply IH; auto.
Qed.

Lemma resolveAddList_invariant (fuel : nat) :
  forall (candidate : option handle) (e r : Emitting) (gone : list handle),
    (forall cd, candidate = Some cd -> In cd (addList e)) ->
    Q e ->
    resolveAddList fuel c candidate e = Some (r, gone) ->
    Q r.
Proof.
  induction fuel as [| fuel IH]; intros candidate e r gone Hc He Hrun.
  - simpl in Hrun. destruct (addList e); [| discriminate].
    inversion Hrun; subst. exact He.
  - simpl in Hrun. destruct (addList e) as [| a l] eqn:El.
    { inversion Hrun; subst. exact He. }
    rewrite <- El in *.
    match type of Hrun with
    | match ?N with Some _ => _ | None => _ end = _ =>
        destruct N as [n |] eqn:En
    end.
    + assert (Hin : In n (addList e)).
      { destruct candidate as [cd |].
        - destruct (resolvable (page e) cd).
          + inversion En; subst. auto.
          + apply find_rev_In in En. apply En.
        - apply find_rev_In in En. apply En. }
      destruct (removeNode_spec n (addList e) Hin) as [_ Hsub].
      eapply IH; [| | exact Hrun].
      * intros cd Hcd. apply pushAdd_keeps. simpl.
        apply before_stays. exact Hcd.
      * apply push; [eapply pending; eauto |]. apply leave; auto.
    + inversion Hrun; subst. apply leave; [exact He | intros y []].
Qed.

End Invariant.

Lemma pushAdd_pending (c : Collaborators) (n : handle) (e : Emitting) :
  (length (addList (pushAdd c n e)) <= S (length (addList e)))%nat.
Proof.
  destruct (pushAdd_spec c n e) as (_ & _ & [-> | ->]); [lia |].
  destruct (addNode_spec (page e) n (addList e)) as [-> _]. lia.
Qed.

Lemma fold_push_pending (c : Collaborators)
  (skip : Emitting -> handle -> bool) (l : list handle) (e : Emitting) :
  (length (addList (fold_left (fun e n => if skip e n then e else pushAdd c n e)
                      l e))
   <= length (addList e) + length l)%nat.
Proof.
  revert e. induction l as [| n l IH]; intros e; simpl; [lia |].
  destruct (skip e n).
  - specialize (IH e). lia.
  - specialize (IH (pushAdd c n e)). pose proof (pushAdd_pending c n e). lia.
Qed.

Lemma emitMoved_pending (c : Collaborators) (b : MutationBuffer) (e : Emitting) :
  (length (addList (emitMoved c b e)) <= length (addList e) + length (movedSet b))%nat.
Proof.
  unfold emitMoved.
  apply (fold_push_pending c
           (fun e n =>
              isParentRemoved (page e) (removes b) n
              && negb (match parentNode (dom (page e)) n with
                       | Some parent => mem parent (movedSet b)
                       | None => false
                       end))).
Qed.

Lemma emitAdded_pending (c : Collaborators) (b : MutationBuffer) (e : Emitting) :
  (length (addList (fst (emitAdded c b e)))
   <= length (addList e) + length (addedSet b))%nat.
Proof.
  unfold emitAdded. generalize (droppedSet b). generalize (addedSet b).
  intros l. revert e. induction l as [| n l IH]; intros e dropped; simpl; [lia |].
  pose proof (pushAdd_pending c n e) as Hpush.
  destruct (_ && _).
  - specialize (IH (pushAdd c n e) dropped). lia.
  - destruct (isAncestorInSet (page e) (movedSet b) n).
    + specialize (IH (pushAdd c n e) dropped). lia.
    + specialize (IH e (set_add n dropped)). lia.
Qed.

(** *** Emission and the pending list *)

Lemma mapRemoves_only_mirror (p : Page) (l : list handle) :
  exists m : gmap Z handle,
    fold_left
      (fun p n => pg_set_mirror
                    (Mirror.removeNodeFromMap (dom p) (nodes p) (mirror p) n) p)
      l p = pg_set_mirror m p.
Proof.
  revert p. induction l as [| n l IH]; intros p; simpl.
  - exists (mirror p). destruct p; reflexivity.
  - destruct (IH (pg_set_mirror
                    (Mirror.removeNodeFromMap (dom p) (nodes p) (mirror p) n) p))
      as (m & ->).
    exists m. reflexivity.
Qed.

Lemma sameFrame_mirror (p : Page) (m : gmap Z handle) :
  sameFrame p (pg_set_mirror m p).
Proof. repeat split; eauto. Qed.

Lemma isEmpty_nil {A : Type} (l : list A) : isEmpty l = true <-> l = [].
Proof. destruct l; simpl; split; congruence. Qed.

Lemma isEmptyPayload_spec (pl : payload) :
  isEmptyPayload pl = true
  <-> pl_texts pl = [] /\ pl_attributes pl = [] /\ pl_removes pl = []
      /\ pl_adds pl = [].
Proof.
  unfold isEmptyPayload. rewrite !andb_true_iff, !isEmpty_nil. tauto.
Qed.

Lemma collect_buffer (fuel : nat) (c : Collaborators) (p : Page)
  (b b1 : MutationBuffer) (e3 : Emitting) (gone : list handle) :
  collect fuel c p b = Some (b1, e3, gone) ->
  frozen b1 = frozen b /\ locked b1 = locked b /\ texts b1 = texts b
  /\ attributes b1 = attributes b /\ removes b1 = removes b
  /\ mapRemoves b1 = [] /\ movedMap b1 = movedMap b
  /\ addedSet b1 = addedSet b /\ movedSet b1 = movedSet b.
Proof.
  unfold collect. destruct (emitAdded _ _ _) as [e2 dropped].
  destruct (resolveAddList _ _ _ _) as [[e gone'] |]; [| discriminate].
  intros H. inversion H; subst. repeat split.
Qed.

Lemma no_hosts_unmarked (p : Page) :
  map_Forall (fun _ d => host d = None) (nodes p) -> shadow_roots_unmarked p.
Proof.
  intros H h Hh. exfalso. unfold isShadowRoot, nd in Hh.
  destruct (nodes p !! h) as [d |] eqn:E.
  - rewrite (H h d E) in Hh. discriminate.
  - simpl in Hh. discriminate.
Qed.

(** With unmarked shadow roots the first half of [emit] returns within as
    many rounds as there are moved and added nodes. *)
Lemma collect_returns (fuel : nat) (c : Collaborators) (p : Page)
  (b : MutationBuffer) :
  shadow_roots_unmarked p ->
  (length (movedSet b) + length (addedSet b) <= fuel)%nat ->
  exists x, collect fuel c p b = Some x.
Proof.
  intros Hs Hfuel. unfold collect.
  destruct (mapRemoves_only_mirror p (mapRemoves b)) as (m & ->).
  set (p0 := pg_set_mirror m p). set (b0 := set_mapRemoves [] b).
  set (e1 := emitMoved c b0 (mkEmitting p0 [] [])).
  assert (Hpush : forall n e, True -> sameFrame p (page e) ->
                              sameFrame p (page (pushAdd c n e))).
  { intros n e _ He. eapply sameFrame_trans; [exact He |].
    apply pushAdd_spec. }
  assert (H1 : sameFrame p (page e1)).
  { apply (emitMoved_invariant c (fun e => sameFrame p (page e))
             (fun _ => True)); trivial.
    - apply Forall_forall. trivial.
    - apply sameFrame_mirror. }
  assert (H2 : sameFrame p (page (fst (emitAdded c b0 e1)))).
  { apply (emitAdded_invariant c (fun e => sameFrame p (page e))
             (fun _ => True)); trivial.
    apply Forall_forall. trivial. }
  pose proof (emitMoved_pending c b0 (mkEmitting p0 [] [])) as L1.
  pose proof (emitAdded_pending c b0 e1) as L2. fold e1 in L1.
  destruct (emitAdded c b0 e1) as [e2 dropped]. simpl in *.
  destruct (resolveAddList_returns c fuel None e2) as ([e3 gone] & ->).
  - eapply sameFrame_shadow; eauto.
  - discriminate.
  - lia.
  - eauto.
Qed.






Lemma find_nothing {A : Type} (f : A -> bool) (l : list A) :
  (forall x, In x l -> f x = false) -> List.find f l = None.
Proof.
  induction l as [| a l IH]; intros H; simpl; [trivial |].
  rewrite (H a (or_introl eq_refl)). apply IH. intros x Hx. apply H. right.
  exact Hx.
Qed.

(** C7, as the specification has it: when the loop discards an entry,
    nothing is logged. *)
Lemma C7_discard_is_silent : ~ discards_are_logged.
Proof.
  intros H.
  destruct (H 1%nat Scenario.plain Scenario.pendingPage
              (fold_left (processMutation Scenario.plain Scenario.pendingPage)
                 [ChildList 1%nat [2%nat] []] emptyBuffer)
              _ eq_refl) as (text & Hin).
  - vm_compute. discriminate.
  - vm_compute in Hin. exact Hin.
Qed.

(** The loop does not consult the clock either. *)
Lemma loop_has_no_clock : ~ loop_reads_the_clock.
Proof.
  intros H.
  assert (Hin : In ClockRead []); [| exact Hin].
  apply (H 1%nat Scenario.plain Scenario.pendingPage
           (fold_left (processMutation Scenario.plain Scenario.pendingPage)
              [ChildList 1%nat [2%nat] []] emptyBuffer)
           _ eq_refl).
  vm_compute. discriminate.
Qed.

(** C7, as the code has it.  On a page whose shadow roots are unmarked
    fragments the resolution loop returns: as many rounds as there are
    moved and added nodes are enough for [emit].  An entry that passes the
    test of a round is serialized and leaves the list; a round in which no
    entry passes discards every remaining entry, and the loop ends.  The
    discard is silent and the loop reads no clock: [emit] does nothing to
    the outside but call the emission callback. *)
Theorem C7_resolution_loop_returns :
  forall (c : Collaborators) (p : Page) (b : MutationBuffer),
    shadow_roots_unmarked p ->
    (forall fuel : nat,
       (length (movedSet b) + length (addedSet b) <= fuel)%nat ->
       exists r, emit fuel c p b = Some r)
    /\ (forall (e : Emitting) (n : handle),
          shadow_roots_unmarked (page e) ->
          In n (addList e) -> resolvable (page e) n = true ->
          addList (pushAdd c n
                     (mkEmitting (page e) (adds e) (removeNode n (addList e))))
          = removeNode n (addList e)
          /\ S (length (removeNode n (addList e))) = length (addList e))
    /\ (forall (fuel : nat) (candidate : option handle) (e : Emitting),
          addList e <> [] ->
          (forall n, In n (addList e) -> resolvable (page e) n = false) ->
          (forall cd, candidate = Some cd -> resolvable (page e) cd = false) ->
          resolveAddList (S fuel) c candidate e
          = Some (mkEmitting (page e) (adds e) [], addList e))
    /\ (forall (fuel : nat) (r : Emitted),
          emit fuel c p b = Some r ->
          forall eff, In eff (effects r) -> exists pl, eff = EmissionCallback pl).
Proof.
  intros c p b Hs. repeat split.
  - intros fuel Hfuel. unfold emit.
    destruct (frozen b || locked b); [eauto |].
    destruct (collect_returns fuel c p b Hs Hfuel) as ([[b1 e3] gone] & ->).
    destruct (isEmptyPayload _); eauto.
  - apply (resolvable_not_pending c n
             (mkEmitting (page e) (adds e) (removeNode n (addList e)))); trivial.
  - apply removeNode_spec. trivial.
  - intros fuel candidate e Hne Hall Hcand. simpl.
    destruct (addList e) as [| a l] eqn:El; [congruence |].
    rewrite <- El in *.
    assert (Hc : match candidate with
                 | Some cd => if resolvable (page e) cd then Some cd else None
                 | None => None
                 end = None).
    { destruct candidate as [cd |]; trivial. rewrite (Hcand cd eq_refl). trivial. }
    rewrite Hc.
    assert (Hscan : scanFromTail (page e) (addList e) = None).
    { unfold scanFromTail. apply find_nothing. intros x Hx.
      apply Hall. apply in_rev. exact Hx. }
    rewrite Hscan. reflexivity.
  - intros fuel r Hr eff Hin. unfold emit in Hr.
    destruct (frozen b || locked b).
    { inversion Hr; subst. destruct Hin. }
    destruct (collect fuel c p b) as [[[b1 e3] gone] |]; [| discriminate].
    destruct (isEmptyPayload _); inversion Hr; subst; simpl in Hin.
    + destruct Hin.
    + destruct Hin as [<- | []]. eauto.
Qed.

Lemma C7_witness :
  exists r : Emitted,
    emit 1 Scenario.plain Scenario.pendingPage
      (fold_left (processMutation Scenario.plain Scenario.pendingPage)
         [ChildList 1%nat [2%nat] []] emptyBuffer) = Some r.
Proof.
  assert (Hs : shadow_roots_unmarked Scenario.pendingPage).
  { apply no_hosts_unmarked. compute_done. }
  destruct (C7_resolution_loop_returns Scenario.plain Scenario.pendingPage
              (fold_left (processMutation Scenario.plain Scenario.pendingPage)
                 [ChildList 1%nat [2%nat] []] emptyBuffer) Hs) as (Hret & _).
  apply (Hret 1%nat). vm_compute. lia.
Defined.

(** *** Classification *)

Lemma tree_induction (P : tree -> Prop) :
  (forall h ks, Forall P ks -> P (T h ks)) -> forall t, P t.
Proof.
  intros H. fix IH 1. intros [h ks]. apply H.
  induction ks as [| k ks IHks]; constructor; [apply IH | exact IHks].
Qed.

Lemma find_map_Some {A B : Type} (f : A -> option B) (l : list A) (b : B) :
  find_map f l = Some b -> exists a, In a l /\ f a = Some b.
Proof.
  induction l as [| a l IH]; simpl; [discriminate |].
  destruct (f a) as [b' |] eqn:E.
  - intros H. inversion H; subst. exists a. auto.
  - intros H. destruct (IH H) as (a' & Ha & Hf). exists a'. auto.
Qed.

Lemma subtree_in_root (x : handle) (t s : tree) :
  subtree_in x t = Some s -> root s = x.
Proof.
  revert s. induction t as [h ks IH] using tree_induction. intros s. simpl.
  destruct (Nat.eqb x h) eqn:E.
  - intros H. inversion H; subst. simpl. apply Nat.eqb_eq in E. auto.
  - intros H. apply find_map_Some in H. destruct H as (k & Hk & Hs).
    rewrite List.Forall_forall in IH. exact (IH k Hk s Hs).
Qed.

Lemma subtree_root (f : forest) (x : handle) (s : tree) :
  subtree f x = Some s -> root s = x.
Proof.
  unfold subtree. intros H. apply find_map_Some in H.
  destruct H as (t & _ & Hs). exact (subtree_in_root x t s Hs).
Qed.

Lemma grown_refl (p : Page) (b : MutationBuffer) : grown p b b.
Proof.
  repeat split; auto. exists []. symmetry. apply app_nil_r.
Qed.

Lemma grown_trans (p : Page) (b1 b2 b3 : MutationBuffer) :
  grown p b1 b2 -> grown p b2 b3 -> grown p b1 b3.
Proof.
  intros (F1 & L1 & T1 & A1 & R1 & M1 & (r1 & S1) & N1 & I1 & J1)
         (F2 & L2 & T2 & A2 & R2 & M2 & (r2 & S2) & N2 & I2 & J2).
  repeat split; try congruence; auto.
  - exists (r1 ++ r2). rewrite S2, S1. symmetry. apply app_assoc.
  - intros h Hh. destruct (J2 h Hh); auto.
Qed.

Lemma genAdds_tree_grown (p : Page) (t : tree) :
  forall (target : option handle) (b : MutationBuffer),
    grown p b (genAdds_tree p target t b).
Proof.
  induction t as [n ks IH] using tree_induction. intros target b. simpl.
  destruct (match target with Some tg => isBlocked p tg | None => false end);
    [apply grown_refl |].
  assert (Hdescend : forall b',
             grown p b'
               (if negb (isBlocked p n)
                then fold_left (fun acc childN => genAdds_tree p None childN acc)
                       ks b'
                else b')).
  { intros b'. destruct (negb (isBlocked p n)); [| apply grown_refl].
    revert b'. induction ks as [| k ks IHks]; intros b'; simpl;
      [apply grown_refl |].
    inversion IH; subst.
    eapply grown_trans; [apply H1 | apply IHks; assumption]. }
  destruct (isINode p n) eqn:En.
  - destruct (isIgnored p n); [apply grown_refl |].
    eapply grown_trans; [| apply Hdescend].
    destruct (truthy _); unfold grown; simpl; repeat split; auto;
      try apply set_add_prefix; try apply set_add_NoDup.
  - eapply grown_trans; [| apply Hdescend].
    unfold grown; simpl; repeat split; auto.
    + exists []. symmetry. apply app_nil_r.
    + intros h Hh. apply set_add_In. auto.
    + intros h Hh. apply set_add_In in Hh. destruct Hh as [-> | Hh]; auto.
Qed.

Lemma genAdds_grown (p : Page) (n : handle) (target : option handle)
  (b : MutationBuffer) :
  grown p b (genAdds p n target b).
Proof.
  unfold genAdds. destruct (subtree (dom p) n); apply genAdds_tree_grown.
Qed.

(** A marked node that is reported as added is the next to enter
    [movedSet]. *)
Lemma genAdds_moved (p : Page) (n target : handle) (b : MutationBuffer) :
  isBlocked p target = false -> isINode p n = true -> isIgnored p n = false ->
  exists rest,
    movedSet (genAdds p n (Some target) b) = set_add n (movedSet b) ++ rest.
Proof.
  intros Hb Hn Hi.
  assert (H : forall ks,
             exists rest,
               movedSet (genAdds_tree p (Some target) (T n ks) b)
               = set_add n (movedSet b) ++ rest).
  { intros ks. simpl. rewrite Hb, Hn, Hi.
    match goal with
    | |- context [if negb (isBlocked p n) then fold_left ?F ks ?B else ?B] =>
        assert (Hg : grown p B (if negb (isBlocked p n) then fold_left F ks B
                                else B))
    end.
    { destruct (negb (isBlocked p n)); [| apply grown_refl].
      match goal with |- grown p ?B _ => generalize B end.
      induction ks as [| k ks IHks]; intros b'; simpl; [apply grown_refl |].
      eapply grown_trans; [apply genAdds_tree_grown | apply IHks]. }
    destruct Hg as (_ & _ & _ & _ & _ & _ & (rest & ->) & _).
    exists rest. destruct (truthy _); reflexivity. }
  unfold genAdds. destruct (subtree (dom p) n) as [t |] eqn:Et; [| apply H].
  pose proof (subtree_root _ _ _ Et) as Hr. destruct t as [h ks].
  simpl in Hr. subst h. apply H.
Qed.

(** An unmarked node that is reported as added enters [addedSet]. *)
Lemma genAdds_added (p : Page) (n target : handle) (b : MutationBuffer) :
  isBlocked p target = false -> isINode p n = false ->
  In n (addedSet (genAdds p n (Some target) b)).
Proof.
  intros Hb Hn.
  assert (H : forall ks,
             In n (addedSet (genAdds_tree p (Some target) (T n ks) b))).
  { intros ks. simpl. rewrite Hb, Hn.
    match goal with
    | |- context [if negb (isBlocked p n) then fold_left ?F ks ?B else ?B] =>
        assert (Hg : grown p B (if negb (isBlocked p n) then fold_left F ks B
                                else B))
    end.
    { destruct (negb (isBlocked p n)); [| apply grown_refl].
      match goal with |- grown p ?B _ => generalize B end.
      induction ks as [| k ks IHks]; intros b'; simpl; [apply grown_refl |].
      eapply grown_trans; [apply genAdds_tree_grown | apply IHks]. }
    destruct Hg as (_ & _ & _ & _ & _ & _ & _ & _ & Hkeep & _).
    apply Hkeep. simpl. apply set_add_In. auto. }
  unfold genAdds. destruct (subtree (dom p) n) as [t |] eqn:Et; [| apply H].
  pose proof (subtree_root _ _ _ Et) as Hr. destruct t as [h ks].
  simpl in Hr. subst h. apply H.
Qed.

(** *** Ids *)

Lemma serialize_ids (c : Collaborators) (p : Page) (n : handle) :
  idsSound p ->
  idsSound (snd (serializeNodeWithId c p n))
  /\ forall s, fst (serializeNodeWithId c p n) = Some s -> sn_id s <> -1.
Proof.
  intros (Hm & Hn & Hs). unfold serializeNodeWithId.
  destruct (typeOfKind (kind (nd p n))) as [ty |];
    [| split; [repeat split; trivial | discriminate]].
  set (id := match sn (nd p n) with
             | Some s => sn_id s
             | None => if slimDOMExcluded c n then IGNORED_NODE else nextId p
             end).
  assert (Hid : id <> -1).
  { subst id. destruct (sn (nd p n)) as [s |] eqn:E; [eapply Hs; eauto |].
    destruct (slimDOMExcluded c n); [discriminate | lia]. }
  match goal with
  | |- context [pg_set_nextId ?X (pg_set_nodes ?N p)] =>
      set (next := X); set (marked := N);
      set (p1 := pg_set_nextId next (pg_set_nodes marked p))
  end.
  assert (H1 : idsSound p1).
  { split; [exact Hm |]. split.
    - change (0 <= next). subst next. destruct (sn (nd p n)); [trivial |].
      destruct (slimDOMExcluded c n); lia.
    - intros h s. change (nd p1 h) with (nd (pg_set_nodes marked p) h).
      subst marked. rewrite nd_marked. destruct (Nat.eqb h n); [| apply Hs].
      destruct (nodes p !! n); simpl; [| discriminate].
      intros H. inversion H; subst. exact Hid. }
  destruct (Z.eqb id IGNORED_NODE); simpl; split; trivial; try discriminate.
  - destruct H1 as (Hm1 & Hn1 & Hs1). repeat split; trivial; simpl.
    rewrite lookup_insert_ne; [exact Hm1 | exact Hid].
  - intros s H. inversion H; subst. exact Hid.
Qed.

Lemma pushAdd_ids (c : Collaborators) (n : handle) (e : Emitting) :
  idsSound (page e) ->
  (forall h a, In (h, a) (adds e) -> sn_id (add_node a) <> -1) ->
  idsSound (page (pushAdd c n e))
  /\ (forall h a, In (h, a) (adds (pushAdd c n e)) -> sn_id (add_node a) <> -1).
Proof.
  intros Hp Ha. unfold pushAdd.
  destruct (parentNode (dom (page e)) n) as [parent |]; [| auto].
  destruct (notInDoc (page e) n); [auto |].
  destruct (_ || _); [auto |].
  destruct (serialize_ids c (page e) n Hp) as [Hp' Hs].
  destruct (serializeNodeWithId c (page e) n) as [[s |] p']; simpl in *;
    [| auto].
  split; [exact Hp' |]. intros h a Hin. apply in_app_iff in Hin.
  destruct Hin as [Hin | [Heq | []]]; [eauto |].
  inversion Heq; subst. simpl. apply Hs. reflexivity.
Qed.

Lemma removed_from_map_keeps_none (f : forest) (nodes : gmap handle ndata)
  (m : gmap Z handle) (n : handle) (k : Z) :
  m !! k = None -> Mirror.removeNodeFromMap f nodes m n !! k = None.
Proof.
  unfold Mirror.removeNodeFromMap.
  generalize (Mirror.subtree_handles f n). intros l. revert m.
  induction l as [| h l IH]; intros m Hm; simpl; [exact Hm |].
  apply IH. destruct (nodes !! h) as [d |]; [| exact Hm].
  destruct (sn d); [| exact Hm].
  rewrite lookup_delete. case_decide; trivial.
Qed.

Lemma mapRemoves_ids (p : Page) (l : list handle) :
  idsSound p ->
  idsSound
    (fold_left
       (fun p n => pg_set_mirror
                     (Mirror.removeNodeFromMap (dom p) (nodes p) (mirror p) n) p)
       l p).
Proof.
  revert p. induction l as [| n l IH]; intros p Hp; simpl; [exact Hp |].
  apply IH. destruct Hp as (Hm & Hn & Hs). repeat split; trivial. simpl.
  apply removed_from_map_keeps_none. exact Hm.
Qed.


(** *** The whole of [collect] *)

Lemma collect_invariant (c : Collaborators) (Q : Emitting -> Prop)
  (S : handle -> Prop) (fuel : nat) (p : Page) (b b1 : MutationBuffer)
  (e3 : Emitting) (gone : list handle) :
  (forall n e, S n -> Q e -> Q (pushAdd c n e)) ->
  (forall e n, Q e -> In n (addList e) -> S n) ->
  (forall e l, Q e -> (forall y, In y l -> In y (addList e)) ->
               Q (mkEmitting (page e) (adds e) l)) ->
  Forall S (movedSet b) -> Forall S (addedSet b) ->
  Q (mkEmitting
       (fold_left
          (fun p n =>
             pg_set_mirror
               (Mirror.removeNodeFromMap (dom p) (nodes p) (mirror p) n) p)
          (mapRemoves b) p) [] []) ->
  collect fuel c p b = Some (b1, e3, gone) ->
  Q e3.
Proof.
  intros Hpush Hpend Hleave Hm Ha H0 Hc. unfold collect in Hc.
  match type of H0 with Q (mkEmitting ?P0 [] []) => set (p0 := P0) in * end.
  set (e1 := emitMoved c (set_mapRemoves [] b) (mkEmitting p0 [] [])) in *.
  assert (H1 : Q e1).
  { apply (emitMoved_invariant c Q S); auto. }
  assert (H2 : Q (fst (emitAdded c (set_mapRemoves [] b) e1))).
  { apply (emitAdded_invariant c Q S); auto. }
  destruct (emitAdded c (set_mapRemoves [] b) e1) as [e2 dropped].
  destruct (resolveAddList fuel c None e2) as [[e gone'] |] eqn:Er;
    [| discriminate].
  inversion Hc; subst.
  apply (resolveAddList_invariant c Q S Hpush Hpend Hleave fuel None e2 e3 gone);
    trivial.
  discriminate.
Qed.

Lemma pushAdd_documentOnly (c : Collaborators) (p : Page) (n : handle)
  (e : Emitting) :
  documentOnly p e -> documentOnly p (pushAdd c n e).
Proof.
  intros (Hf & Hd & Hi & Ha).
  destruct (pushAdd_spec c n e) as (Hf' & Hadds & _).
  destruct (pushAdd_ids c n e Hi Ha) as [Hi' Ha'].
  split; [eapply sameFrame_trans; eauto |]. split; [| auto].
  destruct Hadds as [-> | (a & -> & Hpar & Hin)]; [exact Hd |].
  intros h a' Hin'. apply in_app_iff in Hin'.
  destruct Hin' as [Hin' | [Heq | []]]; [eauto |].
  inversion Heq; subst.
  rewrite <- (sameFrame_notInDoc p (page e) h Hf).
  destruct Hf as (<- & _). auto.
Qed.

(** *** What the records do to [removes] and [mapRemoves] *)

Lemma removedNode_removes (p : Page) (T : handle) (b : MutationBuffer)
  (n : handle) :
  removes (removedNode p T b n) = removes b
  \/ removes (removedNode p T b n)
     = removes b
       ++ [mkRemove (parentIdOf p T) (getId p (Some n)) (isShadowRoot p T)].
Proof.
  unfold removedNode, parentIdOf.
  destruct (isBlocked p T || isIgnored p n); [auto |].
  destruct (mem n (addedSet b)); [auto |].
  destruct (mem T (addedSet b) && _); [auto |].
  destruct (isAncestorRemoved p T); [auto |].
  destruct (mem n (movedSet b) && _); auto.
Qed.

Lemma removedNode_mapRemoves (p : Page) (T : handle) (b : MutationBuffer)
  (n x : handle) :
  In x (mapRemoves b) -> In x (mapRemoves (removedNode p T b n)).
Proof.
  intros H. unfold removedNode.
  destruct (isBlocked p T || isIgnored p n); [exact H |].
  simpl. apply in_app_iff. left. exact H.
Qed.

Lemma removedNodes_removes (p : Page) (T : handle) (l : list handle) :
  forall b : MutationBuffer,
    exists rest,
      removes (fold_left (removedNode p T) l b) = removes b ++ rest
      /\ forall rm, In rm rest ->
           exists n, In n l
             /\ rm = mkRemove (parentIdOf p T) (getId p (Some n))
                       (isShadowRoot p T).
Proof.
  induction l as [| n l IH]; intros b; simpl.
  - exists []. rewrite app_nil_r. split; [reflexivity | intros rm []].
  - destruct (IH (removedNode p T b n)) as (rest & Hr & Hin).
    destruct (removedNode_removes p T b n) as [Heq | Heq]; rewrite Heq in Hr.
    + exists rest. split; [exact Hr |]. intros rm Hrm.
      destruct (Hin rm Hrm) as (m & Hm & ->). eauto.
    + exists (mkRemove (parentIdOf p T) (getId p (Some n)) (isShadowRoot p T)
              :: rest).
      split; [rewrite Hr, <- app_assoc; reflexivity |].
      intros rm [<- | Hrm]; [eauto |].
      destruct (Hin rm Hrm) as (m & Hm & ->). eauto.
Qed.

Lemma removedNodes_mapRemoves (p : Page) (T : handle) (l : list handle)
  (x : handle) :
  forall b : MutationBuffer,
    In x (mapRemoves b) -> In x (mapRemoves (fold_left (removedNode p T) l b)).
Proof.
  induction l as [| n l IH]; intros b H; simpl; [exact H |].
  apply IH. apply removedNode_mapRemoves. exact H.
Qed.

Lemma genAdds_fold_grown (p : Page) (T : handle) (l : list handle) :
  forall b : MutationBuffer,
    grown p b (fold_left (fun acc n => genAdds p n (Some T) acc) l b).
Proof.
  induction l as [| n l IH]; intros b; simpl; [apply grown_refl |].
  eapply grown_trans; [apply genAdds_grown | apply IH].
Qed.

Lemma processAttributes_removes (c : Collaborators) (p : Page) (t : handle)
  (name : string) (old : option string) (b : MutationBuffer) :
  removes (processAttributes c p t name old b) = removes b
  /\ mapRemoves (processAttributes c p t name old b) = mapRemoves b.
Proof.
  unfold processAttributes. destruct (_ || _); [auto |]. split; reflexivity.
Qed.

Lemma processMutation_removes (c : Collaborators) (p : Page)
  (b : MutationBuffer) (m : mutationRecord) :
  exists rest,
    removes (processMutation c p b m) = removes b ++ rest
    /\ forall rm, In rm rest -> pushedBy p [m] rm.
Proof.
  destruct m as [t old | t name old | T added removed]; simpl.
  - exists []. rewrite app_nil_r. split; [| intros rm []].
    destruct (isIgnored p t); [reflexivity |].
    destruct (_ && _); reflexivity.
  - exists []. rewrite app_nil_r. split; [| intros rm []].
    destruct (isIgnored p t); [reflexivity |].
    apply processAttributes_removes.
  - destruct (isIgnored p T).
    { exists []. rewrite app_nil_r. split; [reflexivity | intros rm []]. }
    destruct (removedNodes_removes p T removed
                (fold_left (fun acc n => genAdds p n (Some T) acc) added b))
      as (rest & Hr & Hin).
    exists rest. split.
    + rewrite Hr. f_equal. apply (genAdds_fold_grown p T added b).
    + intros rm Hrm. destruct (Hin rm Hrm) as (n & Hn & ->).
      exists T, added, removed, n. split; [left; reflexivity | auto].
Qed.

Lemma processMutation_mapRemoves (c : Collaborators) (p : Page)
  (b : MutationBuffer) (m : mutationRecord) (x : handle) :
  In x (mapRemoves b) -> In x (mapRemoves (processMutation c p b m)).
Proof.
  intros H. destruct m as [t old | t name old | T added removed]; simpl.
  - destruct (isIgnored p t); [exact H |]. destruct (_ && _); exact H.
  - destruct (isIgnored p t); [exact H |].
    destruct (processAttributes_removes c p t name old b) as [_ ->]. exact H.
  - destruct (isIgnored p T); [exact H |].
    apply removedNodes_mapRemoves.
    destruct (genAdds_fold_grown p T added b) as (_ & _ & _ & _ & _ & -> & _).
    exact H.
Qed.

Lemma pushedBy_mono (p : Page) (ms ms' : list mutationRecord)
  (rm : removedNodeMutation) :
  (forall m, In m ms -> In m ms') -> pushedBy p ms rm -> pushedBy p ms' rm.
Proof.
  intros Hsub (T & added & removed & n & Hin & Hn & ->).
  exists T, added, removed, n. auto.
Qed.

Lemma records_removes (c : Collaborators) (p : Page)
  (ms : list mutationRecord) :
  forall b : MutationBuffer,
    exists rest,
      removes (fold_left (processMutation c p) ms b) = removes b ++ rest
      /\ forall rm, In rm rest -> pushedBy p ms rm.
Proof.
  induction ms as [| m ms IH]; intros b; simpl.
  - exists []. rewrite app_nil_r. split; [reflexivity | intros rm []].
  - destruct (IH (processMutation c p b m)) as (rest & Hr & Hin).
    destruct (processMutation_removes c p b m) as (rest0 & Hr0 & Hin0).
    exists (rest0 ++ rest). split.
    + rewrite Hr, Hr0, app_assoc. reflexivity.
    + intros rm Hrm. apply in_app_iff in Hrm. destruct Hrm as [Hrm | Hrm].
      * apply (pushedBy_mono p [m]); [| auto].
        intros m' [<- | []]. left. reflexivity.
      * apply (pushedBy_mono p ms); [| auto]. intros m' Hm'. right. exact Hm'.
Qed.

Lemma records_mapRemoves (c : Collaborators) (p : Page)
  (ms : list mutationRecord) (x : handle) :
  forall b : MutationBuffer,
    In x (mapRemoves b) ->
    In x (mapRemoves (fold_left (processMutation c p) ms b)).
Proof.
  induction ms as [| m ms IH]; intros b H; simpl; [exact H |].
  apply IH. apply processMutation_mapRemoves. exact H.
Qed.

(** *** The ids of a subtree that left *)

Lemma deleted_stays_deleted (nodes : gmap handle ndata) (l : list handle)
  (k : Z) :
  forall m : gmap Z handle,
    m !! k = None ->
    fold_left
      (fun m h =>
         match nodes !! h with
         | Some d => match sn d with Some s => delete (sn_id s) m | None => m end
         | None => m
         end) l m !! k = None.
Proof.
  induction l as [| h l IH]; intros m Hm; simpl; [exact Hm |].
  apply IH. destruct (nodes !! h) as [d |]; [| exact Hm].
  destruct (sn d); [| exact Hm].
  rewrite lookup_delete. case_decide; trivial.
Qed.

Lemma removeNodeFromMap_forgets_below (f : forest) (nodes : gmap handle ndata)
  (m : gmap Z handle) (n y : handle) (d : ndata) (s : serializedNode) :
  In y (Mirror.subtree_handles f n) ->
  nodes !! y = Some d -> sn d = Some s ->
  Mirror.removeNodeFromMap f nodes m n !! sn_id s = None.
Proof.
  unfold Mirror.removeNodeFromMap.
  generalize (Mirror.subtree_handles f n). intros l Hy Hd Hs. revert m.
  induction l as [| h l IH]; intros m; [destruct Hy |].
  simpl. destruct Hy as [-> | Hy]; [| apply IH; exact Hy].
  rewrite Hd, Hs. apply deleted_stays_deleted.
  rewrite lookup_delete. case_decide; [reflexivity | contradiction].
Qed.

Lemma mapRemoves_forget (p : Page) (x y : handle) (s : serializedNode)
  (l : list handle) :
  In y (Mirror.subtree_handles (dom p) x) -> sn (nd p y) = Some s ->
  forall p0 : Page,
    dom p0 = dom p -> nodes p0 = nodes p ->
    mirror p0 !! sn_id s = None \/ In x l ->
    mirror
      (fold_left
         (fun p n => pg_set_mirror
                       (Mirror.removeNodeFromMap (dom p) (nodes p) (mirror p) n) p)
         l p0) !! sn_id s = None.
Proof.
  intros Hy Hs. unfold nd in Hs.
  destruct (nodes p !! y) as [d |] eqn:Ed; [| discriminate].
  induction l as [| n l IH]; intros p0 Hd Hn H; simpl.
  - destruct H as [H | []]. exact H.
  - apply IH; trivial. simpl. rewrite Hd, Hn.
    destruct H as [H | [-> | H]].
    + left. apply removed_from_map_keeps_none. exact H.
    + left. apply (removeNodeFromMap_forgets_below _ _ _ x y d s); trivial.
    + right. exact H.
Qed.

Lemma serialize_apart (c : Collaborators) (p : Page) (x n : handle)
  (e : Emitting) :
  idsDistinct p -> apart p x e ->
  ~ In n (Mirror.subtree_handles (dom p) x) ->
  let r := serializeNodeWithId c (page e) n in
  nextId p <= nextId (snd r)
  /\ mirror (snd r) !! IGNORED_NODE = None
  /\ (forall y s, In y (Mirror.subtree_handles (dom p) x) ->
        sn (nd p y) = Some s -> mirror (snd r) !! sn_id s = None)
  /\ (forall h s, sn (nd (snd r) h) = Some s -> sn (nd p h) = None ->
        sn_id s = IGNORED_NODE \/ nextId p <= sn_id s)
  /\ (forall sr y s, fst r = Some sr ->
        In y (Mirror.subtree_handles (dom p) x) -> sn (nd p y) = Some s ->
        sn_id sr <> sn_id s).
Proof.
  intros (Hign & Hbelow & Huniq) (Hf & Hnext & Hmi & Hmk & Hnew & _) Hn r.
  subst r. unfold serializeNodeWithId.
  destruct (typeOfKind (kind (nd (page e) n))) as [ty |];
    [| simpl; repeat split; trivial; discriminate].
  set (id := match sn (nd (page e) n) with
             | Some s => sn_id s
             | None => if slimDOMExcluded c n then IGNORED_NODE
                       else nextId (page e)
             end).
  assert (Hid : id <> IGNORED_NODE ->
                forall y s, In y (Mirror.subtree_handles (dom p) x) ->
                            sn (nd p y) = Some s -> id <> sn_id s).
  { intros Hne y s Hy Hs. pose proof (Hbelow y s Hs) as Hlt. subst id.
    destruct (sn (nd (page e) n)) as [sq |] eqn:Eq.
    - destruct (sn (nd p n)) as [s0 |] eqn:E0.
      + destruct Hf as (_ & _ & Hh). destruct (Hh n) as (_ & _ & _ & Hk & _).
        destruct (Hk s0 E0) as (s' & Hs' & Hids). rewrite Eq in Hs'.
        inversion Hs'; subst s'. intros Heq.
        apply Hn. rewrite (Huniq n y s0 s E0 Hs); [exact Hy | congruence |].
        congruence.
      + destruct (Hnew n sq Eq E0) as [Hi | Hge]; [contradiction | lia].
    - destruct (slimDOMExcluded c n); [contradiction | lia]. }
  match goal with
  | |- context [pg_set_nextId ?X (pg_set_nodes ?N (page e))] =>
      set (next := X); set (marked := N);
      set (p1 := pg_set_nextId next (pg_set_nodes marked (page e)))
  end.
  assert (Hn1 : nextId p <= nextId p1).
  { change (nextId p <= next). subst next.
    destruct (sn (nd (page e) n)); [exact Hnext |].
    destruct (slimDOMExcluded c n); lia. }
  assert (Hnew1 : forall h s, sn (nd p1 h) = Some s -> sn (nd p h) = None ->
                              sn_id s = IGNORED_NODE \/ nextId p <= sn_id s).
  { intros h s. change (nd p1 h) with (nd (pg_set_nodes marked (page e)) h).
    subst marked. rewrite nd_marked.
    destruct (Nat.eqb h n) eqn:Ehn; [| apply Hnew].
    apply Nat.eqb_eq in Ehn. subst h.
    destruct (nodes (page e) !! n) as [d |] eqn:Ed; simpl; [| discriminate].
    intros H Hp. inversion H; subst s. simpl. fold id. subst id.
    destruct (sn (nd (page e) n)) as [sq |] eqn:Eq; [exact (Hnew n sq Eq Hp) |].
    destruct (slimDOMExcluded c n); [left; reflexivity | right; exact Hnext]. }
  destruct (Z.eqb id IGNORED_NODE) eqn:Eid; simpl.
  - repeat split; trivial. discriminate.
  - apply Z.eqb_neq in Eid. repeat split; trivial.
    + rewrite lookup_insert_ne; [exact Hmi | exact Eid].
    + intros y s Hy Hs. rewrite lookup_insert_ne; [eapply Hmk; eauto |].
      exact (Hid Eid y s Hy Hs).
    + intros sr y s Hsr Hy Hs. inversion Hsr; subst sr. simpl.
      exact (Hid Eid y s Hy Hs).
Qed.

Lemma outside_notInDoc (p : Page) (x y : handle) :
  outside_document p x -> In y (Mirror.subtree_handles (dom p) x) ->
  notInDoc p y = true.
Proof.
  intros Hout Hy. destruct (Hout y Hy) as [Hc Hh].
  unfold notInDoc, shadowHostOf. rewrite Hc, Hh. reflexivity.
Qed.

Lemma pushAdd_apart (c : Collaborators) (p : Page) (x n : handle)
  (e : Emitting) :
  idsDistinct p -> outside_document p x ->
  apart p x e -> apart p x (pushAdd c n e).
Proof.
  intros Hd Hout Ha.
  assert (Hframe : sameFrame p (page (pushAdd c n e))).
  { eapply sameFrame_trans; [apply Ha | apply pushAdd_spec]. }
  revert Hframe. unfold pushAdd.
  destruct (parentNode (dom (page e)) n) as [parent |]; [| intros _; exact Ha].
  destruct (notInDoc (page e) n) eqn:Ein; [intros _; exact Ha |].
  destruct (_ || _).
  { intros _. destruct Ha as (H1 & H2 & H3 & H4 & H5 & H6).
    exact (conj H1 (conj H2 (conj H3 (conj H4 (conj H5 H6))))). }
  assert (Hn : ~ In n (Mirror.subtree_handles (dom p) x)).
  { intros Hin. destruct Ha as (Hf & _).
    rewrite (sameFrame_notInDoc p (page e) n Hf) in Ein.
    rewrite (outside_notInDoc p x n Hout Hin) in Ein. discriminate. }
  pose proof (serialize_apart c p x n e Hd Ha Hn) as Hser. cbv zeta in Hser.
  destruct Ha as (_ & _ & _ & _ & _ & Hadds).
  destruct (serializeNodeWithId c (page e) n) as [[s |] p']; simpl in *;
    intros Hframe; destruct Hser as (H1 & H2 & H3 & H4 & H5);
    refine (conj Hframe (conj H1 (conj H2 (conj H3 (conj H4 _)))));
    [| exact Hadds].
  intros h a y sy Hin Hy Hs. apply in_app_iff in Hin.
  destruct Hin as [Hin | [Heq | []]]; [eapply Hadds; eauto |].
  inversion Heq; subst. simpl. eapply H5; eauto.
Qed.

Lemma mapRemoves_keeps_none (k : Z) (l : list handle) :
  forall p0 : Page,
    mirror p0 !! k = None ->
    mirror
      (fold_left
         (fun p n => pg_set_mirror
                       (Mirror.removeNodeFromMap (dom p) (nodes p) (mirror p) n) p)
         l p0) !! k = None.
Proof.
  induction l as [| n l IH]; intros p0 H; simpl; [exact H |].
  apply IH. simpl. apply removed_from_map_keeps_none. exact H.
Qed.

Lemma removedNode_switches (p : Page) (T : handle) (b : MutationBuffer)
  (n : handle) :
  frozen (removedNode p T b n) = frozen b
  /\ locked (removedNode p T b n) = locked b.
Proof.
  unfold removedNode.
  destruct (isBlocked p T || isIgnored p n); [auto |].
  destruct (mem n (addedSet b)); [auto |].
  destruct (mem T (addedSet b) && _); [auto |].
  destruct (isAncestorRemoved p T); [auto |].
  destruct (mem n (movedSet b) && _); auto.
Qed.

Lemma processMutation_switches (c : Collaborators) (p : Page)
  (b : MutationBuffer) (m : mutationRecord) :
  frozen (processMutation c p b m) = frozen b
  /\ locked (processMutation c p b m) = locked b.
Proof.
  destruct m as [t old | t name old | T added removed]; simpl.
  - destruct (isIgnored p t); [auto |]. destruct (_ && _); auto.
  - destruct (isIgnored p t); [auto |]. unfold processAttributes.
    destruct (_ || _); auto.
  - destruct (isIgnored p T); [auto |].
    destruct (genAdds_fold_grown p T added b) as (Hf & Hl & _).
    rewrite <- Hf, <- Hl.
    generalize (fold_left (fun acc n => genAdds p n (Some T) acc) added b).
    induction removed as [| n l IH]; intros b0; simpl; [auto |].
    destruct (IH (removedNode p T b0 n)) as [-> ->].
    apply removedNode_switches.
Qed.

Lemma records_switches (c : Collaborators) (p : Page) (ms : list mutationRecord) :
  forall b : MutationBuffer,
    frozen (fold_left (processMutation c p) ms b) = frozen b
    /\ locked (fold_left (processMutation c p) ms b) = locked b.
Proof.
  induction ms as [| m ms IH]; intros b; simpl; [auto |].
  destruct (IH (processMutation c p b m)) as [-> ->].
  apply processMutation_switches.
Qed.

(** The record that takes a marked node out of its parent pushes the
    remove of the node. *)
Lemma marked_node_is_removed (c : Collaborators) (p : Page) (A y : handle)
  (b0 : MutationBuffer) :
  idsSound p ->
  isINode p y = true -> isIgnored p y = false ->
  isIgnored p A = false -> isBlocked p A = false ->
  isAncestorRemoved p A = false ->
  ~ In y (addedSet b0) ->
  hasKey (moveKey (getId p (Some y)) (parentIdOf p A)) (movedMap b0) = false ->
  removes (processMutation c p b0 (ChildList A [] [y]))
  = removes b0
    ++ [mkRemove (parentIdOf p A) (getId p (Some y)) (isShadowRoot p A)].
Proof.
  intros (_ & _ & Hids) Hy Hiy HiA HbA Hanc Hadded Hkey. simpl.
  rewrite HiA. unfold removedNode. rewrite HbA, Hiy. simpl orb. cbv iota.
  apply mem_false in Hadded. rewrite Hadded.
  assert (Hid : Z.eqb (getId p (Some y)) (-1) = false).
  { apply Z.eqb_neq. rewrite getId_nd. unfold isINode in Hy.
    destruct (sn (nd p y)) as [s |] eqn:E; [| discriminate].
    eapply Hids. exact E. }
  rewrite Hid, andb_false_r, Hanc.
  fold (parentIdOf p A). rewrite Hkey, andb_false_r. reflexivity.
Qed.

(** Records that remove nothing leave [removes] alone and take nothing
    out of [addedSet]. *)
Lemma quiet_record_keeps (c : Collaborators) (p : Page) (b : MutationBuffer)
  (m : mutationRecord) :
  removesNothing m ->
  removes (processMutation c p b m) = removes b
  /\ forall h, In h (addedSet b) -> In h (addedSet (processMutation c p b m)).
Proof.
  destruct m as [t old | t name old | T added removed]; simpl; intros Hm.
  - destruct (isIgnored p t); [auto |]. destruct (_ && _); auto.
  - destruct (isIgnored p t); [auto |]. unfold processAttributes.
    destruct (_ || _); auto.
  - subst removed. destruct (isIgnored p T); [auto |]. simpl.
    destruct (genAdds_fold_grown p T added b)
      as (_ & _ & _ & _ & Hr & _ & _ & _ & Hkeep & _).
    auto.
Qed.

Lemma quiet_records_keep (c : Collaborators) (p : Page)
  (ms : list mutationRecord) :
  Forall removesNothing ms ->
  forall b : MutationBuffer,
    removes (fold_left (processMutation c p) ms b) = removes b
    /\ forall h, In h (addedSet b) ->
         In h (addedSet (fold_left (processMutation c p) ms b)).
Proof.
  induction ms as [| m ms IH]; intros Hms b; simpl; [auto |].
  inversion Hms; subst.
  destruct (IH ltac:(assumption) (processMutation c p b m)) as [Hr Hk].
  destruct (quiet_record_keeps c p b m ltac:(assumption)) as [Hr0 Hk0].
  split; [congruence | auto].
Qed.

(** An add of an unmarked node under a parent and its removal from the
    parent, with records that remove nothing in between, leave the removes
    of the buffer as they were. *)
Lemma undone_add_pushes_no_remove (c : Collaborators) (p : Page)
  (P x : handle) (middle : list mutationRecord) (b : MutationBuffer) :
  isINode p x = false -> Forall removesNothing middle ->
  removes (fold_left (processMutation c p) (addedAndRemovedAfter P x middle) b)
  = removes b.
Proof.
  intros Hx Hmid. unfold addedAndRemovedAfter.
  cbn [fold_left]. rewrite fold_left_app. cbn [fold_left].
  set (b1 := processMutation c p b (ChildList P [x] [])).
  destruct (quiet_records_keep c p middle Hmid b1) as [Hr2 Hk2].
  set (b2 := fold_left (processMutation c p) middle b1) in *.
  assert (Hr1 : removes b1 = removes b).
  { subst b1. simpl. destruct (isIgnored p P); [reflexivity |]. simpl.
    apply (genAdds_grown p x (Some P) b). }
  simpl. destruct (isIgnored p P) eqn:Ei; [congruence |].
  unfold removedNode. destruct (isBlocked p P) eqn:Eb; [simpl; congruence |].
  assert (Hi : isIgnored p x = false).
  { unfold isIgnored. unfold isINode in Hx.
    destruct (sn (nd p x)); [discriminate | reflexivity]. }
  rewrite Hi. simpl.
  assert (Hin : In x (addedSet b2)).
  { apply Hk2. subst b1. simpl. rewrite Ei. simpl.
    apply genAdds_added; assumption. }
  apply mem_In in Hin. rewrite Hin. simpl. congruence.
Qed.

Lemma dropped_node_leaves_the_map (c : Collaborators) (p : Page)
  (P x : handle) (middle later : list mutationRecord) (b : MutationBuffer) :
  isINode p x = false -> isIgnored p P = false -> isBlocked p P = false ->
  In x (mapRemoves
          (fold_left (processMutation c p)
             (addedAndRemovedAfter P x middle ++ later) b)).
Proof.
  intros Hx HiP HbP. rewrite fold_left_app. apply records_mapRemoves.
  unfold addedAndRemovedAfter. cbn [fold_left]. rewrite fold_left_app.
  cbn [fold_left]. simpl. rewrite HiP. unfold removedNode. rewrite HbP.
  assert (Hi : isIgnored p x = false).
  { unfold isIgnored. unfold isINode in Hx.
    destruct (sn (nd p x)); [discriminate | reflexivity]. }
  rewrite Hi. simpl. apply in_app_iff. right. left. reflexivity.
Qed.

(** C4, as the code has it.  A node [x] without prior identity is added
    under a parent [P] and removed from it again, so that its subtree lies
    outside the document when the batch is processed; [b] is the buffer as
    the earlier records of the window left it, [middle] are records
    between the add and the removal that remove nothing (changes of text
    and attributes, nodes added), [later] are the records that follow.

    - The add and the removal put no remove in the buffer, nor do the
      records between them, and the removes of the delta are those
      buffered before, followed by those that the later records push.
    - No add of the delta serializes the node or one of its descendants.
    - The node and its descendants without prior identity carry no id
      after the emit, and, where ids are sound, no text, attribute or add
      entry of the delta has the id -1 that [getId] gives for them.
    - Where the parent is neither ignored nor blocked, the node is taken
      out of the identity map with its subtree, so that, on a page with
      distinct ids, no text, attribute or add entry of the delta names a
      descendant with prior identity either.
    - A descendant with prior identity does have its own remove: the
      record that takes a marked node out of a parent in the document
      pushes the remove of the node, and every remove that is buffered
      before the pair is in the delta that the callback receives. *)
Theorem C4_added_then_removed :
  forall (fuel : nat) (c : Collaborators) (p : Page) (b : MutationBuffer)
    (P x : handle) (middle later : list mutationRecord) (r : Emitted),
    isINode p x = false ->
    outside_document p x ->
    idsSound p ->
    Forall removesNothing middle ->
    processMutations fuel c p b (addedAndRemovedAfter P x middle ++ later)
    = Some r ->
    removes (fold_left (processMutation c p) (addedAndRemovedAfter P x middle) b)
    = removes b
    /\ (forall pl, In (EmissionCallback pl) (effects r) ->
          exists rest,
            pl_removes pl = removes b ++ rest
            /\ forall rm, In rm rest -> pushedBy p later rm)
    /\ (forall y, In y (Mirror.subtree_handles (dom p) x) ->
          ~ In y (sources r))
    /\ (forall y, In y (Mirror.subtree_handles (dom p) x) ->
          isINode p y = false -> getId (after r) (Some y) = -1)
    /\ (forall pl, In (EmissionCallback pl) (effects r) ->
          (forall t, In t (pl_texts pl) -> tx_id t <> -1)
          /\ (forall a, In a (pl_attributes pl) -> at_id a <> -1)
          /\ (forall a, In a (pl_adds pl) -> sn_id (add_node a) <> -1))
    /\ (isIgnored p P = false -> isBlocked p P = false -> idsDistinct p ->
        forall y pl,
          In y (Mirror.subtree_handles (dom p) x) ->
          In (EmissionCallback pl) (effects r) ->
          (forall t, In t (pl_texts pl) -> tx_id t <> getId p (Some y))
          /\ (forall a, In a (pl_attributes pl) -> at_id a <> getId p (Some y))
          /\ (forall a, In a (pl_adds pl) ->
                sn_id (add_node a) <> getId p (Some y)))
    /\ (forall (A y : handle) (b0 : MutationBuffer),
          isINode p y = true -> isIgnored p y = false ->
          isIgnored p A = false -> isBlocked p A = false ->
          isAncestorRemoved p A = false ->
          ~ In y (addedSet b0) ->
          hasKey (moveKey (getId p (Some y)) (parentIdOf p A)) (movedMap b0)
          = false ->
          removes (processMutation c p b0 (ChildList A [] [y]))
          = removes b0
            ++ [mkRemove (parentIdOf p A) (getId p (Some y))
                  (isShadowRoot p A)])
    /\ (frozen b = false -> locked b = false ->
        forall rm, In rm (removes b) ->
          exists pl, effects r = [EmissionCallback pl] /\ In rm (pl_removes pl)).
Proof.
  intros fuel c p b P x middle later r Hx Hout Hids Hmid Hrun.
  pose proof (undone_add_pushes_no_remove c p P x middle b Hx Hmid) as Hrem.
  pose proof (dropped_node_leaves_the_map c p P x middle later b Hx) as Hgone.
  pose proof (records_switches c p (addedAndRemovedAfter P x middle ++ later) b)
    as Hflags.
  unfold processMutations in Hrun.
  assert (Hgrow : exists rest,
             removes (fold_left (processMutation c p)
                        (addedAndRemovedAfter P x middle ++ later) b)
             = removes b ++ rest
             /\ forall rm, In rm rest -> pushedBy p later rm).
  { rewrite fold_left_app.
    destruct (records_removes c p later
                (fold_left (processMutation c p)
                   (addedAndRemovedAfter P x middle) b))
      as (rest & Hr & Hin).
    exists rest. rewrite Hr, Hrem. auto. }
  set (b' := fold_left (processMutation c p)
               (addedAndRemovedAfter P x middle ++ later) b) in *.
  split; [exact Hrem |].
  assert (Hown : forall (A y : handle) (b0 : MutationBuffer),
            isINode p y = true -> isIgnored p y = false ->
            isIgnored p A = false -> isBlocked p A = false ->
            isAncestorRemoved p A = false ->
            ~ In y (addedSet b0) ->
            hasKey (moveKey (getId p (Some y)) (parentIdOf p A)) (movedMap b0)
            = false ->
            removes (processMutation c p b0 (ChildList A [] [y]))
            = removes b0
              ++ [mkRemove (parentIdOf p A) (getId p (Some y))
                    (isShadowRoot p A)]).
  { intros A y b0. apply marked_node_is_removed. exact Hids. }
  assert (Hunmarked : forall y, isINode p y = false -> getId p (Some y) = -1).
  { intros y Hy. rewrite getId_nd. unfold isINode in Hy.
    destruct (sn (nd p y)); [discriminate | reflexivity]. }
  unfold emit in Hrun. destruct Hflags as [Hfz Hlk].
  destruct (frozen b' || locked b') eqn:Esup.
  { inversion Hrun; subst. simpl.
    repeat split; try contradiction; auto.
    - intros y Hy Hy'. apply Hunmarked. exact Hy'.
    - intros Hf Hl. rewrite Hfz, Hlk, Hf, Hl in Esup. discriminate. }
  destruct (collect fuel c p b') as [[[b1 e3] gone] |] eqn:Ec; [| discriminate].
  assert (Hq : documentOnly p e3).
  { apply (collect_invariant c (documentOnly p) (fun _ => True) fuel p b' b1 e3
             gone).
    - intros n e _. apply pushAdd_documentOnly.
    - trivial.
    - intros e l Hq _. exact Hq.
    - apply List.Forall_forall. trivial.
    - apply List.Forall_forall. trivial.
    - split; [| split; [intros h a [] | split; [| intros h a []]]].
      + destruct (mapRemoves_only_mirror p (mapRemoves b')) as (m & ->).
        apply sameFrame_mirror.
      + apply mapRemoves_ids. exact Hids.
    - exact Ec. }
  destruct Hq as (Hf & Hd & Hi & Ha).
  destruct (collect_buffer fuel c p b' b1 e3 gone Ec)
    as (_ & _ & _ & _ & Hr1 & _).
  assert (Hsrc : forall y, In y (Mirror.subtree_handles (dom p) x) ->
                           ~ In y (map fst (adds e3))).
  { intros y Hy Hin. apply in_map_iff in Hin.
    destruct Hin as ([h a] & Heq & Hin). simpl in Heq. subst h.
    destruct (Hd y a Hin) as [_ Hn].
    rewrite (outside_notInDoc p x y Hout Hy) in Hn. discriminate. }
  assert (Hafter : forall y, In y (Mirror.subtree_handles (dom p) x) ->
                             isINode p y = false ->
                             getId (page e3) (Some y) = -1).
  { intros y Hy Hy'.
    destruct Hf as (_ & _ & Hn). destruct (Hn y) as (_ & _ & _ & _ & Hsame).
    rewrite getId_nd, Hsame.
    - rewrite <- getId_nd. apply Hunmarked. exact Hy'.
    - right. right. apply (outside_notInDoc p x y Hout Hy). }
  assert (Hpl : (forall t, In t (pl_texts (compose b1 e3)) -> tx_id t <> -1)
                /\ (forall a, In a (pl_attributes (compose b1 e3)) ->
                    at_id a <> -1)
                /\ (forall a, In a (pl_adds (compose b1 e3)) ->
                    sn_id (add_node a) <> -1)).
  { destruct Hi as (Hm & _). repeat split.
    - intros t Ht. simpl in Ht. unfold composeTexts in Ht.
      apply filter_In in Ht. destruct Ht as [_ Ht]. unfold Mirror.has in Ht.
      intros Heq. rewrite Heq, Hm in Ht. discriminate.
    - intros a Ht. simpl in Ht. unfold composeAttributes in Ht.
      apply filter_In in Ht. destruct Ht as [_ Ht]. unfold Mirror.has in Ht.
      intros Heq. rewrite Heq, Hm in Ht. discriminate.
    - intros a Hin. simpl in Hin. apply in_map_iff in Hin.
      destruct Hin as ([h a'] & Heq & Hin). simpl in Heq. subst a'.
      exact (Ha h a Hin). }
  assert (Hmarked :
            isIgnored p P = false -> isBlocked p P = false -> idsDistinct p ->
            forall y, In y (Mirror.subtree_handles (dom p) x) ->
              (forall t, In t (pl_texts (compose b1 e3)) ->
                 tx_id t <> getId p (Some y))
              /\ (forall a, In a (pl_attributes (compose b1 e3)) ->
                    at_id a <> getId p (Some y))
              /\ (forall a, In a (pl_adds (compose b1 e3)) ->
                    sn_id (add_node a) <> getId p (Some y))).
  { intros HiP HbP Hdist y Hy.
    destruct (sn (nd p y)) as [s |] eqn:Es.
    2:{ assert (Hy' : getId p (Some y) = -1)
          by (rewrite getId_nd, Es; reflexivity).
        rewrite Hy'. exact Hpl. }
    assert (Hgid : getId p (Some y) = sn_id s)
      by (rewrite getId_nd, Es; reflexivity).
    rewrite Hgid.
    assert (Hap : apart p x e3).
    { apply (collect_invariant c (apart p x) (fun _ => True) fuel p b' b1 e3
               gone).
      - intros n e _. apply pushAdd_apart; assumption.
      - trivial.
      - intros e l Hq _. exact Hq.
      - apply List.Forall_forall. trivial.
      - apply List.Forall_forall. trivial.
      - destruct Hdist as (Hign & _).
        split; [| split; [| split; [| split; [| split]]]]; simpl.
        + destruct (mapRemoves_only_mirror p (mapRemoves b')) as (m & ->).
          apply sameFrame_mirror.
        + destruct (mapRemoves_only_mirror p (mapRemoves b')) as (m & ->).
          simpl. lia.
        + apply mapRemoves_keeps_none. exact Hign.
        + intros y0 s0 Hy0 Hs0.
          apply (mapRemoves_forget p x y0 s0); trivial.
          right. apply Hgone; assumption.
        + intros h s0.
          destruct (mapRemoves_only_mirror p (mapRemoves b')) as (m & ->).
          change (nd (pg_set_mirror m p) h) with (nd p h). congruence.
        + intros h a y0 s0 [].
      - exact Ec. }
    destruct Hap as (_ & _ & _ & Hmk & _ & Hadds).
    repeat split.
    - intros t Ht. simpl in Ht. unfold composeTexts in Ht.
      apply filter_In in Ht. destruct Ht as [_ Ht]. unfold Mirror.has in Ht.
      intros Heq. rewrite Heq, (Hmk y s Hy Es) in Ht. discriminate.
    - intros a Ht. simpl in Ht. unfold composeAttributes in Ht.
      apply filter_In in Ht. destruct Ht as [_ Ht]. unfold Mirror.has in Ht.
      intros Heq. rewrite Heq, (Hmk y s Hy Es) in Ht. discriminate.
    - intros a Hin. simpl in Hin. apply in_map_iff in Hin.
      destruct Hin as ([h a'] & Heq & Hin). simpl in Heq. subst a'.
      exact (Hadds h a y s Hin Hy Es). }
  destruct Hgrow as (rest & Hrest & Hpushed).
  destruct (isEmptyPayload (compose b1 e3)) eqn:Eempty;
    inversion Hrun; subst; simpl.
  - split; [intros pl [] |]. split; [auto |]. split; [auto |].
    split; [intros pl [] |]. split; [intros _ _ _ y pl _ [] |].
    split; [exact Hown |].
    intros Hfb Hlb rm Hrm. exfalso.
    apply isEmptyPayload_spec in Eempty. destruct Eempty as (_ & _ & He & _).
    simpl in He. rewrite Hr1, Hrest in He.
    destruct (removes b); [destruct Hrm | discriminate].
  - split.
    { intros pl [Heq | []]. inversion Heq; subst. simpl. exists rest.
      rewrite Hr1. auto. }
    split; [auto |]. split; [auto |].
    split.
    { intros pl [Heq | []]. inversion Heq; subst. exact Hpl. }
    split.
    { intros HiP HbP Hdist y pl Hy [Heq | []]. inversion Heq; subst.
      apply Hmarked; assumption. }
    split; [exact Hown |].
    intros Hfb Hlb rm Hrm. eexists. split; [reflexivity |].
    simpl. rewrite Hr1, Hrest. apply in_app_iff. left. exact Hrm.
Qed.

(** C4, as the specification has it: a descendant that carried an id when
    the node took it along is reported as removed. *)
Lemma C4_marked_descendant_is_removed : ~ dropped_subtree_leaves_no_entry.
Proof.
  intros H.
  destruct (H 1%nat Scenario.plain Scenario.droppedPage
              [ChildList 2%nat [] [4%nat]] 3%nat 5%nat _ _ 4%nat eq_refl
              (or_introl eq_refl)) as (_ & Hrm & _).
  - vm_compute. auto.
  - apply (Hrm (mkRemove 3 5 false)); [vm_compute; auto | reflexivity].
Qed.

(** Ids are sound on a page whose nodes carry no id -1 and whose identity
    map has no key -1. *)
Lemma idsSound_by_nodes (p : Page) :
  mirror p !! (-1) = None -> 0 <= nextId p ->
  map_Forall
    (fun _ d =>
       match sn d with Some s => negb (Z.eqb (sn_id s) (-1)) | None => true end
       = true) (nodes p) ->
  idsSound p.
Proof.
  intros Hm Hn H. split; [exact Hm | split; [exact Hn |]].
  intros h s Hs. unfold nd in Hs.
  destruct (nodes p !! h) as [d |] eqn:E; [| discriminate].
  specialize (H h d E). simpl in H. rewrite Hs in H.
  apply negb_true_iff, Z.eqb_neq in H. exact H.
Qed.

(** Ids are distinct on a page that passes the test node by node. *)
Lemma idsDistinct_by_nodes (p : Page) :
  mirror p !! IGNORED_NODE = None ->
  map_Forall
    (fun h d =>
       match sn d with
       | Some s =>
           (sn_id s <? nextId p)%Z
           && (Z.eqb (sn_id s) IGNORED_NODE
               || forallb
                    (fun hd' : handle * ndata =>
                       match sn (snd hd') with
                       | Some s' =>
                           negb (Z.eqb (sn_id s) (sn_id s'))
                           || Nat.eqb h (fst hd')
                       | None => true
                       end)
                    (map_to_list (nodes p)))
       | None => true
       end = true) (nodes p) ->
  idsDistinct p.
Proof.
  intros Hm H. split; [exact Hm |]. split.
  - intros h s Hs. unfold nd in Hs.
    destruct (nodes p !! h) as [d |] eqn:E; [| discriminate].
    specialize (H h d E). simpl in H. rewrite Hs in H.
    apply andb_true_iff in H. destruct H as [H _]. lia.
  - intros h h' s s' Hs Hs' Heq Hne. unfold nd in Hs, Hs'.
    destruct (nodes p !! h) as [d |] eqn:E; [| discriminate].
    destruct (nodes p !! h') as [d' |] eqn:E'; [| discriminate].
    specialize (H h d E). simpl in H. rewrite Hs in H.
    apply andb_true_iff in H. destruct H as [_ H].
    apply orb_true_iff in H. destruct H as [H | H].
    { apply Z.eqb_eq in H. contradiction. }
    rewrite forallb_forall in H. specialize (H (h', d')).
    simpl in H. rewrite Hs' in H.
    assert (Hin : In (h', d') (map_to_list (nodes p))).
    { apply list_elem_of_In. apply elem_of_map_to_list. exact E'. }
    specialize (H Hin). apply orb_true_iff in H. destruct H as [H | H].
    + apply negb_true_iff, Z.eqb_neq in H. contradiction.
    + apply Nat.eqb_eq in H. exact H.
Qed.

Lemma droppedPage_outside : outside_document Scenario.droppedPage 5%nat.
Proof.
  intros y Hy. vm_compute in Hy.
  destruct Hy as [<- | [<- | []]]; split; reflexivity.
Qed.

Lemma C4_witness :
  exists (r : Emitted) (pl : payload),
    processMutations 1 Scenario.plain Scenario.droppedPage
      (fold_left (processMutation Scenario.plain Scenario.droppedPage)
         [ChildList 2%nat [] [4%nat]; Attributes 4%nat "class" (Some "old")]
         emptyBuffer)
      (addedAndRemovedAfter 3%nat 5%nat [Attributes 5%nat "class" (Some "old")] ++ [])
    = Some r
    /\ effects r = [EmissionCallback pl]
    /\ In (mkRemove 3 5 false) (pl_removes pl)
    /\ (forall a, In a (pl_attributes pl) -> at_id a <> 5)
    /\ (forall y, In y (Mirror.subtree_handles (dom Scenario.droppedPage) 5%nat) ->
                  ~ In y (sources r)).
Proof.
  destruct (processMutations 1 Scenario.plain Scenario.droppedPage
              (fold_left (processMutation Scenario.plain Scenario.droppedPage)
                 [ChildList 2%nat [] [4%nat];
                  Attributes 4%nat "class" (Some "old")] emptyBuffer)
              (addedAndRemovedAfter 3%nat 5%nat [Attributes 5%nat "class" (Some "old")]
                 ++ [])) as [r |] eqn:E;
    [| vm_compute in E; discriminate].
  destruct (C4_added_then_removed 1%nat Scenario.plain Scenario.droppedPage
              (fold_left (processMutation Scenario.plain Scenario.droppedPage)
                 [ChildList 2%nat [] [4%nat];
                  Attributes 4%nat "class" (Some "old")] emptyBuffer)
              3%nat 5%nat [Attributes 5%nat "class" (Some "old")] [] r)
    as (_ & _ & Hsrc & _ & _ & Hmarked & _ & Hsent).
  - reflexivity.
  - exact droppedPage_outside.
  - apply idsSound_by_nodes; [reflexivity | vm_compute; discriminate |].
    compute_done.
  - repeat constructor.
  - exact E.
  - destruct (Hsent eq_refl eq_refl (mkRemove 3 5 false)) as (pl & Heff & Hin).
    { vm_compute. auto. }
    exists r, pl. split; [reflexivity |]. split; [exact Heff |].
    split; [exact Hin |]. split; [| exact Hsrc].
    apply (Hmarked eq_refl eq_refl) with (y := 4%nat).
    + apply idsDistinct_by_nodes; [reflexivity |]. compute_done.
    + vm_compute. auto.
    + rewrite Heff. left. reflexivity.
Defined.

(** *** Relocation *)

(** A marked node of the document whose parent and next sibling carry ids
    is serialized at once, under its parent and with the id it carries. *)
Lemma pushAdd_marked (c : Collaborators) (n B : handle) (s : serializedNode)
  (e : Emitting) :
  parentNode (dom (page e)) n = Some B ->
  notInDoc (page e) n = false ->
  isShadowRoot (page e) B = false ->
  getId (page e) (Some B) <> -1 ->
  eqoz (getNextId (page e) n) (-1) = false ->
  sn (nd (page e) n) = Some s ->
  sn_id s <> IGNORED_NODE ->
  typeOfKind (kind (nd (page e) n)) <> None ->
  exists a q,
    pushAdd c n e = mkEmitting q (adds e ++ [(n, a)]) (addList e)
    /\ add_parentId a = getId (page e) (Some B)
    /\ sn_id (add_node a) = sn_id s.
Proof.
  intros Hpar Hdoc Hsh HB Hnext Hs Hid Hkind. unfold pushAdd.
  rewrite Hpar, Hdoc, Hsh, Hnext.
  destruct (Z.eqb_spec (getId (page e) (Some B)) (-1)) as [| _]; [contradiction |].
  simpl orb. cbv iota. unfold serializeNodeWithId.
  destruct (typeOfKind (kind (nd (page e) n))) as [ty |]; [| contradiction].
  rewrite Hs.
  destruct (Z.eqb_spec (sn_id s) IGNORED_NODE) as [| _]; [contradiction |].
  eexists. eexists. split; [reflexivity |]. split; reflexivity.
Qed.

Lemma filter_fst {A B : Type} (f : A -> bool) (l : list (A * B)) :
  List.filter f (map fst l) = map fst (List.filter (fun x => f (fst x)) l).
Proof.
  induction l as [| x l IH]; simpl; [reflexivity |].
  destruct (f (fst x)); simpl; congruence.
Qed.

Lemma combine_fst_snd {A B : Type} (l : list (A * B)) :
  combine (map fst l) (map snd l) = l.
Proof.
  induction l as [| [a b] l IH]; simpl; congruence.
Qed.

Lemma pushAdd_addedOnce (c : Collaborators) (n : handle)
  (a : addedNodeMutation) (m : handle) (e : Emitting) :
  m <> n -> addedOnce n a e -> addedOnce n a (pushAdd c m e).
Proof.
  intros Hm [Hadds Hpend]. unfold addedOnce.
  destruct (pushAdd_spec c m e) as (_ & Ha & Hl). split.
  - destruct Ha as [-> | (a' & -> & _)]; [exact Hadds |].
    rewrite List.filter_app. simpl.
    destruct (Nat.eqb_spec n m) as [-> | _]; [contradiction |].
    rewrite app_nil_r. exact Hadds.
  - destruct Hl as [-> | ->]; [exact Hpend |].
    intros Hin.
    destruct (addNode_spec (page e) m (addList e)) as [_ Hel].
    destruct (Hel n Hin); [congruence | contradiction].
Qed.

(** What the two records of a relocation leave in a fresh buffer. *)
Lemma relocated_buffer (c : Collaborators) (p : Page) (A B n : handle) :
  isINode p n = true -> isIgnored p n = false ->
  isIgnored p A = false -> isBlocked p A = false ->
  isAncestorRemoved p A = false ->
  isIgnored p B = false -> isBlocked p B = false ->
  let b := fold_left (processMutation c p) (relocated A B n) emptyBuffer in
  frozen b = false /\ locked b = false
  /\ removes b = [mkRemove (parentIdOf p A) (getId p (Some n)) (isShadowRoot p A)]
  /\ mapRemoves b = [n]
  /\ (exists rest, movedSet b = n :: rest /\ ~ In n rest)
  /\ (forall h, In h (addedSet b) -> isINode p h = false).
Proof.
  intros Hn Hin HiA HbA HrA HiB HbB. simpl. rewrite HiA, HiB.
  assert (Hb1 : removedNode p A emptyBuffer n
                = set_mapRemoves [n]
                    (set_removes
                       [mkRemove (parentIdOf p A) (getId p (Some n))
                          (isShadowRoot p A)] emptyBuffer)).
  { unfold removedNode. rewrite HbA, Hin. simpl. rewrite HrA. reflexivity. }
  rewrite Hb1. clear Hb1.
  match goal with
  | |- context [genAdds p n (Some B) ?X] => set (b1 := X)
  end.
  destruct (genAdds_grown p n (Some B) b1)
    as (Hf & Hl & _ & _ & Hr & Hm & _ & Hnd & _ & Hadd).
  destruct (genAdds_moved p n B b1 HbB Hn Hin) as (rest & Hmoved).
  repeat split; trivial.
  - exists rest. split; [exact Hmoved |].
    assert (Hno : List.NoDup (movedSet (genAdds p n (Some B) b1))).
    { apply Hnd. constructor. }
    rewrite Hmoved in Hno. simpl in Hno. inversion Hno; subst. assumption.
  - intros h Hh. destruct (Hadd h Hh) as [[] | Hu]. exact Hu.
Qed.

Lemma fold_left_from_head {A B : Type} (f : A -> B -> A) (l rest : list B)
  (x : B) (a : A) :
  l = x :: rest -> fold_left f l a = fold_left f rest (f a x).
Proof. intros ->. reflexivity. Qed.

(** [collect] when the first moved node is serialized at once: what holds
    after that add and is kept by the later ones holds at the end. *)
Lemma collect_after_first (c : Collaborators) (Q : Emitting -> Prop)
  (S : handle -> Prop) (fuel : nat) (p : Page) (b b1 : MutationBuffer)
  (e3 : Emitting) (gone : list handle) (n : handle) (rest : list handle) :
  (forall m e, S m -> Q e -> Q (pushAdd c m e)) ->
  (forall e m, Q e -> In m (addList e) -> S m) ->
  (forall e l, Q e -> (forall y, In y l -> In y (addList e)) ->
               Q (mkEmitting (page e) (adds e) l)) ->
  movedSet b = n :: rest -> Forall S rest -> Forall S (addedSet b) ->
  forall p0,
    p0 = fold_left
           (fun p n =>
              pg_set_mirror
                (Mirror.removeNodeFromMap (dom p) (nodes p) (mirror p) n) p)
           (mapRemoves b) p ->
    isParentRemoved p0 (removes b) n = false ->
    Q (pushAdd c n (mkEmitting p0 [] [])) ->
    collect fuel c p b = Some (b1, e3, gone) ->
    Q e3.
Proof.
  intros Hpush Hpend Hleave Hmoved Hrest Hadded p0 Hp0 Hskip H0 Hc.
  unfold collect in Hc. rewrite <- Hp0 in Hc.
  set (e1 := emitMoved c (set_mapRemoves [] b) (mkEmitting p0 [] [])) in *.
  assert (H1 : Q e1).
  { unfold e1, emitMoved.
    rewrite (fold_left_from_head _ (movedSet (set_mapRemoves [] b)) rest n _
               Hmoved).
    simpl page. simpl removes. rewrite Hskip. simpl andb. cbv iota.
    apply (fold_push_invariant c Q S Hpush
             (fun e n =>
                isParentRemoved (page e) (removes b) n
                && negb (match parentNode (dom (page e)) n with
                         | Some parent => mem parent (movedSet b)
                         | None => false
                         end))); trivial. }
  assert (H2 : Q (fst (emitAdded c (set_mapRemoves [] b) e1))).
  { apply (emitAdded_invariant c Q S); auto. }
  destruct (emitAdded c (set_mapRemoves [] b) e1) as [e2 dropped].
  destruct (resolveAddList fuel c None e2) as [[e gone'] |] eqn:Er;
    [| discriminate].
  inversion Hc; subst.
  apply (resolveAddList_invariant c Q S Hpush Hpend Hleave fuel None e2 e3 gone);
    trivial.
  discriminate.
Qed.

(** C3, as the code has it.  A node that carries an id leaves parent [A]
    and enters parent [B] of the document, where its parent and its next
    sibling carry ids; both parents are observed and no ancestor shares
    the id of the node.  Then [emit] calls back once; the delta has
    exactly one add of the node, under [B] and with the id it carries, and
    its removes are the one remove of the node from [A]. *)
Theorem C3_relocation_emits_add_and_remove :
  forall (fuel : nat) (c : Collaborators) (p : Page) (A B n : handle)
    (s : serializedNode) (r : Emitted),
    sn (nd p n) = Some s -> sn_id s <> IGNORED_NODE ->
    typeOfKind (kind (nd p n)) <> None ->
    parentNode (dom p) n = Some B ->
    notInDoc p n = false ->
    isShadowRoot p B = false -> getId p (Some B) <> -1 ->
    eqoz (getNextId p n) (-1) = false ->
    (forall h, In h (ancestors (dom p) n) -> getId p (Some h) <> sn_id s) ->
    isIgnored p A = false -> isBlocked p A = false ->
    isAncestorRemoved p A = false ->
    isIgnored p B = false -> isBlocked p B = false ->
    processMutations fuel c p emptyBuffer (relocated A B n) = Some r ->
    exists (pl : payload) (a : addedNodeMutation),
      effects r = [EmissionCallback pl]
      /\ pl_removes pl
         = [mkRemove (parentIdOf p A) (sn_id s) (isShadowRoot p A)]
      /\ addsOf n r = 1%nat
      /\ In (n, a) (addsWithSource r)
      /\ add_parentId a = getId p (Some B)
      /\ sn_id (add_node a) = sn_id s.
Proof.
  intros fuel c p A B n s r Hs Hid Hkind Hpar Hdoc Hsh HB Hnext Hanc
    HiA HbA HrA HiB HbB Hrun.
  assert (Hn : isINode p n = true) by (unfold isINode; rewrite Hs; reflexivity).
  assert (Hin : isIgnored p n = false).
  { unfold isIgnored. rewrite Hs. apply Z.eqb_neq. exact Hid. }
  assert (Hgid : getId p (Some n) = sn_id s) by (rewrite getId_nd, Hs; reflexivity).
  destruct (relocated_buffer c p A B n Hn Hin HiA HbA HrA HiB HbB)
    as (Hfz & Hlk & Hrem & Hmap & (rest & Hmoved & Hrest) & Hadded).
  unfold processMutations in Hrun.
  set (b' := fold_left (processMutation c p) (relocated A B n) emptyBuffer) in *.
  unfold emit in Hrun. rewrite Hfz, Hlk in Hrun. simpl in Hrun.
  destruct (collect fuel c p b') as [[[b1 e3] gone] |] eqn:Ec; [| discriminate].
  destruct (collect_buffer fuel c p b' b1 e3 gone Ec)
    as (_ & _ & _ & _ & Hr1 & _).
  destruct (mapRemoves_only_mirror p (mapRemoves b')) as (m & Hp0).
  destruct (pushAdd_marked c n B s (mkEmitting (pg_set_mirror m p) [] []))
    as (a & q & Hpush & Hunder & Hsame); trivial.
  assert (Hq : addedOnce n a e3).
  { apply (collect_after_first c (addedOnce n a) (fun h => h <> n) fuel p b' b1
             e3 gone n rest) with (p0 := pg_set_mirror m p); trivial.
    - intros h e. apply pushAdd_addedOnce.
    - intros e h [_ Hp] Hh ->. contradiction.
    - intros e l [Ha Hp] Hl. split; [exact Ha | auto].
    - apply List.Forall_forall. intros h Hh ->. contradiction.
    - apply List.Forall_forall. intros h Hh ->.
      rewrite (Hadded n Hh) in Hn. discriminate.
    - symmetry. exact Hp0.
    - rewrite Hrem. apply not_true_is_false. intros Hex.
      unfold isParentRemoved in Hex. apply existsb_exists in Hex.
      destruct Hex as (h & Hh & Hex). simpl in Hex.
      rewrite orb_false_r in Hex. apply Z.eqb_eq in Hex.
      apply (Hanc h Hh). rewrite <- Hgid. symmetry. exact Hex.
    - rewrite Hpush. split; simpl; [rewrite Nat.eqb_refl; reflexivity | auto]. }
  destruct Hq as [Hfilter _].
  assert (Hfull : isEmptyPayload (compose b1 e3) = false).
  { unfold isEmptyPayload, compose. simpl. rewrite Hr1, Hrem. simpl.
    rewrite andb_false_r. reflexivity. }
  rewrite Hfull in Hrun. inversion Hrun; subst r.
  exists (compose b1 e3), a. simpl. repeat split; trivial.
  - rewrite Hr1, Hrem, Hgid. reflexivity.
  - unfold addsOf. simpl. rewrite filter_fst, Hfilter. reflexivity.
  - unfold addsWithSource. simpl. rewrite combine_fst_snd.
    assert (Hmem : In (n, a)
                     (List.filter (fun x => Nat.eqb n (fst x)) (adds e3))).
    { rewrite Hfilter. left. reflexivity. }
    apply filter_In in Hmem. apply Hmem.
Qed.

(** C3, as the specification has it: the relocated node is reported as
    removed from its former parent. *)
Lemma C3_relocation_emits_a_remove : ~ relocation_emits_no_remove.
Proof.
  intros H.
  apply (H 1%nat Scenario.plain Scenario.relocatedPage 2%nat 3%nat 4%nat _ _
           eq_refl eq_refl eq_refl (or_introl eq_refl) (mkRemove 3 5 false)).
  - vm_compute. auto.
  - split; reflexivity.
Qed.

Lemma C3_witness :
  exists r : Emitted,
    processMutations 1 Scenario.plain Scenario.relocatedPage emptyBuffer
      (relocated 2%nat 3%nat 4%nat) = Some r
    /\ exists (pl : payload) (a : addedNodeMutation),
         effects r = [EmissionCallback pl]
         /\ pl_removes pl = [mkRemove 3 5 false]
         /\ addsOf 4%nat r = 1%nat
         /\ In (4%nat, a) (addsWithSource r)
         /\ add_parentId a = 4
         /\ sn_id (add_node a) = 5.
Proof.
  destruct (processMutations 1 Scenario.plain Scenario.relocatedPage
              emptyBuffer (relocated 2%nat 3%nat 4%nat)) as [r |] eqn:E;
    [| vm_compute in E; discriminate].
  exists r. split; [reflexivity |].
  apply (C3_relocation_emits_add_and_remove 1%nat Scenario.plain
           Scenario.relocatedPage 2%nat 3%nat 4%nat
           (mkSN 5 Element "span" [] "" false false None) r);
    try reflexivity; try (vm_compute; discriminate).
  - intros h Hh. vm_compute in Hh.
    destruct Hh as [<- | [<- | [<- | []]]]; vm_compute; discriminate.
  - exact E.
Defined.

End CaptureFacts.

(** ** Further facts about the mutation buffer *)

Module BufferFacts.
Import Dom Wire Node Capture Statements Invariants PendingList BufferInvariants.

(** *** The pending list *)

Lemma removeNode_insert_after (x n : handle) (l : list handle) :
  ~ In n l -> In x l -> removeNode n (insert_after x n l) = l.
Proof.
  induction l as [| a l IH]; intros Hn Hx; [contradiction |].
  simpl. destruct (Nat.eqb_spec a x) as [-> | Hax].
  - simpl. destruct (Nat.eqb_spec x n) as [-> | _].
    + exfalso. apply Hn. left. reflexivity.
    + rewrite Nat.eqb_refl. reflexivity.
  - simpl. destruct (Nat.eqb_spec a n) as [-> | _].
    + exfalso. apply Hn. left. reflexivity.
    + f_equal. apply IH.
      * intros H. apply Hn. right. exact H.
      * destruct Hx as [Hx | Hx]; [contradiction | exact Hx].
Qed.

Lemma removeNode_insert_ahead (x n : handle) (l : list handle) :
  ~ In n l -> In x l -> removeNode n (insert_ahead x n l) = l.
Proof.
  induction l as [| a l IH]; intros Hn Hx; [contradiction |].
  simpl. destruct (Nat.eqb_spec a x) as [-> | Hax].
  - simpl. rewrite Nat.eqb_refl. reflexivity.
  - simpl. destruct (Nat.eqb_spec a n) as [-> | _].
    + exfalso. apply Hn. left. reflexivity.
    + f_equal. apply IH.
      * intros H. apply Hn. right. exact H.
      * destruct Hx as [Hx | Hx]; [contradiction | exact Hx].
Qed.

(** X1.  [addList.addNode(n)] followed by [addList.removeNode(n)] gives the
    list back: the node is linked in somewhere, one entry longer, and the
    other entries keep their order. *)
Theorem addNode_then_removeNode :
  forall (p : Page) (n : handle) (l : list handle),
    ~ In n l ->
    removeNode n (addNode p n l) = l
    /\ In n (addNode p n l)
    /\ length (addNode p n l) = S (length l).
Proof.
  intros p n l Hn.
  assert (Hhead : removeNode n (n :: l) = l).
  { simpl. rewrite Nat.eqb_refl. reflexivity. }
  assert (Hnext : forall o : option handle,
             removeNode n
               (match o with
                | Some next =>
                    if mem next (tl l) then insert_ahead next n l else n :: l
                | None => n :: l
                end) = l).
  { intros [next |]; [| exact Hhead].
    destruct (mem next (tl l)) eqn:E; [| exact Hhead].
    apply removeNode_insert_ahead; [exact Hn |].
    apply CaptureFacts.mem_In in E. destruct l; [contradiction | right; exact E]. }
  assert (Hround : removeNode n (addNode p n l) = l).
  { unfold addNode. destruct (previousSibling (dom p) n) as [prev |].
    - destruct (mem prev l) eqn:E; [| apply Hnext].
      apply removeNode_insert_after; [exact Hn |].
      apply CaptureFacts.mem_In. exact E.
    - apply Hnext. }
  destruct (CaptureFacts.addNode_spec p n l) as [Hlen _].
  split; [exact Hround | split; [| exact Hlen]].
  destruct (in_dec Nat.eq_dec n (addNode p n l)) as [Hin | Hout]; [exact Hin |].
  exfalso.
  assert (Hsame : removeNode n (addNode p n l) = addNode p n l).
  { clear - Hout. induction (addNode p n l) as [| a r IH]; [reflexivity |].
    simpl. destruct (Nat.eqb_spec a n) as [-> | _].
    - exfalso. apply Hout. left. reflexivity.
    - f_equal. apply IH. intros H. apply Hout. right. exact H. }
  rewrite Hround in Hsame. rewrite <- Hsame in Hlen. lia.
Qed.

Lemma after_insert_after (x n : handle) (l : list handle) :
  In x l -> Dom.after x (insert_after x n l) = Some n.
Proof.
  induction l as [| a l IH]; intros Hx; [contradiction |].
  simpl. destruct (Nat.eqb_spec a x) as [-> | Hax].
  - simpl. rewrite Nat.eqb_refl. reflexivity.
  - simpl. destruct (Nat.eqb_spec a x); [contradiction |].
    apply IH. destruct Hx; [contradiction | assumption].
Qed.

(** X2.  A node whose previous sibling is pending is linked right behind
    it, so that the scan from the tail meets the node before its previous
    sibling. *)
Theorem addNode_follows_previous_sibling :
  forall (p : Page) (n prev : handle) (l : list handle),
    previousSibling (dom p) n = Some prev -> In prev l ->
    Dom.after prev (addNode p n l) = Some n.
Proof.
  intros p n prev l Hprev Hin. unfold addNode. rewrite Hprev.
  apply CaptureFacts.mem_In in Hin. rewrite Hin.
  apply after_insert_after. apply CaptureFacts.mem_In. exact Hin.
Qed.

Lemma get_in_range (l : list handle) (i : nat) :
  (i < length l)%nat -> exists n, get i l = inr (Some n) /\ nth_error l i = Some n.
Proof.
  intros Hi. unfold get.
  destruct (Nat.leb_spec (length l) i) as [Hle | _]; [lia |].
  destruct (nth_error l i) as [n |] eqn:E; [eauto |].
  apply nth_error_None in E. lia.
Qed.

Lemma firstn_snoc (l : list handle) (i : nat) (n : handle) :
  nth_error l i = Some n -> firstn (S i) l = firstn i l ++ [n].
Proof.
  revert i. induction l as [| a l IH]; intros [| i] H; simpl in *;
    try discriminate.
  - inversion H. reflexivity.
  - f_equal. apply IH. exact H.
Qed.

Lemma scanByIndex_firstn (p : Page) (l : list handle) (count : nat) :
  (count <= length l)%nat ->
  scanByIndex p l count = inr (List.find (resolvable p) (rev (firstn count l))).
Proof.
  induction count as [| i IH]; intros Hc; [reflexivity |].
  simpl scanByIndex.
  destruct (get_in_range l i) as (n & -> & Hn); [lia |].
  rewrite (firstn_snoc l i n Hn), rev_app_distr. simpl.
  destruct (resolvable p n); [reflexivity |]. apply IH. lia.
Qed.

(** X3.  The scan of the pending list by position, from [length - 1] down
    to 0, never leaves the range of [get]: it does not throw, and it finds
    the entry nearest to the tail that passes the test. *)
Theorem scan_by_position_stays_in_range :
  forall (p : Page) (l : list handle),
    scanByIndex p l (length l) = inr (scanFromTail p l)
    /\ (forall position, get position l
                         = inl "Position outside of list range"
                         <-> (length l <= position)%nat).
Proof.
  intros p l. split.
  - rewrite scanByIndex_firstn by lia. rewrite firstn_all. reflexivity.
  - intros position. unfold get.
    destruct (Nat.leb_spec (length l) position) as [Hle | Hlt].
    + split; [intros _; exact Hle | reflexivity].
    + split; [discriminate | lia].
Qed.

(** *** [deepDelete] and [getNextId] *)

Lemma fold_set_delete (hs l : list handle) :
  fold_left (fun acc h => set_delete h acc) hs l
  = List.filter (fun y => negb (mem y hs)) l.
Proof.
  revert l. induction hs as [| h hs IH]; intros l; simpl.
  - induction l as [| a l IHl]; simpl; [reflexivity | f_equal; exact IHl].
  - rewrite IH. unfold set_delete. clear IH.
    induction l as [| a l IHl]; simpl; [reflexivity |].
    destruct (Nat.eqb a h) eqn:E; simpl.
    + exact IHl.
    + destruct (mem a hs); simpl; [exact IHl | f_equal; exact IHl].
Qed.

Lemma deepDelete_filter (p : Page) (set : list handle) (n : handle) :
  deepDelete p set n
  = List.filter (fun y => negb (mem y (Mirror.subtree_handles (dom p) n))) set.
Proof. unfold deepDelete. apply fold_set_delete. Qed.

Lemma deepDelete_In (p : Page) (set : list handle) (n y : handle) :
  In y (deepDelete p set n)
  <-> In y set /\ ~ In y (Mirror.subtree_handles (dom p) n).
Proof.
  rewrite deepDelete_filter, filter_In.
  rewrite negb_true_iff, CaptureFacts.mem_false. reflexivity.
Qed.

(** X4.  [deepDelete(set, n)] takes the node and every node below it out
    of the set, and nothing else; the other entries keep their order. *)
Theorem deepDelete_removes_the_subtree :
  forall (p : Page) (set : list handle) (n : handle),
    deepDelete p set n
    = List.filter
        (fun y => negb (mem y (Mirror.subtree_handles (dom p) n))) set
    /\ forall y, In y (deepDelete p set n)
                 <-> In y set /\ ~ In y (Mirror.subtree_handles (dom p) n).
Proof.
  intros p set n. split.
  - apply deepDelete_filter.
  - intros y. apply deepDelete_In.
Qed.

(** X5.  [getNextId] passes over the siblings that carry the ignored id:
    its result is never [IGNORED_NODE], and it is null when no sibling
    follows. *)
Theorem getNextId_skips_ignored :
  forall (p : Page) (n : handle),
    getNextId p n <> Some IGNORED_NODE
    /\ (nextSibling (dom p) n = None -> In n (siblings (dom p) n) ->
        getNextId p n = None).
Proof.
  intros p n. unfold getNextId.
  set (drop := fix drop (l : list handle) : list handle :=
         match l with
         | [] => []
         | a :: r => if Nat.eqb a n then r else drop r
         end).
  set (go := fix go (following : list handle) : option Z :=
         match following with
         | [] => None
         | ns :: r =>
             if Z.eqb (getId p (Some ns)) IGNORED_NODE then go r
             else Some (getId p (Some ns))
         end).
  split.
  - generalize (drop (siblings (dom p) n)). intros l.
    induction l as [| a l IH]; [discriminate |].
    change (go (a :: l))
      with (if Z.eqb (getId p (Some a)) IGNORED_NODE then go l
            else Some (getId p (Some a))).
    destruct (Z.eqb_spec (getId p (Some a)) IGNORED_NODE) as [| Hne];
      [exact IH |].
    intros H. inversion H. contradiction.
  - unfold nextSibling. generalize (siblings (dom p) n). intros l.
    induction l as [| a l IH]; intros Hafter Hin; [contradiction |].
    simpl in Hafter. simpl drop.
    destruct (Nat.eqb_spec a n) as [-> | Hne].
    + destruct l; [reflexivity | discriminate].
    + apply IH; [exact Hafter |]. destruct Hin; [contradiction | assumption].
Qed.

(** *** Records that the recorder leaves out *)

Lemma genAdds_blocked (p : Page) (n tg : handle) (b : MutationBuffer) :
  isBlocked p tg = true -> genAdds p n (Some tg) b = b.
Proof.
  intros H. unfold genAdds.
  destruct (subtree (dom p) n) as [[h ks] |]; simpl; rewrite H; reflexivity.
Qed.

Lemma hidden_record (c : Collaborators) (p : Page) (b : MutationBuffer)
  (m : mutationRecord) :
  hidden p m -> processMutation c p b m = b.
Proof.
  intros [Hi | Hb]; destruct m as [t old | t name old | t added removed];
    simpl in *; try (rewrite Hi; reflexivity);
    destruct (isIgnored p t); trivial.
  - rewrite Hb. reflexivity.
  - unfold processAttributes. rewrite Hb. reflexivity.
  - assert (Ha : fold_left (fun acc n => genAdds p n (Some t) acc) added b = b).
    { induction added as [| n l IH]; simpl; [reflexivity |].
      rewrite genAdds_blocked by exact Hb. exact IH. }
    rewrite Ha. induction removed as [| n l IH]; simpl; [reflexivity |].
    unfold removedNode at 2. rewrite Hb. simpl. exact IH.
Qed.

Lemma emit_emptyBuffer (fuel : nat) (c : Collaborators) (p : Page) :
  emit fuel c p emptyBuffer = Some (mkEmitted emptyBuffer p [] [] []).
Proof.
  unfold emit, collect. simpl. destruct fuel; reflexivity.
Qed.

(** X6.  Records whose target is ignored or lies in a blocked subtree
    leave every buffer as it is, whatever their type; a batch of such
    records on a fresh buffer ends without a call of the emission
    callback. *)
Theorem hidden_records_leave_no_trace :
  forall (fuel : nat) (c : Collaborators) (p : Page) (b : MutationBuffer)
    (ms : list mutationRecord),
    Forall (hidden p) ms ->
    fold_left (processMutation c p) ms b = b
    /\ processMutations fuel c p emptyBuffer ms
       = Some (mkEmitted emptyBuffer p [] [] []).
Proof.
  intros fuel c p b ms H.
  assert (Hfold : forall b0, fold_left (processMutation c p) ms b0 = b0).
  { induction H as [| m ms Hm _ IH]; intros b0; simpl; [reflexivity |].
    rewrite hidden_record by exact Hm. apply IH. }
  split; [apply Hfold |].
  unfold processMutations. rewrite Hfold. apply emit_emptyBuffer.
Qed.

(** *** [freeze] and [lock] *)

Lemma withFlags_own (b : MutationBuffer) :
  withFlags (frozen b) (locked b) b = b.
Proof. destruct b. reflexivity. Qed.

Lemma genAdds_tree_flags (p : Page) (f l : bool) (t : tree) :
  forall (tg : option handle) (b : MutationBuffer),
    genAdds_tree p tg t (withFlags f l b) = withFlags f l (genAdds_tree p tg t b).
Proof.
  induction t as [n ks IH] using CaptureFacts.tree_induction. intros tg b.
  simpl.
  destruct (match tg with Some t0 => isBlocked p t0 | None => false end);
    [reflexivity |].
  assert (Hdescend : forall b',
             (if negb (isBlocked p n)
              then fold_left (fun acc childN => genAdds_tree p None childN acc)
                     ks (withFlags f l b')
              else withFlags f l b')
             = withFlags f l
                 (if negb (isBlocked p n)
                  then fold_left
                         (fun acc childN => genAdds_tree p None childN acc) ks b'
                  else b')).
  { intros b'. destruct (negb (isBlocked p n)); [| reflexivity].
    revert b'. induction ks as [| k ks IHks]; intros b'; simpl; [reflexivity |].
    inversion IH; subst. rewrite H1. apply IHks. assumption. }
  destruct (isINode p n).
  - destruct (isIgnored p n); [reflexivity |].
    rewrite <- Hdescend. destruct (truthy _); reflexivity.
  - rewrite <- Hdescend. reflexivity.
Qed.

Lemma processMutation_flags (c : Collaborators) (p : Page) (f l : bool)
  (b : MutationBuffer) (m : mutationRecord) :
  processMutation c p (withFlags f l b) m
  = withFlags f l (processMutation c p b m).
Proof.
  destruct m as [t old | t name old | t added removed]; simpl.
  - destruct (isIgnored p t); [reflexivity |].
    destruct (_ && _); reflexivity.
  - destruct (isIgnored p t); [reflexivity |].
    unfold processAttributes. destruct (_ || _); [reflexivity |].
    simpl attributes.
    destruct (List.find _ (attributes b)); reflexivity.
  - destruct (isIgnored p t); [reflexivity |].
    assert (Ha : fold_left (fun acc n => genAdds p n (Some t) acc) added
                   (withFlags f l b)
                 = withFlags f l
                     (fold_left (fun acc n => genAdds p n (Some t) acc) added b)).
    { revert b. induction added as [| n ns IH]; intros b; simpl; [reflexivity |].
      rewrite <- IH. f_equal. unfold genAdds.
      destruct (subtree (dom p) n); apply genAdds_tree_flags. }
    rewrite Ha. generalize (fold_left (fun acc n => genAdds p n (Some t) acc)
                              added b).
    induction removed as [| n ns IH]; intros b0; simpl; [reflexivity |].
    rewrite <- IH. f_equal. unfold removedNode.
    destruct (_ || _); [reflexivity |]. simpl addedSet. simpl movedSet.
    simpl movedMap.
    destruct (mem n (addedSet b0)); [reflexivity |].
    destruct (_ && _); [reflexivity |].
    destruct (isAncestorRemoved p t); [reflexivity |].
    destruct (_ && _); reflexivity.
Qed.

Lemma fold_flags (c : Collaborators) (p : Page) (f l : bool)
  (ms : list mutationRecord) (b : MutationBuffer) :
  fold_left (processMutation c p) ms (withFlags f l b)
  = withFlags f l (fold_left (processMutation c p) ms b).
Proof.
  revert b. induction ms as [| m ms IH]; intros b; simpl; [reflexivity |].
  rewrite processMutation_flags. apply IH.
Qed.

Lemma fold_keeps_flags (c : Collaborators) (p : Page)
  (ms : list mutationRecord) (b : MutationBuffer) :
  frozen (fold_left (processMutation c p) ms b) = frozen b
  /\ locked (fold_left (processMutation c p) ms b) = locked b.
Proof.
  rewrite <- (withFlags_own b) at 1 3. rewrite fold_flags. split; reflexivity.
Qed.

(** X7.  While the buffer is frozen the records are classified but
    nothing is emitted and the page is not touched; [unfreeze] then emits
    what the same records give on the buffer that was never frozen.  The
    same holds of [lock] and [unlock]. *)
Theorem frozen_records_are_emitted_at_unfreeze :
  forall (fuel : nat) (c : Collaborators) (p : Page) (b : MutationBuffer)
    (ms : list mutationRecord),
    frozen b = false -> locked b = false ->
    processMutations fuel c p (freeze b) ms
    = Some (mkEmitted (fold_left (processMutation c p) ms (freeze b)) p [] [] [])
    /\ unfreeze fuel c p (fold_left (processMutation c p) ms (freeze b))
       = processMutations fuel c p b ms
    /\ processMutations fuel c p (lock b) ms
       = Some (mkEmitted (fold_left (processMutation c p) ms (lock b)) p [] [] [])
    /\ unlock fuel c p (fold_left (processMutation c p) ms (lock b))
       = processMutations fuel c p b ms.
Proof.
  intros fuel c p b ms Hf Hl.
  assert (Hfreeze : freeze b = withFlags true false b).
  { unfold freeze, withFlags. destruct b; simpl in *; subst. reflexivity. }
  assert (Hlock : lock b = withFlags false true b).
  { unfold lock, withFlags. destruct b; simpl in *; subst. reflexivity. }
  destruct (fold_keeps_flags c p ms b) as [Hf' Hl'].
  rewrite Hf in Hf'. rewrite Hl in Hl'.
  assert (Hback : forall f l,
             withFlags false false
               (withFlags f l (fold_left (processMutation c p) ms b))
             = fold_left (processMutation c p) ms b).
  { intros f l. destruct (fold_left (processMutation c p) ms b); simpl in *;
      subst. reflexivity. }
  unfold processMutations, unfreeze, unlock.
  rewrite Hfreeze, Hlock, !fold_flags. split; [| split; [| split]].
  - unfold emit. reflexivity.
  - rewrite <- (Hback true false) at 2. reflexivity.
  - unfold emit. reflexivity.
  - rewrite <- (Hback false true) at 2. reflexivity.
Qed.

(** *** What [emit] sends *)

(** X8.  After an emission the buffers hold nothing more to send: an
    [emit] that follows at once, on the page as the first one left it,
    returns without a call of the emission callback and changes
    nothing. *)
Theorem emit_after_emission_is_silent :
  forall (fuel fuel' : nat) (c : Collaborators) (p : Page) (b : MutationBuffer)
    (r : Emitted),
    emit fuel c p b = Some r -> effects r <> [] ->
    emit fuel' c (after r) (buffer r)
    = Some (mkEmitted (buffer r) (after r) [] [] []).
Proof.
  intros fuel fuel' c p b r Hrun Heff. unfold emit in Hrun.
  destruct (frozen b || locked b) eqn:Eflags.
  { inversion Hrun; subst. contradiction. }
  destruct (collect fuel c p b) as [[[b1 e3] gone] |] eqn:Ec; [| discriminate].
  destruct (CaptureFacts.collect_buffer fuel c p b b1 e3 gone Ec)
    as (Hf & Hl & _ & _ & _ & Hmap & _).
  destruct (isEmptyPayload (compose b1 e3)); inversion Hrun; subst;
    [contradiction |].
  simpl. unfold emit. simpl. rewrite Hf, Hl, Eflags.
  unfold collect. simpl. rewrite Hmap. simpl.
  destruct b1; simpl in *; subst. destruct fuel'; reflexivity.
Qed.

Lemma pushAdd_wellFormed (c : Collaborators) (n : handle) (e : Emitting) :
  (forall h a, In (h, a) (adds e) -> wellFormedAdd a) ->
  forall h a, In (h, a) (adds (pushAdd c n e)) -> wellFormedAdd a.
Proof.
  intros Hq h a. unfold pushAdd.
  destruct (parentNode (dom (page e)) n) as [parent |]; [| apply Hq].
  destruct (notInDoc (page e) n); [apply Hq |].
  match goal with
  | |- context [Z.eqb ?P (-1) || eqoz ?N (-1)] =>
      destruct (Z.eqb_spec P (-1)) as [| Hp]; [apply Hq |];
      destruct (eqoz N (-1)) eqn:En; [apply Hq |]
  end.
  simpl orb. cbv iota.
  destruct (serializeNodeWithId c (page e) n) as [[s |] p']; [| apply Hq].
  simpl. rewrite in_app_iff. intros [Hin | [Heq | []]]; [exact (Hq h a Hin) |].
  inversion Heq; subst. repeat split; simpl; trivial.
  intros Hnext. rewrite Hnext in En. discriminate.
Qed.

(** X9.  No add of an emitted delta names -1 as its parent or as its next
    sibling, and none carries a previous id: a node whose parent or next
    sibling has no id yet waits in the pending list instead. *)
Theorem emitted_adds_are_well_formed :
  forall (fuel : nat) (c : Collaborators) (p : Page) (b : MutationBuffer)
    (r : Emitted) (pl : payload),
    emit fuel c p b = Some r ->
    In (EmissionCallback pl) (effects r) ->
    forall a, In a (pl_adds pl) -> wellFormedAdd a.
Proof.
  intros fuel c p b r pl Hrun Hpl a Ha. unfold emit in Hrun.
  destruct (frozen b || locked b).
  { inversion Hrun; subst. contradiction. }
  destruct (collect fuel c p b) as [[[b1 e3] gone] |] eqn:Ec; [| discriminate].
  assert (Hq : forall h a, In (h, a) (adds e3) -> wellFormedAdd a).
  { apply (CaptureFacts.collect_invariant c
             (fun e => forall h a, In (h, a) (adds e) -> wellFormedAdd a)
             (fun _ => True) fuel p b b1 e3 gone); trivial.
    - intros n e _. apply pushAdd_wellFormed.
    - apply List.Forall_forall. trivial.
    - apply List.Forall_forall. trivial.
    - intros h a0 []. }
  destruct (isEmptyPayload (compose b1 e3)); inversion Hrun; subst;
    [contradiction |].
  destruct Hpl as [Heq | []]. inversion Heq; subst. simpl in Ha.
  apply in_map_iff in Ha. destruct Ha as ([h a'] & Heq' & Hin).
  simpl in Heq'. subst a'. exact (Hq h a Hin).
Qed.

(** X10.  Every text and attribute entry of an emitted delta names a node
    that is registered in the identity map when the delta is composed, and
    comes from a buffered cursor of that node with its value; the entries
    of nodes that have left the map are not sent. *)
Theorem emitted_entries_are_registered :
  forall (fuel : nat) (c : Collaborators) (p : Page) (b : MutationBuffer)
    (r : Emitted) (pl : payload),
    emit fuel c p b = Some r ->
    In (EmissionCallback pl) (effects r) ->
    (forall t, In t (pl_texts pl) ->
       Mirror.has (mirror (after r)) (tx_id t) = true
       /\ exists cur, In cur (texts b)
                      /\ tx_id t = getId (after r) (Some (tc_node cur))
                      /\ tx_value t = tc_value cur)
    /\ (forall a, In a (pl_attributes pl) ->
          Mirror.has (mirror (after r)) (at_id a) = true
          /\ exists cur, In cur (attributes b)
                         /\ at_id a = getId (after r) (Some (ac_node cur))
                         /\ at_attributes a = ac_attributes cur).
Proof.
  intros fuel c p b r pl Hrun Hpl. unfold emit in Hrun.
  destruct (frozen b || locked b).
  { inversion Hrun; subst. contradiction. }
  destruct (collect fuel c p b) as [[[b1 e3] gone] |] eqn:Ec; [| discriminate].
  destruct (CaptureFacts.collect_buffer fuel c p b b1 e3 gone Ec)
    as (_ & _ & Ht & Ha & _).
  destruct (isEmptyPayload (compose b1 e3)); inversion Hrun; subst;
    [contradiction |].
  destruct Hpl as [Heq | []]. inversion Heq; subst. simpl. split.
  - intros t Hin. unfold composeTexts in Hin. apply filter_In in Hin.
    destruct Hin as [Hin Hhas]. split; [exact Hhas |].
    apply in_map_iff in Hin. destruct Hin as (cur & <- & Hcur).
    exists cur. rewrite <- Ht. auto.
  - intros a Hin. unfold composeAttributes in Hin. apply filter_In in Hin.
    destruct Hin as [Hin Hhas]. split; [exact Hhas |].
    apply in_map_iff in Hin. destruct Hin as (cur & <- & Hcur).
    exists cur. rewrite <- Ha. auto.
Qed.

(** *** The three sets *)

Lemma set_delete_In (x y : handle) (l : list handle) :
  In y (set_delete x l) <-> In y l /\ y <> x.
Proof.
  unfold set_delete. rewrite filter_In, negb_true_iff, Nat.eqb_neq. reflexivity.
Qed.

Lemma subtree_handles_head (f : forest) (n : handle) :
  exists rest, Mirror.subtree_handles f n = n :: rest.
Proof.
  unfold Mirror.subtree_handles. destruct (subtree f n) as [t |] eqn:E.
  - pose proof (CaptureFacts.subtree_root f n t E) as Hr. destruct t as [h ks].
    simpl in Hr. subst h. simpl. eauto.
  - eauto.
Qed.

Lemma classified_make (p : Page) (b : MutationBuffer) :
  (forall h, In h (addedSet b) -> isINode p h = false) ->
  (forall h, In h (movedSet b) -> isINode p h = true /\ isIgnored p h = false) ->
  (forall h, In h (addedSet b) -> ~ In h (droppedSet b)) ->
  List.NoDup (addedSet b) -> List.NoDup (movedSet b) ->
  List.NoDup (droppedSet b) ->
  classified p b.
Proof. unfold classified. auto 10. Qed.

Lemma classified_texts (p : Page) (b : MutationBuffer) (v : list textCursor) :
  classified p b -> classified p (set_texts v b).
Proof. intros H. exact H. Qed.

Lemma classified_attributes (p : Page) (b : MutationBuffer)
  (v : list attributeCursor) :
  classified p b -> classified p (set_attributes v b).
Proof. intros H. exact H. Qed.

Lemma genAdds_tree_classified (p : Page) (t : tree) :
  forall (tg : option handle) (b : MutationBuffer),
    classified p b -> classified p (genAdds_tree p tg t b).
Proof.
  induction t as [n ks IH] using CaptureFacts.tree_induction. intros tg b Hb.
  simpl.
  destruct (match tg with Some t0 => isBlocked p t0 | None => false end);
    [exact Hb |].
  assert (Hdescend : forall b',
             classified p b' ->
             classified p
               (if negb (isBlocked p n)
                then fold_left (fun acc childN => genAdds_tree p None childN acc)
                       ks b'
                else b')).
  { intros b' Hb'. destruct (negb (isBlocked p n)); [| exact Hb'].
    revert b' Hb'. induction ks as [| k ks IHks]; intros b' Hb'; simpl;
      [exact Hb' |].
    inversion IH; subst. apply IHks; [assumption |]. apply H1. exact Hb'. }
  destruct Hb as (Ha & Hm & Hd & Na & Nm & Nd).
  destruct (isINode p n) eqn:En.
  - destruct (isIgnored p n) eqn:Ei; [apply classified_make; trivial |].
    apply Hdescend.
    assert (Hc : classified p (set_movedSet (set_add n (movedSet b)) b)).
    { apply classified_make; simpl; trivial.
      - intros h Hh. apply CaptureFacts.set_add_In in Hh.
        destruct Hh as [-> | Hh]; [auto | apply Hm; exact Hh].
      - apply CaptureFacts.set_add_NoDup. exact Nm. }
    destruct (truthy _); exact Hc.
  - apply Hdescend. apply classified_make; simpl; trivial.
    + intros h Hh. apply CaptureFacts.set_add_In in Hh.
      destruct Hh as [-> | Hh]; trivial. apply Ha. exact Hh.
    + intros h Hh Hdrop. apply set_delete_In in Hdrop.
      destruct Hdrop as [Hdrop Hne]. apply CaptureFacts.set_add_In in Hh.
      destruct Hh as [-> | Hh]; [congruence |]. exact (Hd h Hh Hdrop).
    + apply CaptureFacts.set_add_NoDup. exact Na.
    + unfold set_delete. apply List.NoDup_filter. exact Nd.
Qed.

Lemma genAdds_classified (p : Page) (n : handle) (tg : option handle)
  (b : MutationBuffer) :
  classified p b -> classified p (genAdds p n tg b).
Proof.
  unfold genAdds. destruct (subtree (dom p) n); apply genAdds_tree_classified.
Qed.

Lemma deepDelete_sub (p : Page) (l : list handle) (n y : handle) :
  In y (deepDelete p l n) -> In y l /\ y <> n.
Proof.
  intros H. apply deepDelete_In in H. destruct H as [Hl Hn].
  split; [exact Hl |]. intros ->. apply Hn.
  destruct (subtree_handles_head (dom p) n) as (rest & ->). left. reflexivity.
Qed.

Lemma deepDelete_NoDup (p : Page) (l : list handle) (n : handle) :
  List.NoDup l -> List.NoDup (deepDelete p l n).
Proof.
  intros H. rewrite deepDelete_filter.
  apply List.NoDup_filter. exact H.
Qed.

Lemma removedNode_classified (p : Page) (tg : handle) (b : MutationBuffer)
  (n : handle) :
  classified p b -> classified p (removedNode p tg b n).
Proof.
  intros Hb. unfold removedNode. destruct (_ || _); [exact Hb |].
  destruct Hb as (Ha & Hm & Hd & Na & Nm & Nd).
  destruct (mem n (addedSet b)) eqn:En.
  - apply classified_make; simpl; trivial.
    + intros h Hh. apply deepDelete_sub in Hh. apply Ha. apply Hh.
    + intros h Hh Hdrop. apply deepDelete_sub in Hh. destruct Hh as [Hh Hne].
      apply CaptureFacts.set_add_In in Hdrop.
      destruct Hdrop as [-> | Hdrop]; [congruence |]. exact (Hd h Hh Hdrop).
    + apply deepDelete_NoDup. exact Na.
    + apply CaptureFacts.set_add_NoDup. exact Nd.
  - destruct (_ && _); [apply classified_make; trivial |].
    destruct (isAncestorRemoved p tg); [apply classified_make; trivial |].
    destruct (_ && _); apply classified_make; simpl; trivial.
    + intros h Hh. apply deepDelete_sub in Hh. apply Hm. apply Hh.
    + apply deepDelete_NoDup. exact Nm.
Qed.

Lemma processMutation_classified (c : Collaborators) (p : Page)
  (b : MutationBuffer) (m : mutationRecord) :
  classified p b -> classified p (processMutation c p b m).
Proof.
  intros Hb. destruct m as [t old | t name old | t added removed]; simpl.
  - destruct (isIgnored p t); [exact Hb |]. destruct (_ && _); exact Hb.
  - destruct (isIgnored p t); [exact Hb |]. unfold processAttributes.
    destruct (_ || _); exact Hb.
  - destruct (isIgnored p t); [exact Hb |].
    assert (Ha : classified p
                   (fold_left (fun acc n => genAdds p n (Some t) acc) added b)).
    { revert b Hb. induction added as [| n ns IH]; intros b Hb; simpl;
        [exact Hb |].
      apply IH. apply genAdds_classified. exact Hb. }
    revert Ha. generalize (fold_left (fun acc n => genAdds p n (Some t) acc)
                             added b).
    induction removed as [| n ns IH]; intros b0 Hb0; simpl; [exact Hb0 |].
    apply IH. apply removedNode_classified. exact Hb0.
Qed.

Lemma classified_emptyBuffer (p : Page) : classified p emptyBuffer.
Proof.
  apply classified_make; simpl; try contradiction; constructor.
Qed.

Lemma classified_resetBuffers (p : Page) (b : MutationBuffer) :
  classified p (resetBuffers b).
Proof.
  apply classified_make; simpl; try contradiction; constructor.
Qed.

Lemma records_classified (c : Collaborators) (p : Page)
  (ms : list mutationRecord) :
  forall b : MutationBuffer,
    classified p b -> classified p (fold_left (processMutation c p) ms b).
Proof.
  induction ms as [| m ms IH]; intros b Hb; simpl; [exact Hb |].
  apply IH. apply processMutation_classified. exact Hb.
Qed.

(** X11.  The records of a batch that is processed on new buffers, or on
    buffers that an emission has just reset, sort the nodes as the page of
    the batch has them: [addedSet] holds only nodes without an id and
    [movedSet] only nodes with an id that is not the ignored one; no node
    is at once in [addedSet] and in [droppedSet], and no set holds a node
    twice.  More records on the same page keep sets that are sorted so.
    (An [emit] that composes an empty payload returns without the reset,
    so the sets that a later batch finds need not be sorted for its
    page.) *)
Theorem sets_stay_classified :
  forall (c : Collaborators) (p : Page) (ms : list mutationRecord),
    classified p (fold_left (processMutation c p) ms emptyBuffer)
    /\ (forall b : MutationBuffer,
          classified p (fold_left (processMutation c p) ms (resetBuffers b)))
    /\ (forall b : MutationBuffer,
          classified p b ->
          classified p (fold_left (processMutation c p) ms b)).
Proof.
  intros c p ms. split; [| split].
  - apply records_classified. apply classified_emptyBuffer.
  - intros b. apply records_classified. apply classified_resetBuffers.
  - apply records_classified.
Qed.

Lemma sets_stay_classified_witness :
  classified Scenario.relocatedPage
    (fold_left (processMutation Scenario.plain Scenario.relocatedPage)
       Scenario.relocation emptyBuffer)
  /\ classified Scenario.relocatedPage
       (fold_left (processMutation Scenario.plain Scenario.relocatedPage)
          Scenario.relocation
          (mkBuffer false false [] [] [] [] [] [] [4%nat] [])).
Proof.
  destruct (sets_stay_classified Scenario.plain Scenario.relocatedPage
              Scenario.relocation) as (Hnew & _ & Hkept).
  split; [exact Hnew |]. apply Hkept.
  apply classified_make; simpl.
  - intros h [].
  - intros h [<- | []]. split; reflexivity.
  - intros h [].
  - constructor.
  - constructor; [intros [] | constructor].
  - constructor.
Defined.

(** *** Attribute cursors *)

Lemma assoc_get_set_eq {V : Type} (k : string) (v : V)
  (l : list (string * V)) :
  assoc_get String.eqb k (assoc_set String.eqb k v l) = Some v.
Proof.
  induction l as [| [k' v'] l IH]; simpl.
  - rewrite String.eqb_refl. reflexivity.
  - destruct (String.eqb k' k) eqn:E; simpl.
    + rewrite String.eqb_refl. reflexivity.
    + rewrite E. exact IH.
Qed.

Lemma assoc_get_set_ne {V : Type} (k k2 : string) (v : V)
  (l : list (string * V)) :
  k <> k2 ->
  assoc_get String.eqb k2 (assoc_set String.eqb k v l)
  = assoc_get String.eqb k2 l.
Proof.
  intros Hne. apply String.eqb_neq in Hne.
  induction l as [| [k' v'] l IH]; simpl.
  - rewrite Hne. reflexivity.
  - destruct (String.eqb k' k) eqn:E; simpl.
    + apply String.eqb_eq in E. subst k'. rewrite Hne. reflexivity.
    + destruct (String.eqb k' k2); [reflexivity | exact IH].
Qed.

Lemma map_same_node (target : handle) (item : list (string * attributeValue))
  (l : list attributeCursor) :
  map ac_node
    (map (fun a => if Nat.eqb (ac_node a) target
                   then mkAttributeCursor target item else a) l)
  = map ac_node l.
Proof.
  induction l as [| a l IH]; simpl; [reflexivity |]. f_equal; [| exact IH].
  destruct (Nat.eqb_spec (ac_node a) target) as [-> |]; reflexivity.
Qed.

Lemma processAttributes_cursors (c : Collaborators) (p : Page)
  (target : handle) (name : string) (old : option string)
  (b : MutationBuffer) :
  oneCursorPerNode b ->
  oneCursorPerNode (processAttributes c p target name old b).
Proof.
  intros Hb. unfold processAttributes. destruct (_ || _); [exact Hb |].
  unfold oneCursorPerNode. simpl.
  destruct (List.find _ (attributes b)) as [a0 |] eqn:Ef.
  - rewrite map_same_node. exact Hb.
  - rewrite map_app. simpl. apply CaptureFacts.NoDup_snoc; [exact Hb |].
    intros Hin. apply in_map_iff in Hin. destruct Hin as (a & Ha & Hin).
    pose proof (find_none _ _ Ef a Hin) as Hno. simpl in Hno.
    rewrite Ha, Nat.eqb_refl in Hno. discriminate.
Qed.

Lemma removedNode_attributes (p : Page) (tg : handle) (b : MutationBuffer)
  (n : handle) :
  attributes (removedNode p tg b n) = attributes b
  /\ texts (removedNode p tg b n) = texts b.
Proof.
  unfold removedNode. destruct (_ || _); [auto |].
  destruct (mem n (addedSet b)); [auto |].
  destruct (_ && _); [auto |].
  destruct (isAncestorRemoved p tg); [auto |].
  destruct (_ && _); auto.
Qed.

Lemma processMutation_cursors (c : Collaborators) (p : Page)
  (b : MutationBuffer) (m : mutationRecord) :
  oneCursorPerNode b -> oneCursorPerNode (processMutation c p b m).
Proof.
  intros Hb. destruct m as [t old | t name old | t added removed]; simpl.
  - destruct (isIgnored p t); [exact Hb |]. destruct (_ && _); exact Hb.
  - destruct (isIgnored p t); [exact Hb |].
    apply processAttributes_cursors. exact Hb.
  - destruct (isIgnored p t); [exact Hb |].
    assert (Ha : oneCursorPerNode
                   (fold_left (fun acc n => genAdds p n (Some t) acc) added b)).
    { revert b Hb. induction added as [| n ns IH]; intros b Hb; simpl;
        [exact Hb |].
      apply IH. unfold oneCursorPerNode.
      destruct (CaptureFacts.genAdds_grown p n (Some t) b)
        as (_ & _ & _ & -> & _). exact Hb. }
    revert Ha. generalize (fold_left (fun acc n => genAdds p n (Some t) acc)
                             added b).
    induction removed as [| n ns IH]; intros b0 Hb0; simpl; [exact Hb0 |].
    apply IH. unfold oneCursorPerNode.
    destruct (removedNode_attributes p t b0 n) as [-> _]. exact Hb0.
Qed.

(** X12.  [this.attributes] never holds two cursors of one node, whatever
    records are processed: an attribute record of a node that has a cursor
    is merged into it. *)
Theorem one_cursor_per_node :
  forall (c : Collaborators) (p : Page) (b : MutationBuffer)
    (ms : list mutationRecord),
    oneCursorPerNode b ->
    oneCursorPerNode (fold_left (processMutation c p) ms b).
Proof.
  intros c p b ms. revert b. induction ms as [| m ms IH]; intros b Hb; simpl;
    [exact Hb |].
  apply IH. apply processMutation_cursors. exact Hb.
Qed.

Lemma one_cursor_per_node_witness :
  oneCursorPerNode
    (fold_left (processMutation Scenario.plain Scenario.relocatedPage)
       [Attributes 2%nat "class" (Some "x"); Attributes 3%nat "id" (Some "z");
        Attributes 2%nat "id" (Some "y")]
       emptyBuffer)
  /\ attributes
       (fold_left (processMutation Scenario.plain Scenario.relocatedPage)
          [Attributes 2%nat "class" (Some "x"); Attributes 3%nat "id" (Some "z");
           Attributes 2%nat "id" (Some "y")]
          emptyBuffer)
     = [mkAttributeCursor 2%nat [("class", AttrNull); ("id", AttrNull)];
        mkAttributeCursor 3%nat [("id", AttrNull)]].
Proof.
  split; [| reflexivity].
  apply one_cursor_per_node. constructor.
Defined.

(** X13.  An attribute record that is taken (the target is neither ignored
    nor blocked and the value differs from the old one) leaves one cursor
    of the target, in which the attribute has the value the element has
    now, transformed; an earlier value of the same attribute is
    overwritten, and the cursors of other nodes stay as they are.  (The
    [style] attribute and [img] elements have their own handling.) *)
Theorem attribute_record_overwrites :
  forall (c : Collaborators) (p : Page) (b : MutationBuffer)
    (target : handle) (name : string) (old : option string),
    let value :=
      if String.eqb name "value"
      then maskInputValue c target (getAttribute p target name)
      else getAttribute p target name in
    isIgnored p target = false -> isBlocked p target = false ->
    option_string_eqb value old = false ->
    name <> "style" -> tag (nd p target) <> "img" ->
    exists item,
      In (mkAttributeCursor target item)
        (attributes (processMutation c p b (Attributes target name old)))
      /\ assoc_get String.eqb name item
         = Some (toAttr (transformAttribute c (tag (nd p target)) name value))
      /\ (forall a,
            In a (attributes
                    (processMutation c p b (Attributes target name old))) ->
            ac_node a = target -> a = mkAttributeCursor target item)
      /\ (forall a, ac_node a <> target ->
            (In a (attributes
                     (processMutation c p b (Attributes target name old)))
             <-> In a (attributes b))).
Proof.
  intros c p b target name old value Hi Hb Hv Hstyle Himg.
  simpl. rewrite Hi. unfold processAttributes. fold value.
  rewrite Hb, Hv. simpl orb. cbv iota.
  apply String.eqb_neq in Hstyle. apply String.eqb_neq in Himg.
  rewrite Hstyle, Himg.
  match goal with
  | |- context [mkAttributeCursor target ?I] => set (item := I)
  end.
  exists item. split; [| split; [| split]].
  - simpl. destruct (List.find _ (attributes b)) as [a0 |] eqn:Ef.
    + apply find_some in Ef. destruct Ef as [Hin Hnode].
      apply in_map_iff. exists a0. rewrite Hnode. auto.
    + apply in_app_iff. right. left. reflexivity.
  - unfold item.
    destruct (String.eqb name "open" && String.eqb (tag (nd p target)) "dialog")
      eqn:Eopen.
    + rewrite assoc_get_set_ne; [apply assoc_get_set_eq |].
      apply andb_true_iff in Eopen. destruct Eopen as [Eopen _].
      apply String.eqb_eq in Eopen. subst name. discriminate.
    + apply assoc_get_set_eq.
  - simpl. intros a Hin Hnode.
    destruct (List.find _ (attributes b)) as [a0 |] eqn:Ef.
    + apply in_map_iff in Hin. destruct Hin as (a1 & Heq & _).
      destruct (Nat.eqb_spec (ac_node a1) target) as [| Hne]; [congruence |].
      subst a1. contradiction.
    + apply in_app_iff in Hin. destruct Hin as [Hin | [Heq | []]]; [| congruence].
      pose proof (find_none _ _ Ef a Hin) as Hno. simpl in Hno.
      rewrite Hnode, Nat.eqb_refl in Hno. discriminate.
  - simpl. intros a Hne.
    destruct (List.find _ (attributes b)) as [a0 |] eqn:Ef.
    + rewrite in_map_iff. split.
      * intros (a1 & Heq & Hin).
        destruct (Nat.eqb_spec (ac_node a1) target) as [| _]; [| congruence].
        subst a. contradiction.
      * intros Hin. exists a.
        destruct (Nat.eqb_spec (ac_node a) target); [contradiction | auto].
    + rewrite in_app_iff. split; [| auto].
      intros [Hin | [Heq | []]]; [exact Hin |]. subst a. contradiction.
Qed.

(** *** The edge key of a move *)

Lemma genAdds_tree_movedMap (p : Page) (t : tree) :
  forall (tg : option handle) (b : MutationBuffer),
    exists more, movedMap (genAdds_tree p tg t b) = movedMap b ++ more.
Proof.
  induction t as [n ks IH] using CaptureFacts.tree_induction. intros tg b.
  simpl.
  destruct (match tg with Some t0 => isBlocked p t0 | None => false end);
    [exists []; symmetry; apply app_nil_r |].
  assert (Hdescend : forall b',
             exists more,
               movedMap
                 (if negb (isBlocked p n)
                  then fold_left
                         (fun acc childN => genAdds_tree p None childN acc) ks b'
                  else b') = movedMap b' ++ more).
  { intros b'. destruct (negb (isBlocked p n));
      [| exists []; symmetry; apply app_nil_r].
    revert b'. induction ks as [| k ks IHks]; intros b'; simpl;
      [exists []; symmetry; apply app_nil_r |].
    inversion IH; subst. destruct (H1 None b') as (m1 & Hm1).
    destruct (IHks H2 (genAdds_tree p None k b')) as (m2 & ->).
    rewrite Hm1. exists (m1 ++ m2). symmetry. apply app_assoc. }
  destruct (isINode p n).
  - destruct (isIgnored p n); [exists []; symmetry; apply app_nil_r |].
    match goal with
    | |- context [if negb (isBlocked p n) then fold_left ?F ks ?B else ?B] =>
        destruct (Hdescend B) as (more & ->)
    end.
    destruct (truthy _); simpl; [| eauto].
    rewrite <- app_assoc. eauto.
  - match goal with
    | |- context [if negb (isBlocked p n) then fold_left ?F ks ?B else ?B] =>
        destruct (Hdescend B) as (more & ->)
    end.
    simpl. eauto.
Qed.

Lemma hasKey_app (k : Z * Z) (l m : list (Z * Z)) :
  hasKey k l = true -> hasKey k (l ++ m) = true.
Proof.
  unfold hasKey. rewrite existsb_app. intros ->. reflexivity.
Qed.

Lemma hasKey_last (k : Z * Z) (l : list (Z * Z)) : hasKey k (l ++ [k]) = true.
Proof.
  unfold hasKey. rewrite existsb_app. simpl. rewrite !Z.eqb_refl. simpl.
  apply orb_true_r.
Qed.

(** [genAdds] writes the key of the node under its new parent. *)
Lemma genAdds_key (p : Page) (n B : handle) (sB : serializedNode)
  (b : MutationBuffer) :
  isBlocked p B = false -> isINode p n = true -> isIgnored p n = false ->
  sn (nd p B) = Some sB -> sn_id sB <> 0 ->
  hasKey (moveKey (getId p (Some n)) (sn_id sB))
    (movedMap (genAdds p n (Some B) b)) = true.
Proof.
  intros Hb Hn Hi HB Hid.
  assert (Hget : getId p (Some B) = sn_id sB).
  { rewrite CaptureFacts.getId_nd, HB. reflexivity. }
  assert (HBn : isINode p B = true) by (unfold isINode; rewrite HB; reflexivity).
  assert (H : forall ks,
             hasKey (moveKey (getId p (Some n)) (sn_id sB))
               (movedMap (genAdds_tree p (Some B) (T n ks) b)) = true).
  { intros ks.
    assert (Hstep : forall b0,
               hasKey (moveKey (getId p (Some n)) (sn_id sB)) (movedMap b0)
               = true ->
               hasKey (moveKey (getId p (Some n)) (sn_id sB))
                 (movedMap
                    (if negb (isBlocked p n)
                     then fold_left
                            (fun acc childN => genAdds_tree p None childN acc)
                            ks b0
                     else b0)) = true).
    { intros b0 Hk. destruct (negb (isBlocked p n)); [| exact Hk].
      revert b0 Hk. induction ks as [| k ks IHks]; intros b0 Hk; simpl;
        [exact Hk |].
      apply IHks. destruct (genAdds_tree_movedMap p k None b0) as (more & ->).
      apply hasKey_app. exact Hk. }
    cbn -[getId isBlocked isINode isIgnored hasKey truthy Z.eqb].
    rewrite Hb, Hn, Hi, HBn, Hget.
    apply Z.eqb_neq in Hid. unfold truthy. rewrite Hid.
    cbn -[getId isBlocked isINode isIgnored hasKey].
    apply Hstep. cbn -[getId hasKey]. apply hasKey_last. }
  unfold genAdds. destruct (subtree (dom p) n) as [t |] eqn:Et; [| apply H].
  pose proof (CaptureFacts.subtree_root _ _ _ Et) as Hr. destruct t as [h ks].
  simpl in Hr. subst h. apply H.
Qed.

(** X14.  A node with an id that enters a parent and leaves it again within
    one window is not reported: the key that [genAdds] wrote for the node
    under that parent is found, no remove is buffered, and the node and
    the nodes below it leave [movedSet].  (A node that leaves another
    parent than the one it entered is reported as removed from it.) *)
Theorem undone_move_is_not_reported :
  forall (c : Collaborators) (p : Page) (b : MutationBuffer) (B n : handle)
    (sB : serializedNode),
    classified p b ->
    isINode p n = true -> isIgnored p n = false ->
    sn (nd p B) = Some sB -> sn_id sB <> 0 ->
    isIgnored p B = false -> isBlocked p B = false ->
    isShadowRoot p B = false -> isAncestorRemoved p B = false ->
    removes (fold_left (processMutation c p) (movedInAndOut B n) b) = removes b
    /\ mapRemoves (fold_left (processMutation c p) (movedInAndOut B n) b)
       = mapRemoves b ++ [n]
    /\ (forall y, In y (Mirror.subtree_handles (dom p) n) ->
          ~ In y (movedSet
                    (fold_left (processMutation c p) (movedInAndOut B n) b))).
Proof.
  intros c p b B n sB Hc Hn Hi HB Hid HiB HbB Hsh Hanc.
  assert (Hget : getId p (Some B) = sn_id sB).
  { rewrite CaptureFacts.getId_nd, HB. reflexivity. }
  assert (HBn : isINode p B = true) by (unfold isINode; rewrite HB; reflexivity).
  simpl. rewrite HiB.
  set (b1 := genAdds p n (Some B) b).
  destruct (CaptureFacts.genAdds_grown p n (Some B) b)
    as (_ & _ & _ & _ & Hr & Hm & _ & _ & _ & Hadd).
  destruct (CaptureFacts.genAdds_moved p n B b HbB Hn Hi) as (rest & Hmoved).
  pose proof (genAdds_key p n B sB b HbB Hn Hi HB Hid) as Hkey.
  fold b1 in Hr, Hm, Hadd, Hmoved, Hkey.
  destruct Hc as (Ha & _).
  assert (Hna : forall h, isINode p h = true -> mem h (addedSet b1) = false).
  { intros h Hh. apply CaptureFacts.mem_false. intros Hin.
    destruct (Hadd h Hin) as [Hold | Hu]; [| congruence].
    rewrite (Ha h Hold) in Hh. discriminate. }
  assert (Hin : mem n (movedSet b1) = true).
  { apply CaptureFacts.mem_In. rewrite Hmoved. apply in_app_iff. left.
    apply CaptureFacts.set_add_In. auto. }
  unfold removedNode. rewrite HbB, Hi, Hsh, Hget. simpl orb. cbv iota.
  rewrite (Hna n Hn), (Hna B HBn), Hanc, Hin, Hkey. simpl.
  split; [exact Hr | split; [rewrite Hm; reflexivity |]].
  intros y Hy Hin'. apply deepDelete_In in Hin'.
  destruct Hin' as [_ Hout]. contradiction.
Qed.

(** *** A change of a node that leaves *)

Lemma removeNodeFromMap_forgets (f : forest) (nodes : gmap handle ndata)
  (m : gmap Z handle) (n : handle) (d : ndata) (s : serializedNode) :
  nodes !! n = Some d -> sn d = Some s ->
  Mirror.removeNodeFromMap f nodes m n !! sn_id s = None.
Proof.
  intros Hn Hs. unfold Mirror.removeNodeFromMap.
  destruct (subtree_handles_head f n) as (rest & ->). simpl.
  rewrite Hn, Hs.
  assert (H0 : delete (sn_id s) m !! sn_id s = None).
  { rewrite lookup_delete. case_decide; [reflexivity | contradiction]. }
  revert H0. generalize (delete (sn_id s) m).
  induction rest as [| h l IH]; intros m0 Hm0; simpl; [exact Hm0 |].
  apply IH. destruct (nodes !! h) as [d' |]; [| exact Hm0].
  destruct (sn d'); [| exact Hm0].
  rewrite lookup_delete. case_decide; trivial.
Qed.

(** X15.  The text of a node with an id changes and the node is then
    removed, in one fresh window: the delta carries the remove and no
    text entry, because the node has left the identity map when the delta
    is composed. *)
Theorem change_of_removed_node_is_not_sent :
  forall (fuel : nat) (c : Collaborators) (p : Page) (P n : handle)
    (s : serializedNode) (old : option string),
    sn (nd p n) = Some s -> sn_id s <> IGNORED_NODE ->
    isBlocked p n = false ->
    option_string_eqb (Some (cdata (nd p n))) old = false ->
    isIgnored p P = false -> isBlocked p P = false ->
    isAncestorRemoved p P = false ->
    exists r : Emitted,
      processMutations fuel c p emptyBuffer (changedThenRemoved P n old)
      = Some r
      /\ effects r
         = [EmissionCallback
              (mkPayload [] []
                 [mkRemove (parentIdOf p P) (sn_id s) (isShadowRoot p P)] [])].
Proof.
  intros fuel c p P n s old Hs Hid Hbn Hold HiP HbP Hanc.
  assert (Hin : isIgnored p n = false).
  { unfold isIgnored. rewrite Hs. apply Z.eqb_neq. exact Hid. }
  assert (Hgid : getId p (Some n) = sn_id s).
  { rewrite CaptureFacts.getId_nd, Hs. reflexivity. }
  assert (Hnode : exists d, nodes p !! n = Some d /\ sn d = Some s).
  { unfold nd in Hs. destruct (nodes p !! n) as [d |]; [eauto | discriminate]. }
  destruct Hnode as (d & Hd & Hsd).
  unfold processMutations, changedThenRemoved.
  cbn -[getId isBlocked isIgnored isAncestorRemoved isShadowRoot emit
        option_string_eqb].
  rewrite Hin, Hbn, Hold, HiP. cbn -[getId isBlocked isIgnored
    isAncestorRemoved isShadowRoot emit removedNode].
  unfold removedNode. rewrite HbP, Hin, Hanc, Hgid.
  cbn -[getId isShadowRoot emit].
  fold (parentIdOf p P).
  unfold emit, collect.
  cbn -[getId isShadowRoot Mirror.removeNodeFromMap Mirror.has parentIdOf].
  assert (Hgone :
            Mirror.has (Mirror.removeNodeFromMap (dom p) (nodes p) (mirror p) n)
              (getId
                 (pg_set_mirror
                    (Mirror.removeNodeFromMap (dom p) (nodes p) (mirror p) n) p)
                 (Some n)) = false).
  { change (getId (pg_set_mirror _ p) (Some n)) with (getId p (Some n)).
    rewrite Hgid. unfold Mirror.has.
    rewrite (removeNodeFromMap_forgets _ _ _ n d s Hd Hsd). reflexivity. }
  destruct fuel;
    cbn -[getId isShadowRoot Mirror.removeNodeFromMap Mirror.has parentIdOf];
    unfold isEmptyPayload, compose, composeTexts, composeAttributes;
    cbn -[getId isShadowRoot Mirror.removeNodeFromMap Mirror.has parentIdOf];
    rewrite Hgone;
    cbn -[getId isShadowRoot Mirror.removeNodeFromMap Mirror.has parentIdOf];
    eexists; split; reflexivity.
Qed.

Lemma change_of_removed_node_is_not_sent_witness :
  exists r : Emitted,
    processMutations 0 Scenario.plain Scenario.relocatedPage emptyBuffer
      (changedThenRemoved 2%nat 4%nat (Some "x")) = Some r
    /\ effects r = [EmissionCallback (mkPayload [] [] [mkRemove 3 5 false] [])].
Proof.
  apply (change_of_removed_node_is_not_sent 0 Scenario.plain
           Scenario.relocatedPage 2%nat 4%nat
           (mkSN 5 Element "span" [] "" false false None) (Some "x"));
    try reflexivity.
  vm_compute. discriminate.
Defined.

Lemma undone_move_is_not_reported_witness :
  removes (fold_left (processMutation Scenario.plain Scenario.relocatedPage)
             (movedInAndOut 3%nat 4%nat) emptyBuffer) = [].
Proof.
  apply (undone_move_is_not_reported Scenario.plain Scenario.relocatedPage
           emptyBuffer 3%nat 4%nat
           (mkSN 4 Element "div" [] "" false false None));
    try reflexivity; try (vm_compute; discriminate).
  apply classified_emptyBuffer.
Defined.

Lemma attribute_record_overwrites_witness :
  exists item,
    In (mkAttributeCursor 2%nat item)
      (attributes
         (processMutation Scenario.plain Scenario.relocatedPage emptyBuffer
            (Attributes 2%nat "class" (Some "x"))))
    /\ assoc_get String.eqb "class" item = Some AttrNull.
Proof.
  destruct (attribute_record_overwrites Scenario.plain Scenario.relocatedPage
              emptyBuffer 2%nat "class" (Some "x"))
    as (item & Hin & Hget & _); try reflexivity; try discriminate.
  exists item. split; [exact Hin | exact Hget].
Defined.

(** *** Instances *)

Lemma addNode_then_removeNode_witness :
  removeNode 3%nat (addNode Scenario.pendingPage 3%nat [2%nat]) = [2%nat].
Proof.
  apply (addNode_then_removeNode Scenario.pendingPage 3%nat [2%nat]).
  simpl. lia.
Defined.

Lemma addNode_follows_previous_sibling_witness :
  Dom.after 2%nat (addNode Scenario.pendingPage 3%nat [2%nat]) = Some 3%nat.
Proof.
  apply (addNode_follows_previous_sibling Scenario.pendingPage 3%nat 2%nat
           [2%nat]); [reflexivity | simpl; auto].
Defined.

Lemma hidden_records_leave_no_trace_witness :
  processMutations 0 Scenario.plain blockedPage emptyBuffer
    [CharacterData 2%nat None; ChildList 2%nat [3%nat] []]
  = Some (mkEmitted emptyBuffer blockedPage [] [] []).
Proof.
  apply (hidden_records_leave_no_trace 0 Scenario.plain blockedPage emptyBuffer).
  repeat constructor; right; reflexivity.
Defined.

Lemma frozen_records_are_emitted_at_unfreeze_witness :
  unfreeze 1 Scenario.plain Scenario.relocatedPage
    (fold_left (processMutation Scenario.plain Scenario.relocatedPage)
       Scenario.relocation (freeze emptyBuffer))
  = processMutations 1 Scenario.plain Scenario.relocatedPage emptyBuffer
      Scenario.relocation.
Proof.
  apply (frozen_records_are_emitted_at_unfreeze 1 Scenario.plain
           Scenario.relocatedPage emptyBuffer Scenario.relocation);
    reflexivity.
Defined.

Lemma emit_after_emission_is_silent_witness :
  exists r : Emitted,
    processMutations 1 Scenario.plain Scenario.relocatedPage emptyBuffer
      Scenario.relocation = Some r
    /\ emit 0 Scenario.plain (after r) (buffer r)
       = Some (mkEmitted (buffer r) (after r) [] [] []).
Proof.
  destruct (processMutations 1 Scenario.plain Scenario.relocatedPage
              emptyBuffer Scenario.relocation) as [r |] eqn:E;
    [| vm_compute in E; discriminate].
  exists r. split; [reflexivity |].
  apply (emit_after_emission_is_silent 1 0 Scenario.plain
           Scenario.relocatedPage _ r E).
  pose proof E as E'. vm_compute in E'. inversion E'. simpl. discriminate.
Defined.

Lemma emitted_adds_are_well_formed_witness :
  exists (r : Emitted) (pl : payload),
    processMutations 1 Scenario.plain Scenario.relocatedPage emptyBuffer
      Scenario.relocation = Some r
    /\ In (EmissionCallback pl) (effects r)
    /\ forall a, In a (pl_adds pl) -> wellFormedAdd a.
Proof.
  destruct (processMutations 1 Scenario.plain Scenario.relocatedPage
              emptyBuffer Scenario.relocation) as [r |] eqn:E;
    [| vm_compute in E; discriminate].
  assert (Hpl : exists pl, In (EmissionCallback pl) (effects r)).
  { pose proof E as E'. vm_compute in E'. inversion E'. eexists. left.
    reflexivity. }
  destruct Hpl as (pl & Hpl). exists r, pl.
  split; [reflexivity | split; [exact Hpl |]].
  exact (emitted_adds_are_well_formed 1 Scenario.plain Scenario.relocatedPage
           _ r pl E Hpl).
Defined.

Lemma emitted_entries_are_registered_witness :
  exists (r : Emitted) (pl : payload),
    processMutations 1 Scenario.plain Scenario.relocatedPage emptyBuffer
      [CharacterData 4%nat (Some "x")] = Some r
    /\ In (EmissionCallback pl) (effects r)
    /\ forall t, In t (pl_texts pl) ->
         Mirror.has (mirror (after r)) (tx_id t) = true.
Proof.
  destruct (processMutations 1 Scenario.plain Scenario.relocatedPage
              emptyBuffer [CharacterData 4%nat (Some "x")]) as [r |] eqn:E;
    [| vm_compute in E; discriminate].
  assert (Hpl : exists pl, In (EmissionCallback pl) (effects r)).
  { pose proof E as E'. vm_compute in E'. inversion E'. eexists. left.
    reflexivity. }
  destruct Hpl as (pl & Hpl). exists r, pl.
  split; [reflexivity | split; [exact Hpl |]].
  intros t Ht.
  apply (emitted_entries_are_registered 1 Scenario.plain
           Scenario.relocatedPage _ r pl E Hpl). exact Ht.
Defined.

End BufferFacts.

(** ** Further facts about the replayer *)

Module ApplyFacts.
Import Dom Wire Node Replay Statements ApplyStatements.

(** *** Adds without a parent *)

Lemma appendNode_orphan (u : bool) (m : addedNodeMutation) (s : St)
  (doc : handle) :
  contentDocument s = Some doc -> orphan s m ->
  appendNode u m s = (Ret tt, set_queue (queue s ++ [m]) s).
Proof.
  intros Hdoc [Hpar Htype]. unfold appendNode, bind, get.
  rewrite Hdoc, Hpar, Htype. reflexivity.
Qed.

Lemma forEachT_orphans (u : bool) (doc : handle)
  (adds : list addedNodeMutation) :
  forall s : St,
    contentDocument s = Some doc -> Forall (orphan s) adds ->
    forEachT (fun m => handle_with (AddApplied m) (appendNode u m)) adds s
    = (Ret tt, set_queue (queue s ++ adds) s, map AddApplied adds).
Proof.
  induction adds as [| m l IH]; intros s Hdoc Hall.
  - simpl. unfold retT. rewrite app_nil_r. destruct s; reflexivity.
  - inversion Hall as [| ? ? Hm Hl]; subst.
    rewrite ReplayFacts.forEachT_cons. unfold handle_with.
    rewrite (appendNode_orphan u m s doc Hdoc Hm).
    rewrite IH.
    + simpl. rewrite <- app_assoc. reflexivity.
    + exact Hdoc.
    + apply List.Forall_forall. intros x Hx.
      rewrite List.Forall_forall in Hl. exact (Hl x Hx).
Qed.

Lemma Date_now_core (s : St) :
  exists t s', Date_now s = (Ret t, s') /\ core s' = core s
               /\ queue s' = queue s.
Proof.
  unfold Date_now, bind, get, modify, ret. destruct (clock s); eauto.
Qed.

Lemma debug_core (msg : message) (s : St) :
  exists s', debug msg s = (Ret tt, s') /\ core s' = core s
             /\ queue s' = queue s.
Proof.
  unfold debug, bind, get, modify, ret. destruct (showDebug s); simpl; eauto.
Qed.

Lemma warn_core (msg : message) (s : St) :
  exists s', warn msg s = (Ret tt, s') /\ core s' = core s
             /\ queue s' = queue s.
Proof.
  unfold warn, console_warn, bind, get, modify, ret.
  destruct (showWarning s); simpl; eauto.
Qed.

Lemma core_mirror (s s' : St) : core s' = core s -> mirror s' = mirror s.
Proof. unfold core. intros H. inversion H. reflexivity. Qed.

Lemma core_fields (s s' : St) :
  core s' = core s ->
  dom s' = dom s /\ nodes s' = nodes s /\ mirror s' = mirror s
  /\ contentDocument s' = contentDocument s
  /\ legacy_missingNodeRetryMap s' = legacy_missingNodeRetryMap s
  /\ legacy_missingNodeMap s' = legacy_missingNodeMap s.
Proof. unfold core. intros H. inversion H. repeat split. Qed.

(** The roots of the resolve trees are adds of the queue. *)
Lemma rt_insert_before_value (next : Z) (m : addedNodeMutation)
  (t : ResolveTree) :
  rt_value (rt_insert_before next m t) = rt_value t.
Proof. destruct t. reflexivity. Qed.

Lemma rt_push_child_value (parent : Z) (m : addedNodeMutation)
  (t : ResolveTree) :
  rt_value (rt_push_child parent m t) = rt_value t.
Proof. destruct t as [v cs]. simpl. destruct (Z.eqb _ _); reflexivity. Qed.

Lemma rts_insert_before_roots (next : Z) (m : addedNodeMutation)
  (l : list ResolveTree) (t : ResolveTree) :
  In t (rts_insert_before next m l) ->
  rt_value t = m \/ exists t0, In t0 l /\ rt_value t = rt_value t0.
Proof.
  induction l as [| c r IH]; simpl; [contradiction |].
  destruct (Z.eqb (rt_id c) next).
  - intros [<- | [<- | Hin]]; [left; reflexivity | right; eauto | right; eauto].
  - intros [<- | Hin].
    + right. exists c. split; [auto | apply rt_insert_before_value].
    + destruct (IH Hin) as [Hm | (t0 & Ht0 & Hv)]; [auto | right; eauto].
Qed.

Lemma queueToResolveTrees_roots (q : list addedNodeMutation) (t : ResolveTree) :
  In t (queueToResolveTrees q) -> In (rt_value t) q.
Proof.
  unfold queueToResolveTrees.
  assert (H : forall acc : list ResolveTree,
             forall seen : list addedNodeMutation,
               (forall t0, In t0 acc -> In (rt_value t0) seen) ->
               forall t0,
                 In t0
                   (fold_left
                      (fun trees m =>
                         if truthy (add_nextId m)
                            && existsb (rt_mem (default 0 (add_nextId m))) trees
                         then rts_insert_before (default 0 (add_nextId m)) m trees
                         else if existsb (rt_mem (add_parentId m)) trees
                         then map (rt_push_child (add_parentId m) m) trees
                         else trees ++ [RT m []])
                      q acc) ->
                 In (rt_value t0) (seen ++ q)).
  { induction q as [| m q IH]; intros acc seen Hacc t0 Hin; simpl in Hin.
    - rewrite app_nil_r. apply Hacc. exact Hin.
    - change (seen ++ m :: q) with (seen ++ [m] ++ q). rewrite app_assoc.
      eapply IH; [| exact Hin]. clear Hin t0. intros t0 Hin.
      apply in_app_iff.
      destruct (truthy (add_nextId m)
                && existsb (rt_mem (default 0 (add_nextId m))) acc).
      + apply rts_insert_before_roots in Hin.
        destruct Hin as [-> | (t1 & Ht1 & ->)]; [right; left; reflexivity |].
        left. apply Hacc. exact Ht1.
      + destruct (existsb (rt_mem (add_parentId m)) acc).
        * apply in_map_iff in Hin. destruct Hin as (t1 & <- & Ht1).
          rewrite rt_push_child_value. left. apply Hacc. exact Ht1.
        * apply in_app_iff in Hin. destruct Hin as [Hin | [<- | []]].
          -- left. apply Hacc. exact Hin.
          -- right. left. reflexivity. }
  intros Hin. apply (H [] [] (fun _ F => match F with end) t Hin).
Qed.

Lemma resolveTrees_orphans (u : bool) (trees : list ResolveTree) :
  forall s : St,
    (forall t, In t trees -> getNode s (add_parentId (rt_value t)) = None) ->
    exists s',
      forEachT (resolveTree u) trees s = (Ret tt, s', [])
      /\ core s' = core s /\ queue s' = queue s.
Proof.
  induction trees as [| t l IH]; intros s Hall.
  - exists s. repeat split.
  - rewrite ReplayFacts.forEachT_cons. unfold resolveTree at 1.
    rewrite ReplayFacts.bindT_run. unfold liftT at 1, get.
    rewrite (Hall t (or_introl eq_refl)). unfold liftT.
    destruct (debug_core (DropResolveTree (rt_id t)) s) as (s1 & -> & Hc & Hq).
    destruct (IH s1) as (s2 & -> & Hc2 & Hq2).
    + intros t0 Ht0. unfold getNode. rewrite (core_mirror _ _ Hc).
      apply (Hall t0). right. exact Ht0.
    + exists s2. split; [reflexivity | split; congruence].
Qed.

Lemma resolveLoop_empty (rounds : nat) (u : bool) (start : Z) (s : St) :
  queue s = [] -> resolveLoop rounds u start s = (Ret tt, s, []).
Proof.
  intros Hq. destruct rounds; simpl.
  - rewrite Hq. reflexivity.
  - rewrite ReplayFacts.bindT_run. unfold liftT, get. rewrite Hq. reflexivity.
Qed.

Lemma resolveLoop_orphans (rounds : nat) (u : bool) (start : Z) (s : St) :
  Forall (orphan s) (queue s) ->
  exists s',
    resolveLoop (S rounds) u start s = (Ret tt, s', [])
    /\ core s' = core s /\ queue s' = [].
Proof.
  intros Hall. destruct (queue s) as [| m q] eqn:Eq.
  { exists s. rewrite resolveLoop_empty by exact Eq. auto. }
  rewrite <- Eq in *.
  change (resolveLoop (S rounds) u start s)
    with ((let** s0 := liftT get in
           match queue s0 with
           | [] => retT tt
           | _ =>
               liftT (modify (set_queue [])) >>>
               let** t := liftT Date_now in
               if Z.ltb 500 (t - start)
               then liftT (warn ResolveTimeout)
               else
                 forEachT (resolveTree u) (queueToResolveTrees (queue s0)) >>>
                 resolveLoop rounds u start
           end) s).
  rewrite ReplayFacts.bindT_run. unfold liftT at 1, get.
  destruct (queue s) as [| m' q'] eqn:Eq'; [rewrite Eq in Eq'; discriminate |].
  rewrite <- Eq' in *. clear Eq Eq' m q m' q'.
  rewrite ReplayFacts.bindT_run. unfold liftT at 1, modify.
  rewrite ReplayFacts.bindT_run. unfold liftT at 1.
  destruct (Date_now_core (set_queue [] s)) as (t & s1 & -> & Hc1 & Hq1).
  assert (Hc0 : core (set_queue [] s) = core s) by reflexivity.
  assert (Hq0 : queue (set_queue [] s) = []) by reflexivity.
  destruct (Z.ltb 500 (t - start)).
  - unfold liftT.
    destruct (warn_core ResolveTimeout s1) as (s2 & -> & Hc2 & Hq2).
    exists s2. split; [reflexivity | split; congruence].
  - rewrite ReplayFacts.bindT_run.
    destruct (resolveTrees_orphans u (queueToResolveTrees (queue s)) s1)
      as (s2 & -> & Hc2 & Hq2).
    + intros t0 Ht0. apply queueToResolveTrees_roots in Ht0.
      rewrite List.Forall_forall in Hall. destruct (Hall _ Ht0) as [Hpar _].
      unfold getNode in *. rewrite (core_mirror _ _ Hc1). exact Hpar.
    + rewrite resolveLoop_empty by congruence.
      exists s2. split; [reflexivity | split; congruence].
Qed.

(** X16.  A delta whose adds all name a parent that is not in the identity
    map: every add is requeued, the resolve pass finds no parent for any
    tree and drops it, and [applyMutation] returns with the trees, the
    node data, the identity map and the legacy retry map as they were. *)
Theorem orphan_adds_are_dropped :
  forall (rounds : nat) (u : bool) (s : St) (doc : handle)
    (l : list addedNodeMutation),
    contentDocument s = Some doc -> Forall (orphan s) l ->
    exists s' : St,
      applyMutation (S rounds) (onlyAdds l) u s
      = (Ret tt, s', map AddApplied l)
      /\ dom s' = dom s /\ nodes s' = nodes s /\ mirror s' = mirror s
      /\ legacy_missingNodeRetryMap s' = legacy_missingNodeRetryMap s
      /\ queue s' = [].
Proof.
  intros rounds u s doc l Hdoc Hall. unfold applyMutation, onlyAdds.
  cbn [removes adds texts attributes].
  rewrite ReplayFacts.bindT_run. cbn [forEachT retT].
  rewrite ReplayFacts.bindT_run. unfold liftT at 1, modify.
  set (s0 := set_notVirtualStyles []
               (set_queue []
                  (set_legacy_missingNodeMap (legacy_missingNodeRetryMap s) s))).
  assert (Hdoc0 : contentDocument s0 = Some doc) by exact Hdoc.
  assert (Hall0 : Forall (orphan s0) l) by exact Hall.
  rewrite ReplayFacts.bindT_run.
  rewrite (forEachT_orphans u doc l s0 Hdoc0 Hall0).
  set (s1 := set_queue (queue s0 ++ l) s0).
  rewrite ReplayFacts.bindT_run. unfold liftT at 1.
  destruct (Date_now_core s1) as (t & s2 & -> & Hc2 & Hq2).
  rewrite ReplayFacts.bindT_run.
  destruct (resolveLoop_orphans rounds u t s2) as (s3 & -> & Hc3 & Hq3).
  { rewrite Hq2. apply List.Forall_forall. intros m Hm.
    rewrite List.Forall_forall in Hall. destruct (Hall m Hm) as [Hpar Hty].
    split; [| exact Hty]. unfold getNode in *.
    rewrite (core_mirror _ _ Hc2). exact Hpar. }
  assert (Hcore : core s3 = core s1) by congruence.
  destruct (core_fields s1 s3 Hcore) as (Hd & Hn & Hm & Hcd & Hr & Hlm).
  cbn in Hd, Hn, Hm, Hcd, Hr, Hlm.
  rewrite ReplayFacts.bindT_run. unfold liftT at 1, bind, get, when.
  set (s4 := set_legacy_missingNodeRetryMap
               (legacy_missingNodeMap s3 ∪ legacy_missingNodeRetryMap s3) s3).
  assert (Hs4 : legacy_missingNodeRetryMap s4 = legacy_missingNodeRetryMap s).
  { unfold s4. simpl. rewrite Hlm, Hr. apply map_union_idemp. }
  destruct (negb (Nat.eqb (size (legacy_missingNodeMap s3)) 0)).
  - unfold modify. fold s4. rewrite ReplayFacts.bindT_run. cbn [forEachT retT].
    exists s4. split; [simpl; rewrite ?app_nil_r; reflexivity |].
    split; [exact Hd | split; [exact Hn | split; [exact Hm |]]].
    split; [exact Hs4 | exact Hq3].
  - unfold ret. rewrite ReplayFacts.bindT_run. cbn [forEachT retT].
    exists s3. split; [simpl; rewrite ?app_nil_r; reflexivity |].
    split; [exact Hd | split; [exact Hn | split; [exact Hm |]]].
    split; [exact Hr | exact Hq3].
Qed.


Lemma orphan_adds_are_dropped_witness :
  exists s' : St,
    applyMutation 1 (onlyAdds [mkAdd 99 None None Scenario.div10]) false
      Scenario.onlyRoot
    = (Ret tt, s', [AddApplied (mkAdd 99 None None Scenario.div10)])
    /\ dom s' = dom Scenario.onlyRoot.
Proof.
  destruct (orphan_adds_are_dropped 0 false Scenario.onlyRoot 0%nat
              [mkAdd 99 None None Scenario.div10])
    as (s' & H & Hd & _).
  - reflexivity.
  - repeat constructor.
  - exists s'. split; [exact H | exact Hd].
Defined.

(** *** Removes *)

Lemma removeChild_mirror (p x : handle) (s : St) :
  mirror (snd (removeChild p x s)) = mirror s.
Proof.
  unfold removeChild, bind, get, modify, throw.
  destruct (parentNode (dom s) x) as [q |]; [| reflexivity].
  destruct (Nat.eqb q p); [| reflexivity]. simpl. unfold unplug.
  destruct (connected s x); reflexivity.
Qed.

Lemma guarded_removeChild_mirror (p x : handle) (s : St) :
  exists s',
    tryCatch (removeChild p x)
      (fun error =>
         match error with
         | DOMException _ => warn (CouldNotRemoveChild p x)
         | _ => throw error
         end) s = (Ret tt, s')
    /\ mirror s' = mirror s.
Proof.
  unfold tryCatch. pose proof (removeChild_mirror p x s) as Hm.
  destruct (ReplayFacts.removeChild_outcome p x s) as [[s' H] | H];
    rewrite H in *.
  - exists s'. split; [reflexivity | exact Hm].
  - rewrite ReplayFacts.warn_returns. eexists. split; [reflexivity |].
    destruct (showWarning s); reflexivity.
Qed.

Lemma removeNodeFromMap_keeps (f : forest) (nodes : gmap handle ndata)
  (m : gmap Z handle) (n : handle) (k : Z) :
  (forall h d s, In h (Mirror.subtree_handles f n) ->
                 nodes !! h = Some d -> sn d = Some s -> sn_id s <> k) ->
  Mirror.removeNodeFromMap f nodes m n !! k = m !! k.
Proof.
  unfold Mirror.removeNodeFromMap.
  generalize (Mirror.subtree_handles f n). intros l. revert m.
  induction l as [| h l IH]; intros m H; simpl; [reflexivity |].
  rewrite IH by (intros h' d' s' Hin; apply H; right; exact Hin).
  destruct (nodes !! h) as [d |] eqn:Ed; [| reflexivity].
  destruct (sn d) as [sd |] eqn:Es; [| reflexivity].
  rewrite lookup_delete_ne; [reflexivity |].
  apply (H h d sd); [left; reflexivity | exact Ed | exact Es].
Qed.

(** X17.  A remove whose target and parent are in the identity map
    returns, whether the host accepts the detach or rejects it, and it
    takes out of the map the ids that the target and the nodes below it
    carry, before it asks the host to detach the target.  So the id of the
    remove is no longer registered when the target carries that id itself;
    it stays registered for the target when neither the target nor a node
    below it carries it, as when the map holds the id for a virtual parent,
    a fragment without an id. *)
Theorem removed_node_leaves_the_map :
  forall (d : mutationData) (m : removedNodeMutation) (s : St)
    (target parent0 : handle),
    getNode s (rm_id m) = Some target ->
    getNode s (rm_parentId m) = Some parent0 ->
    exists s' : St,
      applyRemove d m s = (Ret tt, s')
      /\ (forall (dT : ndata) (sT : serializedNode),
            nodes s !! target = Some dT -> sn dT = Some sT ->
            sn_id sT = rm_id m ->
            getNode s' (rm_id m) = None)
      /\ ((forall (h : handle) (dT : ndata) (sT : serializedNode),
             In h (Mirror.subtree_handles (dom s) target) ->
             nodes s !! h = Some dT -> sn dT = Some sT ->
             sn_id sT <> rm_id m) ->
          getNode s' (rm_id m) = Some target).
Proof.
  intros d m s target parent0 Ht Hp.
  unfold applyRemove. unfold bind at 1. unfold get at 1. rewrite Ht.
  unfold bind at 1.
  destruct (when _ _ s) as [r0 s0] eqn:E0.
  assert (H0 : r0 = Ret tt /\ mirror s0 = mirror s /\ dom s0 = dom s
               /\ nodes s0 = nodes s).
  { revert E0. unfold when, modify.
    destruct (assoc_has _ _ _); intros E0; inversion E0; auto. }
  destruct H0 as (-> & Hm0 & Hd0 & Hn0). rewrite Hp.
  unfold bind at 1. unfold modify at 1.
  set (s1 := set_mirror
               (Mirror.removeNodeFromMap (dom s0) (nodes s0) (mirror s0) target)
               s0).
  assert (Hgone : forall (dT : ndata) (sT : serializedNode),
            nodes s !! target = Some dT -> sn dT = Some sT ->
            sn_id sT = rm_id m -> mirror s1 !! rm_id m = None).
  { intros dT sT HdT HsT Hid. unfold s1. simpl. rewrite <- Hid.
    apply (BufferFacts.removeNodeFromMap_forgets _ _ _ target dT sT);
      [rewrite Hn0; exact HdT | exact HsT]. }
  assert (Hkept : (forall (h : handle) (dT : ndata) (sT : serializedNode),
                     In h (Mirror.subtree_handles (dom s) target) ->
                     nodes s !! h = Some dT -> sn dT = Some sT ->
                     sn_id sT <> rm_id m) ->
                  mirror s1 !! rm_id m = Some target).
  { intros Hnone. unfold s1. simpl. rewrite removeNodeFromMap_keeps.
    - rewrite Hm0. exact Ht.
    - rewrite Hd0, Hn0. exact Hnone. }
  assert (Hdone : forall s' : St,
            mirror s' = mirror s1 ->
            (forall (dT : ndata) (sT : serializedNode),
               nodes s !! target = Some dT -> sn dT = Some sT ->
               sn_id sT = rm_id m ->
               getNode s' (rm_id m) = None)
            /\ ((forall (h : handle) (dT : ndata) (sT : serializedNode),
                   In h (Mirror.subtree_handles (dom s) target) ->
                   nodes s !! h = Some dT -> sn dT = Some sT ->
                   sn_id sT <> rm_id m) ->
                getNode s' (rm_id m) = Some target)).
  { intros s' Hs'. unfold getNode, Mirror.getNode. rewrite Hs'.
    split; [exact Hgone | exact Hkept]. }
  destruct (if rm_isShadow m && hasShadowRoot s parent0
            then shadowRoot (nd s parent0) else Some parent0) as [parent |];
    [| unfold ret; exists s1; split; [reflexivity | apply Hdone; reflexivity]].
  unfold bind at 1.
  match goal with
  | |- context [match ?X ?S with _ => _ end] =>
      destruct (X S) as [r1 s2] eqn:E1
  end.
  assert (H1 : exists pt, r1 = Ret pt /\ mirror s2 = mirror s1).
  { revert E1.
    destruct (if has__sn_atlas s parent
              then assoc_get Nat.eqb parent (fragmentParentMap s)
              else None) as [rp |].
    - destruct (contains (dom s) rp target).
      + unfold ret; intros E1; inversion E1; eauto.
      + destruct (assoc_get Nat.eqb target (fragmentParentMap s)).
        * unfold bind, modify, ret. intros E1; inversion E1; eauto.
        * unfold ret; intros E1; inversion E1; eauto.
    - destruct (assoc_get Nat.eqb target (fragmentParentMap s)).
      + unfold bind, modify, ret. intros E1; inversion E1; eauto.
      + unfold ret; intros E1; inversion E1; eauto. }
  destruct H1 as (pt & -> & Hm2).
  destruct (guarded_removeChild_mirror (fst pt) (snd pt) s2) as (s' & H & Hm').
  exists s'. split; [exact H |]. apply Hdone. rewrite Hm', Hm2. reflexivity.
Qed.

Lemma removed_node_leaves_the_map_witness :
  exists s' : St,
    applyRemove Scenario.deltaBadRemove (mkRemove 1 3 false) Scenario.smallPage
    = (Ret tt, s')
    /\ getNode s' 3 = None.
Proof.
  destruct (removed_node_leaves_the_map Scenario.deltaBadRemove
              (mkRemove 1 3 false) Scenario.smallPage 2%nat 0%nat
              eq_refl eq_refl) as (s' & Hrun & Hgone & _).
  exists s'. split; [exact Hrun |].
  eapply Hgone; reflexivity.
Defined.

(** *** What a handler leaves alone *)

Lemma preserves_ret {A : Type} (P : St -> Prop) (a : A) : preserves P (ret a).
Proof. intros s H. exact H. Qed.

Lemma preserves_throw {A : Type} (P : St -> Prop) (e : exn) :
  preserves P (throw (A := A) e).
Proof. intros s H. exact H. Qed.

Lemma preserves_get (P : St -> Prop) : preserves P get.
Proof. intros s H. exact H. Qed.

Lemma preserves_modify (P : St -> Prop) (g : St -> St) :
  (forall s, P s -> P (g s)) -> preserves P (modify g).
Proof. intros Hg s H. apply Hg. exact H. Qed.

Lemma preserves_bind {A B : Type} (P : St -> Prop) (m : M A) (k : A -> M B) :
  preserves P m -> (forall a, preserves P (k a)) -> preserves P (bind m k).
Proof.
  intros Hm Hk s H. unfold bind. specialize (Hm s H).
  destruct (m s) as [[a | e |] s']; simpl in *; trivial. apply Hk. exact Hm.
Qed.

(** The state that [get] hands to the rest has the property. *)
Lemma preserves_get_bind {B : Type} (P : St -> Prop) (k : St -> M B) :
  (forall s0, P s0 -> preserves P (k s0)) -> preserves P (bind get k).
Proof. intros Hk s H. unfold bind, get. apply Hk; exact H. Qed.

Lemma preserves_when (P : St -> Prop) (b : bool) (m : M unit) :
  preserves P m -> preserves P (when b m).
Proof. intros Hm. destruct b; [exact Hm | apply preserves_ret]. Qed.

Lemma preserves_forEach {A : Type} (P : St -> Prop) (f : A -> M unit)
  (l : list A) :
  (forall a, preserves P (f a)) -> preserves P (forEach f l).
Proof.
  intros Hf. induction l as [| a l IH]; simpl.
  - apply preserves_ret.
  - apply preserves_bind; [apply Hf | intros _; exact IH].
Qed.

Lemma preserves_tryCatch {A : Type} (P : St -> Prop) (m : M A)
  (h : exn -> M A) :
  preserves P m -> (forall e, preserves P (h e)) -> preserves P (tryCatch m h).
Proof.
  intros Hm Hh s H. unfold tryCatch. specialize (Hm s H).
  destruct (m s) as [[a | e |] s']; simpl in *; trivial. apply Hh. exact Hm.
Qed.

Lemma preservesT_ret {A : Type} (P : St -> Prop) (a : A) :
  preservesT P (retT a).
Proof. intros s H. exact H. Qed.

Lemma preservesT_lift {A : Type} (P : St -> Prop) (m : M A) :
  preserves P m -> preservesT P (liftT m).
Proof.
  intros Hm s H. unfold liftT. specialize (Hm s H).
  destruct (m s) as [r s']. exact Hm.
Qed.

Lemma preservesT_handle (P : St -> Prop) (a : applied) (m : M unit) :
  preserves P m -> preservesT P (handle_with a m).
Proof.
  intros Hm s H. unfold handle_with. specialize (Hm s H).
  destruct (m s) as [r s']. exact Hm.
Qed.

Lemma preservesT_bind {A B : Type} (P : St -> Prop) (m : Traced A)
  (k : A -> Traced B) :
  preservesT P m -> (forall a, preservesT P (k a)) -> preservesT P (bindT m k).
Proof.
  intros Hm Hk s H. unfold bindT. specialize (Hm s H).
  destruct (m s) as [[[a | e |] s'] tr]; simpl in *; trivial.
  specialize (Hk a s' Hm). destruct (k a s') as [[r s''] tr']. exact Hk.
Qed.

Lemma preservesT_forEach {A : Type} (P : St -> Prop) (f : A -> Traced unit)
  (l : list A) :
  (forall a, preservesT P (f a)) -> preservesT P (forEachT f l).
Proof.
  intros Hf. induction l as [| a l IH]; simpl.
  - apply preservesT_ret.
  - apply preservesT_bind; [apply Hf | intros _; exact IH].
Qed.

Lemma preservesT_tryCatch {A : Type} (P : St -> Prop) (m : Traced A)
  (h : exn -> M A) :
  preservesT P m -> (forall e, preserves P (h e)) ->
  preservesT P (tryCatchT m h).
Proof.
  intros Hm Hh s H. unfold tryCatchT. specialize (Hm s H).
  destruct (m s) as [[[a | e |] s'] tr]; simpl in *; trivial.
  specialize (Hh e s' Hm). destruct (h e s') as [r s'']. exact Hh.
Qed.

Lemma serializedNode_induction (Q : serializedNode -> Prop) :
  (forall id type tagName attributes textContent isShadow isShadowHost rootId
          childNodes,
      Forall Q childNodes ->
      Q (mkSerializedNode id type tagName attributes textContent isShadow
           isShadowHost rootId childNodes)) ->
  forall n, Q n.
Proof.
  intros H. fix IH 1.
  intros [id type tagName attributes textContent isShadow isShadowHost rootId
            childNodes].
  apply H.
  induction childNodes as [| k childNodes IHk]; constructor;
    [apply IH | exact IHk].
Qed.

Ltac frame_step :=
  match goal with
  | |- preserves _ (ret _) => apply preserves_ret
  | |- preserves _ (throw _) => apply preserves_throw
  | |- preserves _ get => apply preserves_get
  | |- preserves _ (when _ _) => apply preserves_when
  | |- preserves _ (forEach _ _) => apply preserves_forEach; intros
  | |- preserves _ (tryCatch _ _) => apply preserves_tryCatch; [| intros]
  | |- preserves _ (bind _ _) => apply preserves_bind; [| intros]
  | |- preserves _ (modify _) => apply preserves_modify; intros
  | |- preserves _ (match ?x with _ => _ end) => destruct x
  end.

Ltac frame := repeat frame_step.

Create HintDb frames.

Section Frame.

Variable P : St -> Prop.

Hypothesis P_dom : forall v s, P s -> P (set_dom v s).
Hypothesis P_nodes : forall v s, P s -> P (set_nodes v s).
Hypothesis P_fresh : forall v s, P s -> P (set_fresh v s).
Hypothesis P_mirror :
  forall k h s, P s -> P (set_mirror (<[k := h]> (mirror s)) s).
Hypothesis P_console : forall v s, P s -> P (set_console v s).
Hypothesis P_external : forall v s, P s -> P (set_external v s).
Hypothesis P_elementStateMap : forall v s, P s -> P (set_elementStateMap v s).

Lemma alter_node_frame (f : ndata -> ndata) (h : handle) :
  preserves P (alter_node f h).
Proof. unfold alter_node. frame. auto. Qed.

Lemma unplug_frame (x : handle) (s : St) : P s -> P (unplug x s).
Proof. intros H. unfold unplug. destruct (connected s x); auto. Qed.

Lemma place_frame (p : handle) (ref : option handle) (x : handle) :
  preserves P (place p ref x).
Proof. unfold place. frame. apply P_dom. apply unplug_frame. assumption. Qed.

Lemma insertBefore_frame (p x : handle) (ref : option handle) :
  preserves P (insertBefore p x ref).
Proof. unfold insertBefore. frame; apply place_frame. Qed.

Lemma appendChild_frame (p x : handle) : preserves P (appendChild p x).
Proof. apply insertBefore_frame. Qed.

Lemma removeChild_frame (p x : handle) : preserves P (removeChild p x).
Proof.
  unfold removeChild. frame. apply P_dom. apply unplug_frame. assumption.
Qed.

Lemma createNode_frame (d : ndata) : preserves P (createNode d).
Proof. unfold createNode. frame. auto. Qed.

Lemma set_scroll_frame (h : handle) (p : Z * Z) : preserves P (set_scroll h p).
Proof. unfold set_scroll. frame. apply alter_node_frame. Qed.

Lemma console_warn_frame (m : message) : preserves P (console_warn m).
Proof. unfold console_warn. frame. auto. Qed.

Lemma warn_frame (m : message) : preserves P (warn m).
Proof. unfold warn. frame. apply console_warn_frame. Qed.

Lemma debug_frame (m : message) : preserves P (debug m).
Proof. unfold debug. frame. auto. Qed.

Lemma call_frame (c : extcall) : preserves P (call c).
Proof. unfold call. frame. auto. Qed.

Lemma debugNodeNotFound_frame (id : Z) : preserves P (debugNodeNotFound id).
Proof. unfold debugNodeNotFound. frame; apply debug_frame. Qed.

Lemma warnNodeNotFound_frame (d : mutationData) (id : Z) :
  preserves P (warnNodeNotFound d id).
Proof. unfold warnNodeNotFound. frame; apply warn_frame. Qed.

Lemma restoreState_tree_frame (t : tree) : preserves P (restoreState_tree t).
Proof.
  induction t as [h ks IH] using CaptureFacts.tree_induction. simpl.
  apply preserves_bind; [apply preserves_get | intros s0].
  destruct (isElement s0 h); [| apply preserves_ret].
  apply preserves_bind.
  - destruct (elementStateMap s0 !! h); [| apply preserves_ret].
    apply preserves_bind; [apply set_scroll_frame | intros _].
    apply preserves_modify. auto.
  - intros _. induction ks as [| k ks IHks]; simpl; [apply preserves_ret |].
    inversion IH; subst.
    apply preserves_bind; [assumption | intros _; apply IHks; assumption].
Qed.

Lemma restoreState_frame (parent : handle) : preserves P (restoreState parent).
Proof. unfold restoreState. frame. apply restoreState_tree_frame. Qed.

Lemma restoreRealParent_frame (frag parent : handle) :
  preserves P (restoreRealParent frag parent).
Proof.
  unfold restoreRealParent. frame; auto.
  - apply alter_node_frame.
  - apply appendChild_frame.
  - apply restoreState_frame.
Qed.

Lemma restoreNodeSheet_frame (node : handle) :
  preserves P (restoreNodeSheet node).
Proof.
  unfold restoreNodeSheet, applyVirtualStyleRulesToNode. frame.
  apply alter_node_frame.
Qed.

Lemma applyDialog_frame (d : attributeMutation) : preserves P (applyDialog d).
Proof.
  unfold applyDialog. frame;
    first [apply debugNodeNotFound_frame | apply call_frame].
Qed.

Lemma applyCanvasDimensionStyles_frame (d : attributeMutation) :
  preserves P (applyCanvasDimensionStyles d).
Proof. unfold applyCanvasDimensionStyles. frame. apply call_frame. Qed.


Hypothesis P_queue : forall v s, P s -> P (set_queue v s).
Hypothesis P_legacy : forall v s, P s -> P (set_legacy_missingNodeMap v s).
Hypothesis P_retry : forall v s, P s -> P (set_legacy_missingNodeRetryMap v s).
Hypothesis P_newDocumentQueue : forall v s, P s -> P (set_newDocumentQueue v s).
Hypothesis P_notVirtualStyles : forall v s, P s -> P (set_notVirtualStyles v s).
Hypothesis P_clock : forall v s, P s -> P (set_clock v s).
Hypothesis P_now : forall v s, P s -> P (set_now v s).
Hypothesis P_virtualStyleRulesMap :
  forall v s, P s -> P (set_virtualStyleRulesMap v s).
Hypothesis P_removeIdSet : forall v s, P s -> P (set_removeIdSet v s).
Hypothesis P_unvirtualize :
  forall x s,
    P s ->
    P (set_fragmentParentMap (assoc_del Nat.eqb x (fragmentParentMap s)) s).

Hypothesis P_fragmentParentMap :
  forall v s, P s -> P (set_fragmentParentMap v s).
Hypothesis P_dialogs : forall v s, P s -> P (set_dialogs v s).
Hypothesis P_canvasAttributes : forall v s, P s -> P (set_canvasAttributes v s).

#[local] Hint Resolve alter_node_frame place_frame insertBefore_frame
  appendChild_frame removeChild_frame createNode_frame set_scroll_frame
  console_warn_frame warn_frame debug_frame call_frame debugNodeNotFound_frame
  warnNodeNotFound_frame restoreState_frame restoreRealParent_frame
  restoreNodeSheet_frame : frames.

Ltac framed := frame; eauto with frames.

Lemma Date_now_frame : preserves P Date_now.
Proof. unfold Date_now. framed. Qed.

Lemma register_frame (n : serializedNode) (h : handle) :
  preserves P (register n h).
Proof. unfold register. framed. Qed.

Lemma buildNodeWithSN_frame (n : serializedNode) (targetDoc : option handle) :
  preserves P (buildNodeWithSN n targetDoc).
Proof.
  unfold buildNodeWithSN. pose proof register_frame. framed.
Qed.

Lemma iframe_contentDocument_frame (iframeEl : handle) :
  preserves P (iframe_contentDocument iframeEl).
Proof. unfold iframe_contentDocument. framed. Qed.

Lemma buildNodeWithSN_children_frame {C : Type}
  (afterAppend : handle -> C -> M C) :
  (forall h acc, preserves P (afterAppend h acc)) ->
  forall (n : serializedNode) (targetDoc : option handle) (acc : C),
    preserves P (buildNodeWithSN_children afterAppend n targetDoc acc).
Proof.
  intros Hafter n.
  induction n as [id type tagName attributes textContent isShadow
                    isShadowHost rootId childNodes IH]
    using serializedNode_induction.
  intros targetDoc acc. simpl.
  apply preserves_bind; [apply buildNodeWithSN_frame | intros node].
  destruct (isNodeType type Document || isNodeType type Element);
    [| apply preserves_ret].
  apply preserves_bind; [| intros; apply preserves_ret].
  revert acc. induction childNodes as [| childN rest IHrest]; intros acc.
  - apply preserves_ret.
  - inversion IH; subst.
    apply preserves_bind; [auto | intros built].
    apply preserves_bind; [apply preserves_get | intros s0].
    apply preserves_bind; [destruct (_ && _); apply appendChild_frame |].
    intros _. apply preserves_bind; [apply Hafter | intros acc1].
    apply IHrest. assumption.
Qed.

Lemma collectAfterAppend_frame (builtNode : handle)
  (acc : list AppendedIframe * list handle) :
  preserves P (collectAfterAppend builtNode acc).
Proof.
  unfold collectAfterAppend, collectIframeAndAttachDocument. framed.
Qed.

Lemma attachDocument_frame (depth : nat) :
  forall (mutation : addedNodeMutation) (iframeEl : handle),
    preserves P (attachDocument depth mutation iframeEl).
Proof.
  induction depth as [| depth IH]; intros mutation iframeEl.
  - intros s H. exact H.
  - simpl.
    pose proof iframe_contentDocument_frame.
    pose proof (buildNodeWithSN_children_frame collectAfterAppend
                  collectAfterAppend_frame).
    framed.
Qed.

Lemma attachDocumentToIframe_frame (mutation : addedNodeMutation)
  (iframeEl : handle) :
  preserves P (attachDocumentToIframe mutation iframeEl).
Proof.
  unfold attachDocumentToIframe. frame. apply attachDocument_frame.
Qed.

Lemma legacy_resolveMissingNode_frame (depth : nat) :
  forall (parent target : handle) (targetMutation : addedNodeMutation),
    preserves P (legacy_resolveMissingNode depth parent target targetMutation).
Proof.
  induction depth as [| depth IH]; intros parent target targetMutation.
  - intros s H. exact H.
  - simpl. framed.
Qed.

Lemma insertTarget_frame (mutation : addedNodeMutation)
  (targetDoc : option handle) (parent : handle)
  (previous next : option handle) (target : handle) :
  preserves P (insertTarget mutation targetDoc parent previous next target).
Proof.
  unfold insertTarget.
  pose proof attachDocumentToIframe_frame.
  pose proof iframe_contentDocument_frame.
  pose proof legacy_resolveMissingNode_frame.
  framed.
Qed.

Lemma set_textContent_frame (h : handle) (v : string) :
  preserves P (set_textContent h v).
Proof. unfold set_textContent. framed. Qed.

Lemma setAttribute_frame (h : handle) (name value : string) :
  preserves P (setAttribute h name value).
Proof. unfold setAttribute. framed. Qed.

Lemma removeAttribute_frame (h : handle) (name : string) :
  preserves P (removeAttribute h name).
Proof. unfold removeAttribute. framed. Qed.

Lemma applyStyleValue_frame (target : handle) (p : string * styleValue) :
  preserves P (applyStyleValue target p).
Proof.
  unfold applyStyleValue, style_setProperty, style_removeProperty. framed.
Qed.

(** Played live, an add virtualizes nothing. *)
Lemma appendNode_frame (mutation : addedNodeMutation) :
  preserves P (appendNode false mutation).
Proof.
  unfold appendNode, push_queue. cbv iota.
  pose proof attachDocumentToIframe_frame.
  pose proof buildNodeWithSN_frame.
  pose proof insertTarget_frame.
  framed.
Qed.

(** A remove takes ids out of the identity map, where the other handlers
    only put ids in. *)
Hypothesis P_forget : forall v s, P s -> P (set_mirror v s).

Lemma applyRemove_frame (d : mutationData) (m : removedNodeMutation) :
  preserves P (applyRemove d m).
Proof. unfold applyRemove. framed. Qed.

Lemma applyText_frame (d : mutationData) (m : textMutation) :
  preserves P (applyText d m).
Proof. unfold applyText. pose proof set_textContent_frame. framed. Qed.

Lemma applyAttributeValue_frame (m : attributeMutation) (target : handle)
  (a : string * attributeValue) :
  preserves P (applyAttributeValue false m target a).
Proof.
  unfold applyAttributeValue. cbv iota.
  pose proof setAttribute_frame. pose proof removeAttribute_frame.
  pose proof applyStyleValue_frame.
  framed.
Qed.

Lemma applyAttribute_frame (d : mutationData) (m : attributeMutation) :
  preserves P (applyAttribute false d m).
Proof. unfold applyAttribute. pose proof applyAttributeValue_frame. framed. Qed.

Lemma applyAttribute_any_frame (u : bool) (d : mutationData)
  (m : attributeMutation) :
  preserves P (applyAttribute u d m).
Proof.
  unfold applyAttribute, applyAttributeValue.
  pose proof setAttribute_frame. pose proof removeAttribute_frame.
  pose proof applyStyleValue_frame.
  framed.
Qed.

(** The same for a delta that is applied through virtual parents, for a
    property that does not depend on the three caches. *)
Lemma storeState_tree_frame (t : tree) : preserves P (storeState_tree t).
Proof.
  induction t as [h ks IH] using CaptureFacts.tree_induction. simpl.
  apply preserves_bind; [apply preserves_get | intros s0].
  destruct (isElement s0 h); [| apply preserves_ret].
  apply preserves_bind; [framed |]. intros _.
  apply preserves_bind; [unfold storeCSSRules; framed |]. intros _.
  induction ks as [| k ks IHks]; simpl; [apply preserves_ret |].
  inversion IH; subst.
  apply preserves_bind; [assumption | intros _; apply IHks; assumption].
Qed.

Lemma storeState_frame (parent : handle) : preserves P (storeState parent).
Proof. unfold storeState. frame. apply storeState_tree_frame. Qed.

Lemma virtualize_frame (mutation : addedNodeMutation)
  (contentDoc parent : handle) :
  preserves P (virtualize mutation contentDoc parent).
Proof.
  unfold virtualize, createDocumentFragment. pose proof storeState_frame.
  framed.
Qed.

Lemma appendNode_any_frame (u : bool) (mutation : addedNodeMutation) :
  preserves P (appendNode u mutation).
Proof.
  destruct u; [| apply appendNode_frame].
  unfold appendNode, push_queue. cbv iota.
  pose proof attachDocumentToIframe_frame.
  pose proof buildNodeWithSN_frame.
  pose proof insertTarget_frame.
  pose proof virtualize_frame.
  framed.
Qed.

Lemma resolveTree_any_frame (u : bool) (tree : ResolveTree) :
  preservesT P (resolveTree u tree).
Proof.
  unfold resolveTree. apply preservesT_bind; [apply preservesT_lift; framed |].
  intros s0. destruct (getNode s0 (add_parentId (rt_value tree))).
  - apply preservesT_forEach. intros m. apply preservesT_handle.
    apply appendNode_any_frame.
  - apply preservesT_lift. framed.
Qed.

Lemma resolveTree_frame (tree : ResolveTree) :
  preservesT P (resolveTree false tree).
Proof.
  unfold resolveTree. apply preservesT_bind; [apply preservesT_lift; framed |].
  intros s0. destruct (getNode s0 (add_parentId (rt_value tree))).
  - apply preservesT_forEach. intros m. apply preservesT_handle.
    apply appendNode_frame.
  - apply preservesT_lift. framed.
Qed.

Lemma resolveLoop_frame (rounds : nat) (startTime : Z) :
  preservesT P (resolveLoop rounds false startTime).
Proof.
  induction rounds as [| rounds IH].
  - intros s H. simpl. destruct (queue s); exact H.
  - simpl. apply preservesT_bind; [apply preservesT_lift; framed |].
    intros s0. destruct (queue s0); [apply preservesT_ret |].
    apply preservesT_bind; [apply preservesT_lift; framed |]. intros _.
    apply preservesT_bind;
      [apply preservesT_lift; apply Date_now_frame |].
    intros t. destruct (Z.ltb 500 (t - startTime)).
    + apply preservesT_lift. framed.
    + apply preservesT_bind; [| intros _; exact IH].
      apply preservesT_forEach. intros tree. apply resolveTree_frame.
Qed.

Lemma applyMutation_frame (rounds : nat) (d : mutationData) :
  preservesT P (applyMutation rounds d false).
Proof.
  unfold applyMutation.
  apply preservesT_bind.
  { apply preservesT_forEach. intros m. apply preservesT_handle.
    apply applyRemove_frame. }
  intros _. apply preservesT_bind; [apply preservesT_lift; framed |].
  intros _. apply preservesT_bind.
  { apply preservesT_forEach. intros m. apply preservesT_handle.
    apply appendNode_frame. }
  intros _. apply preservesT_bind;
    [apply preservesT_lift; apply Date_now_frame |].
  intros t. apply preservesT_bind; [apply resolveLoop_frame |].
  intros _. apply preservesT_bind; [apply preservesT_lift; framed |].
  intros _. apply preservesT_bind.
  { apply preservesT_forEach. intros m. apply preservesT_handle.
    apply applyText_frame. }
  intros _. apply preservesT_forEach. intros m. apply preservesT_handle.
  apply applyAttribute_frame.
Qed.

Lemma applyIncremental_frame (rounds : nat) (d : mutationData) :
  preservesT P (applyIncremental rounds d false).
Proof.
  unfold applyIncremental, when.
  apply preservesT_bind; [apply preservesT_lift; apply preserves_ret |].
  intros u0. apply preservesT_tryCatch; [apply applyMutation_frame |].
  intros e. apply warn_frame.
Qed.

End Frame.

Lemma bind_returns {A B : Type} (m : M A) (k : A -> M B) (s s1 : St) (b : B) :
  bind m k s = (Ret b, s1) ->
  exists a s', m s = (Ret a, s') /\ k a s' = (Ret b, s1).
Proof.
  unfold bind. destruct (m s) as [[a | e |] s']; intros H;
    [eauto | discriminate | discriminate].
Qed.

Ltac same_fields :=
  let Hsame := fresh in
  first [ intros ? ? Hsame; exact Hsame | intros ? ? ? Hsame; exact Hsame ].

(** X18.  When the Flush handler returns, nothing is left to restore: no
    virtual parent, no stored scroll offset, no stored style rule, and the
    caches of the tree index are empty; a Flush that follows at once
    changes nothing. *)
Theorem flush_empties_the_caches :
  forall s s1 : St,
    Flush s = (Ret tt, s1) ->
    flushed s1 /\ Flush s1 = (Ret tt, s1).
Proof.
  intros s s1 H.
  assert (Hflushed : flushed s1).
  { unfold Flush in H.
    apply bind_returns in H. destruct H as (s0 & s' & Hget & H).
    unfold get in Hget. inversion Hget; subst s0 s'. clear Hget.
    apply bind_returns in H. destruct H as ([] & sa & Ha & H).
    unfold modify in Ha. inversion Ha as [Hsa]. clear Ha.
    apply bind_returns in H. destruct H as ([] & sb & Hb & H).
    apply bind_returns in H. destruct H as ([] & sb2 & Hb2 & H).
    apply bind_returns in H. destruct H as ([] & sc & Hc & H).
    apply bind_returns in H. destruct H as ([] & sd & Hd & He).
    pose (Q := fun x : St => dialogs x = [] /\ canvasAttributes x = []).
    assert (Qa : Q sa) by (rewrite <- Hsa; split; reflexivity).
    assert (Qb : Q sb).
    { change sb with (snd (Ret tt, sb)). rewrite <- Hb.
      apply (preserves_forEach Q); [| exact Qa]. intros fp.
      apply (restoreRealParent_frame Q); same_fields. }
    assert (Qb2 : Q sb2).
    { change sb2 with (snd (Ret tt, sb2)). rewrite <- Hb2.
      apply (preserves_bind Q); [apply preserves_get | | exact Qb].
      intros x. apply (preserves_forEach Q). intros n.
      apply (restoreNodeSheet_frame Q); same_fields. }
    assert (Fc : flushed sc).
    { unfold modify in Hc. inversion Hc. destruct Qb2 as [Hq1 Hq2].
      unfold flushed. simpl. auto. }
    assert (Fd : flushed sd).
    { change sd with (snd (Ret tt, sd)). rewrite <- Hd.
      apply (preserves_forEach flushed); [| exact Fc]. intros d.
      apply (applyDialog_frame flushed); same_fields. }
    change s1 with (snd (Ret tt, s1)). rewrite <- He.
    apply (preserves_forEach flushed); [| exact Fd]. intros d.
    apply (applyCanvasDimensionStyles_frame flushed); same_fields. }
  split; [exact Hflushed |].
  clear H. destruct s1. unfold flushed in Hflushed. simpl in Hflushed.
  destruct Hflushed as (-> & -> & -> & -> & ->). reflexivity.
Qed.

(** X19.  Played live ([applyMutation(d, false)], and the same through
    [applyIncremental]), a delta virtualizes no parent and leaves nothing
    in the caches of the tree index: if nothing waited for the Flush
    before, nothing waits for it afterwards, whether the delta is applied
    to the end or stops on an exception. *)
Theorem live_delta_defers_nothing :
  forall (rounds : nat) (d : mutationData) (s : St)
    (dialogMap canvasMap : list attributeMutation),
    nothingDeferred dialogMap canvasMap s ->
    nothingDeferred dialogMap canvasMap
      (snd (fst (applyMutation rounds d false s)))
    /\ nothingDeferred dialogMap canvasMap
         (snd (fst (applyIncremental rounds d false s))).
Proof.
  intros rounds d s dialogMap canvasMap H. split.
  - apply (applyMutation_frame (nothingDeferred dialogMap canvasMap));
      try same_fields; [| exact H].
    intros x s0 (Hf & Hd & Hc). unfold nothingDeferred. simpl.
    rewrite Hf. auto.
  - apply (applyIncremental_frame (nothingDeferred dialogMap canvasMap));
      try same_fields; [| exact H].
    intros x s0 (Hf & Hd & Hc). unfold nothingDeferred. simpl.
    rewrite Hf. auto.
Qed.
(** *** Handlers that end *)

Lemma ends_ret {A : Type} (a : A) : ends (ret a).
Proof. intros s. discriminate. Qed.

Lemma ends_throw {A : Type} (e : exn) : ends (throw (A := A) e).
Proof. intros s. discriminate. Qed.

Lemma ends_get : ends get.
Proof. intros s. discriminate. Qed.

Lemma ends_modify (g : St -> St) : ends (modify g).
Proof. intros s. discriminate. Qed.

Lemma ends_bind {A B : Type} (m : M A) (k : A -> M B) :
  ends m -> (forall a, ends (k a)) -> ends (bind m k).
Proof.
  intros Hm Hk s. unfold bind. specialize (Hm s).
  destruct (m s) as [[a | e |] s']; simpl in *;
    [apply Hk | discriminate | exfalso; apply Hm; reflexivity].
Qed.

Lemma ends_when (b : bool) (m : M unit) : ends m -> ends (when b m).
Proof. intros Hm. destruct b; [exact Hm | apply ends_ret]. Qed.

Lemma ends_forEach {A : Type} (f : A -> M unit) (l : list A) :
  (forall a, ends (f a)) -> ends (forEach f l).
Proof.
  intros Hf. induction l as [| a l IH]; simpl.
  - apply ends_ret.
  - apply ends_bind; [apply Hf | intros _; exact IH].
Qed.

Lemma ends_tryCatch {A : Type} (m : M A) (h : exn -> M A) :
  ends m -> (forall e, ends (h e)) -> ends (tryCatch m h).
Proof.
  intros Hm Hh s. unfold tryCatch. specialize (Hm s).
  destruct (m s) as [[a | e |] s']; simpl in *;
    [discriminate | apply Hh | exact Hm].
Qed.

Ltac ends_step :=
  match goal with
  | |- ends (ret _) => apply ends_ret
  | |- ends (throw _) => apply ends_throw
  | |- ends get => apply ends_get
  | |- ends (modify _) => apply ends_modify
  | |- ends (when _ _) => apply ends_when
  | |- ends (forEach _ _) => apply ends_forEach; intros
  | |- ends (tryCatch _ _) => apply ends_tryCatch; [| intros]
  | |- ends (bind _ _) => apply ends_bind; [| intros]
  | |- ends (match ?x with _ => _ end) => destruct x
  end.

Create HintDb ending.

Ltac ending := repeat ends_step; eauto with ending.

Lemma alter_node_ends (f : ndata -> ndata) (h : handle) : ends (alter_node f h).
Proof. unfold alter_node. ending. Qed.

Lemma place_ends (p : handle) (ref : option handle) (x : handle) :
  ends (place p ref x).
Proof. unfold place. ending. Qed.

#[local] Hint Resolve alter_node_ends place_ends : ending.

Lemma insertBefore_ends (p x : handle) (ref : option handle) :
  ends (insertBefore p x ref).
Proof. unfold insertBefore. ending. Qed.

Lemma appendChild_ends (p x : handle) : ends (appendChild p x).
Proof. apply insertBefore_ends. Qed.

Lemma removeChild_ends (p x : handle) : ends (removeChild p x).
Proof. unfold removeChild. ending. Qed.

Lemma createNode_ends (d : ndata) : ends (createNode d).
Proof. unfold createNode. ending. Qed.

#[local] Hint Resolve insertBefore_ends appendChild_ends removeChild_ends
  createNode_ends : ending.

Lemma set_scroll_ends (h : handle) (p : Z * Z) : ends (set_scroll h p).
Proof. unfold set_scroll. ending. Qed.

Lemma warn_ends (m : message) : ends (warn m).
Proof. unfold warn, console_warn. ending. Qed.

Lemma debug_ends (m : message) : ends (debug m).
Proof. unfold debug. ending. Qed.

Lemma call_ends (c : extcall) : ends (call c).
Proof. unfold call. ending. Qed.

Lemma Date_now_ends : ends Date_now.
Proof. unfold Date_now. ending. Qed.

#[local] Hint Resolve set_scroll_ends warn_ends debug_ends call_ends
  Date_now_ends : ending.

Lemma warnNodeNotFound_ends (d : mutationData) (id : Z) :
  ends (warnNodeNotFound d id).
Proof. unfold warnNodeNotFound. ending. Qed.

Lemma storeState_tree_ends (t : tree) : ends (storeState_tree t).
Proof.
  induction t as [h ks IH] using CaptureFacts.tree_induction. simpl.
  apply ends_bind; [apply ends_get | intros s0].
  destruct (isElement s0 h); [| apply ends_ret].
  apply ends_bind; [ending |]. intros _.
  apply ends_bind; [unfold storeCSSRules; ending |]. intros _.
  induction ks as [| k ks IHks]; simpl; [apply ends_ret |].
  inversion IH; subst.
  apply ends_bind; [assumption | intros _; apply IHks; assumption].
Qed.

Lemma storeState_ends (parent : handle) : ends (storeState parent).
Proof. unfold storeState. pose proof storeState_tree_ends. ending. Qed.

Lemma restoreState_tree_ends (t : tree) : ends (restoreState_tree t).
Proof.
  induction t as [h ks IH] using CaptureFacts.tree_induction. simpl.
  apply ends_bind; [apply ends_get | intros s0].
  destruct (isElement s0 h); [| apply ends_ret].
  apply ends_bind; [ending |]. intros _.
  induction ks as [| k ks IHks]; simpl; [apply ends_ret |].
  inversion IH; subst.
  apply ends_bind; [assumption | intros _; apply IHks; assumption].
Qed.

Lemma restoreState_ends (parent : handle) : ends (restoreState parent).
Proof. unfold restoreState. pose proof restoreState_tree_ends. ending. Qed.

Lemma restoreRealParent_ends (frag parent : handle) :
  ends (restoreRealParent frag parent).
Proof. unfold restoreRealParent. pose proof restoreState_ends. ending. Qed.

#[local] Hint Resolve warnNodeNotFound_ends storeState_ends
  restoreRealParent_ends : ending.

Lemma buildNodeWithSN_ends (n : serializedNode) (targetDoc : option handle) :
  ends (buildNodeWithSN n targetDoc).
Proof. unfold buildNodeWithSN, register. ending. Qed.

Lemma iframe_contentDocument_ends (iframeEl : handle) :
  ends (iframe_contentDocument iframeEl).
Proof. unfold iframe_contentDocument. ending. Qed.

Lemma virtualize_ends (mutation : addedNodeMutation)
  (contentDoc parent : handle) :
  ends (virtualize mutation contentDoc parent).
Proof. unfold virtualize, createDocumentFragment. ending. Qed.

Lemma set_textContent_ends (h : handle) (v : string) :
  ends (set_textContent h v).
Proof. unfold set_textContent. ending. Qed.

#[local] Hint Resolve buildNodeWithSN_ends iframe_contentDocument_ends
  virtualize_ends set_textContent_ends : ending.

Lemma applyRemove_ends (d : mutationData) (m : removedNodeMutation) :
  ends (applyRemove d m).
Proof. unfold applyRemove. ending. Qed.

Lemma applyText_ends (d : mutationData) (m : textMutation) :
  ends (applyText d m).
Proof. unfold applyText. ending. Qed.

Lemma applyAttribute_ends (u : bool) (d : mutationData)
  (m : attributeMutation) :
  ends (applyAttribute u d m).
Proof.
  unfold applyAttribute, applyAttributeValue, applyStyleValue, setAttribute,
    removeAttribute, style_setProperty, style_removeProperty, console_warn.
  ending.
Qed.


(** *** The legacy retry *)

Lemma keyed_delete (k : Z) (m : gmap Z (handle * addedNodeMutation)) :
  keyed m -> keyed (delete k m).
Proof.
  intros H j e Hj. apply lookup_delete_Some in Hj. apply H. apply Hj.
Qed.

Lemma keyed_insert (h : handle) (a : addedNodeMutation)
  (m : gmap Z (handle * addedNodeMutation)) :
  keyed m -> keyed (<[sn_id (add_node a) := (h, a)]> m).
Proof.
  intros H j e Hj. apply lookup_insert_Some in Hj.
  destruct Hj as [[<- <-] | [_ Hj]]; [reflexivity | apply H; exact Hj].
Qed.

Lemma size_delete_le (k : Z) (m : gmap Z (handle * addedNodeMutation)) :
  (size (delete k m) <= size m)%nat.
Proof. rewrite map_size_delete. destruct (m !! k); simpl; lia. Qed.

Lemma size_delete_found (k : Z) (e : handle * addedNodeMutation)
  (m : gmap Z (handle * addedNodeMutation)) :
  m !! k = Some e -> S (size (delete k m)) = size m.
Proof.
  intros H. rewrite map_size_delete, H.
  destruct (size m) eqn:E; [| reflexivity].
  apply map_size_empty_iff in E. subst m. rewrite lookup_empty in H.
  discriminate.
Qed.

Lemma legacyWithin_le (n m : nat) (s : St) :
  (n <= m)%nat -> legacyWithin n s -> legacyWithin m s.
Proof. intros Hle [Hk Hs]. split; [exact Hk | lia]. Qed.

(** One branch of the retry: the insertion, the two deletions and the
    nested call. *)
Lemma resolve_entry_safe (depth' m : nat) (parent node : handle)
  (mutation : addedNodeMutation) (ref : M (option handle)) (s : St) :
  (forall x, exists r, ref x = (Ret r, x)) ->
  (forall p t tm, safeOnReturn (legacyWithin m)
                    (legacy_resolveMissingNode depth' p t tm)) ->
  keyed (legacy_missingNodeMap s) ->
  (size (delete (sn_id (add_node mutation)) (legacy_missingNodeMap s)) <= m)%nat ->
  let X :=
    (let* r := ref in
     insertBefore parent node r >>
     modify (fun s =>
       set_legacy_missingNodeRetryMap
         (delete (sn_id (add_node mutation)) (legacy_missingNodeRetryMap s))
         (set_legacy_missingNodeMap
            (delete (sn_id (add_node mutation)) (legacy_missingNodeMap s)) s)) >>
     when (truthy (add_previousId mutation) || truthy (add_nextId mutation))
       (legacy_resolveMissingNode depth' parent node mutation)) in
  fst (X s) <> OutOfFuel
  /\ forall a, fst (X s) = Ret a -> legacyWithin m (snd (X s)).
Proof.
  intros Href IH Hk Hs X. remember (X s) as R eqn:HR. subst X.
  destruct (Href s) as [r Hr]. unfold bind at 1 in HR. rewrite Hr in HR.
  pose proof (insertBefore_ends parent node r s) as Hends.
  assert (Hsame : legacy_missingNodeMap (snd (insertBefore parent node r s))
                  = legacy_missingNodeMap s).
  { apply (insertBefore_frame
             (fun x => legacy_missingNodeMap x = legacy_missingNodeMap s));
      try same_fields. reflexivity. }
  unfold bind at 1 in HR.
  destruct (insertBefore parent node r s) as [[[] | e |] s1];
    simpl in Hends, Hsame, HR.
  - unfold bind, modify in HR.
    set (s2 := set_legacy_missingNodeRetryMap _ _) in HR.
    assert (H2 : legacyWithin m s2).
    { subst s2. split; simpl; rewrite Hsame.
      - apply keyed_delete. exact Hk.
      - exact Hs. }
    destruct (truthy (add_previousId mutation) || truthy (add_nextId mutation));
      simpl in HR; subst R.
    + apply IH. exact H2.
    + split; [discriminate | intros _ _; exact H2].
  - subst R. split; [discriminate | intros a Ha; discriminate].
  - contradiction.
Qed.

Lemma legacy_resolveMissingNode_safe (depth : nat) :
  forall (n : nat) (parent target : handle) (targetMutation : addedNodeMutation),
    (n < depth)%nat ->
    safeOnReturn (legacyWithin n)
      (legacy_resolveMissingNode depth parent target targetMutation).
Proof.
  induction depth as [| depth' IH]; intros n parent target tm Hn; [lia |].
  intros s [Hk Hs].
  remember (legacy_resolveMissingNode (S depth') parent target tm s) as R eqn:HR.
  cbn [legacy_resolveMissingNode] in HR. unfold bind at 1, get at 1 in HR.
  set (lookup := fun i : option Z =>
         match i with
         | Some z => if Z.eqb z 0 then None else legacy_missingNodeMap s !! z
         | None => None
         end).
  assert (Hlookup : forall i e,
            lookup i = Some e ->
            legacy_missingNodeMap s !! sn_id (add_node (snd e)) = Some e).
  { intros [z |] e H; simpl in H; [| discriminate].
    destruct (Z.eqb z 0); [discriminate |].
    rewrite (Hk z e H). exact H. }
  assert (Hpos : forall i e, lookup i = Some e -> (1 <= n)%nat).
  { intros i e H. apply Hlookup in H. apply size_delete_found in H. lia. }
  change (match add_previousId tm with
          | Some z => if Z.eqb z 0 then None else legacy_missingNodeMap s !! z
          | None => None
          end) with (lookup (add_previousId tm)) in HR.
  change (match add_nextId tm with
          | Some z => if Z.eqb z 0 then None else legacy_missingNodeMap s !! z
          | None => None
          end) with (lookup (add_nextId tm)) in HR.
  set (A := match lookup (add_previousId tm) with
            | Some e => _
            | None => ret tt
            end) in HR.
  set (B := match lookup (add_nextId tm) with
            | Some e => _
            | None => ret tt
            end) in HR.
  assert (HA : fst (A s) <> OutOfFuel
               /\ forall a, fst (A s) = Ret a ->
                    legacyWithin n (snd (A s))
                    /\ (legacy_missingNodeMap (snd (A s)) = legacy_missingNodeMap s
                        \/ (S (size (legacy_missingNodeMap (snd (A s)))) <= n)%nat)).
  { subst A. destruct (lookup (add_previousId tm)) as [[node mutation] |] eqn:E.
    - pose proof (Hlookup _ _ E) as Hfound. pose proof (Hpos _ _ E) as H1.
      simpl in Hfound. apply size_delete_found in Hfound.
      destruct (resolve_entry_safe depth' (n - 1) parent node mutation
                  (ret (Some target)) s) as [He Hr].
      + intros x. exists (Some target). reflexivity.
      + intros p t tm'. apply IH. lia.
      + exact Hk.
      + lia.
      + split; [exact He |]. intros a Ha. specialize (Hr a Ha).
        split; [apply (legacyWithin_le (n - 1)); [lia | exact Hr] |].
        right. destruct Hr as [_ Hr]. lia.
    - split; [discriminate |]. intros a Ha. simpl.
      split; [split; assumption | left; reflexivity]. }
  unfold bind in HR. destruct HA as [HAe HAr].
  destruct (A s) as [[[] | e |] s1]; simpl in HAe, HAr, HR;
    [| subst R; split; [discriminate | intros a Ha; discriminate]
     | contradiction].
  destruct (HAr tt eq_refl) as [[Hk1 Hs1] Hcase].
  subst R B. destruct (lookup (add_nextId tm)) as [[node mutation] |] eqn:E.
  - pose proof (Hlookup _ _ E) as Hfound. pose proof (Hpos _ _ E) as H1.
    simpl in Hfound.
    destruct (resolve_entry_safe depth' (n - 1) parent node mutation
                (let* s0 := get in ret (nextSibling (dom s0) target)) s1)
      as [He Hr].
    + intros x. eexists. reflexivity.
    + intros p t tm'. apply IH. lia.
    + exact Hk1.
    + destruct Hcase as [Heq | Hlt].
      * rewrite Heq. apply size_delete_found in Hfound. lia.
      * pose proof (size_delete_le (sn_id (add_node mutation))
                      (legacy_missingNodeMap s1)). lia.
    + split; [exact He |]. intros a Ha.
      apply (legacyWithin_le (n - 1)); [lia | exact (Hr a Ha)].
  - split; [discriminate |]. intros _ _. simpl. split; assumption.
Qed.

Lemma legacy_resolveMissingNode_keyed (depth : nat) :
  forall (parent target : handle) (targetMutation : addedNodeMutation),
    preserves legacyKeyed
      (legacy_resolveMissingNode depth parent target targetMutation).
Proof.
  induction depth as [| depth' IH]; intros parent target tm.
  - intros s H. exact H.
  - cbn [legacy_resolveMissingNode].
    assert (Hins : forall p x r, preserves legacyKeyed (insertBefore p x r)).
    { intros p x r. apply (insertBefore_frame legacyKeyed); same_fields. }
    assert (Hdel : forall (k : Z) (s : St),
               legacyKeyed s ->
               legacyKeyed
                 (set_legacy_missingNodeRetryMap
                    (delete k (legacy_missingNodeRetryMap s))
                    (set_legacy_missingNodeMap
                       (delete k (legacy_missingNodeMap s)) s))).
    { intros k s [H1 H2]. split; simpl; apply keyed_delete; assumption. }
    apply preserves_get_bind. intros s0 _.
    apply preserves_bind; [| intros _];
      (match goal with
       | |- preserves _ (match ?x with _ => _ end) =>
           destruct x as [[node mutation] |]
       end; [| apply preserves_ret]);
      (apply preserves_bind; [frame |]; intros r;
       apply preserves_bind; [apply Hins |]; intros _;
       apply preserves_bind; [apply preserves_modify; apply Hdel |]; intros _;
       apply preserves_when; apply IH).
Qed.

(** *** Handlers that end and keep a property *)

Lemma safe_of_frame {A : Type} (P : St -> Prop) (m : M A) :
  ends m -> preserves P m -> safe P m.
Proof. intros He Hp s H. split; [apply He | apply Hp; exact H]. Qed.

Lemma safe_ret {A : Type} (P : St -> Prop) (a : A) : safe P (ret a).
Proof. intros s H. split; [discriminate | exact H]. Qed.

Lemma safe_modify (P : St -> Prop) (g : St -> St) :
  (forall s, P s -> P (g s)) -> safe P (modify g).
Proof. intros Hg s H. split; [discriminate | apply Hg; exact H]. Qed.

Lemma safe_bind {A B : Type} (P : St -> Prop) (m : M A) (k : A -> M B) :
  safe P m -> (forall a, safe P (k a)) -> safe P (bind m k).
Proof.
  intros Hm Hk s H. unfold bind. destruct (Hm s H) as [He Hp].
  destruct (m s) as [[a | e |] s']; simpl in *.
  - apply Hk. exact Hp.
  - split; [discriminate | exact Hp].
  - contradiction.
Qed.

Lemma safe_get_bind {B : Type} (P : St -> Prop) (k : St -> M B) :
  (forall s0, P s0 -> safe P (k s0)) -> safe P (bind get k).
Proof. intros Hk s H. unfold bind, get. apply Hk; exact H. Qed.

Lemma safe_when (P : St -> Prop) (b : bool) (m : M unit) :
  safe P m -> safe P (when b m).
Proof. intros Hm. destruct b; [exact Hm | apply safe_ret]. Qed.

Lemma safe_forEach {A : Type} (P : St -> Prop) (f : A -> M unit) (l : list A) :
  (forall a, safe P (f a)) -> safe P (forEach f l).
Proof.
  intros Hf. induction l as [| a l IH]; simpl.
  - apply safe_ret.
  - apply safe_bind; [apply Hf | intros _; exact IH].
Qed.

Lemma safe_and_frame {A : Type} (P Q : St -> Prop) (m : M A) :
  safe P m -> preserves Q m -> safe (fun s => P s /\ Q s) m.
Proof.
  intros Hs Hp s [HP HQ]. destruct (Hs s HP) as [He HP'].
  split; [exact He | split; [exact HP' | apply Hp; exact HQ]].
Qed.

Lemma safeT_ret {A : Type} (P : St -> Prop) (a : A) : safeT P (retT a).
Proof. intros s H. split; [discriminate | exact H]. Qed.

Lemma safeT_lift {A : Type} (P : St -> Prop) (m : M A) :
  safe P m -> safeT P (liftT m).
Proof.
  intros Hm s H. unfold liftT. specialize (Hm s H).
  destruct (m s) as [r s']. exact Hm.
Qed.

Lemma safeT_handle (P : St -> Prop) (a : applied) (m : M unit) :
  safe P m -> safeT P (handle_with a m).
Proof.
  intros Hm s H. unfold handle_with. specialize (Hm s H).
  destruct (m s) as [r s']. exact Hm.
Qed.

Lemma safeT_bind {A B : Type} (P : St -> Prop) (m : Traced A)
  (k : A -> Traced B) :
  safeT P m -> (forall a, safeT P (k a)) -> safeT P (bindT m k).
Proof.
  intros Hm Hk s H. unfold bindT. destruct (Hm s H) as [He Hp].
  destruct (m s) as [[[a | e |] s'] tr]; simpl in *.
  - specialize (Hk a s' Hp). destruct (k a s') as [[r s''] tr']. exact Hk.
  - split; [discriminate | exact Hp].
  - contradiction.
Qed.

Lemma safeT_forEach {A : Type} (P : St -> Prop) (f : A -> Traced unit)
  (l : list A) :
  (forall a, safeT P (f a)) -> safeT P (forEachT f l).
Proof.
  intros Hf. induction l as [| a l IH]; simpl.
  - apply safeT_ret.
  - apply safeT_bind; [apply Hf | intros _; exact IH].
Qed.

Lemma safeT_and_frame {A : Type} (P Q : St -> Prop) (m : Traced A) :
  safeT P m -> preservesT Q m -> safeT (fun s => P s /\ Q s) m.
Proof.
  intros Hs Hp s [HP HQ]. destruct (Hs s HP) as [He HP'].
  split; [exact He | split; [exact HP' | apply Hp; exact HQ]].
Qed.

Lemma safeT_of_frame {A : Type} (P : St -> Prop) (m : Traced A) :
  endsT m -> preservesT P m -> safeT P m.
Proof. intros He Hp s H. split; [apply He | apply Hp; exact H]. Qed.

Ltac safe_step :=
  match goal with
  | |- safe _ (ret _) => apply safe_ret
  | |- safe _ (when _ _) => apply safe_when
  | |- safe _ (forEach _ _) => apply safe_forEach; intros
  | |- safe _ (bind get _) => apply safe_get_bind; intros
  | |- safe _ (bind _ _) => apply safe_bind; [| intros]
  | |- safe _ (modify _) => apply safe_modify; intros
  | |- safe _ (match ?x with _ => _ end) => destruct x
  end.

(** *** The adds keep the legacy maps keyed *)

Ltac keyed_leaf :=
  first [ apply (insertBefore_frame legacyKeyed)
        | apply (appendChild_frame legacyKeyed)
        | apply (removeChild_frame legacyKeyed)
        | apply (call_frame legacyKeyed)
        | apply (console_warn_frame legacyKeyed)
        | apply (attachDocumentToIframe_frame legacyKeyed)
        | apply (iframe_contentDocument_frame legacyKeyed)
        | apply (buildNodeWithSN_frame legacyKeyed)
        | apply (virtualize_frame legacyKeyed) ];
  same_fields.

Lemma insertTarget_keyed (mutation : addedNodeMutation)
  (targetDoc : option handle) (parent : handle)
  (previous next : option handle) (target : handle) :
  preserves legacyKeyed
    (insertTarget mutation targetDoc parent previous next target).
Proof.
  unfold insertTarget.
  repeat first [ apply legacy_resolveMissingNode_keyed | frame_step
               | keyed_leaf ];
    try assumption.
Qed.

Lemma legacyKeyed_insert (h : handle) (a : addedNodeMutation) (s : St) :
  legacyKeyed s ->
  legacyKeyed
    (set_legacy_missingNodeMap
       (<[sn_id (add_node a) := (h, a)]> (legacy_missingNodeMap s)) s).
Proof. intros [H1 H2]. split; simpl; [apply keyed_insert |]; assumption. Qed.

Lemma appendNode_keyed (u : bool) (mutation : addedNodeMutation) :
  preserves legacyKeyed (appendNode u mutation).
Proof.
  unfold appendNode, push_queue.
  repeat first [ apply insertTarget_keyed | frame_step | keyed_leaf ];
    try assumption; try (apply legacyKeyed_insert; assumption).
Qed.

Lemma resolveTree_keyed (u : bool) (tree : ResolveTree) :
  preservesT legacyKeyed (resolveTree u tree).
Proof.
  unfold resolveTree. apply preservesT_bind.
  { apply preservesT_lift. apply preserves_get. }
  intros s0. destruct (getNode s0 (add_parentId (rt_value tree))).
  - apply preservesT_forEach. intros m. apply preservesT_handle.
    apply appendNode_keyed.
  - apply preservesT_lift. apply (debug_frame legacyKeyed); same_fields.
Qed.

Lemma resolveLoop_keyed (rounds : nat) (u : bool) (startTime : Z) :
  preservesT legacyKeyed (resolveLoop rounds u startTime).
Proof.
  induction rounds as [| rounds IH].
  - intros s H. simpl. destruct (queue s); exact H.
  - simpl. apply preservesT_bind; [apply preservesT_lift; apply preserves_get |].
    intros s0. destruct (queue s0); [apply preservesT_ret |].
    apply preservesT_bind.
    { apply preservesT_lift. apply preserves_modify. intros s H. exact H. }
    intros _. apply preservesT_bind.
    { apply preservesT_lift. apply (Date_now_frame legacyKeyed); same_fields. }
    intros t. destruct (Z.ltb 500 (t - startTime)).
    + apply preservesT_lift. apply (warn_frame legacyKeyed); same_fields.
    + apply preservesT_bind; [| intros _; exact IH].
      apply preservesT_forEach. intros tree. apply resolveTree_keyed.
Qed.

Lemma keyed_union (m1 m2 : gmap Z (handle * addedNodeMutation)) :
  keyed m1 -> keyed m2 -> keyed (m1 ∪ m2).
Proof.
  intros H1 H2 k e H. apply lookup_union_Some_raw in H.
  destruct H as [H | [_ H]]; [apply H1 | apply H2]; exact H.
Qed.

(** X20.  [applyMutation] keeps the retry map keyed: if every entry of
    [legacy_missingNodeRetryMap] sits under the id of its own node before a
    delta, so it does afterwards, with or without virtual parents and
    however the delta ends. *)
Theorem legacy_retry_map_stays_keyed :
  forall (rounds : nat) (d : mutationData) (u : bool) (s : St),
    keyed (legacy_missingNodeRetryMap s) ->
    keyed (legacy_missingNodeRetryMap (snd (fst (applyMutation rounds d u s)))).
Proof.
  intros rounds d u. 
  change (preservesT (fun x => keyed (legacy_missingNodeRetryMap x))
            (applyMutation rounds d u)).
  set (R := fun x : St => keyed (legacy_missingNodeRetryMap x)).
  unfold applyMutation.
  apply preservesT_bind.
  { apply preservesT_forEach. intros m. apply preservesT_handle.
    apply (applyRemove_frame R); same_fields. }
  intros _ s0 H0. unfold bindT at 1, liftT at 1, modify at 1.
  set (s1 := set_notVirtualStyles [] _).
  assert (H1 : legacyKeyed s1) by (split; exact H0).
  set (rest := bindT _ _).
  assert (Hrest : preservesT legacyKeyed rest).
  { subst rest. apply preservesT_bind.
    { apply preservesT_forEach. intros m. apply preservesT_handle.
      apply appendNode_keyed. }
    intros _. apply preservesT_bind.
    { apply preservesT_lift. apply (Date_now_frame legacyKeyed); same_fields. }
    intros t. apply preservesT_bind; [apply resolveLoop_keyed |].
    intros _. apply preservesT_bind.
    { apply preservesT_lift. apply preserves_get_bind. intros x _.
      apply preserves_when. apply preserves_modify. intros y [Hy1 Hy2].
      split; simpl; [exact Hy1 | apply keyed_union; assumption]. }
    intros _. apply preservesT_bind.
    { apply preservesT_forEach. intros m. apply preservesT_handle.
      apply (applyText_frame legacyKeyed); same_fields. }
    intros _. apply preservesT_forEach. intros m. apply preservesT_handle.
    apply (applyAttribute_any_frame legacyKeyed); same_fields. }
  specialize (Hrest s1 H1). destruct (rest s1) as [[r s'] tr].
  simpl in *. apply Hrest.
Qed.

(** *** Deltas without sub-documents *)

Lemma safeWith_safe {A : Type} (P : St -> Prop) (m : M A) :
  safe P m -> safeWith P (fun _ => True) m.
Proof. intros H s Hs. destruct (H s Hs). auto. Qed.

Lemma safeWith_ret {A : Type} (P : St -> Prop) (R : A -> Prop) (a : A) :
  R a -> safeWith P R (ret a).
Proof.
  intros Ha s Hs. split; [discriminate |]. split; [exact Hs |].
  intros b Hb. inversion Hb; subst. exact Ha.
Qed.

Lemma safeWith_bind {A B : Type} (P : St -> Prop) (R : A -> Prop)
  (R' : B -> Prop) (m : M A) (k : A -> M B) :
  safeWith P R m -> (forall a, R a -> safeWith P R' (k a)) ->
  safeWith P R' (bind m k).
Proof.
  intros Hm Hk s Hs. unfold bind. destruct (Hm s Hs) as (He & Hp & Hr).
  destruct (m s) as [[a | e |] s']; simpl in *.
  - apply Hk; [apply Hr; reflexivity | exact Hp].
  - split; [discriminate |]. split; [exact Hp | discriminate].
  - contradiction.
Qed.

Lemma safe_bind_with {A B : Type} (P : St -> Prop) (R : A -> Prop) (m : M A)
  (k : A -> M B) :
  safeWith P R m -> (forall a, R a -> safe P (k a)) -> safe P (bind m k).
Proof.
  intros Hm Hk s Hs. unfold bind. destruct (Hm s Hs) as (He & Hp & Hr).
  destruct (m s) as [[a | e |] s']; simpl in *.
  - apply Hk; [apply Hr; reflexivity | exact Hp].
  - split; [discriminate | exact Hp].
  - contradiction.
Qed.

Ltac calm_leaf :=
  apply safe_of_frame;
  [ eauto with ending
  | first [ apply (insertBefore_frame calm)
          | apply (appendChild_frame calm)
          | apply (removeChild_frame calm)
          | apply (call_frame calm)
          | apply (console_warn_frame calm)
          | apply (iframe_contentDocument_frame calm)
          | apply (buildNodeWithSN_frame calm)
          | apply (restoreRealParent_frame calm)
          | apply (virtualize_frame calm) ];
    same_fields ].

(** With no sub-document in the queue, [afterAppend] collects no iframe. *)
Lemma collectAfterAppend_calm (builtNode : handle)
  (acc : list AppendedIframe * list handle) :
  fst acc = [] ->
  safeWith calm (fun acc' => fst acc' = []) (collectAfterAppend builtNode acc).
Proof.
  intros Hacc s Hs. pose proof Hs as (_ & HQ & _).
  unfold collectAfterAppend, collectIframeAndAttachDocument, bind, get, ret.
  rewrite HQ. simpl.
  destruct (isIframeINode s builtNode); simpl;
    (split; [discriminate |]; split; [exact Hs |];
     intros a Ha; inversion Ha; subst; exact Hacc).
Qed.

Lemma buildNodeWithSN_children_calm (n : serializedNode) :
  forall (targetDoc : option handle)
    (acc : list AppendedIframe * list handle),
    fst acc = [] ->
    safeWith calm (fun r => fst (snd r) = [])
      (buildNodeWithSN_children collectAfterAppend n targetDoc acc).
Proof.
  induction n as [id type tagName attributes textContent isShadow
                    isShadowHost rootId childNodes IH]
    using serializedNode_induction.
  intros targetDoc acc Hacc. simpl.
  apply (safeWith_bind calm (fun _ => True)).
  { apply safeWith_safe. calm_leaf. }
  intros node _.
  destruct (isNodeType type Document || isNodeType type Element);
    [| apply safeWith_ret; exact Hacc].
  apply (safeWith_bind calm (fun acc' => fst acc' = []));
    [| intros acc' Ha; apply safeWith_ret; exact Ha].
  revert acc Hacc. induction childNodes as [| childN rest IHrest];
    intros acc Hacc.
  - apply safeWith_ret. exact Hacc.
  - inversion IH; subst.
    apply (safeWith_bind calm (fun r => fst (snd r) = [])); [auto |].
    intros built Hb.
    apply (safeWith_bind calm (fun _ => True)).
    { apply safeWith_safe. apply safe_of_frame;
        [apply ends_get | apply preserves_get]. }
    intros s0 _.
    apply (safeWith_bind calm (fun _ => True)).
    { apply safeWith_safe. destruct (_ && _); calm_leaf. }
    intros _ _.
    apply (safeWith_bind calm (fun acc' => fst acc' = []));
      [apply collectAfterAppend_calm; exact Hb |].
    intros acc1 Hacc1. apply IHrest; assumption.
Qed.

(** With no sub-document in the queue, a sub-document brings no further
    one along: [attachDocumentToIframe] ends without a nested call. *)
Lemma attachDocumentToIframe_calm (mutation : addedNodeMutation)
  (iframeEl : handle) :
  safe calm (attachDocumentToIframe mutation iframeEl).
Proof.
  unfold attachDocumentToIframe. apply safe_get_bind. intros s0 Hs0.
  pose proof Hs0 as (_ & HQ & _). rewrite HQ. cbn [length attachDocument].
  apply safe_bind; [calm_leaf |]. intros doc0.
  apply safe_bind.
  { repeat first [ safe_step | calm_leaf ]. }
  intros _. apply safe_bind; [calm_leaf |]. intros doc.
  apply (safe_bind_with calm (fun r => fst (snd r) = []));
    [apply buildNodeWithSN_children_calm; reflexivity |].
  intros built Hb. rewrite Hb. simpl forEach at 1.
  repeat first [ safe_step | calm_leaf ].
Qed.

(** *** The adds of the resolve trees *)

Lemma ResolveTree_induction (Q : ResolveTree -> Prop) :
  (forall v cs, Forall Q cs -> Q (RT v cs)) -> forall t, Q t.
Proof.
  intros H. fix IH 1. intros [v cs]. apply H.
  induction cs as [| c cs IHcs]; constructor; [apply IH | exact IHcs].
Qed.

Lemma iterate_children_In (m : addedNodeMutation) (cs : list ResolveTree) :
  forall acc : list addedNodeMutation,
    In m (fold_left (fun acc c => iterateResolveTree c ++ acc) cs acc)
    <-> In m acc \/ exists c, In c cs /\ In m (iterateResolveTree c).
Proof.
  induction cs as [| c cs IH]; intros acc; simpl.
  - split; [auto | intros [H | (c & [] & _)]; exact H].
  - rewrite IH, in_app_iff. split.
    + intros [[H | H] | (c' & Hc & H)]; eauto.
    + intros [H | (c' & [<- | Hc] & H)]; eauto.
Qed.

Lemma allOfTree_RT (Q : addedNodeMutation -> Prop) (v : addedNodeMutation)
  (cs : list ResolveTree) :
  allOfTree Q (RT v cs) <-> Q v /\ Forall (allOfTree Q) cs.
Proof.
  unfold allOfTree. simpl. split.
  - intros H. split; [apply H; left; reflexivity |].
    apply List.Forall_forall. intros c Hc m Hm. apply H. right.
    apply iterate_children_In. right. eauto.
  - intros [Hv Hcs] m [<- | Hm]; [exact Hv |].
    apply iterate_children_In in Hm. destruct Hm as [[] | (c & Hc & Hm)].
    rewrite List.Forall_forall in Hcs. exact (Hcs c Hc m Hm).
Qed.

Lemma allOfTree_leaf (Q : addedNodeMutation -> Prop) (m : addedNodeMutation) :
  Q m -> allOfTree Q (RT m []).
Proof. intros H. apply allOfTree_RT. split; [exact H | constructor]. Qed.

Lemma rt_push_child_all (Q : addedNodeMutation -> Prop) (parent : Z)
  (m : addedNodeMutation) (t : ResolveTree) :
  Q m -> allOfTree Q t -> allOfTree Q (rt_push_child parent m t).
Proof.
  intros Hm. induction t as [v cs IH] using ResolveTree_induction.
  intros Ht. apply allOfTree_RT in Ht. destruct Ht as [Hv Hcs]. simpl.
  destruct (Z.eqb (sn_id (add_node v)) parent); apply allOfTree_RT;
    (split; [exact Hv |]).
  - apply Forall_app. split; [exact Hcs |]. constructor; [| constructor].
    apply allOfTree_leaf. exact Hm.
  - apply Forall_map. rewrite List.Forall_forall in *. auto.
Qed.

Lemma rt_insert_before_all (Q : addedNodeMutation -> Prop) (next : Z)
  (m : addedNodeMutation) (t : ResolveTree) :
  Q m -> allOfTree Q t -> allOfTree Q (rt_insert_before next m t).
Proof.
  intros Hm. induction t as [v cs IH] using ResolveTree_induction.
  intros Ht. apply allOfTree_RT in Ht. destruct Ht as [Hv Hcs]. simpl.
  apply allOfTree_RT. split; [exact Hv |].
  induction cs as [| c cs IHcs]; [constructor |].
  inversion IH; subst. inversion Hcs; subst.
  destruct (Z.eqb (rt_id c) next).
  - constructor; [apply allOfTree_leaf; exact Hm | exact Hcs].
  - constructor; [auto | apply IHcs; assumption].
Qed.

Lemma rts_insert_before_all (Q : addedNodeMutation -> Prop) (next : Z)
  (m : addedNodeMutation) (l : list ResolveTree) :
  Q m -> Forall (allOfTree Q) l ->
  Forall (allOfTree Q) (rts_insert_before next m l).
Proof.
  intros Hm Hl. induction l as [| c l IH]; simpl; [constructor |].
  inversion Hl; subst. destruct (Z.eqb (rt_id c) next).
  - constructor; [apply allOfTree_leaf; exact Hm | exact Hl].
  - constructor; [apply rt_insert_before_all; assumption | apply IH; assumption].
Qed.

Lemma queueToResolveTrees_all (Q : addedNodeMutation -> Prop)
  (q : list addedNodeMutation) :
  Forall Q q -> Forall (allOfTree Q) (queueToResolveTrees q).
Proof.
  unfold queueToResolveTrees.
  assert (H : forall trees, Forall (allOfTree Q) trees -> Forall Q q ->
              Forall (allOfTree Q)
                (fold_left
                   (fun trees m =>
                      if truthy (add_nextId m)
                         && existsb (rt_mem (default 0 (add_nextId m))) trees
                      then rts_insert_before (default 0 (add_nextId m)) m trees
                      else if existsb (rt_mem (add_parentId m)) trees
                      then map (rt_push_child (add_parentId m) m) trees
                      else trees ++ [RT m []])
                   q trees)).
  { induction q as [| m q IH]; intros trees Ht Hq; simpl; [exact Ht |].
    inversion Hq; subst. apply IH; [| assumption].
    destruct (_ && _); [apply rts_insert_before_all; assumption |].
    destruct (existsb _ _).
    - apply Forall_map. rewrite List.Forall_forall in *. intros t Hin.
      apply rt_push_child_all; auto.
    - apply Forall_app. split; [exact Ht |]. constructor; [| constructor].
      apply allOfTree_leaf. assumption. }
  apply H. constructor.
Qed.

(** *** The adds of a delta without sub-documents *)

Lemma legacy_call_calm (parent target : handle) (mutation : addedNodeMutation) :
  safe calm
    (let* s := get in
     legacy_resolveMissingNode (S (size (legacy_missingNodeMap s)))
       parent target mutation).
Proof.
  apply safe_and_frame.
  - intros s H. unfold bind at 1, get at 1. split.
    + apply (legacy_resolveMissingNode_safe _ (size (legacy_missingNodeMap s)));
        [lia |]. split; [apply H | lia].
    + apply legacy_resolveMissingNode_keyed. exact H.
  - apply preserves_get_bind. intros s0 _.
    apply (legacy_resolveMissingNode_frame noSubDocument); same_fields.
Qed.

(** The writes of [appendNode] to the queues and to the legacy map. *)
Ltac calm_write :=
  match goal with
  | H : calm ?s |- calm _ =>
      let HK := fresh in
      let HQ := fresh in
      let HF := fresh in
      destruct H as (HK & HQ & HF);
      first
        [ split; [exact HK | split; [simpl; rewrite HQ; reflexivity | exact HF]]
        | split; [apply legacyKeyed_insert; exact HK | split; assumption]
        | split; [exact HK |];
          split; [exact HQ |];
          simpl; apply Forall_app; split; [exact HF |];
          constructor; [assumption | constructor] ]
  end.

Lemma insertTarget_calm (mutation : addedNodeMutation)
  (targetDoc : option handle) (parent : handle)
  (previous next : option handle) (target : handle) :
  safe calm (insertTarget mutation targetDoc parent previous next target).
Proof.
  unfold insertTarget.
  repeat first [ apply legacy_call_calm | apply attachDocumentToIframe_calm
               | safe_step | calm_leaf ];
    try assumption; calm_write.
Qed.

Lemma appendNode_calm (u : bool) (mutation : addedNodeMutation) :
  noDocumentAdd mutation -> safe calm (appendNode u mutation).
Proof.
  intros Hm. unfold appendNode, push_queue. rewrite Hm.
  repeat first [ apply insertTarget_calm | apply attachDocumentToIframe_calm
               | safe_step | calm_leaf ];
    try assumption; try calm_write.
  unfold console_warn. ending.
Qed.

Lemma safeT_forEach_in {A : Type} (P : St -> Prop) (f : A -> Traced unit)
  (l : list A) :
  (forall a, In a l -> safeT P (f a)) -> safeT P (forEachT f l).
Proof.
  intros Hf. induction l as [| a l IH]; simpl.
  - apply safeT_ret.
  - apply safeT_bind; [apply Hf; left; reflexivity |].
    intros _. apply IH. intros b Hb. apply Hf. right. exact Hb.
Qed.

Lemma resolveTree_calm (u : bool) (tree : ResolveTree) :
  allOfTree noDocumentAdd tree -> safeT calm (resolveTree u tree).
Proof.
  intros Ht. unfold resolveTree. apply safeT_bind.
  { apply safeT_lift. apply safe_of_frame; [apply ends_get | apply preserves_get]. }
  intros s0. destruct (getNode s0 (add_parentId (rt_value tree))).
  - apply safeT_forEach_in. intros m Hm. apply safeT_handle.
    apply appendNode_calm. apply Ht. exact Hm.
  - apply safeT_lift. apply safe_of_frame; [apply debug_ends |].
    apply (debug_frame calm); same_fields.
Qed.

(** *** The resolve loop and the clock *)

Lemma resolveTree_clock (u : bool) (tree : ResolveTree) (c : list Z) :
  preservesT (fun x => clock x = c) (resolveTree u tree).
Proof. apply (resolveTree_any_frame (fun x => clock x = c)); same_fields. Qed.

Lemma appendNode_clock (u : bool) (m : addedNodeMutation) (c : list Z) :
  preserves (fun x => clock x = c) (appendNode u m).
Proof. apply (appendNode_any_frame (fun x => clock x = c)); same_fields. Qed.

Lemma bindT_ends {A B : Type} (m : Traced A) (k : A -> Traced B) (s : St) :
  fst (fst (m s)) <> OutOfFuel ->
  (forall a, fst (fst (m s)) = Ret a ->
             fst (fst (k a (snd (fst (m s))))) <> OutOfFuel) ->
  fst (fst (bindT m k s)) <> OutOfFuel.
Proof.
  intros Hm Hk. unfold bindT.
  destruct (m s) as [[[a | e |] s'] tr]; simpl in *.
  - specialize (Hk a eq_refl). destruct (k a s') as [[r s''] tr']. exact Hk.
  - discriminate.
  - contradiction.
Qed.

Lemma resolveLoop_ends (rounds : nat) :
  forall (u : bool) (startTime : Z) (s : St),
    calm s ->
    timesOut rounds startTime (clock s) ->
    fst (fst (resolveLoop rounds u startTime s)) <> OutOfFuel.
Proof.
  induction rounds as [| rounds IH];
    intros u startTime s HK (k & t & Hk & Ht & Hlate); [lia |].
  cbn [resolveLoop]. apply bindT_ends; [discriminate |].
  intros s0 Hs0. cbn [liftT get fst snd] in Hs0 |- *.
  inversion Hs0; subst s0. clear Hs0.
  assert (Htrees : Forall (allOfTree noDocumentAdd)
                     (queueToResolveTrees (queue s))).
  { apply queueToResolveTrees_all. apply HK. }
  destruct (queue s) as [| q0 qs] eqn:Eq; [discriminate |].
  set (trees := queueToResolveTrees (q0 :: qs)) in *.
  apply bindT_ends; [discriminate |].
  intros [] _. cbn [liftT modify fst snd].
  destruct (clock s) as [| t0 readings] eqn:Ec.
  { destruct k; discriminate. }
  set (s1 := set_queue [] s).
  set (s2 := set_now t0 (set_clock readings s1)).
  assert (HK2 : calm s2).
  { destruct HK as (H1 & H2 & _). split; [exact H1 |].
    split; [exact H2 | constructor]. }
  assert (Hc2 : clock s2 = readings) by reflexivity.
  assert (Hnow : liftT Date_now s1 = (Ret t0, s2, [])).
  { unfold liftT, Date_now, bind, get.
    change (clock s1) with (clock s). rewrite Ec. reflexivity. }
  apply bindT_ends; rewrite Hnow; [discriminate |]. cbn [fst snd].
  intros t1 Ht1. inversion Ht1; subst t1. clear Ht1.
  destruct (Z.ltb_spec 500 (t0 - startTime)) as [Hlt | Hge].
  { pose proof (warn_ends ResolveTimeout s2) as Hw. unfold liftT.
    destruct (warn ResolveTimeout s2) as [r s']. simpl in *. exact Hw. }
  destruct k as [| k']; [simpl in Ht; inversion Ht; subst t; lia |].
  simpl in Ht.
  set (m := forEachT (resolveTree u) trees).
  assert (Hm : safeT (fun x => calm x /\ clock x = readings) m).
  { apply safeT_forEach_in. intros tree Hin.
    apply safeT_and_frame; [| apply resolveTree_clock].
    apply resolveTree_calm.
    rewrite List.Forall_forall in Htrees. apply Htrees. exact Hin. }
  destruct (Hm s2 (conj HK2 Hc2)) as [He [HK3 Hc3]].
  apply bindT_ends; [exact He |].
  intros _ _. apply IH; [exact HK3 |].
  exists k', t. rewrite Hc3. split; [lia | split; assumption].
Qed.

Lemma endsT_lift {A : Type} (m : M A) : ends m -> endsT (liftT m).
Proof.
  intros H s. unfold liftT. specialize (H s). destruct (m s). exact H.
Qed.

Lemma endsT_handle (a : applied) (m : M unit) : ends m -> endsT (handle_with a m).
Proof.
  intros H s. unfold handle_with. specialize (H s). destruct (m s). exact H.
Qed.

Lemma endsT_bind {A B : Type} (m : Traced A) (k : A -> Traced B) :
  endsT m -> (forall a, endsT (k a)) -> endsT (bindT m k).
Proof. intros Hm Hk s. apply bindT_ends; [apply Hm | intros a _; apply Hk]. Qed.

Lemma endsT_forEach {A : Type} (f : A -> Traced unit) (l : list A) :
  (forall a, endsT (f a)) -> endsT (forEachT f l).
Proof.
  intros Hf. induction l as [| a l IH]; simpl.
  - intros s. discriminate.
  - apply endsT_bind; [apply Hf | intros _; exact IH].
Qed.

(** X21.  A delta that brings no sub-document, applied while none waits
    for its iframe, ends, by returning or by throwing, once the clock shows
    more than 500 ms since the start of the resolve loop: the loop takes at
    most as many rounds as the clock is read until then, the nested calls
    of [legacy_resolveMissingNode] stay within the size of the legacy map,
    as long as the retry map is keyed, and [attachDocumentToIframe] makes
    no nested call, because a sub-document that is built finds no iframe
    with a document in the queue. *)
Theorem applyMutation_ends_by_the_clock :
  forall (rounds : nat) (d : mutationData) (u : bool) (s : St)
    (t0 : Z) (readings : list Z),
    keyed (legacy_missingNodeRetryMap s) ->
    newDocumentQueue s = [] ->
    Forall noDocumentAdd (adds d) ->
    clock s = t0 :: readings ->
    timesOut rounds t0 readings ->
    fst (fst (applyMutation rounds d u s)) <> OutOfFuel.
Proof.
  intros rounds d u s t0 readings HR HQ Hd Hc Hlate.
  set (R := fun x : St =>
         (keyed (legacy_missingNodeRetryMap x) /\ newDocumentQueue x = [])
         /\ clock x = t0 :: readings).
  set (K := fun x : St => calm x /\ clock x = t0 :: readings).
  unfold applyMutation.
  assert (Hrem : safeT R
            (forEachT (fun m => handle_with (RemoveApplied m) (applyRemove d m))
               (removes d))).
  { apply safeT_forEach. intros m. apply safeT_handle.
    apply safe_of_frame; [apply applyRemove_ends |].
    apply (applyRemove_frame R); same_fields. }
  destruct (Hrem s (conj (conj HR HQ) Hc)) as [He [[HR1 HQ1] Hc1]].
  apply bindT_ends; [exact He |]. intros _ _.
  set (s0 := snd (fst (forEachT _ (removes d) s))) in *.
  apply bindT_ends; [discriminate |]. intros [] _.
  cbn [liftT modify fst snd].
  set (s1 := set_notVirtualStyles [] _).
  assert (H1 : K s1).
  { split; [| exact Hc1]. split; [split; exact HR1 |].
    split; [exact HQ1 | constructor]. }
  assert (Hadd : safeT K
            (forEachT (fun m => handle_with (AddApplied m) (appendNode u m))
               (adds d))).
  { apply safeT_forEach_in. intros m Hm. apply safeT_handle.
    apply safe_and_frame; [| apply appendNode_clock].
    apply appendNode_calm. rewrite List.Forall_forall in Hd. apply Hd.
    exact Hm. }
  destruct (Hadd s1 H1) as [He2 [HK2 Hc2]].
  apply bindT_ends; [exact He2 |]. intros _ _.
  set (s2 := snd (fst (forEachT _ (adds d) s1))) in *.
  assert (Hnow : liftT Date_now s2
                 = (Ret t0, set_now t0 (set_clock readings s2), [])).
  { unfold liftT, Date_now, bind, get. rewrite Hc2. reflexivity. }
  apply bindT_ends; rewrite Hnow; [discriminate |]. cbn [fst snd].
  intros t1 Ht1. inversion Ht1; subst t1. clear Ht1.
  apply bindT_ends.
  { apply resolveLoop_ends; [exact HK2 | exact Hlate]. }
  intros _ _. generalize (snd (fst (resolveLoop rounds u t0
                                      (set_now t0 (set_clock readings s2))))).
  apply endsT_bind; [apply endsT_lift; ending |]. intros _.
  apply endsT_bind.
  { apply endsT_forEach. intros m. apply endsT_handle. apply applyText_ends. }
  intros _. apply endsT_forEach. intros m. apply endsT_handle.
  apply applyAttribute_ends.
Qed.
(** *** Instances *)

Lemma keyed_empty : keyed ∅.
Proof. intros k e H. rewrite lookup_empty in H. discriminate. Qed.

Lemma flush_empties_the_caches_witness :
  exists s1 : St,
    Flush (snd (fst (applyMutation 1 Scenario.deltaParagraph true
                       Scenario.scrolledPage)))
    = (Ret tt, s1)
    /\ flushed s1 /\ Flush s1 = (Ret tt, s1).
Proof.
  destruct (Flush (snd (fst (applyMutation 1 Scenario.deltaParagraph true
                               Scenario.scrolledPage))))
    as [[[] | e |] s1] eqn:E;
    [| vm_compute in E; discriminate | vm_compute in E; discriminate].
  exists s1. split; [reflexivity |].
  apply (flush_empties_the_caches _ s1 E).
Defined.

Lemma live_delta_defers_nothing_witness :
  nothingDeferred [] []
    (snd (fst (applyMutation 1 Scenario.deltaMixed false Scenario.smallPage)))
  /\ nothingDeferred [] []
       (snd (fst (applyIncremental 1 Scenario.deltaMixed false
                    Scenario.smallPage))).
Proof.
  apply (live_delta_defers_nothing 1 Scenario.deltaMixed Scenario.smallPage).
  split; [| split]; reflexivity.
Defined.

Lemma legacy_retry_map_stays_keyed_witness :
  keyed (legacy_missingNodeRetryMap
           (snd (fst (applyMutation 1 Scenario.deltaSentinel false
                        Scenario.onlyRoot)))).
Proof.
  apply (legacy_retry_map_stays_keyed 1 Scenario.deltaSentinel false
           Scenario.onlyRoot).
  exact keyed_empty.
Defined.

Lemma applyMutation_ends_by_the_clock_witness :
  fst (fst (applyMutation 2
              (onlyAdds [mkAdd 2 None (Some 77) Scenario.div10]) false
              (set_clock [0; 100; 900] Scenario.smallPage)))
  <> OutOfFuel.
Proof.
  apply (applyMutation_ends_by_the_clock 2
           (onlyAdds [mkAdd 2 None (Some 77) Scenario.div10]) false
           (set_clock [0; 100; 900] Scenario.smallPage) 0 [100; 900]).
  - exact keyed_empty.
  - reflexivity.
  - repeat constructor.
  - reflexivity.
  - exists 1%nat, 900. split; [lia | split; [reflexivity | lia]].
Defined.

End ApplyFacts.

(** ** Facts about the player *)

Module PlayerFacts.
Import Dom Wire Node Replay Statements ApplyStatements Player PlayerStatements.

(** *** The class list of the cursor *)

Lemma contains_app (c : string) (l r : list string) :
  classList_contains c (l ++ r)
  = classList_contains c l || classList_contains c r.
Proof. unfold classList_contains. apply existsb_app. Qed.

Lemma contains_add (c : string) (l : list string) :
  classList_contains c (classList_add c l) = true.
Proof.
  unfold classList_add. destruct (classList_contains c l) eqn:E; [exact E |].
  rewrite contains_app. simpl. rewrite String.eqb_refl.
  rewrite orb_true_r. reflexivity.
Qed.

Lemma contains_remove (c : string) (l : list string) :
  classList_contains c (classList_remove c l) = false.
Proof.
  unfold classList_remove, classList_contains.
  induction l as [| x l IH]; [reflexivity |]. simpl.
  destruct (String.eqb c x) eqn:E; simpl; [exact IH |].
  rewrite E. exact IH.
Qed.

Lemma contains_add_other (c c' : string) (l : list string) :
  String.eqb c c' = false ->
  classList_contains c (classList_add c' l) = classList_contains c l.
Proof.
  intros H. unfold classList_add.
  destruct (classList_contains c' l); [reflexivity |].
  rewrite contains_app. simpl. rewrite H. rewrite !orb_false_r. reflexivity.
Qed.

Lemma contains_remove_other (c c' : string) (l : list string) :
  String.eqb c c' = false ->
  classList_contains c (classList_remove c' l) = classList_contains c l.
Proof.
  intros H. unfold classList_remove, classList_contains.
  induction l as [| x l IH]; [reflexivity |]. simpl.
  destruct (String.eqb c' x) eqn:E; simpl.
  - apply String.eqb_eq in E. subst x. rewrite H. exact IH.
  - rewrite IH. reflexivity.
Qed.

(** *** The cursor in a batch and played live *)

Lemma lastMove_snoc (l : list pointerEffect) (e : pointerEffect) :
  lastMove (l ++ [e])
  = match e with
    | MoveAndHover x y target _ => Some (x, y, target)
    | _ => lastMove l
    end.
Proof. unfold lastMove. rewrite fold_left_app. reflexivity. Qed.

Lemma debugNodeNotFound_mirror (id : Z) (s : St) :
  mirror (snd (debugNodeNotFound id s)) = mirror s.
Proof.
  apply (ApplyFacts.debugNodeNotFound_frame (fun x => mirror x = mirror s));
    try (intros ? ? Hsame; exact Hsame).
  reflexivity.
Qed.

Lemma getNode_mirror (s s' : St) (id : Z) :
  mirror s = mirror s' -> getNode s id = getNode s' id.
Proof. intros H. unfold getNode. rewrite H. reflexivity. Qed.

Lemma applyMouseInteraction_inStep (triggerFocus : bool)
  (d : mouseInteractionData) (p ps pl : Pointer) :
  inStep p ps pl ->
  inStep p (applyMouseInteraction triggerFocus true d ps)
    (applyMouseInteraction triggerFocus false d pl).
Proof.
  intros (Hms & Hml & Hcl & Hlm & Ht & Hp).
  unfold applyMouseInteraction.
  destruct (Z.eqb (mi_id d) (-1)); [repeat split; assumption |].
  rewrite (getNode_mirror (host ps) (host p)) by exact Hms.
  rewrite (getNode_mirror (host pl) (host p)) by exact Hml.
  destruct (getNode (host p) (mi_id d)) as [target |] eqn:Eg.
  2:{ unfold pointerNodeNotFound, inStep. simpl.
      rewrite !debugNodeNotFound_mirror. repeat split; assumption. }
  assert (Hgl : getNode (host pl) (mi_id d) = Some target).
  { rewrite (getNode_mirror (host pl) (host p)) by exact Hml. exact Eg. }
  destruct d as [ty id x y]. simpl in *.
  destruct ty; simpl.
  - (* Blur *)
    destruct (isElement (host ps) target), (isElement (host pl) target);
      unfold inStep; simpl; rewrite ?lastMove_snoc;
      repeat split; assumption.
  - (* Focus *)
    destruct (triggerFocus && isElement (host ps) target),
      (triggerFocus && isElement (host pl) target);
      unfold inStep; simpl; rewrite ?lastMove_snoc;
      repeat split; assumption.
  - (* Click *)
    unfold moveAndHover. simpl. rewrite Hgl.
    unfold inStep. simpl. rewrite !lastMove_snoc.
    split; [assumption |]. split; [assumption |]. split; [assumption |].
    split; [assumption |]. split.
    + rewrite contains_add_other, contains_remove_other by reflexivity.
      exact Ht.
    + exists target. split; [exact Eg | reflexivity].
  - (* TouchStart *)
    unfold moveAndHover. simpl. rewrite Hgl.
    unfold inStep. simpl. rewrite !lastMove_snoc.
    split; [assumption |]. split; [assumption |]. split; [assumption |].
    split; [assumption |]. split.
    + apply contains_add.
    + exists target. split; [exact Eg | reflexivity].
  - (* TouchEnd *)
    unfold moveAndHover. simpl. rewrite Hgl.
    unfold inStep. simpl. rewrite !lastMove_snoc.
    split; [assumption |]. split; [assumption |]. split; [assumption |].
    split; [assumption |]. split.
    + apply contains_remove.
    + exists target. split; [exact Eg | reflexivity].
  - (* TouchCancel *)
    unfold inStep. simpl. rewrite !lastMove_snoc.
    split; [assumption |]. split; [assumption |]. split; [assumption |].
    split; [assumption |]. split; [apply contains_remove | exact Hp].
  - (* the other interactions *)
    unfold inStep. simpl. rewrite !lastMove_snoc.
    repeat split; assumption.
Qed.

Lemma castInteractions_inStep (triggerFocus : bool)
  (l : list mouseInteractionData) (p : Pointer) :
  forall ps pl : Pointer,
    inStep p ps pl ->
    inStep p (castInteractions triggerFocus true l ps)
      (castInteractions triggerFocus false l pl).
Proof.
  induction l as [| d l IH]; intros ps pl H; [exact H |].
  simpl. apply IH. apply applyMouseInteraction_inStep. exact H.
Qed.

(** X22.  A batch of mouse interactions that is cast in sync mode and
    closed by [applyTouchAndMouse] leaves the cursor as live play of the
    same interactions does: the class [touch-active] is on the cursor in
    the one case exactly when it is in the other, the cursor was put last
    at the same position over the same node, and nothing stays cached. *)
Theorem batch_leaves_the_cursor_as_live_play :
  forall (triggerFocus : bool) (l : list mouseInteractionData) (p : Pointer),
    mousePos p = None -> touchActive p = None ->
    let batch := applyTouchAndMouse (castInteractions triggerFocus true l p) in
    let live := castInteractions triggerFocus false l p in
    classList_contains "touch-active" (mouse_classList batch)
    = classList_contains "touch-active" (mouse_classList live)
    /\ lastMove (pointerEffects batch) = lastMove (pointerEffects live)
    /\ mousePos batch = None /\ touchActive batch = None.
Proof.
  intros triggerFocus l p Hpos Htouch batch live.
  assert (H0 : inStep p p p).
  { unfold inStep. rewrite Hpos, Htouch. repeat split; reflexivity. }
  pose proof (castInteractions_inStep triggerFocus l p p p H0) as H.
  fold live in H. subst batch.
  set (ps := castInteractions triggerFocus true l p) in *.
  destruct H as (Hms & Hml & Hcl & Hlm & Ht & Hp).
  unfold applyTouchAndMouse.
  destruct (mousePos ps) as [pos |] eqn:Epos.
  - destruct Hp as (target & Hg & Hlast).
    unfold moveAndHover.
    rewrite (getNode_mirror (host ps) (host p)) by exact Hms. rewrite Hg.
    simpl. destruct (touchActive ps) as [[] |] eqn:Et; simpl;
      rewrite lastMove_snoc, Hlast;
      (split; [| split; [reflexivity | split; reflexivity]]).
    + rewrite contains_add. symmetry. exact Ht.
    + rewrite contains_remove. symmetry. exact Ht.
    + rewrite Hcl. symmetry. exact Ht.
  - simpl. destruct (touchActive ps) as [[] |] eqn:Et; simpl;
      rewrite Hlm, Hp;
      (split; [| split; [reflexivity | split; reflexivity]]).
    + rewrite contains_add. symmetry. exact Ht.
    + rewrite contains_remove. symmetry. exact Ht.
    + rewrite Hcl. symmetry. exact Ht.
Qed.

(** *** The poster *)

Lemma castFullSnapshots_built (es : list nat) :
  castFullSnapshots es FFS_true = (FFS_true, es).
Proof.
  induction es as [| x es IH]; [reflexivity |]. simpl. rewrite IH. reflexivity.
Qed.

Lemma castFullSnapshots_poster (e : nat) (es : list nat) :
  castFullSnapshots es (FFS_event e)
  = (if existsb (Nat.eqb e) es then FFS_true else FFS_event e,
     withoutFirst e es).
Proof.
  induction es as [| x es IH]; [reflexivity |]. simpl.
  destruct (Nat.eqb e x); simpl.
  - rewrite castFullSnapshots_built. reflexivity.
  - rewrite IH. reflexivity.
Qed.

(** X23.  The full snapshot that the constructor has built as the poster
    is not rebuilt when it is cast for the first time, also when other full
    snapshots are cast before it; every other cast of a full snapshot
    rebuilds it.  Once a full snapshot has been cast, the timeout of the
    poster builds nothing. *)
Theorem poster_is_skipped_once :
  forall (e first : nat) (x : nat) (es : list nat),
    let poster := fst (posterTimeout e FFS_null) in
    snd (castFullSnapshots es poster) = withoutFirst e es
    /\ fst (castFullSnapshots es poster)
       = (if existsb (Nat.eqb e) es then FFS_true else poster)
    /\ snd (castFullSnapshots es FFS_null) = es
    /\ posterTimeout first (fst (castFullSnapshots (x :: es) FFS_null))
       = (FFS_true, []).
Proof.
  intros e first x es poster. subst poster. cbn [posterTimeout fst].
  rewrite castFullSnapshots_poster. cbn [fst snd].
  split; [reflexivity | split; [reflexivity |]].
  split.
  - destruct es as [| y es]; [reflexivity |].
    simpl. rewrite castFullSnapshots_built. reflexivity.
  - simpl. rewrite castFullSnapshots_built. reflexivity.
Qed.

(** *** [onTick] *)

Section SkippingFacts.

Variable number : Type.
Variable minus : number -> number -> number.
Variable gt lt : number -> number -> bool.
Variable truthy_number : number -> bool.
Variable SKIP_END_BUFFER SKIP_TIME_THRESHOLD : number.

Lemma interactionInBuffer_spec (timeOffset : number)
  (l : list (actionWithDelay number)) :
  interactionInBuffer number minus gt SKIP_END_BUFFER timeOffset l = true
  <-> exists pre a post,
        l = pre ++ a :: post
        /\ isUserInteraction a = true
        /\ gt (minus (delay a) timeOffset) SKIP_END_BUFFER = false
        /\ Forall
             (fun x =>
                gt (minus (delay x) timeOffset) SKIP_END_BUFFER = false
                /\ isUserInteraction x = false) pre.
Proof.
  induction l as [| a l IH]; simpl.
  - split; [discriminate |]. intros (pre & a & post & H & _).
    destruct pre; discriminate.
  - destruct (gt (minus (delay a) timeOffset) SKIP_END_BUFFER) eqn:Eb.
    + split; [discriminate |]. intros (pre & b & post & H & Hb & Hn & Hpre).
      destruct pre as [| c pre]; simpl in H; inversion H; subst.
      * rewrite Eb in Hn. discriminate.
      * inversion Hpre as [| ? ? [Hc _] _]; subst. rewrite Eb in Hc.
        discriminate.
    + destruct (isUserInteraction a) eqn:Eu.
      * split; [intros _ | reflexivity].
        exists [], a, l. repeat split; trivial.
      * rewrite IH. split.
        -- intros (pre & b & post & -> & Hb & Hn & Hpre).
           exists (a :: pre), b, post. repeat split; trivial.
           constructor; [split; assumption | exact Hpre].
        -- intros (pre & b & post & H & Hb & Hn & Hpre).
           destruct pre as [| c pre]; simpl in H; inversion H; subst.
           ++ rewrite Eu in Hb. discriminate.
           ++ inversion Hpre; subst. exists pre, b, post.
              repeat split; trivial.
Qed.

Lemma nextUserInteraction_first (timeOffset : number)
  (pre post : list (actionWithDelay number)) (a : actionWithDelay number) :
  Forall (fun x => isUserInteraction x = false) pre ->
  isUserInteraction a = true ->
  nextUserInteraction number minus lt SKIP_TIME_THRESHOLD timeOffset
    (pre ++ a :: post)
  = if lt (minus (delay a) timeOffset) SKIP_TIME_THRESHOLD then None
    else Some (Some a).
Proof.
  intros Hpre Ha. induction Hpre as [| x pre Hx _ IH]; simpl.
  - rewrite Ha. reflexivity.
  - rewrite Hx. exact IH.
Qed.

Lemma nextUserInteraction_none (timeOffset : number)
  (l : list (actionWithDelay number)) :
  Forall (fun x => isUserInteraction x = false) l ->
  nextUserInteraction number minus lt SKIP_TIME_THRESHOLD timeOffset l
  = Some None.
Proof.
  intros H. induction H as [| x l Hx _ IH]; simpl; [reflexivity |].
  rewrite Hx. exact IH.
Qed.

(** X24.  While the player skips, [onTick] never starts another skip, and
    it goes back to normal exactly when a user interaction comes before
    the first action that lies beyond the end buffer; with [skipInactive]
    off it does nothing at all. *)
Theorem skipping_ends_at_an_interaction_in_the_buffer :
  forall (totalSessionLength : option number) (timeOffset : number)
    (actions nextActions : list (actionWithDelay number)) (skipping : bool),
    let tick skipInactive skipping :=
      onTick number minus gt lt truthy_number SKIP_END_BUFFER
        SKIP_TIME_THRESHOLD skipInactive skipping totalSessionLength
        timeOffset actions nextActions in
    tick false skipping = Stay
    /\ (forall skipTime, tick true true <> StartSkipping skipTime)
    /\ (tick true true = BackToNormal
        <-> exists pre a post,
              actions ++ nextActions = pre ++ a :: post
              /\ isUserInteraction a = true
              /\ gt (minus (delay a) timeOffset) SKIP_END_BUFFER = false
              /\ Forall
                   (fun x =>
                      gt (minus (delay x) timeOffset) SKIP_END_BUFFER = false
                      /\ isUserInteraction x = false) pre).
Proof.
  intros total timeOffset actions nextActions skipping tick. subst tick.
  unfold onTick. simpl.
  split; [reflexivity |]. split.
  - intros skipTime.
    destruct (interactionInBuffer _ _ _ _ _ _); discriminate.
  - rewrite <- interactionInBuffer_spec.
    destruct (interactionInBuffer _ _ _ _ _ _);
      split; (reflexivity || discriminate).
Qed.

(** X25.  In the normal state [onTick] decides by the first user
    interaction among the actions: it does nothing when that interaction is
    less than the threshold away, and else it skips up to the end buffer
    before it; with no user interaction ahead it skips to the end of the
    session, or at the default speed when the length of the session is not
    known. *)
Theorem skip_starts_toward_the_first_interaction :
  forall (totalSessionLength : option number) (timeOffset : number)
    (actions nextActions pre post : list (actionWithDelay number))
    (a : actionWithDelay number),
    let tick l1 l2 :=
      onTick number minus gt lt truthy_number SKIP_END_BUFFER
        SKIP_TIME_THRESHOLD true false totalSessionLength timeOffset l1 l2 in
    Forall (fun x => isUserInteraction x = false) pre ->
    isUserInteraction a = true ->
    actions ++ nextActions = pre ++ a :: post ->
    tick actions nextActions
    = (if lt (minus (delay a) timeOffset) SKIP_TIME_THRESHOLD then Stay
       else StartSkipping
              (Some (minus (minus (delay a) timeOffset) SKIP_END_BUFFER)))
    /\ tick pre []
       = StartSkipping
           (match totalSessionLength with
            | Some total =>
                if truthy_number total then Some (minus total timeOffset)
                else None
            | None => None
            end).
Proof.
  intros total timeOffset actions nextActions pre post a tick Hpre Ha Hall.
  subst tick. unfold onTick. simpl. rewrite Hall, app_nil_r.
  rewrite (nextUserInteraction_first timeOffset pre post a Hpre Ha).
  rewrite (nextUserInteraction_none timeOffset pre Hpre).
  split.
  - destruct (lt (minus (delay a) timeOffset) SKIP_TIME_THRESHOLD); reflexivity.
  - destruct total as [t |]; [destruct (truthy_number t) |]; reflexivity.
Qed.

End SkippingFacts.


(** *** Instances *)

Lemma batch_leaves_the_cursor_as_live_play_witness :
  let l := [mkMouseInteraction TouchStart 2 10 20;
            mkMouseInteraction Click 2 11 21;
            mkMouseInteraction TouchEnd 7 12 22] in
  let p := mkPointer Scenario.smallPage ["replayer-mouse"] None None [] in
  classList_contains "touch-active"
    (mouse_classList (applyTouchAndMouse (castInteractions true true l p)))
  = classList_contains "touch-active"
      (mouse_classList (castInteractions true false l p))
  /\ lastMove (pointerEffects
                 (applyTouchAndMouse (castInteractions true true l p)))
     = lastMove (pointerEffects (castInteractions true false l p))
  /\ mousePos (applyTouchAndMouse (castInteractions true true l p)) = None
  /\ touchActive (applyTouchAndMouse (castInteractions true true l p)) = None.
Proof.
  intros l p.
  apply (batch_leaves_the_cursor_as_live_play true l p); reflexivity.
Defined.

Lemma skip_starts_toward_the_first_interaction_witness :
  let tick :=
    onTick Z Z.sub Z.gtb Z.ltb (fun z => negb (Z.eqb z 0)) 1000 10000
      true false None 0 in
  tick [mkAction 500 false] [mkAction 20000 true]
  = StartSkipping (Some 19000)
  /\ tick [mkAction 500 false] [] = StartSkipping None.
Proof.
  intros tick.
  apply (skip_starts_toward_the_first_interaction Z Z.sub Z.gtb Z.ltb
           (fun z => negb (Z.eqb z 0)) 1000 10000 None 0
           [mkAction 500 false] [mkAction 20000 true]
           [mkAction 500 false] [] (mkAction 20000 true)).
  - repeat constructor.
  - reflexivity.
  - reflexivity.
Defined.

End PlayerFacts.
